(** * Verification of the table renderer: row splitting, theme search,
      document wrapping and batch drivers

    Shallow embedding of [html2img.py], [html2img_split.py] and the batch
    loop of [extract_table.py].  Python [str] values are sequences of Unicode
    code points.  The measurements are Python [float] values: the splitter is
    generic in their arithmetic and instantiated with binary64, the stability
    check is modelled on binary64, and the engine the renderers are run on
    measures in exact rationals.  The headless browser is an explicit page
    state threaded through the renderers, with the layout engine as a
    measurement function. *)

From Stdlib Require Import String Ascii.
From Stdlib Require DecimalString DecimalNat.
From Stdlib Require Import List Arith Lia Bool NArith QArith Lqa.
From Stdlib Require Floats.
Import ListNotations.

Set Implicit Arguments.
Close Scope Q_scope.
Open Scope nat_scope.

(* ===================================================================== *)
(** * 0. Python floats: the order and the addition of binary64 *)
(* ===================================================================== *)

(** Python's [float] is binary64, here Rocq's primitive [float], whose
    operations are specified by [SpecFloat]: a finite float is a sign, a
    mantissa and an exponent, canonical when the mantissa has 53 digits or
    the exponent is the least one, and a sum is the exact sum of the
    mantissas, brought to the lower exponent, rounded to nearest-even.  What
    is proved here: the sum of two floats that are not negative is not below
    either of them, the addition of a float that is not negative is monotone,
    the comparisons are transitive, and a finite float that is not zero
    divided by itself is [1.0]. *)
Module Binary64.

Import Floats.
Local Open Scope Z_scope.

(** *** Digits and shifts *)

Lemma digits2_bounds p :
  2 ^ (Zpos (digits2_pos p) - 1) <= Zpos p < 2 ^ Zpos (digits2_pos p).
Proof.
  induction p as [p IH | p IH |]; cbn [digits2_pos].
  - rewrite Pos2Z.inj_succ, Z.pow_succ_r by lia.
    replace (Z.succ (Zpos (digits2_pos p)) - 1) with (Z.succ (Zpos (digits2_pos p) - 1)) by lia.
    rewrite Z.pow_succ_r by lia. lia.
  - rewrite Pos2Z.inj_succ, Z.pow_succ_r by lia.
    replace (Z.succ (Zpos (digits2_pos p)) - 1) with (Z.succ (Zpos (digits2_pos p) - 1)) by lia.
    rewrite Z.pow_succ_r by lia. lia.
  - simpl. lia.
Qed.

(** The digits of a number that is at least [m * 2 ^ k]. *)
Lemma digits2_shifted m k M :
  0 <= k -> Zpos m * 2 ^ k <= Zpos M ->
  Zpos (digits2_pos m) + k <= Zpos (digits2_pos M).
Proof.
  intros Hk Hle.
  pose proof (digits2_bounds m) as [Hm _]. pose proof (digits2_bounds M) as [_ HM].
  assert (Hpow : 2 ^ (Zpos (digits2_pos m) - 1 + k) < 2 ^ Zpos (digits2_pos M)).
  { rewrite Z.pow_add_r by lia.
    assert (0 < 2 ^ k) by (apply Z.pow_pos_nonneg; lia). nia. }
  apply Z.pow_lt_mono_r_iff in Hpow; lia.
Qed.

Lemma shr_1_m mrs : 0 <= shr_m mrs -> shr_m (shr_1 mrs) = shr_m mrs / 2.
Proof.
  destruct mrs as [m r s]. cbn [shr_m]. intros Hm.
  rewrite <- Z.div2_div.
  destruct m as [|p|p]; [reflexivity | destruct p; reflexivity | lia].
Qed.

Lemma pow2_xO p : 2 ^ Zpos p~0 = 2 ^ Zpos p * 2 ^ Zpos p.
Proof.
  replace (Zpos p~0) with (Zpos p + Zpos p) by lia. apply Z.pow_add_r; lia.
Qed.

Lemma pow2_xI p : 2 ^ Zpos p~1 = 2 * (2 ^ Zpos p * 2 ^ Zpos p).
Proof.
  replace (Zpos p~1) with (Z.succ (Zpos p + Zpos p)) by lia.
  rewrite Z.pow_succ_r, Z.pow_add_r by lia. reflexivity.
Qed.

Lemma iter_pos_shr_m p : forall mrs,
  0 <= shr_m mrs ->
  0 <= shr_m (iter_pos shr_1 p mrs) /\
  shr_m (iter_pos shr_1 p mrs) = shr_m mrs / 2 ^ Zpos p.
Proof.
  induction p as [p IH | p IH |]; intros mrs Hm; cbn [iter_pos].
  - assert (H1 : 0 <= shr_m (shr_1 mrs)).
    { rewrite shr_1_m by exact Hm. apply Z.div_pos; lia. }
    destruct (IH _ H1) as [H2 E2]. destruct (IH _ H2) as [H3 E3].
    split; [exact H3|]. rewrite E3, E2, shr_1_m by exact Hm.
    assert (0 < 2 ^ Zpos p) by (apply Z.pow_pos_nonneg; lia).
    rewrite !Z.div_div by lia. f_equal. rewrite pow2_xI. lia.
  - destruct (IH _ Hm) as [H2 E2]. destruct (IH _ H2) as [H3 E3].
    split; [exact H3|]. rewrite E3, E2.
    assert (0 < 2 ^ Zpos p) by (apply Z.pow_pos_nonneg; lia).
    rewrite !Z.div_div by lia. f_equal. rewrite pow2_xO. reflexivity.
  - rewrite shr_1_m by exact Hm. split; [apply Z.div_pos; lia | reflexivity].
Qed.

(** A shift to the right by [n] binary places divides the mantissa. *)
Lemma shr_nonneg mrs e n :
  0 <= shr_m mrs -> 0 <= n ->
  shr_m (fst (shr mrs e n)) = shr_m mrs / 2 ^ n /\ snd (shr mrs e n) = e + n.
Proof.
  intros Hm Hn. unfold shr. destruct n as [|p|p]; cbn [fst snd]; [| |lia].
  - rewrite Z.div_1_r. lia.
  - split; [apply (iter_pos_shr_m p _ Hm) | reflexivity].
Qed.

Lemma round_nearest_even_bounds m l :
  m <= round_nearest_even m l <= m + 1.
Proof.
  unfold round_nearest_even. destruct l as [|[]]; try destruct (Z.even m); lia.
Qed.

Lemma fexp_eq e : fexp prec emax e = Z.max (e - 53) (-1074).
Proof. reflexivity. Qed.

(** The last step of a rounding: a mantissa that is positive is kept, or
    halved when it has one digit too many; it stays positive. *)
Lemma shr_fexp_exact m e :
  -1074 <= e ->
  exists mrs mr er,
    shr_fexp prec emax (Zpos m) e loc_Exact = (mrs, er) /\
    shr_m mrs = Zpos mr /\
    (e < er \/ (er = e /\ mr = m)).
Proof.
  intros He. unfold shr_fexp. cbn [Zdigits2 shr_record_of_loc].
  rewrite fexp_eq.
  set (d := Zpos (digits2_pos m)).
  set (mrs0 := {| shr_m := Zpos m; shr_r := false; shr_s := false |}).
  destruct (Z.le_gt_cases (Z.max (d + e - 53) (-1074) - e) 0) as [Hn | Hn].
  - exists mrs0, m, e. split; [|split; [reflexivity | right; auto]].
    unfold shr. destruct (Z.max (d + e - 53) (-1074) - e); try reflexivity. lia.
  - assert (Hmax : Z.max (d + e - 53) (-1074) = d + e - 53) by lia.
    rewrite Hmax in *.
    replace (d + e - 53 - e) with (d - 53) in * by lia.
    destruct (@shr_nonneg mrs0 e (d - 53)) as [Hm Hs]; [simpl; lia | lia |].
    destruct (shr mrs0 e (d - 53)) as [mrs er]. cbn [fst snd] in Hm, Hs.
    cbn [shr_m mrs0] in Hm.
    assert (Hpos : 0 < Zpos m / 2 ^ (d - 53)).
    { apply Z.div_str_pos. split; [apply Z.pow_pos_nonneg; lia|].
      pose proof (digits2_bounds m) as [Hlo _]. fold d in Hlo.
      apply Z.le_trans with (2 ^ (d - 1)); [|exact Hlo].
      apply Z.pow_le_mono_r; lia. }
    destruct (shr_m mrs) as [|mr|mr] eqn:Emr; try lia.
    exists mrs, mr, er. split; [reflexivity|]. split; [exact Emr|]. left. lia.
Qed.

Definition canonical (m : positive) (e : Z) : Prop :=
  fexp prec emax (Zpos (digits2_pos m) + e) = e.

Lemma valid_canonical s m e :
  valid_binary (S754_finite s m e) = true -> canonical m e.
Proof.
  unfold SpecFloat.valid_binary, bounded, canonical_mantissa, canonical.
  intros H. apply andb_prop in H. destruct H as [H _]. now apply Z.eqb_eq in H.
Qed.

Lemma canonical_emin m e : canonical m e -> -1074 <= e.
Proof. unfold canonical. rewrite fexp_eq. lia. Qed.

Lemma SFleb_finite ma ea mr er :
  ea < er \/ (ea = er /\ (ma <= mr)%positive) ->
  SFleb (S754_finite false ma ea) (S754_finite false mr er) = true.
Proof.
  intros H. unfold SFleb, SFcompare.
  destruct (Z.compare_spec ea er) as [Heq | Hlt | Hgt]; try reflexivity; try lia.
  rewrite Pos.compare_cont_spec. cbn [Pos.switch_Eq].
  destruct H as [H | [_ H]]; [lia|].
  destruct (Pos.compare_spec ma mr); try reflexivity. lia.
Qed.

(** Rounding a sum that is not below [ma * 2 ^ ea] gives a float that is
    not below it. *)
Lemma binary_round_aux_ge ma ea M ez :
  canonical ma ea -> -1074 <= ez -> ez <= ea ->
  Zpos ma * 2 ^ (ea - ez) <= Zpos M ->
  SFleb (S754_finite false ma ea)
        (binary_round_aux prec emax false (Zpos M) ez loc_Exact) = true.
Proof.
  intros Hcan Hez Hea HM.
  pose proof (@digits2_shifted ma (ea - ez) M ltac:(lia) HM) as Hdig.
  unfold canonical in Hcan. rewrite fexp_eq in Hcan.
  unfold binary_round_aux.
  unfold shr_fexp at 1. cbn [Zdigits2 shr_record_of_loc]. rewrite fexp_eq.
  set (d := Zpos (digits2_pos M)) in *.
  set (e1 := Z.max (d + ez - 53) (-1074)).
  assert (He1 : ea <= e1) by (unfold e1; lia).
  set (mrs0 := {| shr_m := Zpos M; shr_r := false; shr_s := false |}).
  destruct (@shr_nonneg mrs0 ez (e1 - ez)) as [Hm Hs]; [simpl; lia | lia |].
  destruct (shr mrs0 ez (e1 - ez)) as [mrs' e'] eqn:Eshr.
  cbn [fst snd] in Hm, Hs. cbn [shr_m mrs0] in Hm.
  assert (He' : e' = e1) by lia. clear Hs. subst e'.
  pose proof (round_nearest_even_bounds (shr_m mrs') (loc_of_shr_record mrs')) as Hrnd.
  set (m2 := round_nearest_even (shr_m mrs') (loc_of_shr_record mrs')) in *.
  assert (Hpow : 0 < 2 ^ (e1 - ez)) by (apply Z.pow_pos_nonneg; lia).
  assert (Hm1 : Zpos ma <= shr_m mrs' \/ ea < e1).
  { destruct (Z.eq_dec ea e1) as [Heq | Hne]; [left | right; lia].
    rewrite Hm, <- Heq. apply Z.div_le_lower_bound; lia. }
  assert (Hm1pos : 0 < shr_m mrs').
  { rewrite Hm. apply Z.div_str_pos. split; [exact Hpow|].
    destruct (Z.le_gt_cases (d + ez - 53) (-1074)) as [Hsub | Hnorm].
    - assert (e1 = -1074) by (unfold e1; lia).
      assert (ea = -1074) by lia. assert (ez = -1074) by lia.
      replace (e1 - ez) with 0 by lia. simpl. lia.
    - assert (e1 = d + ez - 53) by (unfold e1; lia).
      replace (e1 - ez) with (d - 53) by lia.
      pose proof (digits2_bounds M) as [Hlo _]. fold d in Hlo.
      apply Z.le_trans with (2 ^ (d - 1)); [|exact Hlo].
      apply Z.pow_le_mono_r; lia. }
  destruct m2 as [|q2|q2] eqn:Em2; try lia.
  destruct (@shr_fexp_exact q2 e1 ltac:(unfold e1; lia))
    as (mrs2 & mr & er & Hrun & Hmr & Her).
  rewrite Hrun, Hmr.
  destruct (er <=? emax - prec); [|reflexivity].
  apply SFleb_finite.
  destruct Her as [Hlt | [-> ->]]; [left; lia|].
  destruct Hm1 as [Hge | Hlt]; [|left; lia].
  destruct (Z.eq_dec ea e1) as [Heq | Hne]; [right | left; lia].
  split; [exact Heq|]. lia.
Qed.


Lemma iter_xO_value m d : Zpos (Pos.iter xO m d) = Zpos m * 2 ^ Zpos d.
Proof.
  induction d as [|d IH] using Pos.peano_ind.
  - simpl. lia.
  - rewrite Pos.iter_succ, Pos2Z.inj_succ, Z.pow_succ_r by lia.
    rewrite Pos2Z.inj_xO, IH. lia.
Qed.

Lemma shl_align_value m e ez :
  ez <= e -> Zpos (fst (shl_align m e ez)) = Zpos m * 2 ^ (e - ez).
Proof.
  intros Hle. unfold shl_align.
  destruct (ez - e) as [|d|d] eqn:Ed; cbn [fst]; try lia.
  - replace (e - ez) with 0 by lia. simpl. lia.
  - rewrite iter_xO_value. f_equal. f_equal. lia.
Qed.

(** The sum of two positive floats: the rounding of the sum of their
    mantissas, brought to the lower exponent. *)
Lemma SFadd_finite ma ea mb eb :
  canonical ma ea -> canonical mb eb ->
  exists M,
    Zpos M = Zpos ma * 2 ^ (ea - Z.min ea eb) + Zpos mb * 2 ^ (eb - Z.min ea eb) /\
    Z.min ea eb <= Z.max (Zpos (digits2_pos M) + Z.min ea eb - 53) (-1074) /\
    SFadd prec emax (S754_finite false ma ea) (S754_finite false mb eb)
    = binary_round_aux prec emax false (Zpos M) (Z.min ea eb) loc_Exact.
Proof.
  intros Ha Hb. unfold SFadd. cbn [cond_Zopp].
  set (ez := Z.min ea eb).
  pose proof (@shl_align_value ma ea ez ltac:(unfold ez; lia)) as HA.
  pose proof (@shl_align_value mb eb ez ltac:(unfold ez; lia)) as HB.
  set (A := fst (shl_align ma ea ez)) in *.
  set (B := fst (shl_align mb eb ez)) in *.
  exists (A + B)%positive. split; [rewrite Pos2Z.inj_add; lia|].
  assert (Hge : ez <= fexp prec emax (Zpos (digits2_pos (A + B)) + ez)).
  { rewrite fexp_eq.
    assert (0 < 2 ^ (eb - ez)) by (apply Z.pow_pos_nonneg; unfold ez; lia).
    pose proof (@digits2_shifted ma (ea - ez) (A + B) ltac:(unfold ez; lia)
                  ltac:(rewrite Pos2Z.inj_add; nia)) as Hdig.
    unfold canonical in Ha. rewrite fexp_eq in Ha. lia. }
  split; [rewrite <- fexp_eq; exact Hge|].
  change (Zpos A + Zpos B) with (Zpos (A + B)).
  unfold binary_normalize, binary_round.
  assert (Hno : shl_align (A + B) ez
                  (fexp prec emax (Zpos (digits2_pos (A + B)) + ez))
                = ((A + B)%positive, ez)).
  { unfold shl_align.
    destruct (fexp prec emax (Zpos (digits2_pos (A + B)) + ez) - ez) eqn:E;
      try reflexivity. lia. }
  rewrite Hno. reflexivity.
Qed.

Lemma SFadd_finite_ge ma ea mb eb :
  canonical ma ea -> canonical mb eb ->
  SFleb (S754_finite false ma ea)
        (SFadd prec emax (S754_finite false ma ea) (S754_finite false mb eb)) = true /\
  SFleb (S754_finite false mb eb)
        (SFadd prec emax (S754_finite false ma ea) (S754_finite false mb eb)) = true.
Proof.
  intros Ha Hb. destruct (SFadd_finite Ha Hb) as (M & HM & _ & ->).
  pose proof (canonical_emin Ha). pose proof (canonical_emin Hb).
  assert (0 < 2 ^ (ea - Z.min ea eb)) by (apply Z.pow_pos_nonneg; lia).
  assert (0 < 2 ^ (eb - Z.min ea eb)) by (apply Z.pow_pos_nonneg; lia).
  split; apply binary_round_aux_ge; auto; try lia; nia.
Qed.

Lemma SFleb_refl_finite m e : SFleb (S754_finite false m e) (S754_finite false m e) = true.
Proof. apply SFleb_finite. right. split; [reflexivity | lia]. Qed.

Ltac compare_cases :=
  rewrite ?Pos.compare_cont_spec in *; cbn [Pos.switch_Eq CompOpp] in *;
  repeat match goal with
         | H : context [(?a ?= ?b)%Z] |- _ => destruct (Z.compare_spec a b)
         | |- context [(?a ?= ?b)%Z] => destruct (Z.compare_spec a b)
         | H : context [(?a ?= ?b)%positive] |- _ => destruct (Pos.compare_spec a b)
         | |- context [(?a ?= ?b)%positive] => destruct (Pos.compare_spec a b)
         end;
  cbn [CompOpp] in *; try discriminate; try reflexivity; try lia.

Lemma SFltb_leb_trans x y z :
  SFltb x y = true -> SFleb y z = true -> SFltb x z = true.
Proof.
  unfold SFltb, SFleb, SFcompare.
  destruct x as [sx|sx| |sx mx ex], y as [sy|sy| |sy my ey],
           z as [sz|sz| |sz mz ez];
    try destruct sx; try destruct sy; try destruct sz;
    try discriminate; try reflexivity; intros H1 H2; compare_cases.
Qed.

Lemma SFleb_trans x y z :
  SFleb x y = true -> SFleb y z = true -> SFleb x z = true.
Proof.
  unfold SFleb, SFcompare.
  destruct x as [sx|sx| |sx mx ex], y as [sy|sy| |sy my ey],
           z as [sz|sz| |sz mz ez];
    try destruct sx; try destruct sy; try destruct sz;
    try discriminate; try reflexivity; intros H1 H2; compare_cases.
Qed.

(** *** Rounding to nearest-even, by quotient and remainder *)

(** What [shr_1] has shifted out after [k] steps: the record holds the
    quotient of [M] by [2 ^ k], the last bit shifted out and whether a bit
    before it was set, read off [2 * M]. *)
Definition shifted (M k : Z) (mrs : shr_record) : Prop :=
  0 <= k /\
  shr_m mrs = M / 2 ^ k /\
  shr_r mrs = Z.testbit (2 * M) k /\
  shr_s mrs = negb ((2 * M) mod 2 ^ k =? 0).

Lemma shr_1_r mrs : 0 <= shr_m mrs -> shr_r (shr_1 mrs) = Z.odd (shr_m mrs).
Proof.
  destruct mrs as [m r s]. cbn [shr_m]. intros Hm.
  destruct m as [|p|p]; [reflexivity | destruct p; reflexivity | lia].
Qed.

Lemma shr_1_s mrs : shr_s (shr_1 mrs) = shr_r mrs || shr_s mrs.
Proof.
  destruct mrs as [m r s]. cbn [shr_r shr_s].
  destruct m as [|p|p]; try destruct p; reflexivity.
Qed.

Lemma mod_pow2_succ X k :
  0 <= k ->
  X mod 2 ^ (k + 1) = X mod 2 ^ k + (if Z.testbit X k then 2 ^ k else 0).
Proof.
  intros Hk.
  assert (Hp : 0 < 2 ^ k) by (apply Z.pow_pos_nonneg; lia).
  rewrite Z.pow_add_r by lia. change (2 ^ 1) with 2.
  rewrite Z.testbit_odd, Z.shiftr_div_pow2 by lia.
  rewrite Z.rem_mul_r by lia.
  rewrite <- Z.bit0_mod, Z.bit0_odd.
  destruct (Z.odd (X / 2 ^ k)); simpl; lia.
Qed.

Lemma shr_1_shifted M k mrs :
  0 <= M -> shifted M k mrs -> shifted M (k + 1) (shr_1 mrs).
Proof.
  intros HM (Hk & Hm & Hr & Hs).
  assert (Hp : 0 < 2 ^ k) by (apply Z.pow_pos_nonneg; lia).
  assert (Hm0 : 0 <= shr_m mrs) by (rewrite Hm; apply Z.div_pos; lia).
  split; [lia|]. split; [|split].
  - rewrite shr_1_m by exact Hm0. rewrite Hm, Z.div_div by lia.
    f_equal. rewrite Z.pow_add_r by lia. reflexivity.
  - rewrite shr_1_r by exact Hm0. rewrite Hm.
    rewrite <- Z.shiftr_div_pow2, <- Z.testbit_odd by lia.
    replace (k + 1) with (Z.succ k) by lia.
    now rewrite Z.double_bits_succ.
  - rewrite shr_1_s, Hr, Hs, mod_pow2_succ by lia.
    pose proof (Z.mod_pos_bound (2 * M) (2 ^ k) Hp).
    destruct (Z.testbit (2 * M) k); cbn [orb].
    + symmetry. apply negb_true_iff. apply Z.eqb_neq. lia.
    + now rewrite Z.add_0_r.
Qed.

Lemma iter_pos_shifted M p : forall k mrs,
  0 <= M -> shifted M k mrs -> shifted M (k + Zpos p) (iter_pos shr_1 p mrs).
Proof.
  induction p as [p IH | p IH |]; intros k mrs HM Hst; cbn [iter_pos].
  - replace (k + Zpos p~1) with (k + 1 + Zpos p + Zpos p) by lia.
    apply IH; [exact HM|]. apply IH; [exact HM|]. now apply shr_1_shifted.
  - replace (k + Zpos p~0) with (k + Zpos p + Zpos p) by lia.
    apply IH; [exact HM|]. now apply IH.
  - now apply shr_1_shifted.
Qed.

Lemma shr_shifted M e n :
  0 <= M -> 0 <= n ->
  shifted M n (fst (shr {| shr_m := M; shr_r := false; shr_s := false |} e n)).
Proof.
  intros HM Hn.
  assert (H0 : shifted M 0 {| shr_m := M; shr_r := false; shr_s := false |}).
  { split; [lia|]. cbn [shr_m shr_r shr_s]. split; [now rewrite Z.div_1_r|].
    split; [now rewrite Z.testbit_even_0 | now rewrite Z.mod_1_r]. }
  unfold shr. destruct n as [|p|p]; cbn [fst]; [exact H0| |lia].
  apply (@iter_pos_shifted M p 0 _ HM H0).
Qed.

(** Rounding [M / 2 ^ n] to the nearest integer, to the even one in a tie. *)
Definition rne (M n : Z) : Z :=
  let q := M / 2 ^ n in
  let t := 2 * (M mod 2 ^ n) in
  if t <? 2 ^ n then q
  else if t =? 2 ^ n then (if Z.even q then q else q + 1)
  else q + 1.

Lemma round_shifted M n mrs :
  0 <= M -> shifted M n mrs ->
  round_nearest_even (shr_m mrs) (loc_of_shr_record mrs) = rne M n.
Proof.
  intros HM (Hn & Hm & Hr & Hs).
  assert (Hp : 0 < 2 ^ n) by (apply Z.pow_pos_nonneg; lia).
  pose proof (@mod_pow2_succ (2 * M) n Hn) as Hsucc.
  rewrite Z.pow_add_r in Hsucc by lia. change (2 ^ 1) with 2 in Hsucc.
  replace (2 ^ n * 2) with (2 * 2 ^ n) in Hsucc by lia.
  rewrite Z.mul_mod_distr_l in Hsucc by lia.
  pose proof (Z.mod_pos_bound (2 * M) (2 ^ n) Hp) as Hb.
  pose proof (Z.mod_pos_bound M (2 ^ n) Hp) as Hb'.
  unfold rne. cbv zeta. rewrite <- Hm.
  destruct mrs as [m r s]. cbn [shr_m shr_r shr_s loc_of_shr_record] in *.
  subst r s.
  destruct (Z.testbit (2 * M) n); destruct (Z.eqb_spec ((2 * M) mod 2 ^ n) 0);
    cbn [negb round_nearest_even].
  - destruct (Z.ltb_spec (2 * (M mod 2 ^ n)) (2 ^ n)); [lia|].
    destruct (Z.eqb_spec (2 * (M mod 2 ^ n)) (2 ^ n)); [reflexivity | lia].
  - destruct (Z.ltb_spec (2 * (M mod 2 ^ n)) (2 ^ n)); [lia|].
    destruct (Z.eqb_spec (2 * (M mod 2 ^ n)) (2 ^ n)); [lia | reflexivity].
  - destruct (Z.ltb_spec (2 * (M mod 2 ^ n)) (2 ^ n)); [reflexivity | lia].
  - destruct (Z.ltb_spec (2 * (M mod 2 ^ n)) (2 ^ n)); [reflexivity | lia].
Qed.

Lemma rne_bounds M n : M / 2 ^ n <= rne M n <= M / 2 ^ n + 1.
Proof.
  unfold rne. cbv zeta.
  destruct (_ <? _); [lia|]. destruct (_ =? _); [|lia].
  destruct (Z.even _); lia.
Qed.

Lemma rne_mono M1 M2 n : 0 <= n -> M1 <= M2 -> rne M1 n <= rne M2 n.
Proof.
  intros Hn Hle.
  assert (Hp : 0 < 2 ^ n) by (apply Z.pow_pos_nonneg; lia).
  pose proof (Z.div_le_mono M1 M2 (2 ^ n) Hp Hle) as Hq.
  destruct (Z.eq_dec (M1 / 2 ^ n) (M2 / 2 ^ n)) as [Heq | Hne].
  - assert (Hrem : M1 mod 2 ^ n <= M2 mod 2 ^ n).
    { rewrite !Z.mod_eq by lia. rewrite Heq. lia. }
    unfold rne. cbv zeta. rewrite Heq.
    destruct (Z.ltb_spec (2 * (M1 mod 2 ^ n)) (2 ^ n));
      destruct (Z.ltb_spec (2 * (M2 mod 2 ^ n)) (2 ^ n));
      destruct (Z.eqb_spec (2 * (M1 mod 2 ^ n)) (2 ^ n));
      destruct (Z.eqb_spec (2 * (M2 mod 2 ^ n)) (2 ^ n));
      destruct (Z.even (M2 / 2 ^ n)); lia.
  - pose proof (rne_bounds M1 n). pose proof (rne_bounds M2 n). lia.
Qed.

Lemma rne_scale M n k : 0 <= n -> 0 <= k -> rne (M * 2 ^ k) (n + k) = rne M n.
Proof.
  intros Hn Hk.
  assert (Hp : 0 < 2 ^ n) by (apply Z.pow_pos_nonneg; lia).
  assert (Hpk : 0 < 2 ^ k) by (apply Z.pow_pos_nonneg; lia).
  unfold rne. cbv zeta. rewrite Z.pow_add_r by lia.
  rewrite Z.div_mul_cancel_r by lia.
  rewrite Z.mul_mod_distr_r by lia.
  destruct (Z.ltb_spec (2 * (M mod 2 ^ n)) (2 ^ n));
    destruct (Z.ltb_spec (2 * (M mod 2 ^ n * 2 ^ k)) (2 ^ n * 2 ^ k)); try nia;
    try reflexivity.
  destruct (Z.eqb_spec (2 * (M mod 2 ^ n)) (2 ^ n));
    destruct (Z.eqb_spec (2 * (M mod 2 ^ n * 2 ^ k)) (2 ^ n * 2 ^ k)); try nia;
    reflexivity.
Qed.


(** *** The value of a rounding *)

(** The mantissa and the exponent that rounding [M * 2 ^ e] gives. *)
Definition rounded (M : positive) (e : Z) : Z * Z :=
  let c := Z.max (Zpos (digits2_pos M) + e - 53) (-1074) in
  let m2 := rne (Zpos M) (c - e) in
  if m2 <? 2 ^ 53 then (m2, c) else (m2 / 2, c + 1).

Lemma rne_range M e :
  -1074 <= e ->
  let c := Z.max (Zpos (digits2_pos M) + e - 53) (-1074) in
  e <= c ->
  0 < rne (Zpos M) (c - e) <= 2 ^ 53 /\
  (-1074 < c -> 2 ^ 52 <= rne (Zpos M) (c - e)).
Proof.
  intros He c Hc.
  pose proof (digits2_bounds M) as [Hlo Hhi].
  set (d := Zpos (digits2_pos M)) in *.
  pose proof (rne_bounds (Zpos M) (c - e)) as Hb.
  assert (Hp : 0 < 2 ^ (c - e)) by (apply Z.pow_pos_nonneg; lia).
  assert (Hq : Zpos M / 2 ^ (c - e) < 2 ^ 53).
  { apply Z.div_lt_upper_bound; [lia|]. rewrite <- Z.pow_add_r by lia.
    apply Z.lt_le_trans with (2 ^ d); [exact Hhi|].
    apply Z.pow_le_mono_r; lia. }
  destruct (Z.le_gt_cases (d + e - 53) (-1074)) as [Hsub | Hnorm].
  - assert (Hc0 : c - e = 0) by lia. rewrite Hc0 in *.
    change (2 ^ 0) with 1 in *. rewrite Z.div_1_r in *. lia.
  - assert (Hcn : c - e = d - 53) by lia. rewrite Hcn in *.
    assert (Hq2 : 2 ^ 52 <= Zpos M / 2 ^ (d - 53)).
    { apply Z.div_le_lower_bound; [lia|]. rewrite <- Z.pow_add_r by lia.
      replace (d - 53 + 52) with (d - 1) by lia. exact Hlo. }
    lia.
Qed.

Lemma binary_round_aux_value M e :
  -1074 <= e ->
  e <= Z.max (Zpos (digits2_pos M) + e - 53) (-1074) ->
  0 < fst (rounded M e) /\
  binary_round_aux prec emax false (Zpos M) e loc_Exact
  = if snd (rounded M e) <=? emax - prec
    then S754_finite false (Z.to_pos (fst (rounded M e))) (snd (rounded M e))
    else S754_infinity false.
Proof.
  intros He Hc.
  destruct (@rne_range M e He Hc) as [[Hpos Hle] _].
  unfold rounded. cbv zeta.
  unfold binary_round_aux.
  unfold shr_fexp at 1. cbn [Zdigits2 shr_record_of_loc]. rewrite fexp_eq.
  set (c := Z.max (Zpos (digits2_pos M) + e - 53) (-1074)) in *.
  set (mrs0 := {| shr_m := Zpos M; shr_r := false; shr_s := false |}).
  pose proof (@shr_shifted (Zpos M) e (c - e) ltac:(lia) ltac:(lia)) as Hst.
  destruct (@shr_nonneg mrs0 e (c - e)) as [_ Hs]; [simpl; lia | lia |].
  fold mrs0 in Hst.
  destruct (shr mrs0 e (c - e)) as [mrs' e'].
  cbn [fst snd] in Hst, Hs.
  assert (He' : e' = c) by lia. clear Hs. subst e'.
  rewrite (@round_shifted (Zpos M) (c - e) mrs' ltac:(lia) Hst).
  set (m2 := rne (Zpos M) (c - e)) in *.
  destruct m2 as [|q2|q2] eqn:Em2; try lia.
  unfold shr_fexp. cbn [Zdigits2 shr_record_of_loc]. rewrite fexp_eq.
  pose proof (digits2_bounds q2) as [Hlo Hhi].
  set (d2 := Zpos (digits2_pos q2)) in *.
  destruct (Z.ltb_spec (Zpos q2) (2 ^ 53)) as [Hlt | Hge]; cbn [fst snd].
  - split; [lia|].
    assert (Hd2 : d2 <= 53).
    { assert (Hpw : 2 ^ (d2 - 1) < 2 ^ 53) by lia.
      apply Z.pow_lt_mono_r_iff in Hpw; lia. }
    assert (Hn : Z.max (d2 + c - 53) (-1074) - c <= 0) by lia.
    unfold shr. destruct (Z.max (d2 + c - 53) (-1074) - c); try lia;
      cbn [shr_m]; rewrite Pos2Z.id; reflexivity.
  - assert (Hq : Zpos q2 = 2 ^ 53) by lia.
    injection Hq as ->.
    split; [reflexivity|].
    replace (Z.max (d2 + c - 53) (-1074) - c) with 1
      by (unfold d2; change (Zpos (digits2_pos 9007199254740992)) with 54; lia).
    reflexivity.
Qed.

(** The order of two roundings, from their mantissas and exponents. *)
Definition pair_le (x y : Z * Z) : Prop :=
  snd x < snd y \/ (snd x = snd y /\ fst x <= fst y).

Lemma rounded_mono M e M' e' :
  -1074 <= e -> e <= e' ->
  e <= Z.max (Zpos (digits2_pos M) + e - 53) (-1074) ->
  e' <= Z.max (Zpos (digits2_pos M') + e' - 53) (-1074) ->
  Zpos M <= Zpos M' * 2 ^ (e' - e) ->
  pair_le (rounded M e) (rounded M' e').
Proof.
  intros He Hee Hc Hc' Hle.
  destruct (@rne_range M e He Hc) as [[Hpos Hhi] Hnorm].
  destruct (@rne_range M' e' ltac:(lia) Hc') as [[Hpos' Hhi'] Hnorm'].
  unfold rounded, pair_le. cbv zeta.
  pose proof (digits2_bounds M) as [Hlo _].
  pose proof (digits2_bounds M') as [_ Hup'].
  set (d := Zpos (digits2_pos M)) in *.
  set (d' := Zpos (digits2_pos M')) in *.
  set (c := Z.max (d + e - 53) (-1074)) in *.
  set (c' := Z.max (d' + e' - 53) (-1074)) in *.
  assert (Hd : d + e <= d' + e').
  { assert (Hk : 0 < 2 ^ (e' - e)) by (apply Z.pow_pos_nonneg; lia).
    assert (Hpw : 2 ^ (d - 1) < 2 ^ (d' + (e' - e))).
    { rewrite Z.pow_add_r by lia. nia. }
    apply Z.pow_lt_mono_r_iff in Hpw; lia. }
  assert (Hcc : c <= c') by lia.
  set (m2 := rne (Zpos M) (c - e)) in *.
  set (m2' := rne (Zpos M') (c' - e')) in *.
  destruct (Z.eq_dec c c') as [Heq | Hne].
  - assert (Hm : m2 <= m2').
    { unfold m2, m2'. rewrite <- Heq.
      rewrite <- (@rne_scale (Zpos M') (c - e') (e' - e)) by lia.
      replace (c - e' + (e' - e)) with (c - e) by lia.
      apply rne_mono; lia. }
    destruct (Z.ltb_spec m2 (2 ^ 53)), (Z.ltb_spec m2' (2 ^ 53));
      cbn [fst snd]; try lia.
    right. split; [lia|]. apply Z.div_le_mono; lia.
  - assert (Hn' : 2 ^ 52 <= m2') by (apply Hnorm'; lia).
    destruct (Z.ltb_spec m2 (2 ^ 53)), (Z.ltb_spec m2' (2 ^ 53));
      cbn [fst snd]; try lia.
    destruct (Z.eq_dec (c + 1) c') as [Hs | Hs]; [right | left; lia].
    split; [exact Hs|].
    assert (Hm2 : m2 = 2 ^ 53) by lia. rewrite Hm2.
    change (2 ^ 53 / 2) with (2 ^ 52). exact Hn'.
Qed.

Lemma binary_round_aux_mono M e M' e' :
  -1074 <= e -> e <= e' ->
  e <= Z.max (Zpos (digits2_pos M) + e - 53) (-1074) ->
  e' <= Z.max (Zpos (digits2_pos M') + e' - 53) (-1074) ->
  Zpos M <= Zpos M' * 2 ^ (e' - e) ->
  SFleb (binary_round_aux prec emax false (Zpos M) e loc_Exact)
        (binary_round_aux prec emax false (Zpos M') e' loc_Exact) = true.
Proof.
  intros He Hee Hc Hc' Hle.
  destruct (@binary_round_aux_value M e He Hc) as [Hp ->].
  destruct (@binary_round_aux_value M' e' ltac:(lia) Hc') as [Hp' ->].
  pose proof (@rounded_mono M e M' e' He Hee Hc Hc' Hle) as Hord.
  unfold pair_le in Hord.
  destruct (rounded M e) as [m er], (rounded M' e') as [m' er'].
  cbn [fst snd] in *.
  destruct (Z.leb_spec er (emax - prec)), (Z.leb_spec er' (emax - prec));
    try reflexivity; try lia.
  apply SFleb_finite. destruct Hord as [Hlt | [Heq Hm]]; [left; exact Hlt | right].
  split; [exact Heq|].
  destruct m as [|m|m], m' as [|m'|m']; cbn [Z.to_pos]; lia.
Qed.


(** *** The addition is monotone *)

Lemma canonical_digits m e : canonical m e -> Zpos m < 2 ^ 53.
Proof.
  unfold canonical. rewrite fexp_eq. intros Hc.
  pose proof (digits2_bounds m) as [_ Hhi].
  apply Z.lt_le_trans with (2 ^ Zpos (digits2_pos m)); [exact Hhi|].
  apply Z.pow_le_mono_r; lia.
Qed.

Lemma canonical_normal m e : canonical m e -> -1074 < e -> 2 ^ 52 <= Zpos m.
Proof.
  unfold canonical. rewrite fexp_eq. intros Hc He.
  pose proof (digits2_bounds m) as [Hlo _].
  replace (Zpos (digits2_pos m)) with 53 in Hlo by lia. exact Hlo.
Qed.

(** The order of two positive floats is the order of their values. *)
Lemma canonical_value_le ma ea ma' ea' ez :
  canonical ma ea -> canonical ma' ea' ->
  ea < ea' \/ (ea = ea' /\ (ma <= ma')%positive) ->
  ez <= ea ->
  Zpos ma * 2 ^ (ea - ez) <= Zpos ma' * 2 ^ (ea' - ez).
Proof.
  intros Hc Hc' Hord Hez.
  destruct Hord as [Hlt | [<- Hm]].
  - pose proof (canonical_digits Hc) as Hhi.
    pose proof (canonical_emin Hc) as Hmin.
    pose proof (@canonical_normal ma' ea' Hc' ltac:(lia)) as Hlo.
    assert (Hp : 0 < 2 ^ (ea - ez)) by (apply Z.pow_pos_nonneg; lia).
    assert (Hq : 2 * 2 ^ (ea - ez) <= 2 ^ (ea' - ez)).
    { rewrite <- Z.pow_succ_r by lia. apply Z.pow_le_mono_r; lia. }
    change (2 ^ 53) with (2 * 2 ^ 52) in Hhi. nia.
  - assert (Hp : 0 < 2 ^ (ea - ez)) by (apply Z.pow_pos_nonneg; lia). nia.
Qed.

Lemma SFleb_finite_inv ma ea mr er :
  SFleb (S754_finite false ma ea) (S754_finite false mr er) = true ->
  ea < er \/ (ea = er /\ (ma <= mr)%positive).
Proof.
  unfold SFleb, SFcompare.
  destruct (Z.compare_spec ea er) as [Heq | Hlt | Hgt]; try discriminate.
  - rewrite Pos.compare_cont_spec. cbn [Pos.switch_Eq].
    destruct (Pos.compare_spec ma mr); try discriminate; intros _; right; lia.
  - intros _. left. exact Hlt.
Qed.

Lemma SFadd_finite_mono ma ea ma' ea' mh eh :
  canonical ma ea -> canonical ma' ea' -> canonical mh eh ->
  SFleb (S754_finite false ma ea) (S754_finite false ma' ea') = true ->
  SFleb (SFadd prec emax (S754_finite false ma ea) (S754_finite false mh eh))
        (SFadd prec emax (S754_finite false ma' ea') (S754_finite false mh eh)) = true.
Proof.
  intros Ha Ha' Hh Hle. apply SFleb_finite_inv in Hle.
  destruct (SFadd_finite Ha Hh) as (M & HM & Hal & ->).
  destruct (SFadd_finite Ha' Hh) as (M' & HM' & Hal' & ->).
  pose proof (canonical_emin Ha). pose proof (canonical_emin Ha').
  pose proof (canonical_emin Hh).
  set (ez := Z.min ea eh) in *. set (ez' := Z.min ea' eh) in *.
  assert (Hee : ez <= ez') by (unfold ez, ez'; lia).
  apply binary_round_aux_mono; try assumption; [unfold ez; lia|].
  rewrite HM, HM'. rewrite Z.mul_add_distr_r, <- !Z.mul_assoc.
  rewrite <- !Z.pow_add_r by (unfold ez, ez' in *; lia).
  replace (ea' - ez' + (ez' - ez)) with (ea' - ez) by lia.
  replace (eh - ez' + (ez' - ez)) with (eh - ez) by lia.
  apply Z.add_le_mono_r.
  apply canonical_value_le; try assumption. unfold ez; lia.
Qed.

Lemma SFleb_infinity x : SFleb x x = true -> SFleb x (S754_infinity false) = true.
Proof. destruct x as [s|s| |s m e]; try destruct s; try discriminate; reflexivity. Qed.

(** *** A float divided by itself *)

Lemma SFdiv_self s m e :
  SFdiv prec emax (S754_finite s m e) (S754_finite s m e)
  = S754_finite false 4503599627370496 (-52).
Proof.
  unfold SFdiv, SFdiv_core_binary. cbv zeta.
  replace (Zdigits2 (Zpos m) + e - (Zdigits2 (Zpos m) + e)) with 0 by lia.
  replace (e - e) with 0 by lia.
  change (Z.min (fexp prec emax 0) 0) with (-53).
  change (0 - -53) with 53.
  rewrite Z.shiftl_mul_pow2 by lia.
  assert (Hq : Zpos m * 2 ^ 53 / Zpos m = 2 ^ 53).
  { rewrite Z.mul_comm. apply Z.div_mul. lia. }
  assert (Hr : (Zpos m * 2 ^ 53) mod Zpos m = 0).
  { rewrite Z.mul_comm. apply Z.mod_mul. lia. }
  unfold Z.div in Hq. unfold Z.modulo in Hr.
  destruct (Z.div_eucl (Zpos m * 2 ^ 53) (Zpos m)) as [q r].
  cbn [fst snd] in Hq, Hr. subst q r.
  replace (new_location (Zpos m) 0) with loc_Exact
    by (unfold new_location, new_location_even, new_location_odd;
        destruct (Z.even (Zpos m)); reflexivity).
  destruct s; vm_compute; reflexivity.
Qed.

Local Open Scope float_scope.

(** Adding two floats that are not negative gives a float that is not
    below either. *)
Lemma add_ge (a b : float) :
  (0 <=? a) = true -> (0 <=? b) = true ->
  (a <=? a + b) = true /\ (b <=? a + b) = true.
Proof.
  rewrite !leb_spec, add_spec.
  pose proof (Prim2SF_valid a) as Va. pose proof (Prim2SF_valid b) as Vb.
  change (Prim2SF 0) with (S754_zero false).
  destruct (Prim2SF a) as [sa|sa| |sa ma ea], (Prim2SF b) as [sb|sb| |sb mb eb];
    try destruct sa; try destruct sb; try discriminate;
    intros _ _; unfold SF64add; cbn [SFadd];
    try (split; reflexivity);
    try (split; [reflexivity | apply SFleb_refl_finite]);
    try (split; [apply SFleb_refl_finite | reflexivity]).
  apply SFadd_finite_ge; eapply valid_canonical; eassumption.
Qed.


Lemma ltb_leb_trans (m a c : float) :
  (m <? a) = true -> (a <=? c) = true -> (m <? c) = true.
Proof. rewrite !ltb_spec, leb_spec. apply SFltb_leb_trans. Qed.

Lemma leb_trans (a b c : float) :
  (a <=? b) = true -> (b <=? c) = true -> (a <=? c) = true.
Proof. rewrite !leb_spec. apply SFleb_trans. Qed.

Lemma leb_refl (a : float) : (0 <=? a) = true -> (a <=? a) = true.
Proof.
  rewrite !leb_spec. change (Prim2SF 0) with (S754_zero false).
  destruct (Prim2SF a) as [sa|sa| |sa ma ea]; try destruct sa; try discriminate;
    intros _; try reflexivity.
  apply SFleb_refl_finite.
Qed.

(** Adding the same float that is not negative to two floats that are not
    negative keeps their order: the rounding of the sums is monotone. *)
Lemma add_mono (a a' h : float) :
  (0 <=? a) = true -> (0 <=? a') = true -> (0 <=? h) = true ->
  (a <=? a') = true -> (a + h <=? a' + h) = true.
Proof.
  intros Ha Ha' Hh Hle.
  destruct (add_ge Ha' Hh) as [_ Hge'].
  destruct (add_ge Ha Hh) as [Hge _].
  assert (Hsum : (0 <=? a + h) = true) by exact (@leb_trans 0 a (a + h) Ha Hge).
  pose proof (leb_refl Hsum) as Hrefl.
  revert Ha Ha' Hh Hle Hge' Hrefl. clear Hge Hsum.
  rewrite !leb_spec, !add_spec.
  pose proof (Prim2SF_valid a) as Va. pose proof (Prim2SF_valid a') as Va'.
  pose proof (Prim2SF_valid h) as Vh.
  change (Prim2SF 0) with (S754_zero false).
  unfold SF64add.
  destruct (Prim2SF a) as [sa|sa| |sa ma ea], (Prim2SF a') as [sa'|sa'| |sa' ma' ea'],
           (Prim2SF h) as [sh|sh| |sh mh eh];
    try destruct sa; try destruct sa'; try destruct sh; try discriminate;
    intros _ _ _ Hle Hge' Hrefl;
    try (apply SFadd_finite_mono;
         [eapply valid_canonical; eassumption .. | exact Hle]);
    cbn [SFadd] in *;
    try reflexivity; try exact Hge'; try exact Hrefl; try exact Hle;
    try apply SFleb_refl_finite.
  apply SFleb_infinity. exact Hrefl.
Qed.

(** A finite float that is not zero, divided by itself, is [1.0]. *)
Lemma div_self (x : float) s m e :
  Prim2SF x = S754_finite s m e -> x / x = 1.
Proof.
  intros Hx. apply Prim2SF_inj. rewrite div_spec, Hx.
  unfold SF64div. rewrite SFdiv_self. reflexivity.
Qed.

End Binary64.

(* ===================================================================== *)
(** * 1. Row splitting ([html2img_split.py]) *)
(* ===================================================================== *)

Module Split.

(** ** 1.1 The splitter, generic in the arithmetic of heights

    [calculate_split_points] only adds heights and compares the running sum
    with the budget; the Section keeps that arithmetic abstract, so that what
    is proved about the shape of the plan holds whatever number type the
    measurements have. *)
Section Generic.

Variable H : Type.
Variable hzero : H.
Variable hadd : H -> H -> H.
Variable hgtb : H -> H -> bool.   (* [hgtb a b] is Python's [a > b] *)

(** [@dataclass class RowInfo] *)
Record RowInfo : Type := mkRowInfo {
  index : nat;
  top : H;
  bottom : H;
  height : H
}.

(** The three locals the [for] loop updates. *)
Record LoopState : Type := mkLoop {
  splits : list (nat * nat);
  start_idx : nat;
  current_height : H
}.

(** One iteration of [for i, row in enumerate(rows)].  Indices are natural
    numbers: [i - 1] is taken only when [i > start_idx], so it is Python's
    subtraction. *)
Definition split_step (max_height : H) (st : LoopState) (i : nat) (row : RowInfo)
  : LoopState :=
  if hgtb (hadd (current_height st) (height row)) max_height && (start_idx st <? i)
  then mkLoop (splits st ++ [(start_idx st, i - 1)]) i (height row)
  else mkLoop (splits st) (start_idx st) (hadd (current_height st) (height row)).

(** The loop over [enumerate(rows)], entered at index [i]. *)
Fixpoint split_loop (max_height : H) (rs : list RowInfo) (i : nat) (st : LoopState)
  : LoopState :=
  match rs with
  | [] => st
  | row :: rs' => split_loop max_height rs' (S i) (split_step max_height st i row)
  end.

(** The early return on an empty list, the loop from
    [start_idx = 0, current_height = 0], and the last group; [len(rows) - 1]
    is taken on a non-empty list. *)
Definition calculate_split_points (rows : list RowInfo) (max_height : H)
  : list (nat * nat) :=
  match rows with
  | [] => []
  | _ :: _ =>
      let st := split_loop max_height rows 0 (mkLoop [] 0 hzero) in
      if start_idx st <? length rows
      then splits st ++ [(start_idx st, length rows - 1)]
      else splits st
  end.

(** [tiles lo plan hi]: the closed intervals of [plan], in order, are
    non-empty, each starts right after the previous one ends, the first
    starts at [lo] and the last ends at [hi - 1]. *)
Fixpoint tiles (lo : nat) (plan : list (nat * nat)) (hi : nat) : Prop :=
  match plan with
  | [] => lo = hi
  | (s, e) :: rest => s = lo /\ s <= e /\ tiles (S e) rest hi
  end.

Definition covers (iv : nat * nat) (i : nat) : Prop := fst iv <= i <= snd iv.

Lemma tiles_app lo mid hi p q :
  tiles lo p mid -> tiles mid q hi -> tiles lo (p ++ q) hi.
Proof.
  revert lo. induction p as [|[s e] p IH]; simpl; intros lo Hp Hq.
  - subst. exact Hq.
  - destruct Hp as (-> & Hle & Hp). repeat split; auto.
Qed.

Lemma tiles_le lo plan hi : tiles lo plan hi -> lo <= hi.
Proof.
  revert lo. induction plan as [|[s e] p IH]; simpl; intros lo Hp.
  - lia.
  - destruct Hp as (-> & Hle & Hp). apply IH in Hp. lia.
Qed.

Lemma tiles_bounds lo plan hi iv :
  tiles lo plan hi -> In iv plan -> lo <= fst iv /\ fst iv <= snd iv /\ snd iv < hi.
Proof.
  revert lo. induction plan as [|[s e] p IH]; simpl; intros lo Hp Hin; [easy|].
  destruct Hp as (-> & Hle & Hp). destruct Hin as [<- | Hin].
  - simpl. apply tiles_le in Hp. lia.
  - destruct (IH _ Hp Hin). lia.
Qed.

(** Every index of [lo, hi) lies in exactly one interval of a tiling. *)
Lemma tiles_exactly_one lo plan hi i :
  tiles lo plan hi -> lo <= i < hi ->
  exists iv, In iv plan /\ covers iv i /\
             forall iv', In iv' plan -> covers iv' i -> iv' = iv.
Proof.
  revert lo. induction plan as [|[s e] p IH]; simpl; intros lo Hp Hi.
  - lia.
  - destruct Hp as (-> & Hle & Hp).
    destruct (le_lt_dec i e) as [Hie | Hei].
    + exists (lo, e). split; [now left|]. split; [unfold covers; simpl; lia|].
      intros iv' [<- | Hin] Hc; [reflexivity|].
      destruct (tiles_bounds _ _ _ _ Hp Hin). unfold covers in Hc. lia.
    + destruct (IH (S e) Hp) as (iv & Hin & Hc & Huniq); [lia|].
      exists iv. split; [now right|]. split; [exact Hc|].
      intros iv' [<- | Hin'] Hc'.
      * unfold covers in Hc'. simpl in Hc'. lia.
      * now apply Huniq.
Qed.

(** Loop invariant for the shape of the plan: the closed groups tile
    [0, start_idx), and the open group is non-empty once a row was read. *)
Definition shape_inv (i : nat) (st : LoopState) : Prop :=
  tiles 0 (splits st) (start_idx st) /\
  start_idx st <= i /\ (0 < i -> start_idx st < i).

Lemma split_step_shape max_height st i row :
  shape_inv i st -> shape_inv (S i) (split_step max_height st i row).
Proof.
  intros (Ht & Hle & Hlt). unfold split_step, shape_inv.
  destruct (hgtb _ _ && _) eqn:E; simpl.
  - apply andb_prop in E. destruct E as [_ E]. apply Nat.ltb_lt in E.
    repeat split; try lia.
    apply tiles_app with (mid := start_idx st); [exact Ht|].
    simpl. repeat split; lia.
  - repeat split; try lia. exact Ht.
Qed.

Lemma split_loop_shape max_height rs i st :
  shape_inv i st -> shape_inv (i + length rs) (split_loop max_height rs i st).
Proof.
  revert i st. induction rs as [|row rs IH]; simpl; intros i st Hinv.
  - now rewrite Nat.add_0_r.
  - replace (i + S (length rs)) with (S i + length rs) by lia.
    apply IH. now apply split_step_shape.
Qed.

Lemma calculate_split_points_tiles rows max_height :
  tiles 0 (calculate_split_points rows max_height) (length rows).
Proof.
  unfold calculate_split_points. destruct rows as [|r rs]; [reflexivity|].
  remember (r :: rs) as rows eqn:Erows.
  assert (Hpos : 0 < length rows) by (subst rows; simpl; lia).
  clear Erows.
  remember (split_loop max_height rows 0 (mkLoop [] 0 hzero)) as st eqn:Est.
  assert (Hinv : shape_inv (0 + length rows) st).
  { subst st. apply split_loop_shape. unfold shape_inv. simpl. repeat split; lia. }
  destruct Hinv as (Ht & Hle & Hlt). cbn [Nat.add] in Hle, Hlt.
  specialize (Hlt Hpos). cbv zeta.
  destruct (Nat.ltb_spec (start_idx st) (length rows)) as [_|Hge]; [|lia].
  eapply tiles_app; [exact Ht|]. simpl. repeat split; lia.
Qed.

Lemma calculate_split_points_nonempty rows max_height :
  rows <> [] ->
  calculate_split_points rows max_height =
  let st := split_loop max_height rows 0 (mkLoop [] 0 hzero) in
  if start_idx st <? length rows
  then splits st ++ [(start_idx st, length rows - 1)]
  else splits st.
Proof. destruct rows; [congruence | reflexivity]. Qed.

End Generic.

(** ** 1.2 The running total of a group, in any arithmetic

    What the loop holds in [current_height] for the group of rows
    [s .. e]: the group that starts the table is summed from [0], every later
    group from the height of its first row, and the other rows are added one
    by one, from left to right, with the addition of the heights. *)

Lemma skipn_nth_error_cons (A : Type) (l : list A) i x rest :
  skipn i l = x :: rest -> nth_error l i = Some x /\ skipn (S i) l = rest.
Proof.
  revert i. induction l as [|a l IH]; intros [|i] Hs; simpl in *; try discriminate.
  - inversion Hs. auto.
  - destruct (IH _ Hs) as [H1 H2]. split; [exact H1|].
    destruct l; [destruct i; discriminate|exact H2].
Qed.

Lemma firstn_skipn_snoc (A : Type) (l : list A) s n x :
  nth_error l (s + n) = Some x ->
  firstn (S n) (skipn s l) = firstn n (skipn s l) ++ [x].
Proof.
  revert l. induction s as [|s IHs]; intros l Hx.
  - simpl in Hx. rewrite !skipn_O. revert l Hx.
    induction n as [|n IHn]; intros [|a l] Hx; simpl in Hx; try discriminate.
    + inversion Hx. reflexivity.
    + change (firstn (S (S n)) (a :: l)) with (a :: firstn (S n) l).
      rewrite (IHn l Hx). reflexivity.
  - destruct l as [|a l]; [destruct n; discriminate|]. simpl in Hx.
    change (skipn (S s) (a :: l)) with (skipn s l). now apply IHs.
Qed.

Section Running.

Variable H : Type.
Variable hzero : H.
Variable hadd : H -> H -> H.
Variable hgtb : H -> H -> bool.

Fixpoint add_heights (acc : H) (rs : list (RowInfo H)) : H :=
  match rs with
  | [] => acc
  | r :: rs' => add_heights (hadd acc (height r)) rs'
  end.

(** [current_height] after the first row of a group. *)
Definition opening (s : nat) (r : RowInfo H) : H :=
  if s =? 0 then hadd hzero (height r) else height r.

Definition running_total (rows : list (RowInfo H)) (s e : nat) : H :=
  match skipn s rows with
  | [] => hzero
  | r :: rest => add_heights (opening s r) (firstn (e - s) rest)
  end.

Lemma add_heights_snoc acc rs r :
  add_heights acc (rs ++ [r]) = hadd (add_heights acc rs) (height r).
Proof.
  revert acc. induction rs as [|x rs IH]; intros acc; simpl; [reflexivity|].
  apply IH.
Qed.

Lemma running_total_single rows s r :
  nth_error rows s = Some r -> running_total rows s s = opening s r.
Proof.
  intros Hr. unfold running_total.
  destruct (skipn s rows) as [|r0 rest] eqn:Es.
  - assert (Hlen : length (skipn s rows) = 0) by now rewrite Es.
    rewrite length_skipn in Hlen.
    assert (s < length rows) by (apply nth_error_Some; congruence). lia.
  - destruct (skipn_nth_error_cons _ _ Es) as [Hr0 _].
    rewrite Hr in Hr0. inversion Hr0; subst r0.
    rewrite Nat.sub_diag. reflexivity.
Qed.

Lemma running_total_snoc rows s e r :
  s <= e -> nth_error rows (S e) = Some r ->
  running_total rows s (S e) = hadd (running_total rows s e) (height r).
Proof.
  intros Hse Hr. unfold running_total.
  destruct (skipn s rows) as [|r0 rest] eqn:Es.
  - assert (Hlen : length (skipn s rows) = 0) by now rewrite Es.
    rewrite length_skipn in Hlen.
    assert (S e < length rows) by (apply nth_error_Some; congruence). lia.
  - destruct (skipn_nth_error_cons _ _ Es) as [_ Hrest]. subst rest.
    replace (S e - s) with (S (e - s)) by lia.
    rewrite (@firstn_skipn_snoc _ rows (S s) (e - s) r).
    + apply add_heights_snoc.
    + replace (S s + (e - s)) with (S e) by lia. exact Hr.
Qed.

(** *** The loop invariant *)

Variable rows : list (RowInfo H).
Variable max_height : H.

(** State of the loop before it reads row [i]: [current_height] is the
    running total of the open group; a closed group of two rows or more has a
    running total that does not compare above the budget, and so has the open
    group; and every closed group was closed by a row that did not fit. *)
Record run_inv (i : nat) (st : LoopState H) : Prop := mkRunInv {
  ri_shape : shape_inv i st;
  ri_start : i = 0 -> current_height st = hzero;
  ri_sum : 0 < i ->
           current_height st = running_total rows (start_idx st) (i - 1);
  ri_closed : forall s e, In (s, e) (splits st) -> s < e ->
              hgtb (running_total rows s e) max_height = false;
  ri_open : S (start_idx st) < i -> hgtb (current_height st) max_height = false;
  ri_greedy : forall s e, In (s, e) (splits st) ->
              exists r, nth_error rows (S e) = Some r /\
                hgtb (hadd (running_total rows s e) (height r)) max_height = true
}.

Lemma run_inv_init : run_inv 0 (mkLoop [] 0 hzero).
Proof.
  constructor; simpl.
  - unfold shape_inv; simpl. repeat split; lia.
  - reflexivity.
  - lia.
  - intros s e [].
  - lia.
  - intros s e [].
Qed.

Lemma split_step_run st i row :
  nth_error rows i = Some row -> run_inv i st ->
  run_inv (S i) (split_step hadd hgtb max_height st i row).
Proof.
  intros Hrow Hinv.
  pose proof (split_step_shape hadd hgtb max_height row (ri_shape Hinv)) as Hshape'.
  pose proof Hinv as [Hshape Hstart Hsum Hclosed Hopen Hgreedy].
  destruct Hshape as (_ & Hle & Hlt).
  unfold split_step in *.
  destruct (hgtb (hadd (current_height st) (height row)) max_height) eqn:Egt;
    [destruct (Nat.ltb_spec (start_idx st) i) as [Hsi | Hsi]|];
    cbn [andb] in *.
  - (* the row opens a new group *)
    assert (Hi : 0 < i) by lia.
    constructor; cbn [splits start_idx current_height]; auto; try lia.
    + intros _. replace (S i - 1) with i by lia.
      rewrite (@running_total_single rows i row Hrow). unfold opening.
      destruct (Nat.eqb_spec i 0); [lia | reflexivity].
    + intros s e Hin Hlt'. apply in_app_or in Hin.
      destruct Hin as [Hin | [Heq | []]]; [now apply Hclosed|].
      inversion Heq; subst s e. rewrite <- (Hsum Hi). apply Hopen. lia.
    + intros s e Hin. apply in_app_or in Hin.
      destruct Hin as [Hin | [Heq | []]]; [now apply Hgreedy|].
      inversion Heq; subst s e. exists row.
      replace (S (i - 1)) with i by lia. split; [exact Hrow|].
      rewrite <- (Hsum Hi). exact Egt.
  - (* first row of the table: there is nothing to close *)
    assert (i = 0) by (destruct i; [reflexivity | specialize (Hlt ltac:(lia)); lia]).
    subst i. assert (Hs0 : start_idx st = 0) by lia.
    constructor; cbn [splits start_idx current_height]; auto; try lia.
    intros _. rewrite Hs0. cbn [Nat.sub].
    rewrite (@running_total_single rows 0 row Hrow). unfold opening. cbn [Nat.eqb].
    now rewrite (Hstart eq_refl).
  - (* the row joins the open group *)
    destruct (Nat.eq_dec i 0) as [-> | Hi0].
    + assert (Hs0 : start_idx st = 0) by lia.
      constructor; cbn [splits start_idx current_height]; auto; try lia.
      intros _. rewrite Hs0. cbn [Nat.sub].
      rewrite (@running_total_single rows 0 row Hrow). unfold opening. cbn [Nat.eqb].
      now rewrite (Hstart eq_refl).
    + assert (Hi : 0 < i) by lia. specialize (Hlt Hi).
      constructor; cbn [splits start_idx current_height]; auto; try lia.
      intros _. replace (S i - 1) with (S (i - 1)) by lia.
      rewrite (@running_total_snoc rows (start_idx st) (i - 1) row).
      * now rewrite <- (Hsum Hi).
      * lia.
      * replace (S (i - 1)) with i by lia. exact Hrow.
Qed.

Lemma split_loop_run rs i st :
  skipn i rows = rs -> run_inv i st ->
  run_inv (i + length rs) (split_loop hadd hgtb max_height rs i st).
Proof.
  revert i st. induction rs as [|row rs IH]; simpl; intros i st Hskip Hinv.
  - now rewrite Nat.add_0_r.
  - destruct (skipn_nth_error_cons _ _ Hskip) as [Hrow Hrest].
    replace (i + S (length rs)) with (S i + length rs) by lia.
    apply IH; [exact Hrest|]. now apply split_step_run.
Qed.

(** A group of the plan with two rows or more has a running total that
    does not compare above the budget; a group that is not the last was
    closed because the next row did not fit. *)
Lemma calculate_split_points_running :
  (forall s e, In (s, e) (calculate_split_points hzero hadd hgtb rows max_height) ->
     s < e -> hgtb (running_total rows s e) max_height = false) /\
  (forall s e, In (s, e) (calculate_split_points hzero hadd hgtb rows max_height) ->
     S e < length rows ->
     exists r, nth_error rows (S e) = Some r /\
       hgtb (hadd (running_total rows s e) (height r)) max_height = true).
Proof.
  destruct (Nat.eq_dec (length rows) 0) as [Hnil | Hlen].
  { apply length_zero_iff_nil in Hnil. rewrite Hnil.
    split; intros s e []. }
  assert (Hpos : 0 < length rows) by lia.
  rewrite calculate_split_points_nonempty
    by (intros Hnil; apply Hlen; rewrite Hnil; reflexivity).
  remember (split_loop hadd hgtb max_height rows 0 (mkLoop [] 0 hzero)) as st eqn:Est.
  assert (Hinv : run_inv (0 + length rows) st).
  { subst st. apply split_loop_run; [reflexivity | apply run_inv_init]. }
  cbn [Nat.add] in Hinv. cbv zeta.
  pose proof Hinv as [Hshape Hstart Hsum Hclosed Hopen Hgreedy].
  destruct Hshape as (_ & Hle & Hlt). specialize (Hlt Hpos).
  destruct (Nat.ltb_spec (start_idx st) (length rows)) as [_|Hge]; [|lia].
  split.
  - intros s e Hin Hse. apply in_app_or in Hin.
    destruct Hin as [Hin | [Heq | []]]; [now apply Hclosed|].
    inversion Heq; subst s e. rewrite <- (Hsum Hpos). apply Hopen. lia.
  - intros s e Hin Hnext. apply in_app_or in Hin.
    destruct Hin as [Hin | [Heq | []]]; [now apply Hgreedy|].
    inversion Heq; subst s e. lia.
Qed.

End Running.

(** *** A row taller than the budget

    That such a row sits alone needs one fact on the arithmetic: the sum of
    two heights or sums of heights ([ok]: the numbers that are not negative)
    is above the budget when one of the two is.  Exact arithmetic has it, and
    so has binary64, whose rounded sum is not below its terms. *)
Section Overtall.

Variable H : Type.
Variable hzero : H.
Variable hadd : H -> H -> H.
Variable hgtb : H -> H -> bool.
Variable rows : list (RowInfo H).
Variable max_height : H.

Variable ok : H -> Prop.
Hypothesis ok_zero : ok hzero.
Hypothesis ok_add : forall a b, ok a -> ok b -> ok (hadd a b).
Hypothesis above_l : forall a b,
  ok a -> ok b -> hgtb a max_height = true -> hgtb (hadd a b) max_height = true.
Hypothesis above_r : forall a b,
  ok a -> ok b -> hgtb b max_height = true -> hgtb (hadd a b) max_height = true.
Hypothesis heights_ok : forall r, In r rows -> ok (height r).

Record tall_inv (i : nat) (st : LoopState H) : Prop := mkTallInv {
  ti_run : run_inv hzero hadd hgtb rows max_height i st;
  ti_ok : ok (current_height st);
  ti_closed : forall j r,
      j < start_idx st -> nth_error rows j = Some r ->
      hgtb (height r) max_height = true -> In (j, j) (splits st);
  ti_open : forall j r,
      start_idx st <= j < i -> nth_error rows j = Some r ->
      hgtb (height r) max_height = true ->
      j = start_idx st /\ i = S (start_idx st)
}.

Lemma tall_inv_init : tall_inv 0 (mkLoop [] 0 hzero).
Proof.
  constructor; simpl.
  - apply run_inv_init.
  - exact ok_zero.
  - intros j r Hj. lia.
  - intros j r Hj. lia.
Qed.

Lemma opening_above s r :
  ok (height r) -> hgtb (height r) max_height = true ->
  hgtb (opening hzero hadd s r) max_height = true.
Proof.
  intros Hok Hr. unfold opening. destruct (s =? 0); [|exact Hr].
  now apply above_r.
Qed.

Lemma split_step_tall st i row :
  nth_error rows i = Some row -> tall_inv i st ->
  tall_inv (S i) (split_step hadd hgtb max_height st i row).
Proof.
  intros Hrow Hinv.
  assert (Hh : ok (height row)).
  { apply heights_ok. eapply nth_error_In; eauto. }
  pose proof (@split_step_run _ hzero hadd hgtb rows max_height st i row Hrow
                (ti_run Hinv)) as Hrun'.
  destruct Hinv as [Hrun Hok Htc Hto].
  pose proof Hrun as [Hshape Hstart Hsum Hclosed Hopen Hgreedy].
  destruct Hshape as (_ & Hle & Hlt).
  unfold split_step in *.
  destruct (hgtb (hadd (current_height st) (height row)) max_height) eqn:Egt;
    [destruct (Nat.ltb_spec (start_idx st) i) as [Hsi | Hsi]|];
    cbn [andb] in *.
  - constructor; cbn [splits start_idx current_height]; auto.
    + intros j r Hj Hr Hbig. apply in_or_app.
      destruct (lt_dec j (start_idx st)) as [Hlt' | Hge].
      * left. eapply Htc; eauto.
      * right. left.
        destruct (Hto j r) as [-> Hi1]; [lia | assumption | assumption |].
        f_equal. lia.
    + intros j r Hj Hr Hbig. lia.
  - assert (i = start_idx st) by lia. subst i.
    constructor; cbn [splits start_idx current_height]; auto.
    intros j r Hj Hr Hbig. split; lia.
  - constructor; cbn [splits start_idx current_height]; auto.
    intros j r Hj Hr Hbig. exfalso.
    destruct (Nat.eq_dec j i) as [-> | Hne].
    + rewrite Hrow in Hr. inversion Hr; subst r.
      rewrite (@above_r _ _ Hok Hh Hbig) in Egt. discriminate.
    + destruct (Hto j r) as [-> Hi1]; [lia | assumption | assumption |].
      assert (Hi : 0 < i) by lia.
      assert (Hcur : hgtb (current_height st) max_height = true).
      { rewrite (Hsum Hi), Hi1. replace (S (start_idx st) - 1) with (start_idx st) by lia.
        rewrite (@running_total_single _ hzero hadd rows (start_idx st) r Hr).
        apply opening_above; [|exact Hbig].
        apply heights_ok. eapply nth_error_In; eauto. }
      rewrite (@above_l _ _ Hok Hh Hcur) in Egt. discriminate.
Qed.

Lemma split_loop_tall rs i st :
  skipn i rows = rs -> tall_inv i st ->
  tall_inv (i + length rs) (split_loop hadd hgtb max_height rs i st).
Proof.
  revert i st. induction rs as [|row rs IH]; simpl; intros i st Hskip Hinv.
  - now rewrite Nat.add_0_r.
  - destruct (skipn_nth_error_cons _ _ Hskip) as [Hrow Hrest].
    replace (i + S (length rs)) with (S i + length rs) by lia.
    apply IH; [exact Hrest|]. now apply split_step_tall.
Qed.

(** Every row taller than the budget has its singleton in the plan. *)
Lemma calculate_split_points_overtall j r :
  nth_error rows j = Some r -> hgtb (height r) max_height = true ->
  In (j, j) (calculate_split_points hzero hadd hgtb rows max_height).
Proof.
  intros Hr Hbig.
  assert (Hj : j < length rows) by (apply nth_error_Some; congruence).
  rewrite calculate_split_points_nonempty
    by (intros Hnil; rewrite Hnil in Hj; simpl in Hj; lia).
  remember (split_loop hadd hgtb max_height rows 0 (mkLoop [] 0 hzero)) as st eqn:Est.
  assert (Hinv : tall_inv (0 + length rows) st).
  { subst st. apply split_loop_tall; [reflexivity | apply tall_inv_init]. }
  cbn [Nat.add] in Hinv. cbv zeta.
  destruct Hinv as [Hrun Hok Htc Hto].
  destruct (ri_shape Hrun) as (_ & Hle & Hlt).
  assert (Hpos : 0 < length rows) by lia. specialize (Hlt Hpos).
  destruct (Nat.ltb_spec (start_idx st) (length rows)) as [_|Hge]; [|lia].
  apply in_or_app.
  destruct (lt_dec j (start_idx st)) as [Hlt' | Hge'].
  - left. eapply Htc; eauto.
  - right. left.
    destruct (Hto j r) as [-> Hn]; [lia | assumption | assumption |].
    f_equal. lia.
Qed.

End Overtall.

(** *** A plan of one part *)
Section SinglePart.

Variable H : Type.
Variable hzero : H.
Variable hadd : H -> H -> H.
Variable hgtb : H -> H -> bool.
Variable rows : list (RowInfo H).
Variable max_height : H.

(** No running total of the first [i] rows compares above the budget. *)
Definition prefixes_fit (i : nat) : Prop :=
  forall j, 0 < j < i -> hgtb (running_total hzero hadd rows 0 j) max_height = false.

Record single_inv (i : nat) (st : LoopState H) : Prop := mkSingleInv {
  si_run : run_inv hzero hadd hgtb rows max_height i st;
  si_fit : prefixes_fit i -> splits st = [];
  si_cut : splits st = [] -> prefixes_fit i
}.

Lemma single_inv_init : single_inv 0 (mkLoop [] 0 hzero).
Proof.
  constructor; simpl.
  - apply run_inv_init.
  - reflexivity.
  - intros _ j Hj. lia.
Qed.

Lemma split_step_single st i row :
  nth_error rows i = Some row -> single_inv i st ->
  single_inv (S i) (split_step hadd hgtb max_height st i row).
Proof.
  intros Hrow [Hrun Hfit Hcut].
  pose proof (@split_step_run _ hzero hadd hgtb rows max_height st i row Hrow
                Hrun) as Hrun'.
  constructor; [exact Hrun'| |].
  - intros Hall.
    assert (Hprev : prefixes_fit i) by (intros j Hj; apply Hall; lia).
    specialize (Hfit Hprev).
    destruct Hrun as [Hshape Hstart Hsum _ _ _].
    destruct Hshape as (Ht & Hle & Hlt).
    rewrite Hfit in Ht. simpl in Ht.
    unfold split_step.
    destruct (Nat.ltb_spec (start_idx st) i) as [Hsi | Hsi];
      [|now rewrite andb_false_r].
    assert (Hi : 0 < i) by lia.
    assert (Hgt : hgtb (hadd (current_height st) (height row)) max_height = false).
    { rewrite (Hsum Hi), <- Ht.
      rewrite <- (@running_total_snoc _ hzero hadd rows 0 (i - 1) row);
        [|lia|replace (S (i - 1)) with i by lia; exact Hrow].
      replace (S (i - 1)) with i by lia. apply Hall. lia. }
    rewrite Hgt. exact Hfit.
  - unfold split_step.
    destruct (hgtb (hadd (current_height st) (height row)) max_height
              && (start_idx st <? i)) eqn:E; cbn [splits].
    + intros Hnil. destruct (splits st); discriminate.
    + intros Hnil. specialize (Hcut Hnil).
      intros j Hj. destruct (Nat.eq_dec j i) as [-> | Hne]; [|apply Hcut; lia].
      destruct Hrun as [Hshape Hstart Hsum _ _ _].
      destruct Hshape as (Ht & Hle & Hlt).
      rewrite Hnil in Ht. simpl in Ht.
      assert (Hi : 0 < i) by lia. specialize (Hlt Hi).
      destruct (Nat.ltb_spec (start_idx st) i) as [_ | Hsi]; [|lia].
      rewrite andb_true_r in E.
      rewrite (Hsum Hi), <- Ht in E.
      rewrite <- (@running_total_snoc _ hzero hadd rows 0 (i - 1) row) in E;
        [|lia|replace (S (i - 1)) with i by lia; exact Hrow].
      replace (S (i - 1)) with i in E by lia. exact E.
Qed.

Lemma split_loop_single rs i st :
  skipn i rows = rs -> single_inv i st ->
  single_inv (i + length rs) (split_loop hadd hgtb max_height rs i st).
Proof.
  revert i st. induction rs as [|row rs IH]; simpl; intros i st Hskip Hinv.
  - now rewrite Nat.add_0_r.
  - destruct (skipn_nth_error_cons _ _ Hskip) as [Hrow Hrest].
    replace (i + S (length rs)) with (S i + length rs) by lia.
    apply IH; [exact Hrest|]. now apply split_step_single.
Qed.

(** The plan of a table is one part exactly when no running total of a
    prefix of two rows or more compares above the budget. *)
Lemma calculate_split_points_one_part :
  rows <> [] ->
  (calculate_split_points hzero hadd hgtb rows max_height = [(0, length rows - 1)]
   <-> prefixes_fit (length rows)).
Proof.
  intros Hne.
  assert (Hpos : 0 < length rows) by (destruct rows; [congruence | simpl; lia]).
  rewrite calculate_split_points_nonempty by exact Hne.
  remember (split_loop hadd hgtb max_height rows 0 (mkLoop [] 0 hzero)) as st eqn:Est.
  assert (Hinv : single_inv (0 + length rows) st).
  { subst st. apply split_loop_single; [reflexivity | apply single_inv_init]. }
  cbn [Nat.add] in Hinv. cbv zeta.
  destruct Hinv as [Hrun Hfit Hcut].
  destruct (ri_shape Hrun) as (Ht & Hle & Hlt). specialize (Hlt Hpos).
  destruct (Nat.ltb_spec (start_idx st) (length rows)) as [_|Hge]; [|lia].
  split.
  - intros Hplan. apply Hcut.
    destruct (splits st) as [|iv rest]; [reflexivity|].
    destruct rest; simpl in Hplan; inversion Hplan.
  - intros Hall. specialize (Hfit Hall). rewrite Hfit in Ht |- *.
    simpl in Ht. rewrite <- Ht. reflexivity.
Qed.

End SinglePart.

(** *** No plan has fewer parts

    Here the arithmetic is ordered: [hle] is the order of the numbers that
    are not negative ([ok]), the addition of such numbers is monotone and
    does not go below either term, and a number above the budget stays above
    it when it grows.  Exact arithmetic is such, and so is correctly rounded
    floating-point arithmetic. *)
Section Fewest.

Variable H : Type.
Variable hzero : H.
Variable hadd : H -> H -> H.
Variable hgtb : H -> H -> bool.
Variable rows : list (RowInfo H).
Variable max_height : H.

Variable ok : H -> Prop.
Variable hle : H -> H -> Prop.
Hypothesis ok_zero : ok hzero.
Hypothesis ok_add : forall a b, ok a -> ok b -> ok (hadd a b).
Hypothesis hle_refl : forall a, ok a -> hle a a.
Hypothesis hle_trans : forall a b c, hle a b -> hle b c -> hle a c.
Hypothesis add_mono : forall a a' h,
  ok a -> ok a' -> ok h -> hle a a' -> hle (hadd a h) (hadd a' h).
Hypothesis add_ge_l : forall a h, ok a -> ok h -> hle a (hadd a h).
Hypothesis add_ge_r : forall a h, ok a -> ok h -> hle h (hadd a h).
Hypothesis above_hle : forall a b,
  hle a b -> hgtb a max_height = true -> hgtb b max_height = true.
Hypothesis heights_ok : forall r, In r rows -> ok (height r).

#[local] Abbreviation total := (running_total hzero hadd rows).

Lemma add_heights_ok acc rs :
  ok acc -> (forall r, In r rs -> In r rows) -> ok (add_heights hadd acc rs).
Proof.
  revert acc. induction rs as [|r rs IH]; intros acc Hacc Hin; simpl; [exact Hacc|].
  apply IH.
  - apply ok_add; [exact Hacc|]. apply heights_ok, Hin. now left.
  - intros x Hx. apply Hin. now right.
Qed.

Lemma running_total_ok s e : ok (total s e).
Proof.
  unfold running_total.
  destruct (skipn s rows) as [|r rest] eqn:Es; [exact ok_zero|].
  assert (Hsub : forall x, In x (r :: rest) -> In x rows).
  { intros x Hx. rewrite <- (firstn_skipn s rows). apply in_or_app. right.
    now rewrite Es. }
  apply add_heights_ok.
  - unfold opening. destruct (s =? 0).
    + apply ok_add; [exact ok_zero|]. apply heights_ok, Hsub. now left.
    + apply heights_ok, Hsub. now left.
  - intros x Hx. apply Hsub. right.
    rewrite <- (firstn_skipn (e - s) rest). apply in_or_app. now left.
Qed.

(** A group that starts earlier has, at the same last row, a running total
    that is no smaller. *)
Lemma running_total_earlier s' s e :
  s' <= s -> s <= e -> e < length rows -> hle (total s e) (total s' e).
Proof.
  intros Hs Hse He.
  destruct (Nat.eq_dec s' s) as [-> | Hne]; [apply hle_refl, running_total_ok|].
  induction e as [|e IH]; [lia|].
  destruct (nth_error rows (S e)) as [r|] eqn:Hr;
    [|apply nth_error_None in Hr; lia].
  assert (Hr_ok : ok (height r)).
  { apply heights_ok. eapply nth_error_In; eauto. }
  rewrite (@running_total_snoc _ hzero hadd rows s' e r) by (lia || exact Hr).
  destruct (Nat.eq_dec s (S e)) as [-> | Hlt].
  - rewrite (@running_total_single _ hzero hadd rows (S e) r Hr).
    unfold opening. cbn [Nat.eqb].
    apply add_ge_r; [apply running_total_ok | exact Hr_ok].
  - rewrite (@running_total_snoc _ hzero hadd rows s e r) by (lia || exact Hr).
    apply add_mono; try apply running_total_ok; [exact Hr_ok|].
    apply IH; lia.
Qed.

(** A group grows with its last row. *)
Lemma running_total_later s e e' :
  s <= e -> e <= e' -> e' < length rows -> hle (total s e) (total s e').
Proof.
  intros Hse Hee He'. induction e' as [|e' IH].
  - replace e with 0 by lia. apply hle_refl, running_total_ok.
  - destruct (Nat.eq_dec e (S e')) as [-> | Hlt];
      [apply hle_refl, running_total_ok|].
    destruct (nth_error rows (S e')) as [r|] eqn:Hr;
      [|apply nth_error_None in Hr; lia].
    rewrite (@running_total_snoc _ hzero hadd rows s e' r) by (lia || exact Hr).
    apply hle_trans with (b := total s e'); [apply IH; lia|].
    apply add_ge_l; [apply running_total_ok|].
    apply heights_ok. eapply nth_error_In; eauto.
Qed.

(** A tiling whose groups were each closed by a row that did not fit has no
    more groups than any tiling that starts no later and whose groups of two
    rows or more do not compare above the budget. *)
Lemma greedy_plan_shortest (g : list (nat * nat)) :
  forall lo lo' p,
    tiles lo g (length rows) -> tiles lo' p (length rows) -> lo' <= lo ->
    (forall s e, In (s, e) g -> S e < length rows ->
       exists r, nth_error rows (S e) = Some r /\
         hgtb (hadd (total s e) (height r)) max_height = true) ->
    (forall s e, In (s, e) p -> s < e -> hgtb (total s e) max_height = false) ->
    length g <= length p.
Proof.
  induction g as [|[s e] g IH]; intros lo lo' p Hg Hp Hlo Hfull Hfits.
  - simpl. lia.
  - simpl in Hg. destruct Hg as (Hs & Hse & Hg). subst s.
    pose proof (tiles_le _ _ _ Hg) as Hen.
    destruct p as [|[s' e'] p].
    + simpl in Hp. lia.
    + simpl in Hp. destruct Hp as (Hs' & Hse' & Hp). subst s'.
      pose proof (tiles_le _ _ _ Hp) as Hen'.
      simpl. apply le_n_S.
      apply (IH (S e) (S e') p); auto.
      * apply le_n_S.
        destruct (le_lt_dec e' e) as [Hle | Hlt]; [exact Hle | exfalso].
        destruct (Hfull lo e) as (r & Hr & Hover); [now left | lia |].
        rewrite <- (@running_total_snoc _ hzero hadd rows lo e r Hse Hr) in Hover.
        assert (Hbig : hgtb (total lo' e') max_height = true).
        { apply above_hle with (a := total lo (S e)); [|exact Hover].
          apply hle_trans with (b := total lo' (S e)).
          - apply running_total_earlier; lia.
          - apply running_total_later; lia. }
        rewrite (Hfits lo' e') in Hbig; [discriminate | now left | lia].
      * intros s0 e0 Hin. apply Hfull. now right.
      * intros s0 e0 Hin. apply Hfits. now right.
Qed.

Lemma calculate_split_points_shortest (plan : list (nat * nat)) :
  tiles 0 plan (length rows) ->
  (forall s e, In (s, e) plan -> s < e -> hgtb (total s e) max_height = false) ->
  length (calculate_split_points hzero hadd hgtb rows max_height) <= length plan.
Proof.
  intros Htiles Hfits.
  apply (@greedy_plan_shortest _ 0 0 plan); auto.
  - apply calculate_split_points_tiles.
  - apply (calculate_split_points_running hzero hadd hgtb rows max_height).
Qed.

End Fewest.

(** ** 1.3 Heights as rationals

    The instance with exact arithmetic: [Q] for the measurements and the
    running sum.  It is what the splitter computes whenever no addition
    rounds, and it is the arithmetic of the engine the renderers are run on
    below. *)
Open Scope Q_scope.

Definition Qgtb (a b : Q) : bool := negb (Qle_bool a b).

Definition calculate_split_points_Q (rows : list (RowInfo Q)) (max_height : Q)
  : list (nat * nat) :=
  calculate_split_points 0 Qplus Qgtb rows max_height.

Fixpoint sumQ (l : list Q) : Q :=
  match l with
  | [] => 0
  | h :: t => h + sumQ t
  end.

(** Total height of the [n] rows starting at row [s]. *)
Definition range_sum (rows : list (RowInfo Q)) (s n : nat) : Q :=
  sumQ (map (@height Q) (firstn n (skipn s rows))).

(** Total height of the closed interval of rows [(s, e)]. *)
Definition interval_height (rows : list (RowInfo Q)) (s e : nat) : Q :=
  range_sum rows s (S e - s).

(** An interval respects the budget, or is the singleton of a row that is
    by itself taller than the budget. *)
Definition within_budget (rows : list (RowInfo Q)) (max_height : Q)
  (iv : nat * nat) : Prop :=
  interval_height rows (fst iv) (snd iv) <= max_height \/
  (fst iv = snd iv /\
   exists r, nth_error rows (fst iv) = Some r /\ max_height < height r).

Lemma Qgtb_true a b : Qgtb a b = true <-> b < a.
Proof.
  unfold Qgtb. rewrite negb_true_iff. split; intros Hab.
  - apply Qnot_le_lt. intros Hle. apply Qle_bool_iff in Hle. congruence.
  - destruct (Qle_bool a b) eqn:E; [|reflexivity].
    apply Qle_bool_iff in E. lra.
Qed.

Lemma Qgtb_false a b : Qgtb a b = false <-> a <= b.
Proof.
  unfold Qgtb. rewrite negb_false_iff. apply Qle_bool_iff.
Qed.

Lemma sumQ_app l1 l2 : sumQ (l1 ++ l2) == sumQ l1 + sumQ l2.
Proof.
  induction l1 as [|h t IH]; simpl; [lra|]. rewrite IH. lra.
Qed.

Lemma range_sum_0 rows s : range_sum rows s 0 == 0.
Proof. unfold range_sum. simpl. lra. Qed.

Lemma range_sum_snoc rows s n r :
  nth_error rows (s + n) = Some r ->
  range_sum rows s (S n) == range_sum rows s n + height r.
Proof.
  intros Hr. unfold range_sum. rewrite (firstn_skipn_snoc _ _ _ Hr).
  rewrite map_app, sumQ_app. simpl. lra.
Qed.

Lemma range_sum_1 rows s r :
  nth_error rows s = Some r -> range_sum rows s 1 == height r.
Proof.
  intros Hr. rewrite (@range_sum_snoc rows s 0 r).
  - rewrite range_sum_0. lra.
  - now rewrite Nat.add_0_r.
Qed.

(** ** 1.4 The loop invariant for the height budget, in exact arithmetic *)
Section Budget.

Variable rows : list (RowInfo Q).
Variable max_height : Q.
Hypothesis heights_nonneg : forall r, In r rows -> 0 <= height r.

(** State of the loop before it reads row [i]: the open group is
    [start_idx, i), [current_height] is its total height, every closed group
    is within budget, and a row taller than the budget sits alone. *)
Record budget_inv (i : nat) (st : LoopState Q) : Prop := mkBudgetInv {
  bi_shape : shape_inv i st;
  bi_sum : current_height st == range_sum rows (start_idx st) (i - start_idx st);
  bi_nonneg : 0 <= current_height st;
  bi_closed : forall iv, In iv (splits st) -> within_budget rows max_height iv;
  bi_open : current_height st <= max_height \/ i = S (start_idx st) \/ i = 0%nat;
  bi_tall_closed : forall j r,
      (j < start_idx st)%nat -> nth_error rows j = Some r ->
      max_height < height r -> In (j, j) (splits st);
  bi_tall_open : forall j r,
      (start_idx st <= j < i)%nat -> nth_error rows j = Some r ->
      max_height < height r -> j = start_idx st /\ i = S (start_idx st)
}.

Lemma budget_inv_init : budget_inv 0 (mkLoop [] 0%nat 0).
Proof.
  constructor; simpl.
  - unfold shape_inv; simpl. repeat split; lia.
  - rewrite range_sum_0. lra.
  - lra.
  - intros iv [].
  - right; right; reflexivity.
  - intros j r Hj. lia.
  - intros j r Hj. lia.
Qed.

(** The group being closed at row [i] is within budget. *)
Lemma open_group_within i st :
  (0 < i <= length rows)%nat -> budget_inv i st ->
  within_budget rows max_height (start_idx st, (i - 1)%nat).
Proof.
  intros [Hi Hlen] [Hshape Hsum Hnn Hclosed Hopen Htc Hto].
  destruct Hshape as (_ & Hle & Hlt). specialize (Hlt Hi).
  unfold within_budget, interval_height; cbn [fst snd].
  replace (S (i - 1) - start_idx st)%nat with (i - start_idx st)%nat by lia.
  destruct (Qlt_le_dec max_height (current_height st)) as [Hbig | Hsmall].
  - right. destruct Hopen as [Hc | [Hi1 | Hi0]]; [lra | | lia].
    split; [lia|].
    destruct (nth_error rows (start_idx st)) as [r|] eqn:Er.
    + exists r. split; [reflexivity|].
      rewrite Hi1 in Hsum.
      replace (S (start_idx st) - start_idx st)%nat with 1%nat in Hsum by lia.
      rewrite (range_sum_1 _ _ Er) in Hsum. lra.
    + apply nth_error_None in Er. lia.
  - left. lra.
Qed.

Lemma split_step_budget st i row :
  nth_error rows i = Some row -> budget_inv i st ->
  budget_inv (S i) (split_step Qplus Qgtb max_height st i row).
Proof.
  intros Hrow Hinv.
  assert (Hh : 0 <= height row).
  { apply heights_nonneg. eapply nth_error_In; eauto. }
  pose proof (split_step_shape Qplus Qgtb max_height row (bi_shape Hinv)) as Hshape'.
  pose proof Hinv as [Hshape Hsum Hnn Hclosed Hopen Htc Hto].
  destruct Hshape as (_ & Hle & Hlt).
  unfold split_step in *.
  destruct (Qgtb (current_height st + height row) max_height) eqn:Egt;
    [destruct (Nat.ltb_spec (start_idx st) i) as [Hsi | Hsi]|];
    cbn [andb] in *.
  - (* the row opens a new group *)
    constructor; cbn [splits start_idx current_height]; auto.
    + replace (i - i)%nat with 0%nat by lia.
      replace (S i - i)%nat with 1%nat by lia.
      rewrite (range_sum_1 _ _ Hrow). lra.
    + intros iv Hin. apply in_app_or in Hin. destruct Hin as [Hin | [<- | []]]; auto.
      apply open_group_within; [|exact Hinv].
      assert (i < length rows)%nat by (apply nth_error_Some; congruence). lia.
    + intros j r Hj Hr Hbig. apply in_or_app.
      destruct (lt_dec j (start_idx st)) as [Hlt' | Hge].
      * left. eapply Htc; eauto.
      * right. left.
        destruct (Hto j r) as [-> Hi1]; [lia | assumption | assumption |].
        f_equal. lia.
    + intros j r Hj Hr Hbig. lia.
  - (* first row of the table: there is nothing to close *)
    assert (i = start_idx st) by lia. subst i.
    constructor; cbn [splits start_idx current_height]; auto.
    + replace (S (start_idx st) - start_idx st)%nat with 1%nat by lia.
      replace (start_idx st - start_idx st)%nat with 0%nat in Hsum by lia.
      rewrite range_sum_0 in Hsum.
      rewrite (range_sum_1 _ _ Hrow). lra.
    + lra.
    + intros j r Hj Hr Hbig. split; lia.
  - (* the row joins the open group *)
    apply Qgtb_false in Egt.
    constructor; cbn [splits start_idx current_height]; auto.
    + replace (S i - start_idx st)%nat with (S (i - start_idx st)) by lia.
      rewrite (@range_sum_snoc rows (start_idx st) (i - start_idx st) row).
      * lra.
      * replace (start_idx st + (i - start_idx st))%nat with i by lia. exact Hrow.
    + lra.
    + intros j r Hj Hr Hbig. exfalso.
      destruct (Nat.eq_dec j i) as [-> | Hne].
      * rewrite Hrow in Hr. inversion Hr; subst r. lra.
      * destruct (Hto j r) as [-> Hi1]; [lia | assumption | assumption |].
        rewrite Hi1 in Hsum.
        replace (S (start_idx st) - start_idx st)%nat with 1%nat in Hsum by lia.
        rewrite (range_sum_1 _ _ Hr) in Hsum. lra.
Qed.

Lemma split_loop_budget rs i st :
  skipn i rows = rs -> budget_inv i st ->
  budget_inv (i + length rs) (split_loop Qplus Qgtb max_height rs i st).
Proof.
  revert i st. induction rs as [|row rs IH]; simpl; intros i st Hskip Hinv.
  - now rewrite Nat.add_0_r.
  - destruct (skipn_nth_error_cons _ _ Hskip) as [Hrow Hrest].
    replace (i + S (length rs))%nat with (S i + length rs)%nat by lia.
    apply IH; [exact Hrest|]. now apply split_step_budget.
Qed.

Lemma calculate_split_points_Q_budget :
  (forall iv, In iv (calculate_split_points_Q rows max_height) ->
              within_budget rows max_height iv) /\
  (forall i r, nth_error rows i = Some r -> max_height < height r ->
               In (i, i) (calculate_split_points_Q rows max_height)).
Proof.
  unfold calculate_split_points_Q.
  destruct (Nat.eq_dec (length rows) 0) as [Hnil | Hlen].
  { apply length_zero_iff_nil in Hnil. rewrite Hnil.
    split; [intros iv [] | intros [|i] r Hr; discriminate]. }
  assert (Hpos : (0 < length rows)%nat) by lia.
  rewrite calculate_split_points_nonempty
    by (intros Hnil; apply Hlen; rewrite Hnil; reflexivity).
  remember (split_loop Qplus Qgtb max_height rows 0 (mkLoop [] 0%nat 0)) as st eqn:Est.
  assert (Hinv : budget_inv (0 + length rows) st).
  { subst st. apply split_loop_budget; [reflexivity | apply budget_inv_init]. }
  cbn [Nat.add] in Hinv. cbv zeta.
  pose proof Hinv as [Hshape Hsum Hnn Hclosed Hopen Htc Hto].
  destruct Hshape as (_ & Hle & Hlt). specialize (Hlt Hpos).
  destruct (Nat.ltb_spec (start_idx st) (length rows)) as [_|Hge]; [|lia].
  split.
  - intros iv Hin. apply in_app_or in Hin. destruct Hin as [Hin | [<- | []]]; auto.
    apply open_group_within; [lia | assumption].
  - intros i r Hr Hbig. apply in_or_app.
    assert (Hi : (i < length rows)%nat) by (apply nth_error_Some; congruence).
    destruct (lt_dec i (start_idx st)) as [Hlt' | Hge'].
    + left. eapply Htc; eauto.
    + right. left.
      destruct (Hto i r) as [-> Hn]; [lia | assumption | assumption |].
      f_equal. lia.
Qed.

End Budget.

(** ** 1.5 Heights as binary64 floats

    The instance the program runs: the heights that
    [getBoundingClientRect] yields are Python floats, [+] is the addition of
    binary64, rounded to nearest, and [>] its comparison.  The loop starts
    from the integer [0], which the first addition turns into the float. *)
Import PrimFloat.

Definition float_gt (a b : float) : bool := (b <? a)%float.

Definition calculate_split_points_float (rows : list (RowInfo float))
  (max_height : float) : list (nat * nat) :=
  calculate_split_points 0%float add float_gt rows max_height.

(** In binary64, with heights that are not negative, every row taller
    than the budget has its singleton in the plan. *)
Lemma calculate_split_points_float_overtall (rows : list (RowInfo float))
  (max_height : float) j r :
  (forall x, In x rows -> (0 <=? height x)%float = true) ->
  nth_error rows j = Some r -> float_gt (height r) max_height = true ->
  In (j, j) (calculate_split_points_float rows max_height).
Proof.
  intros Hrows Hr Hbig. unfold calculate_split_points_float.
  apply (@calculate_split_points_overtall float 0%float add float_gt rows
           max_height (fun x => (0 <=? x)%float = true)) with (r := r);
    auto.
  - intros a b Ha Hb.
    apply Binary64.leb_trans with (b := a); [exact Ha|].
    apply (Binary64.add_ge Ha Hb).
  - intros a b Ha Hb. unfold float_gt. intros Hgt.
    apply Binary64.ltb_leb_trans with (a := a); [exact Hgt|].
    apply (Binary64.add_ge Ha Hb).
  - intros a b Ha Hb. unfold float_gt. intros Hgt.
    apply Binary64.ltb_leb_trans with (a := b); [exact Hgt|].
    apply (Binary64.add_ge Ha Hb).
Qed.

(** In binary64, with heights that are not negative, no tiling whose groups
    of two rows or more have running totals that are not above the budget
    has fewer groups than the plan: the rounded addition is monotone. *)
Lemma calculate_split_points_float_shortest (rows : list (RowInfo float))
  (max_height : float) (plan : list (nat * nat)) :
  (forall x, In x rows -> (0 <=? height x)%float = true) ->
  tiles 0 plan (length rows) ->
  (forall s e, In (s, e) plan -> (s < e)%nat ->
     float_gt (running_total 0%float add rows s e) max_height = false) ->
  (length (calculate_split_points_float rows max_height) <= length plan)%nat.
Proof.
  intros Hrows Htiles Hfits. unfold calculate_split_points_float.
  apply (@calculate_split_points_shortest float 0%float add float_gt rows
           max_height (fun x => (0 <=? x)%float = true)
           (fun a b => (a <=? b)%float = true)); auto.
  - intros a b Ha Hb.
    apply Binary64.leb_trans with (b := a); [exact Ha|].
    apply (Binary64.add_ge Ha Hb).
  - intros a Ha. apply Binary64.leb_refl. exact Ha.
  - intros a b c. apply Binary64.leb_trans.
  - intros a a' h. apply Binary64.add_mono.
  - intros a h Ha Hh. apply (Binary64.add_ge Ha Hh).
  - intros a h Ha Hh. apply (Binary64.add_ge Ha Hh).
  - intros a b Hab. unfold float_gt. intros Hgt.
    apply Binary64.ltb_leb_trans with (a := a); assumption.
Qed.

(** The rational a finite float stands for. *)
Definition exact_value (x : float) : option Q :=
  match FloatOps.Prim2SF x with
  | SpecFloat.S754_zero _ => Some 0
  | SpecFloat.S754_finite sign m e =>
      Some (Qred ((if sign then -1 else 1) * inject_Z (Zpos m) * Qpower 2 e))
  | _ => None
  end.

Fixpoint exact_sum (l : list float) : option Q :=
  match l with
  | [] => Some 0
  | x :: l' =>
      match exact_value x, exact_sum l' with
      | Some a, Some b => Some (Qred (a + b))
      | _, _ => None
      end
  end.

(** The total height of the rows [s .. e], without rounding. *)
Definition exact_height (rows : list (RowInfo float)) (s e : nat) : option Q :=
  exact_sum (map (@height float) (firstn (S e - s) (skipn s rows))).

(** ** 1.6 Runs of the splitter *)

Definition row (i : nat) (t h : Q) : RowInfo Q := mkRowInfo i t (t + h) h.

Definition four_rows : list (RowInfo Q) :=
  [row 0 0 30; row 1 30 50; row 2 80 120; row 3 200 20].

Example four_rows_plan :
  calculate_split_points_Q four_rows 100 = [(0, 1); (2, 2); (3, 3)]%nat.
Proof. reflexivity. Qed.

Example two_rows_small_budget :
  calculate_split_points_Q [row 0 0 (41 # 2); row 1 (41 # 2) (41 # 2)] 10
  = [(0, 0); (1, 1)]%nat.
Proof. reflexivity. Qed.

Example no_rows_plan : calculate_split_points_Q [] 100 = [].
Proof. reflexivity. Qed.

Definition float_row (i : nat) (t h : float) : RowInfo float :=
  mkRowInfo i t (t + h)%float h.

Definition four_float_rows : list (RowInfo float) :=
  [float_row 0 0 30.5; float_row 1 30.5 50; float_row 2 80.5 120.25;
   float_row 3 200.75 20].

Example four_float_rows_plan :
  calculate_split_points_float four_float_rows 100 = [(0, 1); (2, 2); (3, 3)]%nat.
Proof. vm_compute. reflexivity. Qed.

(** Two rows, of [2^53] pixels and of one pixel: their sum is not a
    binary64 number and rounds to [2^53]. *)
Definition tall_pair : list (RowInfo float) :=
  [float_row 0 0 9007199254740992; float_row 1 9007199254740992 1].

(** Three rows that add up to the budget [2^53 + 6] exactly; the running
    sum rounds [2^53 + 3] to [2^53 + 4], and then reaches [2^53 + 8]. *)
Example rounded_sum_splits :
  calculate_split_points_float
    [float_row 0 0 9007199254740992; float_row 1 9007199254740992 3;
     float_row 2 9007199254740996 3] 9007199254740998
  = [(0, 1); (2, 2)]%nat.
Proof. vm_compute. reflexivity. Qed.

(** ** 1.7 The claims on the split plan *)

(** C1. For every sequence of rows and every budget, [calculate_split_points]
    returns an ordered list of closed row-index intervals that are non-empty,
    contiguous and non-overlapping, start at row 0 and end at the last row:
    every row index below [length rows] lies in exactly one interval, no
    interval reaches outside, and the plan of an empty table is empty.  The
    statement holds for any arithmetic of heights, so in particular for
    every positive budget. *)
Theorem calculate_split_points_cover
  (H : Type) (hzero : H) (hadd : H -> H -> H) (hgtb : H -> H -> bool)
  (rows : list (RowInfo H)) (max_height : H) :
  let plan := calculate_split_points hzero hadd hgtb rows max_height in
  tiles 0 plan (length rows) /\
  (forall i, (i < length rows)%nat ->
     exists iv, In iv plan /\ covers iv i /\
                forall iv', In iv' plan -> covers iv' i -> iv' = iv) /\
  (forall iv i, In iv plan -> covers iv i -> (i < length rows)%nat) /\
  (rows = [] -> plan = []).
Proof.
  intros plan.
  pose proof (calculate_split_points_tiles hzero hadd hgtb rows max_height) as Ht.
  fold plan in Ht. repeat split.
  - exact Ht.
  - intros i Hi. eapply tiles_exactly_one; [exact Ht | lia].
  - intros iv i Hin Hc. pose proof (@tiles_bounds _ _ _ _ Ht Hin) as (_ & _ & Hhi).
    unfold covers in Hc. lia.
  - intros ->. reflexivity.
Qed.

(** C2, as the specification states it, fails: the total height of an
    interval is bounded only as the loop computes it.  The two rows of
    [tall_pair] have positive heights, [2^53] and [1]; with the budget
    [2^53] the plan is the one interval [(0, 1)], which has two rows and is
    [2^53 + 1] pixels high, more than the budget. *)
Lemma calculate_split_points_merges_past_budget :
  forallb (fun r => (0 <? height r)%float) tall_pair = true /\
  calculate_split_points_float tall_pair 9007199254740992 = [(0, 1)]%nat /\
  exact_height tall_pair 0 1 = Some 9007199254740993 /\
  exact_value 9007199254740992%float = Some 9007199254740992.
Proof. vm_compute. repeat split; reflexivity. Qed.

(** C2, amended.  In any arithmetic of heights, so for binary64: an
    interval of the plan with two rows or more has a running total, the sum
    of its heights as the loop adds them from left to right, that does not
    compare above [max_height].  In binary64, with heights that are not
    negative: a row that is by itself taller than [max_height] has its
    singleton interval in the plan, so it is neither merged with another row
    nor dropped.  With exact rationals and positive heights the total height
    of every interval is at most [max_height], unless the interval is the
    singleton of a row taller than [max_height]. *)
Theorem calculate_split_points_budget :
  (forall (H : Type) (hzero : H) (hadd : H -> H -> H) (hgtb : H -> H -> bool)
          (rows : list (RowInfo H)) (max_height : H) (s e : nat),
     In (s, e) (calculate_split_points hzero hadd hgtb rows max_height) ->
     (s < e)%nat ->
     hgtb (running_total hzero hadd rows s e) max_height = false) /\
  (forall (rows : list (RowInfo float)) (max_height : float),
     (forall r, In r rows -> (0 <=? height r)%float = true) ->
     forall j r, nth_error rows j = Some r ->
       (max_height <? height r)%float = true ->
       In (j, j) (calculate_split_points_float rows max_height)) /\
  (forall (rows : list (RowInfo Q)) (max_height : Q),
     (forall r, In r rows -> 0 < height r) ->
     let plan := calculate_split_points_Q rows max_height in
     (forall s e, In (s, e) plan ->
        interval_height rows s e <= max_height \/
        (s = e /\ exists r, nth_error rows s = Some r /\ max_height < height r)) /\
     (forall i r, nth_error rows i = Some r -> max_height < height r ->
        In (i, i) plan)).
Proof.
  split; [|split].
  - intros H hzero hadd hgtb rows max_height.
    apply (calculate_split_points_running hzero hadd hgtb rows max_height).
  - intros rows max_height Hrows j r Hr Hbig.
    now apply calculate_split_points_float_overtall with (r := r).
  - intros rows max_height Hpos plan.
    assert (Hnn : forall r, In r rows -> 0 <= height r).
    { intros r Hr. apply Qlt_le_weak. now apply Hpos. }
    destruct (@calculate_split_points_Q_budget rows max_height Hnn) as [Hb Ht].
    split.
    + intros s e Hin. exact (Hb (s, e) Hin).
    + exact Ht.
Qed.

Lemma four_rows_nonneg r : In r four_rows -> 0 <= height r.
Proof.
  intros Hr. simpl in Hr.
  repeat (destruct Hr as [<- | Hr]; [simpl; lra|]). destruct Hr.
Qed.

Lemma calculate_split_points_budget_witness :
  In (2, 2)%nat (calculate_split_points_float four_float_rows 100).
Proof.
  destruct calculate_split_points_budget as (_ & Hfloat & _).
  apply (Hfloat four_float_rows 100%float) with (r := float_row 2 80.5 120.25).
  - intros r Hr. simpl in Hr.
    repeat (destruct Hr as [<- | Hr]; [vm_compute; reflexivity|]). destruct Hr.
  - reflexivity.
  - vm_compute. reflexivity.
Defined.

(** ** 1.8 Further properties of the plan: greedy groups *)

(** X1. Greedy groups, in any arithmetic of heights: a part of the plan
    that is not the last one was closed because the row that follows it did
    not fit; the running total of the part plus the height of that row
    compares above the budget. *)
Theorem calculate_split_points_greedy
  (H : Type) (hzero : H) (hadd : H -> H -> H) (hgtb : H -> H -> bool)
  (rows : list (RowInfo H)) (max_height : H) (s e : nat) :
  In (s, e) (calculate_split_points hzero hadd hgtb rows max_height) ->
  (S e < length rows)%nat ->
  exists r, nth_error rows (S e) = Some r /\
    hgtb (hadd (running_total hzero hadd rows s e) (height r)) max_height = true.
Proof.
  intros Hin Hlast.
  exact (proj2 (calculate_split_points_running hzero hadd hgtb rows max_height)
           s e Hin Hlast).
Qed.

Lemma calculate_split_points_greedy_witness :
  exists r, nth_error four_float_rows 2 = Some r /\
    float_gt (running_total 0%float add four_float_rows 0 1 + height r)%float 100
    = true.
Proof.
  apply (@calculate_split_points_greedy float 0%float add float_gt
           four_float_rows 100%float 0%nat 1%nat).
  - vm_compute. auto.
  - simpl. lia.
Defined.

(** X2. A table is not split exactly when it fits as the loop adds it up:
    in any arithmetic of heights, the plan of a table with rows is the single
    interval of all rows if and only if no running total of the first two
    rows or more compares above the budget. *)
Theorem calculate_split_points_single_part
  (H : Type) (hzero : H) (hadd : H -> H -> H) (hgtb : H -> H -> bool)
  (rows : list (RowInfo H)) (max_height : H) :
  rows <> [] ->
  (calculate_split_points hzero hadd hgtb rows max_height
   = [(0, length rows - 1)]%nat
   <->
   forall j, (0 < j < length rows)%nat ->
     hgtb (running_total hzero hadd rows 0 j) max_height = false).
Proof.
  intros Hne.
  exact (@calculate_split_points_one_part H hzero hadd hgtb rows max_height Hne).
Qed.

Lemma calculate_split_points_single_part_witness :
  calculate_split_points_float four_float_rows 220.75 = [(0, 3)]%nat.
Proof.
  apply (@calculate_split_points_single_part float 0%float add float_gt
           four_float_rows 220.75%float).
  - discriminate.
  - intros j Hj. simpl in Hj.
    assert (Hcases : j = 1%nat \/ j = 2%nat \/ j = 3%nat) by lia.
    destruct Hcases as [-> | [-> | ->]]; vm_compute; reflexivity.
Defined.

(** X3. Fewest parts.  For Python floats: when no height is negative (nor
    NaN), any way of cutting the rows into consecutive intervals whose
    running totals, for the intervals of two rows or more, do not compare
    above the budget, has at least as many intervals as the plan; the rounded
    addition of binary64 is monotone.  The same holds in every ordered
    arithmetic of heights, that is where the numbers that are not negative
    ([ok]) have an order [hle] under which the addition is monotone and no
    smaller than its terms, and where what is above the budget stays above it
    when it grows; exact arithmetic is one. *)
Theorem calculate_split_points_fewest_parts :
  (forall (rows : list (RowInfo float)) (max_height : float)
          (plan : list (nat * nat)),
     (forall r, In r rows -> (0 <=? height r)%float = true) ->
     tiles 0 plan (length rows) ->
     (forall s e, In (s, e) plan -> (s < e)%nat ->
        (max_height <? running_total 0%float add rows s e)%float = false) ->
     (length (calculate_split_points_float rows max_height) <= length plan)%nat) /\
  (forall (H : Type) (hzero : H) (hadd : H -> H -> H) (hgtb : H -> H -> bool)
          (rows : list (RowInfo H)) (max_height : H)
          (ok : H -> Prop) (hle : H -> H -> Prop) (plan : list (nat * nat)),
     ok hzero ->
     (forall a b, ok a -> ok b -> ok (hadd a b)) ->
     (forall a, ok a -> hle a a) ->
     (forall a b c, hle a b -> hle b c -> hle a c) ->
     (forall a a' h, ok a -> ok a' -> ok h -> hle a a' ->
        hle (hadd a h) (hadd a' h)) ->
     (forall a h, ok a -> ok h -> hle a (hadd a h)) ->
     (forall a h, ok a -> ok h -> hle h (hadd a h)) ->
     (forall a b, hle a b -> hgtb a max_height = true -> hgtb b max_height = true) ->
     (forall r, In r rows -> ok (height r)) ->
     tiles 0 plan (length rows) ->
     (forall s e, In (s, e) plan -> (s < e)%nat ->
        hgtb (running_total hzero hadd rows s e) max_height = false) ->
     (length (calculate_split_points hzero hadd hgtb rows max_height)
      <= length plan)%nat).
Proof.
  split.
  - intros rows max_height plan Hrows Htiles Hfits.
    exact (@calculate_split_points_float_shortest rows max_height plan
             Hrows Htiles Hfits).
  - intros H hzero hadd hgtb rows max_height ok hle plan
           Hzero Hadd Hrefl Htrans Hmono Hgel Hger Habove Hrows Htiles Hfits.
    exact (@calculate_split_points_shortest H hzero hadd hgtb rows max_height
             ok hle Hzero Hadd Hrefl Htrans Hmono Hgel Hger Habove Hrows plan
             Htiles Hfits).
Qed.

Lemma calculate_split_points_fewest_parts_witness :
  (length (calculate_split_points_float four_float_rows 130) <= 3)%nat.
Proof.
  apply (proj1 calculate_split_points_fewest_parts four_float_rows 130%float
           [(0, 1); (2, 2); (3, 3)]%nat).
  - intros r Hr. simpl in Hr.
    repeat (destruct Hr as [<- | Hr]; [vm_compute; reflexivity|]). destruct Hr.
  - simpl. lia.
  - intros s e Hin Hse. simpl in Hin.
    destruct Hin as [Heq | [Heq | [Heq | []]]]; inversion Heq; subst s e;
      try lia.
    vm_compute. reflexivity.
Defined.

Close Scope Q_scope.

End Split.

(* ===================================================================== *)
(** * 2. The layout-stability check ([html2img.py], [within_5pct]) *)
(* ===================================================================== *)

Module Stability.

(** The check with exact rationals for the measurements: the arithmetic of
    the engine the renderers are run on below.  The check on Python floats
    is [Stability64]. *)
Open Scope Q_scope.

(** One entry of a [MEASURE_JS] snapshot: the dict with keys ["w"], ["h"]. *)
Record CellMetric : Type := mkCell { w : Q; h : Q }.

(** Python's [max(a, b)] on two numbers: [b] when [b > a], else [a]. *)
Definition py_max (a b : Q) : Q := if Qle_bool b a then a else b.

(** The test of the loop body:
    [lo <= rw <= hi and lo <= rh <= hi]. *)
Definition cell_within (lo hi : Q) (b c : CellMetric) : bool :=
  let bw := py_max (1 # 100) (w b) in
  let bh := py_max (1 # 100) (h b) in
  let rw := w c / bw in
  let rh := h c / bh in
  (Qle_bool lo rw && Qle_bool rw hi) && (Qle_bool lo rh && Qle_bool rh hi).

(** [for b, c in zip(base, cur)], leaving at the first failing cell. *)
Fixpoint cells_within (lo hi : Q) (pairs : list (CellMetric * CellMetric)) : bool :=
  match pairs with
  | [] => true
  | (b, c) :: rest =>
      if negb (cell_within lo hi b c) then false else cells_within lo hi rest
  end.

Definition within_5pct (base cur : list CellMetric) (tol : Q) : bool :=
  if negb (length base =? length cur)%nat then false
  else cells_within (1 - tol) (1 + tol) (combine base cur).

(** The band of the specification, on a ratio. *)
Definition in_band (tol r : Q) : Prop := 1 - tol <= r /\ r <= 1 + tol.

(** Width and height ratio of a cell against its baseline. *)
Definition width_ratio (b c : CellMetric) : Q := w c / py_max (1 # 100) (w b).
Definition height_ratio (b c : CellMetric) : Q := h c / py_max (1 # 100) (h b).

(** A snapshot from its pairs of width and height. *)
Definition snapshot (l : list (Q * Q)) : list CellMetric :=
  map (fun p => mkCell (fst p) (snd p)) l.

Lemma py_max_floor x : 1 # 100 <= py_max (1 # 100) x.
Proof.
  unfold py_max. destruct (Qle_bool x (1 # 100)) eqn:E; [lra|].
  destruct (Qlt_le_dec (1 # 100) x) as [Hlt | Hle]; [lra|].
  apply Qle_bool_iff in Hle. congruence.
Qed.

Lemma cell_within_spec tol b c :
  cell_within (1 - tol) (1 + tol) b c = true <->
  in_band tol (width_ratio b c) /\ in_band tol (height_ratio b c).
Proof.
  unfold cell_within, in_band, width_ratio, height_ratio. cbv zeta.
  rewrite !andb_true_iff, !Qle_bool_iff. tauto.
Qed.

Lemma cells_within_spec tol pairs :
  cells_within (1 - tol) (1 + tol) pairs = true <->
  forall b c, In (b, c) pairs ->
    in_band tol (width_ratio b c) /\ in_band tol (height_ratio b c).
Proof.
  induction pairs as [|[b c] rest IH]; simpl.
  - split; [intros _ b c [] | reflexivity].
  - destruct (cell_within (1 - tol) (1 + tol) b c) eqn:E; simpl.
    + rewrite IH. apply cell_within_spec in E. split.
      * intros Hrest b' c' [Heq | Hin]; [inversion Heq; subst; exact E | auto].
      * intros Hall b' c' Hin. apply Hall. now right.
    + split; [discriminate|]. intros Hall.
      assert (Hbc : cell_within (1 - tol) (1 + tol) b c = true).
      { apply cell_within_spec. apply Hall. now left. }
      congruence.
Qed.

Lemma in_combine_nth (A B : Type) (l1 : list A) (l2 : list B) a b :
  In (a, b) (combine l1 l2) <->
  exists i, nth_error l1 i = Some a /\ nth_error l2 i = Some b.
Proof.
  revert l2. induction l1 as [|x l1 IH]; intros [|y l2]; simpl.
  - split; [intros [] | intros ([|i] & Hi & _); discriminate].
  - split; [intros [] | intros ([|i] & Hi & _); discriminate].
  - split; [intros [] | intros ([|i] & _ & Hi); discriminate].
  - rewrite IH. split.
    + intros [Heq | (i & H1 & H2)].
      * inversion Heq; subst. exists 0%nat. auto.
      * exists (S i). auto.
    + intros ([|i] & H1 & H2); simpl in *.
      * left. congruence.
      * right. eauto.
Qed.

Example accepted_snapshot :
  within_5pct (snapshot [(100, 20); (50, 20)])
              (snapshot [(104, 20); (48, 21)]) (5 # 100) = true.
Proof. reflexivity. Qed.

Example rejected_snapshot :
  within_5pct (snapshot [(100, 20); (50, 20)])
              (snapshot [(100, 20); (50, 22)]) (5 # 100) = false.
Proof. reflexivity. Qed.

Example rejected_cell_count :
  within_5pct (snapshot [(100, 20); (50, 20)])
              (snapshot [(100, 20)]) (5 # 100) = false.
Proof. reflexivity. Qed.

Example collapsed_baseline_cell :
  within_5pct (snapshot [(0, 0)]) (snapshot [(0, 0)]) (5 # 100) = false.
Proof. reflexivity. Qed.

(** ** Further properties of the check *)

Lemma within_5pct_cells base cur tol :
  within_5pct base cur tol = true <->
  length base = length cur /\
  forall b c, In (b, c) (combine base cur) ->
    in_band tol (width_ratio b c) /\ in_band tol (height_ratio b c).
Proof.
  unfold within_5pct.
  destruct (Nat.eqb_spec (length base) (length cur)) as [Heq | Hne]; simpl.
  - rewrite cells_within_spec. tauto.
  - split; [discriminate | intros [Heq _]; contradiction].
Qed.

(** X4. A wider tolerance accepts whatever a narrower one accepts. *)
Theorem within_5pct_monotone (base cur : list CellMetric) (tol tol' : Q) :
  tol <= tol' ->
  within_5pct base cur tol = true ->
  within_5pct base cur tol' = true.
Proof.
  intros Hle H. apply within_5pct_cells in H. destruct H as [Hlen Hall].
  apply within_5pct_cells. split; [exact Hlen|].
  intros b c Hin. destruct (Hall b c Hin) as [[H1 H2] [H3 H4]].
  unfold in_band. repeat split; lra.
Qed.

Lemma within_5pct_monotone_witness :
  within_5pct (snapshot [(100, 20); (50, 20)])
              (snapshot [(104, 20); (48, 21)]) (10 # 100) = true.
Proof.
  apply (@within_5pct_monotone _ _ (5 # 100) (10 # 100)).
  - lra.
  - reflexivity.
Defined.

(** X5. A cell that is measured with width zero or height zero fails the
    check against every baseline, for every tolerance below 1. *)
Theorem within_5pct_rejects_empty_cell (base cur : list CellMetric) (tol : Q)
  (i : nat) (c : CellMetric) :
  tol < 1 ->
  nth_error cur i = Some c ->
  w c == 0 \/ h c == 0 ->
  within_5pct base cur tol = false.
Proof.
  intros Htol Hc Hzero.
  destruct (within_5pct base cur tol) eqn:E; [exfalso | reflexivity].
  apply within_5pct_cells in E. destruct E as [Hlen Hall].
  assert (Hi : (i < length base)%nat).
  { rewrite Hlen. apply nth_error_Some. congruence. }
  destruct (nth_error base i) as [b|] eqn:Hb;
    [|apply nth_error_None in Hb; lia].
  destruct (Hall b c) as [[Hw _] [Hh _]].
  { apply in_combine_nth. eauto. }
  unfold width_ratio, height_ratio in *.
  destruct Hzero as [Hz | Hz]; rewrite Hz in *.
  - assert (H0 : 0 / py_max (1 # 100) (w b) == 0) by (unfold Qdiv; lra).
    rewrite H0 in Hw. lra.
  - assert (H0 : 0 / py_max (1 # 100) (h b) == 0) by (unfold Qdiv; lra).
    rewrite H0 in Hh. lra.
Qed.

Lemma within_5pct_rejects_empty_cell_witness :
  within_5pct (snapshot [(100, 20); (0, 20)])
              (snapshot [(100, 20); (0, 20)]) (5 # 100) = false.
Proof.
  apply (@within_5pct_rejects_empty_cell _ _ (5 # 100) 1%nat (mkCell 0 20)).
  - lra.
  - reflexivity.
  - left. reflexivity.
Defined.

Close Scope Q_scope.

End Stability.

(** ** The check on binary64

    [within_5pct] converts every measurement with [float(...)], so it
    computes on binary64: [-], [+] and [/] round to nearest, [<=] and [>]
    compare floats, and [0.01] is the float nearest to a hundredth.  A
    division by zero raises [ZeroDivisionError]: the result is an option. *)
Module Stability64.

Import PrimFloat.

(** Decimal literals stand for the nearest float, as in Python. *)
#[local] Set Warnings "-inexact-float".

(** One entry of a [MEASURE_JS] snapshot, after [float(...)]. *)
Record CellMetric : Type := mkCell { w : float; h : float }.

(** [0.01] *)
Definition hundredth : float := 0.01%float.

(** Python's [max(a, b)] on two floats: [b] when [b > a], else [a]. *)
Definition py_max (a b : float) : float := if (a <? b)%float then b else a.

(** [a / b] on floats, [None] for [ZeroDivisionError]. *)
Definition truediv (a b : float) : option float :=
  if (b =? 0)%float then None else Some (a / b)%float.

(** The body of the loop: the four ratios' test
    [lo <= rw <= hi and lo <= rh <= hi], after the two divisions. *)
Definition cell_within (lo hi : float) (b c : CellMetric) : option bool :=
  let bw := py_max hundredth (w b) in
  let bh := py_max hundredth (h b) in
  match truediv (w c) bw with
  | None => None
  | Some rw =>
      match truediv (h c) bh with
      | None => None
      | Some rh =>
          Some (((lo <=? rw) && (rw <=? hi)) && ((lo <=? rh) && (rh <=? hi)))%float
      end
  end.

(** [for b, c in zip(base, cur)], leaving at the first failing cell. *)
Fixpoint cells_within (lo hi : float) (pairs : list (CellMetric * CellMetric))
  : option bool :=
  match pairs with
  | [] => Some true
  | (b, c) :: rest =>
      match cell_within lo hi b c with
      | None => None
      | Some inside => if negb inside then Some false else cells_within lo hi rest
      end
  end.

Definition within_5pct (base cur : list CellMetric) (tol : float) : option bool :=
  if negb (length base =? length cur) then Some false
  else cells_within (1 - tol)%float (1 + tol)%float (combine base cur).

(** A snapshot from its pairs of width and height. *)
Definition snapshot (l : list (float * float)) : list CellMetric :=
  map (fun p => mkCell (fst p) (snd p)) l.

Example accepted_float_snapshot :
  within_5pct (snapshot [(100, 20); (50, 20)]%float)
              (snapshot [(104, 20); (48, 21)]%float) 0.05
  = Some true.
Proof. vm_compute. reflexivity. Qed.

(** [42.84 / 40.8] is [1.0500000000000003], above [1.0 + 0.05]. *)
Example rejected_rounded_ratio :
  within_5pct [mkCell 40.8 20] [mkCell 42.84 20]
    0.05
  = Some false.
Proof. vm_compute. reflexivity. Qed.

Example rejected_float_cell_count :
  within_5pct (snapshot [(100, 20); (50, 20)]%float)
              (snapshot [(100, 20)]%float) 0.05
  = Some false.
Proof. vm_compute. reflexivity. Qed.

(** A collapsed baseline cell is floored: the divisor is [0.01]. *)
Example collapsed_float_cell :
  within_5pct [mkCell 0 0] [mkCell 0 0] 0.05 = Some false.
Proof. vm_compute. reflexivity. Qed.

(** [0.0095 / 0.01] and [1.0 - 0.05] both round to the float [0.95]. *)
Example narrow_cell_against_itself :
  within_5pct [mkCell 0.0095 20] [mkCell 0.0095 20] 0.05 = Some true.
Proof. vm_compute. reflexivity. Qed.

(** The floored baseline is never zero. *)
Lemma py_max_hundredth_nonzero x : (py_max hundredth x =? 0)%float = false.
Proof.
  unfold py_max. destruct (hundredth <? x)%float eqn:E; [|reflexivity].
  rewrite FloatAxioms.ltb_spec in E. rewrite FloatAxioms.eqb_spec.
  destruct (FloatOps.Prim2SF x) as [s|s| |s m e];
    try destruct s; vm_compute in E |- *; congruence.
Qed.

Lemma truediv_floored a x :
  truediv a (py_max hundredth x) = Some (a / py_max hundredth x)%float.
Proof. unfold truediv. now rewrite py_max_hundredth_nonzero. Qed.

Lemma py_max_hundredth_cases x :
  ((hundredth <? x)%float = true /\ py_max hundredth x = x) \/
  ((hundredth <? x)%float = false /\ py_max hundredth x = hundredth).
Proof. unfold py_max. destruct (hundredth <? x)%float; auto. Qed.

Lemma cell_within_float lo hi b c :
  cell_within lo hi b c
  = Some (((lo <=? w c / py_max hundredth (w b))
           && (w c / py_max hundredth (w b) <=? hi))
          && ((lo <=? h c / py_max hundredth (h b))
              && (h c / py_max hundredth (h b) <=? hi)))%float.
Proof. unfold cell_within. cbv zeta. now rewrite !truediv_floored. Qed.

Lemma cells_within_float lo hi pairs :
  exists verdict,
    cells_within lo hi pairs = Some verdict /\
    (verdict = true <->
     forall b c, In (b, c) pairs ->
       (((lo <=? w c / py_max hundredth (w b))
         && (w c / py_max hundredth (w b) <=? hi))
        && ((lo <=? h c / py_max hundredth (h b))
            && (h c / py_max hundredth (h b) <=? hi)))%float = true).
Proof.
  induction pairs as [|[b c] rest IH]; simpl.
  - exists true. split; [reflexivity|]. split; [intros _ b c [] | reflexivity].
  - rewrite cell_within_float.
    destruct ((((lo <=? w c / py_max hundredth (w b))
                && (w c / py_max hundredth (w b) <=? hi))
               && ((lo <=? h c / py_max hundredth (h b))
                   && (h c / py_max hundredth (h b) <=? hi)))%float) eqn:E; simpl.
    + destruct IH as (v & Hv & Hiff). exists v. split; [exact Hv|].
      rewrite Hiff. split.
      * intros Hrest b' c' [Heq | Hin]; [inversion Heq; subst; exact E | auto].
      * intros Hall b' c' Hin. apply Hall. now right.
    + exists false. split; [reflexivity|]. split; [discriminate|].
      intros Hall. rewrite <- E. apply Hall. now left.
Qed.

(** C3. On binary64, as the program computes: [within_5pct base cur tol]
    always returns, without an exception (the divisor is never zero), and
    it returns [True] exactly when the snapshots have equal length and, for
    every cell, the width ratio and the height ratio, that is the current
    value divided by the baseline value floored at [0.01] (the baseline
    itself when it compares above [0.01], else [0.01]), are at least
    [1 - tol] and at most [1 + tol]; the differences, sums, quotients and
    comparisons are those of the floats.  A length mismatch gives [False]. *)
Theorem within_5pct_spec (base cur : list CellMetric) (tol : float) :
  (exists verdict, within_5pct base cur tol = Some verdict) /\
  (within_5pct base cur tol = Some true <->
     length base = length cur /\
     forall i b c, nth_error base i = Some b -> nth_error cur i = Some c ->
       exists bw bh,
         (((0.01 <? w b)%float = true /\ bw = w b) \/
          ((0.01 <? w b)%float = false /\ bw = 0.01%float)) /\
         (((0.01 <? h b)%float = true /\ bh = h b) \/
          ((0.01 <? h b)%float = false /\ bh = 0.01%float)) /\
         (1 - tol <=? w c / bw)%float = true /\
         (w c / bw <=? 1 + tol)%float = true /\
         (1 - tol <=? h c / bh)%float = true /\
         (h c / bh <=? 1 + tol)%float = true) /\
  (length base <> length cur -> within_5pct base cur tol = Some false).
Proof.
  unfold within_5pct.
  destruct (cells_within_float (1 - tol)%float (1 + tol)%float (combine base cur))
    as (v & Hv & Hiff).
  split; [|split].
  - destruct (negb (length base =? length cur)); eauto.
  - destruct (Nat.eqb_spec (length base) (length cur)) as [Heq | Hne]; simpl.
    + rewrite Hv. split.
      * intros Htrue. assert (Hvt : v = true) by congruence.
        split; [exact Heq|]. intros i b c Hb Hc.
        assert (Hin : In (b, c) (combine base cur)).
        { apply Stability.in_combine_nth. eauto. }
        pose proof (proj1 Hiff Hvt b c Hin) as Hcell.
        rewrite !andb_true_iff in Hcell.
        destruct Hcell as [[H1 H2] [H3 H4]].
        exists (py_max hundredth (w b)), (py_max hundredth (h b)).
        split; [exact (py_max_hundredth_cases (w b))|].
        split; [exact (py_max_hundredth_cases (h b))|]. auto.
      * intros [_ Hall]. f_equal. apply Hiff. intros b c Hin.
        apply Stability.in_combine_nth in Hin. destruct Hin as (i & Hb & Hc).
        destruct (Hall i b c Hb Hc)
          as (bw & bh & Hbw & Hbh & H1 & H2 & H3 & H4).
        assert (Ew : bw = py_max hundredth (w b)).
        { unfold py_max. change hundredth with 0.01%float.
          destruct Hbw as [[E ->] | [E ->]]; now rewrite E. }
        assert (Eh : bh = py_max hundredth (h b)).
        { unfold py_max. change hundredth with 0.01%float.
          destruct Hbh as [[E ->] | [E ->]]; now rewrite E. }
        subst bw bh. rewrite H1, H2, H3, H4. reflexivity.
    + split; [discriminate | intros [Heq _]; contradiction].
  - intros Hne.
    destruct (Nat.eqb_spec (length base) (length cur)); [contradiction|].
    reflexivity.
Qed.

Lemma within_5pct_spec_witness :
  within_5pct (snapshot [(100, 20)]%float)
              (snapshot [(100, 20); (50, 20)]%float) 0.05
  = Some false.
Proof.
  apply (proj2 (proj2 (within_5pct_spec (snapshot [(100, 20)]%float)
                         (snapshot [(100, 20); (50, 20)]%float) 0.05))).
  simpl. lia.
Defined.

(** ** A snapshot against itself *)

(** A float above [0.01] and below infinity is finite and not zero. *)
Lemma finite_above_hundredth x :
  (0.01 <? x)%float = true -> (x <? infinity)%float = true ->
  exists m e, FloatOps.Prim2SF x = SpecFloat.S754_finite false m e.
Proof.
  rewrite !FloatAxioms.ltb_spec.
  destruct (FloatOps.Prim2SF x) as [s|s| |s m e]; try destruct s;
    intros H1 H2; vm_compute in H1, H2; try discriminate.
  eauto.
Qed.

Definition measured (c : CellMetric) : Prop :=
  (0.01 <? w c)%float = true /\ (w c <? infinity)%float = true /\
  (0.01 <? h c)%float = true /\ (h c <? infinity)%float = true.

Lemma cell_within_self lo hi c :
  measured c ->
  cell_within lo hi c c = Some ((lo <=? 1) && (1 <=? hi))%float.
Proof.
  intros (Hw & Hwf & Hh & Hhf). rewrite cell_within_float.
  unfold py_max. change hundredth with 0.01%float. rewrite Hw, Hh.
  destruct (finite_above_hundredth Hw Hwf) as (mw & ew & Ew).
  destruct (finite_above_hundredth Hh Hhf) as (mh & eh & Eh).
  rewrite (Binary64.div_self _ Ew), (Binary64.div_self _ Eh).
  destruct (lo <=? 1)%float, (1 <=? hi)%float; reflexivity.
Qed.

Lemma cells_within_self lo hi cells :
  (forall c, In c cells -> measured c) ->
  cells_within lo hi (combine cells cells)
  = Some (match cells with
          | [] => true
          | _ :: _ => ((lo <=? 1) && (1 <=? hi))%float
          end).
Proof.
  induction cells as [|c cells IH]; intros Hall; [reflexivity|].
  cbn [combine cells_within].
  rewrite cell_within_self by (apply Hall; now left).
  destruct ((lo <=? 1) && (1 <=? hi))%float; cbn [negb]; [|reflexivity].
  rewrite IH by (intros x Hx; apply Hall; now right).
  destruct cells; reflexivity.
Qed.

(** X6. A snapshot against itself, on binary64.  When every cell of a
    snapshot measures more than [0.01] and less than infinity in width and in
    height, each ratio of the snapshot to itself is the float [1.0]; the check
    of a snapshot that is not empty against itself then returns whether
    [1 - tol <= 1.0 <= 1 + tol], and the check of the empty snapshot returns
    [True]. *)
Theorem within_5pct_against_itself (cells : list CellMetric) (tol : float) :
  (forall c, In c cells ->
     (0.01 <? w c)%float = true /\ (w c <? infinity)%float = true /\
     (0.01 <? h c)%float = true /\ (h c <? infinity)%float = true) ->
  within_5pct cells cells tol
  = Some (match cells with
          | [] => true
          | _ :: _ => ((1 - tol <=? 1) && (1 <=? 1 + tol))%float
          end).
Proof.
  intros Hall. unfold within_5pct. rewrite Nat.eqb_refl. cbn [negb].
  apply cells_within_self. exact Hall.
Qed.

Lemma within_5pct_against_itself_witness :
  within_5pct (snapshot [(100, 20); (50, 20.5)]%float)
              (snapshot [(100, 20); (50, 20.5)]%float) 0.05
  = Some true.
Proof.
  apply (within_5pct_against_itself (snapshot [(100, 20); (50, 20.5)]%float) 0.05).
  intros c Hc. simpl in Hc.
  repeat (destruct Hc as [<- | Hc]; [vm_compute; auto|]). destruct Hc.
Defined.

End Stability64.

(* ===================================================================== *)
(** * 3. Python strings *)
(* ===================================================================== *)

(** A Python [str] is a sequence of Unicode code points.  This module gives
    the string methods the renderer calls, and the two regular expressions
    of the font extractor on a small backtracking matcher. *)
Module PyStr.

Open Scope N_scope.

Definition str : Type := list N.

(** *** Literals

    A literal is written as a Rocq string, which holds its UTF-8 bytes, and
    decoded to code points. *)
Fixpoint utf8_decode (bytes : list N) : str :=
  match bytes with
  | [] => []
  | b0 :: t0 =>
      if b0 <? 128 then b0 :: utf8_decode t0
      else match t0 with
      | [] => [b0]
      | b1 :: t1 =>
          if b0 <? 224
          then ((b0 mod 32) * 64 + b1 mod 64) :: utf8_decode t1
          else match t1 with
          | [] => [b0]
          | b2 :: t2 =>
              if b0 <? 240
              then ((b0 mod 16) * 4096 + (b1 mod 64) * 64 + b2 mod 64)
                     :: utf8_decode t2
              else match t2 with
              | [] => [b0]
              | b3 :: t3 =>
                  ((b0 mod 8) * 262144 + (b1 mod 64) * 4096
                   + (b2 mod 64) * 64 + b3 mod 64) :: utf8_decode t3
              end
          end
      end
  end.

Definition lit (s : string) : str :=
  utf8_decode (map N_of_ascii (list_ascii_of_string s)).

(** The double quote, which a literal cannot hold. *)
Definition dq : str := [34].

(** *** Character classes *)

(** [str.isspace] on one code point, which is also what [\s] matches in a
    [str] pattern. *)
Definition is_space (c : N) : bool :=
  ((9 <=? c) && (c <=? 13)) || ((28 <=? c) && (c <=? 32))
  || (c =? 133) || (c =? 160) || (c =? 5760)
  || ((8192 <=? c) && (c <=? 8202))
  || (c =? 8232) || (c =? 8233) || (c =? 8239) || (c =? 8287) || (c =? 12288).

(** [str.lower] on one code point.  An ASCII capital maps to its small
    letter; U+0130 (capital I with dot above) is the one code point whose
    lower case is two code points long, and U+212A (the Kelvin sign) the one
    other code point whose lower case is an ASCII letter.  The remaining
    cased letters map inside the non-ASCII range, one code point to one, and
    no comparison in this program can see them: they are left in place. *)
Definition lower_cp (c : N) : list N :=
  if (65 <=? c) && (c <=? 90) then [c + 32]
  else if c =? 304 then [105; 775]
  else if c =? 8490 then [107]
  else [c].

(** *** Methods *)

Definition lower (s : str) : str := flat_map lower_cp s.

Fixpoint lstrip (s : str) : str :=
  match s with
  | c :: s' => if is_space c then lstrip s' else s
  | [] => []
  end.

Definition rstrip (s : str) : str := rev (lstrip (rev s)).

Definition strip (s : str) : str := rstrip (lstrip s).

Fixpoint startswith (s prefix : str) : bool :=
  match prefix, s with
  | [], _ => true
  | p :: prefix', c :: s' => (c =? p) && startswith s' prefix'
  | _ :: _, [] => false
  end.

(** [a == b] *)
Fixpoint str_eqb (a b : str) : bool :=
  match a, b with
  | [], [] => true
  | x :: a', y :: b' => (x =? y) && str_eqb a' b'
  | _, _ => false
  end.

(** [s.find(sub)], with [None] for Python's [-1]. *)
Fixpoint find (s sub : str) : option nat :=
  if startswith s sub then Some O
  else match s with
       | [] => None
       | _ :: s' => option_map S (find s' sub)
       end.

(** [sub in s] *)
Definition contains (s sub : str) : bool :=
  match find s sub with Some _ => true | None => false end.

(** [s.replace(a, b)] for one-character [a] and [b]. *)
Definition replace_char (a b : N) (s : str) : str :=
  map (fun c => if c =? a then b else c) s.

(** Number of positions of [s] at which [sub] occurs ([sub] not empty). *)
Fixpoint occurrences (s sub : str) : nat :=
  match s with
  | [] => O
  | _ :: s' => ((if startswith s sub then 1 else 0) + occurrences s' sub)%nat
  end.

(** Python's truth value of a string. *)
Definition nonempty (s : str) : bool :=
  match s with [] => false | _ :: _ => true end.

(** *** Regular expressions

    The patterns of this program are sequences of character classes, each
    taken once, or repeated greedily ([*], [+]); one run of items is the
    capturing group.  [match_items] tries the alternatives in the order of
    Python's backtracking matcher (the longest repetition first) and returns
    the text of the group for the first that succeeds. *)
Inductive quant : Type := One | Star | Plus | Lazy.

Record item : Type := mkItem {
  cls : N -> bool;
  rep : quant;
  grp : bool
}.

(** A match: the text of the group and the input left after the match. *)
Definition matched : Type := (str * str)%type.

Definition keep (g : bool) (c : N) (r : matched) : matched :=
  if g then (c :: fst r, snd r) else r.

(** Greedy repetition: one more character first, the rest of the pattern
    as soon as that fails. *)
Fixpoint match_star (cl : N -> bool) (g : bool) (k : str -> option matched)
  (s : str) : option matched :=
  match s with
  | c :: s' =>
      if cl c
      then match match_star cl g k s' with
           | Some r => Some (keep g c r)
           | None => k s
           end
      else k s
  | [] => k s
  end.

(** Lazy repetition ([*?]): the rest of the pattern first, one more
    character when that fails. *)
Fixpoint match_lazy (cl : N -> bool) (g : bool) (k : str -> option matched)
  (s : str) : option matched :=
  match k s with
  | Some r => Some r
  | None =>
      match s with
      | c :: s' =>
          if cl c then option_map (keep g c) (match_lazy cl g k s') else None
      | [] => None
      end
  end.

Fixpoint match_items (items : list item) (s : str) : option matched :=
  match items with
  | [] => Some ([], s)
  | it :: rest =>
      match rep it with
      | One =>
          match s with
          | c :: s' =>
              if cls it c
              then option_map (keep (grp it) c) (match_items rest s')
              else None
          | [] => None
          end
      | Star => match_star (cls it) (grp it) (match_items rest) s
      | Plus =>
          match s with
          | c :: s' =>
              if cls it c
              then option_map (keep (grp it) c)
                     (match_star (cls it) (grp it) (match_items rest) s')
              else None
          | [] => None
          end
      | Lazy => match_lazy (cls it) (grp it) (match_items rest) s
      end
  end.

(** The group of the leftmost match: [re.findall(p, s)[0]] when the list is
    not empty, [None] when it is. *)
Fixpoint re_first (items : list item) (s : str) : option str :=
  match match_items items s with
  | Some r => Some (fst r)
  | None =>
      match s with
      | [] => None
      | _ :: s' => re_first items s'
      end
  end.

(** [re.sub(p, '', s)] for a pattern that matches no empty text: every
    match, from the left, is deleted and the scan goes on after it. *)
Fixpoint re_delete (fuel : nat) (items : list item) (s : str) : str :=
  match fuel with
  | O => s
  | S fuel' =>
      match match_items items s with
      | Some r => re_delete fuel' items (snd r)
      | None =>
          match s with
          | [] => []
          | c :: s' => c :: re_delete fuel' items s'
          end
      end
  end.

Definition re_sub_delete (items : list item) (s : str) : str :=
  re_delete (S (length s)) items s.

(** [s.split(sep)] and [sep.join(parts)] for a one-character [sep]. *)
Fixpoint split_on (sep : N) (s : str) : list str :=
  match s with
  | [] => [[]]
  | c :: s' =>
      if c =? sep then [] :: split_on sep s'
      else match split_on sep s' with
           | first :: others => (c :: first) :: others
           | [] => [[c]]
           end
  end.

Fixpoint join_with (sep : N) (parts : list str) : str :=
  match parts with
  | [] => []
  | [part] => part
  | part :: others => part ++ sep :: join_with sep others
  end.

(** A pattern character under [re.IGNORECASE]: the character itself, the
    other case of an ASCII letter, and for [i] also U+0130 and U+0131. *)
Definition ignorecase_eq (p c : N) : bool :=
  (c =? p)
  || ((97 <=? p) && (p <=? 122) && (c =? p - 32))
  || ((p =? 105) && ((c =? 304) || (c =? 305))).

Definition literal_ignorecase (s : str) : list item :=
  map (fun p => mkItem (ignorecase_eq p) One false) s.

Definition one_of (chars : str) (c : N) : bool := existsb (N.eqb c) chars.
Definition none_of (chars : str) (c : N) : bool := negb (one_of chars c).

Close Scope N_scope.

End PyStr.

(* ===================================================================== *)
(** * 4. Font extraction and document wrapping *)
(* ===================================================================== *)

Module Wrapper.

Import PyStr.

(** ** 4.1 Constants *)

Definition DEFAULT_KOREAN_FONTS : str :=
  lit "'Malgun Gothic', '맑은 고딕', "
  ++ lit "'Apple SD Gothic Neo', "
  ++ lit "'Noto Sans KR', "
  ++ lit "'NanumGothic', '나눔고딕', "
  ++ lit "'Dotum', '돋움', "
  ++ lit "'Gulim', '굴림', "
  ++ lit "sans-serif".

(** The newline of the triple-quoted templates. *)
Definition nl : str := [10%N].

(** ** 4.2 [extract_font_family_from_html] *)

Definition ws_star : item := mkItem is_space Star false.

(** The CSS-block form [font-family\s*:\s*([^;}{]+)[;}]]. *)
Definition css_block_pattern : list item :=
  literal_ignorecase (lit "font-family")
  ++ [ws_star; mkItem (N.eqb 58) One false; ws_star;
      mkItem (none_of (lit ";}{")) Plus true;
      mkItem (one_of (lit ";}")) One false].

(** The inline form: [font-family], spaces, [=], spaces, a quote of either
    kind, one or more characters that are not a quote (the group), a quote. *)
Definition inline_pattern : list item :=
  literal_ignorecase (lit "font-family")
  ++ [ws_star; mkItem (N.eqb 61) One false; ws_star;
      mkItem (one_of (lit "'" ++ dq)) One false;
      mkItem (none_of (lit "'" ++ dq)) Plus true;
      mkItem (one_of (lit "'" ++ dq)) One false].

Definition patterns : list (list item) := [css_block_pattern; inline_pattern].

(** The body of [for pattern in patterns]. *)
Fixpoint extract_loop (pats : list (list item)) (html_content : str) : option str :=
  match pats with
  | [] => None
  | pattern :: rest =>
      match re_first pattern html_content with
      | Some m0 =>
          let font_family := strip (replace_char 34 39 (strip m0)) in
          if nonempty font_family then Some font_family
          else extract_loop rest html_content
      | None => extract_loop rest html_content
      end
  end.

Definition extract_font_family_from_html (html_content : str) : option str :=
  extract_loop patterns html_content.

(** ** 4.3 [wrap_table_fragment] and [wrap_html_document] *)

(** [font_css]: the extracted family first when there is one (an empty
    string counts as none), then the default stack. *)
Definition font_css (font_family : option str) : str :=
  match font_family with
  | Some f =>
      if nonempty f
      then lit "font-family: " ++ f ++ lit ", " ++ DEFAULT_KOREAN_FONTS ++ lit ";"
      else lit "font-family: " ++ DEFAULT_KOREAN_FONTS ++ lit ";"
  | None => lit "font-family: " ++ DEFAULT_KOREAN_FONTS ++ lit ";"
  end.

Definition font_override_style (css : str) : str :=
  lit "<style>" ++ nl
  ++ lit "    * { " ++ css ++ lit " !important; }" ++ nl
  ++ lit "    body { " ++ css ++ lit " }" ++ nl
  ++ lit "    table, th, td { " ++ css ++ lit " }" ++ nl
  ++ lit "  </style>".

(** [stripped.startswith('<!doctype') or stripped.startswith('<html')] *)
Definition looks_like_document (html : str) : bool :=
  let stripped := lower (strip html) in
  startswith stripped (lit "<!doctype") || startswith stripped (lit "<html").

(** The branch both wrappers share for an input that is already a
    document: the position is searched in the lowered text and used to cut
    the original text. *)
Definition insert_font_style (html style : str) : str :=
  if contains (lower html) (lit "</head>") then
    match find (lower html) (lit "</head>") with
    | Some insert_pos => firstn insert_pos html ++ style ++ skipn insert_pos html
    | None => html
    end
  else if contains (lower html) (lit "<body") then
    match find (lower html) (lit "<body") with
    | Some insert_pos =>
        firstn insert_pos html
        ++ (lit "<head>" ++ style ++ lit "</head>")
        ++ skipn insert_pos html
    | None => html
    end
  else html.

Definition wrap_table_fragment (table_html : str) (font_family : option str) : str :=
  let style := font_override_style (font_css font_family) in
  if looks_like_document table_html then insert_font_style table_html style
  else
    lit "<!doctype html>" ++ nl
    ++ lit "<html lang=" ++ dq ++ lit "ko" ++ dq ++ lit ">" ++ nl
    ++ lit "<head>" ++ nl
    ++ lit "  <meta charset=" ++ dq ++ lit "utf-8" ++ dq ++ lit " />" ++ nl
    ++ lit "  <meta name=" ++ dq ++ lit "viewport" ++ dq
    ++ lit " content=" ++ dq ++ lit "width=device-width, initial-scale=1" ++ dq
    ++ lit " />" ++ nl
    ++ lit "  <title>table</title>" ++ nl
    ++ lit "  " ++ style ++ nl
    ++ lit "</head>" ++ nl
    ++ lit "<body>" ++ nl
    ++ table_html ++ nl
    ++ lit "</body>" ++ nl
    ++ lit "</html>".

Definition wrap_html_document (html_content : str) (font_family : option str) : str :=
  let css := font_css font_family in
  let style := font_override_style css in
  if looks_like_document html_content then insert_font_style html_content style
  else
    lit "<!doctype html>" ++ nl
    ++ lit "<html lang=" ++ dq ++ lit "ko" ++ dq ++ lit ">" ++ nl
    ++ lit "<head>" ++ nl
    ++ lit "  <meta charset=" ++ dq ++ lit "utf-8" ++ dq ++ lit " />" ++ nl
    ++ lit "  <meta name=" ++ dq ++ lit "viewport" ++ dq
    ++ lit " content=" ++ dq ++ lit "width=device-width, initial-scale=1" ++ dq
    ++ lit " />" ++ nl
    ++ lit "  <title>Table</title>" ++ nl
    ++ lit "  <style>" ++ nl
    ++ lit "    body {" ++ nl
    ++ lit "      margin: 0;" ++ nl
    ++ lit "      padding: 10px;" ++ nl
    ++ lit "      background: white;" ++ nl
    ++ lit "      " ++ css ++ nl
    ++ lit "    }" ++ nl
    ++ lit "    table {" ++ nl
    ++ lit "      border-collapse: collapse;" ++ nl
    ++ lit "      " ++ css ++ nl
    ++ lit "      font-size: 12px;" ++ nl
    ++ lit "    }" ++ nl
    ++ lit "    th, td {" ++ nl
    ++ lit "      border: 1px solid #333;" ++ nl
    ++ lit "      padding: 6px 8px;" ++ nl
    ++ lit "      vertical-align: middle;" ++ nl
    ++ lit "    }" ++ nl
    ++ lit "    th {" ++ nl
    ++ lit "      background: #f5f5f5;" ++ nl
    ++ lit "      font-weight: 600;" ++ nl
    ++ lit "      text-align: center;" ++ nl
    ++ lit "    }" ++ nl
    ++ lit "  </style>" ++ nl
    ++ lit "  " ++ style ++ nl
    ++ lit "</head>" ++ nl
    ++ lit "<body>" ++ nl
    ++ html_content ++ nl
    ++ lit "</body>" ++ nl
    ++ lit "</html>".

(** ** 4.4 The cleaning helpers of the batch drivers *)

Definition fence : str := lit "```".

(** [lines[-1].strip() == fence], on a non-empty list *)
Definition last_is_fence (lines : list str) : bool :=
  match rev lines with
  | [] => false
  | l :: _ => str_eqb (strip l) fence
  end.

Definition clean_markdown_codeblocks (content : str) : str :=
  let content := strip content in
  let content :=
    if startswith content fence then
      let lines := tl (split_on 10 content) in
      let lines := if last_is_fence lines then removelast lines else lines in
      join_with 10 lines
    else content in
  strip content.

(** [<caption[^>]*>.*?</caption>\s*] under [re.DOTALL | re.IGNORECASE] *)
Definition caption_pattern : list item :=
  literal_ignorecase (lit "<caption")
  ++ [mkItem (none_of (lit ">")) Star false; mkItem (N.eqb 62) One false;
      mkItem (fun _ => true) Lazy false]
  ++ literal_ignorecase (lit "</caption>")
  ++ [mkItem is_space Star false].

Definition remove_caption_tags (content : str) : str :=
  re_sub_delete caption_pattern content.

Example clean_fenced_table :
  clean_markdown_codeblocks
    (lit "```html" ++ nl ++ lit "<table></table>" ++ nl ++ lit "```" ++ nl)
  = lit "<table></table>".
Proof. vm_compute. reflexivity. Qed.

Example remove_one_caption :
  remove_caption_tags
    (lit "<table><CAPTION class=c>Sales" ++ nl ++ lit "2024</caption>"
     ++ nl ++ lit "  <tr><td>1</td></tr></table>")
  = lit "<table><tr><td>1</td></tr></table>".
Proof. vm_compute. reflexivity. Qed.

(** ** 4.5 Inputs used below *)

(** The sample of the font extractor: a style block naming one family. *)
Definition noto_style : str :=
  lit "<style>body{font-family:'Noto Sans KR';}</style>".

Definition bare_table : str :=
  lit "<table><tr><td>A</td><td>B</td></tr><tr><td>C</td><td>D</td></tr></table>".

(** A document with neither a head nor a body element. *)
Definition headless_document : str :=
  lit "<html><table><tr><td>A</td></tr></table></html>".

(** A document whose title holds U+0130, capital I with dot above. *)
Definition dotted_document : str :=
  lit "<html><head><title>İ</title></head><body><table></table></body></html>".

(** [pattern] occurs in [s] when read as [re.IGNORECASE] reads a literal. *)
Definition occurs_ignorecase (pattern s : str) : bool :=
  match re_first (literal_ignorecase pattern) s with
  | Some _ => true
  | None => false
  end.

Definition endswith (s suffix : str) : bool := startswith (rev s) (rev suffix).

(** The fixed text of [wrap_table_fragment] around the family and the
    fragment, lowered. *)
Definition frame_open : str :=
  lower (lit "<!doctype html>" ++ nl
         ++ lit "<html lang=" ++ dq ++ lit "ko" ++ dq ++ lit ">" ++ nl
         ++ lit "<head>" ++ nl
         ++ lit "  <meta charset=" ++ dq ++ lit "utf-8" ++ dq ++ lit " />" ++ nl
         ++ lit "  <meta name=" ++ dq ++ lit "viewport" ++ dq
         ++ lit " content=" ++ dq ++ lit "width=device-width, initial-scale=1" ++ dq
         ++ lit " />" ++ nl
         ++ lit "  <title>table</title>" ++ nl
         ++ lit "  <style>" ++ nl
         ++ lit "    * { font-family:").

Definition frame_star : str :=
  lower (lit " " ++ DEFAULT_KOREAN_FONTS ++ lit "; !important; }" ++ nl
         ++ lit "    body { font-family:").

Definition frame_body_rule : str :=
  lower (lit " " ++ DEFAULT_KOREAN_FONTS ++ lit "; }" ++ nl
         ++ lit "    table, th, td { font-family:").

Definition frame_table_rule : str :=
  lower (lit " " ++ DEFAULT_KOREAN_FONTS ++ lit "; }" ++ nl
         ++ lit "  </style>" ++ nl
         ++ lit "</head>" ++ nl
         ++ lit "<body>").

Definition frame_close : str := lower (lit "</body>" ++ nl ++ lit "</html>").

(** Runs of the extractor. *)
Example extract_inline_attribute :
  extract_font_family_from_html
    (lit "<td font-family=" ++ dq ++ lit "Batang" ++ dq ++ lit ">x</td>")
  = Some (lit "Batang").
Proof. vm_compute. reflexivity. Qed.

Example extract_double_quotes_become_single :
  extract_font_family_from_html
    (lit "<style>td{font-family: " ++ dq ++ lit "Nanum Myeongjo" ++ dq
     ++ lit ", serif;}</style>")
  = Some (lit "'Nanum Myeongjo', serif").
Proof. vm_compute. reflexivity. Qed.

Example extract_blank_declaration :
  extract_font_family_from_html (lit "<table style='font-family: ;'>") = None.
Proof. vm_compute. reflexivity. Qed.

Example extract_dotted_capital :
  extract_font_family_from_html (lit "x FONT-FAMİLY : a b ;") = Some (lit "a b").
Proof. vm_compute. reflexivity. Qed.

Example extract_skips_open_brace :
  extract_font_family_from_html (lit "font-family: a{ font-family:b}")
  = Some (lit "b").
Proof. vm_compute. reflexivity. Qed.

(** ** 4.6 Facts on the matcher *)

Lemma match_literal_prefix p rest s g :
  match_items (literal_ignorecase p ++ rest) s = Some g ->
  exists g', match_items (literal_ignorecase p) s = Some g'.
Proof.
  revert s g. induction p as [|c p IH]; intros s g Hm.
  - eexists. reflexivity.
  - simpl in Hm |- *. destruct s as [|x s]; [discriminate|].
    destruct (ignorecase_eq c x); [|discriminate].
    destruct (match_items (literal_ignorecase p ++ rest) s) as [g0|] eqn:E;
      [|discriminate].
    destruct (IH _ _ E) as [g' Hg']. rewrite Hg'. simpl. eauto.
Qed.

Lemma re_first_literal_none p rest s :
  re_first (literal_ignorecase p) s = None ->
  re_first (literal_ignorecase p ++ rest) s = None.
Proof.
  induction s as [|x s IH]; simpl; intros Hnone.
  - destruct (match_items (literal_ignorecase p) []) eqn:E; [discriminate|].
    destruct (match_items (literal_ignorecase p ++ rest) []) eqn:E'; [|reflexivity].
    destruct (match_literal_prefix _ _ _ E'). congruence.
  - destruct (match_items (literal_ignorecase p) (x :: s)) eqn:E; [discriminate|].
    destruct (match_items (literal_ignorecase p ++ rest) (x :: s)) eqn:E'.
    + destruct (match_literal_prefix _ _ _ E'). congruence.
    + auto.
Qed.

Lemma extract_without_mention html :
  occurs_ignorecase (lit "font-family") html = false ->
  extract_font_family_from_html html = None.
Proof.
  unfold occurs_ignorecase. intros Hocc.
  destruct (re_first (literal_ignorecase (lit "font-family")) html) eqn:E;
    [discriminate|].
  unfold extract_font_family_from_html, patterns, extract_loop.
  unfold css_block_pattern, inline_pattern.
  rewrite !(re_first_literal_none _ _ _ E). reflexivity.
Qed.

(** A match of a pattern is a match of every prefix of the pattern. *)
Lemma match_star_some cl g (k k' : str -> option matched) s r :
  (forall s r, k s = Some r -> exists r', k' s = Some r') ->
  match_star cl g k s = Some r -> exists r', match_star cl g k' s = Some r'.
Proof.
  intros Hk. revert r. induction s as [|c s IH]; intros r; simpl.
  - apply Hk.
  - destruct (cl c); [|apply Hk].
    destruct (match_star cl g k s) as [r0|] eqn:E.
    + intros _. destruct (IH _ eq_refl) as [r0' ->]. eauto.
    + intros Hks. destruct (match_star cl g k' s); [eauto|].
      now apply Hk in Hks.
Qed.

Lemma match_lazy_some cl g (k k' : str -> option matched) s r :
  (forall s r, k s = Some r -> exists r', k' s = Some r') ->
  match_lazy cl g k s = Some r -> exists r', match_lazy cl g k' s = Some r'.
Proof.
  intros Hk. revert r. induction s as [|c s IH]; intros r; simpl.
  - destruct (k []) as [r0|] eqn:E; [|discriminate].
    intros _. destruct (Hk _ _ E) as [r' ->]. eauto.
  - destruct (k (c :: s)) as [r0|] eqn:E.
    + intros _. destruct (Hk _ _ E) as [r' ->]. eauto.
    + destruct (cl c); [|discriminate].
      destruct (match_lazy cl g k s) as [r1|] eqn:E1; [|discriminate].
      intros _. destruct (IH _ eq_refl) as [r1' ->].
      destruct (k' (c :: s)); simpl; eauto.
Qed.

Lemma match_items_prefix pre rest s r :
  match_items (pre ++ rest) s = Some r -> exists r', match_items pre s = Some r'.
Proof.
  revert s r. induction pre as [|it pre IH]; intros s r; simpl.
  - eauto.
  - destruct (rep it).
    + destruct s as [|c s]; [discriminate|]. destruct (cls it c); [|discriminate].
      destruct (match_items (pre ++ rest) s) as [r0|] eqn:E; [|discriminate].
      intros _. destruct (IH _ _ E) as [r' ->]. simpl. eauto.
    + apply match_star_some. exact IH.
    + destruct s as [|c s]; [discriminate|]. destruct (cls it c); [|discriminate].
      destruct (match_star (cls it) (grp it) (match_items (pre ++ rest)) s)
        as [r0|] eqn:E; [|discriminate].
      intros _.
      destruct (@match_star_some (cls it) (grp it) (match_items (pre ++ rest))
                  (match_items pre) s r0 IH E) as [r' ->].
      simpl. eauto.
    + apply match_lazy_some. exact IH.
Qed.

Lemma re_first_prefix_none pre rest s :
  re_first pre s = None -> re_first (pre ++ rest) s = None.
Proof.
  induction s as [|x s IH]; simpl; intros Hnone.
  - destruct (match_items pre []) eqn:E; [discriminate|].
    destruct (match_items (pre ++ rest) []) eqn:E'; [|reflexivity].
    destruct (match_items_prefix _ _ _ E'). congruence.
  - destruct (match_items pre (x :: s)) eqn:E; [discriminate|].
    destruct (match_items (pre ++ rest) (x :: s)) eqn:E'.
    + destruct (match_items_prefix _ _ _ E'). congruence.
    + auto.
Qed.

(** What a match is made of. *)
Lemma match_literal_sound p rest s r :
  match_items (literal_ignorecase p ++ rest) s = Some r ->
  exists name s', s = name ++ s' /\
    Forall2 (fun a c => ignorecase_eq a c = true) p name /\
    exists r', match_items rest s' = Some r'.
Proof.
  revert s r. induction p as [|a p IH]; intros s r; simpl.
  - intros Hr. exists [], s. eauto.
  - destruct s as [|c s]; [discriminate|].
    destruct (ignorecase_eq a c) eqn:Ea; [|discriminate].
    destruct (match_items (literal_ignorecase p ++ rest) s) as [r0|] eqn:E;
      [|discriminate].
    intros _. destruct (IH _ _ E) as (name & s' & -> & Hname & Hrest).
    exists (c :: name), s'. split; [reflexivity|]. split; [|exact Hrest].
    constructor; assumption.
Qed.

Lemma match_star_sound cl g k s r :
  match_star cl g k s = Some r ->
  exists spaces s', s = spaces ++ s' /\
    Forall (fun c => cl c = true) spaces /\ exists r', k s' = Some r'.
Proof.
  revert r. induction s as [|c s IH]; intros r; simpl.
  - intros Hr. exists [], []. eauto.
  - destruct (cl c) eqn:Ec; [|intros Hr; exists [], (c :: s); eauto].
    destruct (match_star cl g k s) as [r0|] eqn:E;
      [|intros Hr; exists [], (c :: s); eauto].
    intros _. destruct (IH _ eq_refl) as (spaces & s' & -> & Hsp & Hk).
    exists (c :: spaces), s'. split; [reflexivity|]. split; [|exact Hk].
    constructor; assumption.
Qed.

Lemma re_first_sound items s g :
  re_first items s = Some g ->
  exists pre s', s = pre ++ s' /\ exists r, match_items items s' = Some r.
Proof.
  induction s as [|c s IH]; simpl.
  - destruct (match_items items []) as [r|] eqn:E; [|discriminate].
    intros _. exists [], []. eauto.
  - destruct (match_items items (c :: s)) as [r|] eqn:E.
    + intros _. exists [], (c :: s). eauto.
    + intros Hg. destruct (IH Hg) as (pre & s' & -> & Hm).
      exists (c :: pre), s'. eauto.
Qed.

Lemma match_literal_complete p rest name s' r :
  Forall2 (fun a c => ignorecase_eq a c = true) p name ->
  match_items rest s' = Some r ->
  exists r', match_items (literal_ignorecase p ++ rest) (name ++ s') = Some r'.
Proof.
  intros Hname Hrest. induction Hname as [|a c p name Hac Hname IH]; simpl.
  - eauto.
  - rewrite Hac. destruct IH as [r' ->]. simpl. eauto.
Qed.

Lemma match_star_complete cl g k spaces s' r :
  Forall (fun c => cl c = true) spaces ->
  k s' = Some r ->
  exists r', match_star cl g k (spaces ++ s') = Some r'.
Proof.
  intros Hsp Hk. induction Hsp as [|c spaces Hc Hsp IH]; simpl.
  - destruct s' as [|c s']; simpl; [eauto|].
    destruct (cl c); [|eauto].
    destruct (match_star cl g k s'); eauto.
  - rewrite Hc. destruct IH as [r' ->]. eauto.
Qed.

Lemma re_first_complete items pre s' r :
  match_items items s' = Some r ->
  exists g, re_first items (pre ++ s') = Some g.
Proof.
  intros Hm. induction pre as [|c pre IH]; simpl.
  - destruct s' as [|c s']; simpl; rewrite Hm; eauto.
  - destruct (match_items items (c :: pre ++ s')); eauto.
Qed.

(** *** Content without a declaration of the font family

    A declaration starts with the property name, in any letter case, then
    white space if any, then a colon (a CSS declaration) or an equals sign
    (the attribute form the second pattern looks for). *)
Definition has_declaration (html : str) : Prop :=
  exists pre name spaces sep rest,
    html = pre ++ name ++ spaces ++ sep :: rest /\
    Forall2 (fun a c => ignorecase_eq a c = true) (lit "font-family") name /\
    Forall (fun c => is_space c = true) spaces /\
    (sep = 58%N \/ sep = 61%N).

(** The same, decided with the matcher. *)
Definition declaration_colon : list item :=
  literal_ignorecase (lit "font-family") ++ [ws_star; mkItem (N.eqb 58) One false].

Definition declaration_equals : list item :=
  literal_ignorecase (lit "font-family") ++ [ws_star; mkItem (N.eqb 61) One false].

Definition declares_font_family (html : str) : bool :=
  match re_first declaration_colon html, re_first declaration_equals html with
  | None, None => false
  | _, _ => true
  end.

Lemma declaration_found (sep : N) html g :
  re_first (literal_ignorecase (lit "font-family")
            ++ [ws_star; mkItem (N.eqb sep) One false]) html = Some g ->
  exists pre name spaces rest,
    html = pre ++ name ++ spaces ++ sep :: rest /\
    Forall2 (fun a c => ignorecase_eq a c = true) (lit "font-family") name /\
    Forall (fun c => is_space c = true) spaces.
Proof.
  intros Hg. destruct (re_first_sound _ _ Hg) as (pre & s1 & -> & r1 & Hm).
  destruct (match_literal_sound _ _ _ Hm) as (name & s2 & -> & Hname & r2 & Hm2).
  cbn [match_items ws_star rep cls grp] in Hm2.
  destruct (match_star_sound _ _ _ _ Hm2) as (spaces & s3 & -> & Hsp & r3 & Hm3).
  destruct s3 as [|c rest]; [discriminate|].
  destruct (N.eqb_spec sep c) as [<- | Hne]; [|discriminate].
  exists pre, name, spaces, rest. auto.
Qed.

Lemma declaration_matches (sep : N) pre name spaces rest :
  Forall2 (fun a c => ignorecase_eq a c = true) (lit "font-family") name ->
  Forall (fun c => is_space c = true) spaces ->
  re_first (literal_ignorecase (lit "font-family")
            ++ [ws_star; mkItem (N.eqb sep) One false])
    (pre ++ name ++ spaces ++ sep :: rest) <> None.
Proof.
  intros Hname Hsp.
  assert (Hsep : match_items [mkItem (N.eqb sep) One false] (sep :: rest)
                 = Some ([], rest)).
  { cbn [match_items rep cls grp]. rewrite N.eqb_refl. reflexivity. }
  destruct (@match_star_complete is_space false _ spaces _ _ Hsp Hsep) as [r1 H1].
  destruct (@match_literal_complete (lit "font-family")
              [ws_star; mkItem (N.eqb sep) One false] name
              (spaces ++ sep :: rest) r1 Hname H1) as [r2 H2].
  destruct (@re_first_complete _ pre _ _ H2) as [g Hg].
  rewrite Hg. discriminate.
Qed.

Lemma declares_font_family_spec html :
  declares_font_family html = true <-> has_declaration html.
Proof.
  unfold declares_font_family, has_declaration. split.
  - destruct (re_first declaration_colon html) as [g|] eqn:Ec.
    + intros _. destruct (declaration_found 58 _ Ec)
        as (pre & name & spaces & rest & Hh & Hname & Hsp).
      exists pre, name, spaces, 58%N, rest. auto.
    + destruct (re_first declaration_equals html) as [g|] eqn:Ee; [|discriminate].
      intros _. destruct (declaration_found 61 _ Ee)
        as (pre & name & spaces & rest & Hh & Hname & Hsp).
      exists pre, name, spaces, 61%N, rest. auto.
  - intros (pre & name & spaces & sep & rest & -> & Hname & Hsp & [-> | ->]).
    + pose proof (@declaration_matches 58 pre name spaces rest Hname Hsp) as Hm.
      fold declaration_colon in Hm.
      destruct (re_first declaration_colon _); [reflexivity | congruence].
    + pose proof (@declaration_matches 61 pre name spaces rest Hname Hsp) as Hm.
      fold declaration_equals in Hm.
      destruct (re_first declaration_colon _); [reflexivity|].
      destruct (re_first declaration_equals _); [reflexivity | congruence].
Qed.

Lemma extract_without_declaration html :
  ~ has_declaration html ->
  extract_font_family_from_html html = None.
Proof.
  intros Hno.
  assert (Hdecl : declares_font_family html = false).
  { destruct (declares_font_family html) eqn:E; [|reflexivity].
    exfalso. apply Hno. now apply declares_font_family_spec. }
  unfold declares_font_family in Hdecl.
  destruct (re_first declaration_colon html) eqn:Ec; [discriminate|].
  destruct (re_first declaration_equals html) eqn:Ee; [discriminate|].
  unfold extract_font_family_from_html, patterns, extract_loop.
  replace css_block_pattern
    with (declaration_colon
          ++ [ws_star; mkItem (none_of (lit ";}{")) Plus true;
              mkItem (one_of (lit ";}")) One false])
    by (unfold declaration_colon, css_block_pattern;
        now rewrite <- app_assoc).
  replace inline_pattern
    with (declaration_equals
          ++ [ws_star; mkItem (one_of (lit "'" ++ dq)) One false;
              mkItem (none_of (lit "'" ++ dq)) Plus true;
              mkItem (one_of (lit "'" ++ dq)) One false])
    by (unfold declaration_equals, inline_pattern;
        now rewrite <- app_assoc).
  now rewrite (re_first_prefix_none _ _ _ Ec), (re_first_prefix_none _ _ _ Ee).
Qed.

(** Text that names the property without declaring it. *)
Example extract_mention_without_declaration :
  declares_font_family (lit "<p>the font-family of this page</p>") = false /\
  extract_font_family_from_html (lit "<p>the font-family of this page</p>") = None.
Proof. vm_compute. split; reflexivity. Qed.

(** *** The style block of the default stack

    The text [wrap_table_fragment] builds when it is given no family. *)
Definition default_font_rule : str :=
  lit "font-family: 'Malgun Gothic', '맑은 고딕', 'Apple SD Gothic Neo', 'Noto Sans KR', 'NanumGothic', '나눔고딕', 'Dotum', '돋움', 'Gulim', '굴림', sans-serif;".

Definition default_font_style : str :=
  lit "<style>" ++ nl
  ++ lit "    * { " ++ default_font_rule ++ lit " !important; }" ++ nl
  ++ lit "    body { " ++ default_font_rule ++ lit " }" ++ nl
  ++ lit "    table, th, td { " ++ default_font_rule ++ lit " }" ++ nl
  ++ lit "  </style>".

Lemma font_override_style_default :
  font_override_style (font_css None) = default_font_style.
Proof. vm_compute. reflexivity. Qed.

Lemma contains_find s sub :
  contains s sub = true -> exists n, find s sub = Some n.
Proof. unfold contains. destruct (find s sub); [eauto | discriminate]. Qed.

(** ** 4.7 Facts on the wrappers *)

Lemma find_nil sub : find [] sub = if startswith [] sub then Some O else None.
Proof. reflexivity. Qed.

Lemma find_cons c s sub :
  find (c :: s) sub
  = if startswith (c :: s) sub then Some O else option_map S (find s sub).
Proof. reflexivity. Qed.

Lemma find_startswith s sub n :
  find s sub = Some n -> startswith (skipn n s) sub = true.
Proof.
  revert n. induction s as [|c s IH]; intros n.
  - rewrite find_nil. destruct (startswith [] sub) eqn:E; [|discriminate].
    intros Hn. inversion Hn. exact E.
  - rewrite find_cons. destruct (startswith (c :: s) sub) eqn:E.
    + intros Hn. inversion Hn. exact E.
    + destruct (find s sub) as [k|] eqn:Ek; [|discriminate].
      intros Hn. inversion Hn. cbn [skipn]. now apply IH.
Qed.

Lemma find_bound s sub n : find s sub = Some n -> (n <= length s)%nat.
Proof.
  revert n. induction s as [|c s IH]; intros n.
  - rewrite find_nil. destruct (startswith [] sub); [|discriminate].
    intros Hn. inversion Hn. simpl. lia.
  - rewrite find_cons. destruct (startswith (c :: s) sub).
    + intros Hn. inversion Hn. lia.
    + destruct (find s sub) as [k|] eqn:Ek; [|discriminate].
      intros Hn. inversion Hn. specialize (IH k eq_refl). simpl. lia.
Qed.

(** Without U+0130 in the text, [lower] works character by character. *)
Lemma lower_length s : ~ In 304%N s -> length (lower s) = length s.
Proof.
  induction s as [|c s IH]; intros Hno; [reflexivity|].
  unfold lower in *. simpl. rewrite length_app, IH.
  - unfold lower_cp.
    destruct ((65 <=? c)%N && (c <=? 90)%N); [reflexivity|].
    destruct (N.eqb_spec c 304) as [-> | _]; [exfalso; apply Hno; now left|].
    destruct (c =? 8490)%N; reflexivity.
  - intros Hin. apply Hno. now right.
Qed.

Lemma lower_skipn s n : ~ In 304%N s -> lower (skipn n s) = skipn n (lower s).
Proof.
  revert n. induction s as [|c s IH]; intros n Hno.
  - now rewrite !skipn_nil.
  - destruct n as [|n]; [reflexivity|].
    assert (Hc : exists d, lower_cp c = [d]).
    { unfold lower_cp.
      destruct ((65 <=? c)%N && (c <=? 90)%N); [eauto|].
      destruct (N.eqb_spec c 304) as [-> | _]; [exfalso; apply Hno; now left|].
      destruct (c =? 8490)%N; eauto. }
    destruct Hc as [d Hd]. unfold lower in *. simpl. rewrite Hd. simpl.
    apply IH. intros Hin. apply Hno. now right.
Qed.

(** The document case on a text without U+0130 that has a closing head
    tag: the style goes in front of the first such tag, and the text around
    it is kept. *)
Lemma insert_font_style_before_head html style :
  ~ In 304%N html ->
  contains (lower html) (lit "</head>") = true ->
  exists pre post,
    html = pre ++ post /\
    insert_font_style html style = pre ++ style ++ post /\
    startswith (lower post) (lit "</head>") = true /\
    find (lower html) (lit "</head>") = Some (length pre).
Proof.
  intros Hno Hhead. unfold insert_font_style. rewrite Hhead.
  unfold contains in Hhead.
  destruct (find (lower html) (lit "</head>")) as [n|] eqn:En; [|discriminate].
  exists (firstn n html), (skipn n html).
  assert (Hn : (n <= length html)%nat).
  { apply find_bound in En. now rewrite lower_length in En. }
  split; [now rewrite firstn_skipn|]. split; [reflexivity|]. split.
  - rewrite lower_skipn by exact Hno. now apply find_startswith.
  - rewrite length_firstn. f_equal. lia.
Qed.

(** A fragment is wrapped into a document that starts with the doctype. *)
Lemma wrap_fragment_starts_with_doctype table_html font_family :
  looks_like_document table_html = false ->
  startswith (wrap_table_fragment table_html font_family) (lit "<!doctype html>")
  = true.
Proof.
  intros Hfrag. unfold wrap_table_fragment. cbv zeta. rewrite Hfrag. reflexivity.
Qed.

(** *** Counting the body tags of a wrapped fragment *)

Lemma lower_app a b : lower (a ++ b) = lower a ++ lower b.
Proof. unfold lower. apply flat_map_app. Qed.

Lemma startswith_sep a x b sub :
  ~ In x sub -> startswith (a ++ x :: b) sub = startswith a sub.
Proof.
  revert a. induction sub as [|p sub IH]; intros a Hx.
  - destruct a; reflexivity.
  - destruct a as [|c a]; simpl.
    + destruct (N.eqb_spec x p) as [-> | _]; [|reflexivity].
      exfalso. apply Hx. now left.
    + rewrite IH; [reflexivity|]. intros Hin. apply Hx. now right.
Qed.

(** A character that is not in [sub] separates the occurrences of [sub]. *)
Lemma occurrences_sep a x b sub :
  ~ In x sub -> sub <> [] ->
  occurrences (a ++ x :: b) sub = (occurrences a sub + occurrences b sub)%nat.
Proof.
  intros Hx Hsub. induction a as [|c a IH].
  - simpl app. cbn [occurrences].
    destruct sub as [|p sub]; [congruence|]. simpl.
    destruct (N.eqb_spec x p) as [-> | _]; [|reflexivity].
    exfalso. apply Hx. now left.
  - change ((c :: a) ++ x :: b) with (c :: (a ++ x :: b)).
    cbn [occurrences]. rewrite IH.
    change (c :: a ++ x :: b) with ((c :: a) ++ x :: b).
    rewrite startswith_sep by exact Hx. lia.
Qed.

Lemma wrapped_fragment_with_family table_html f :
  looks_like_document table_html = false -> nonempty f = true ->
  lower (wrap_table_fragment table_html (Some f))
  = frame_open ++ 32%N :: lower f ++ 44%N ::
    frame_star ++ 32%N :: lower f ++ 44%N ::
    frame_body_rule ++ 32%N :: lower f ++ 44%N ::
    frame_table_rule ++ 10%N :: lower table_html ++ 10%N :: frame_close.
Proof.
  intros Hfrag Hf. unfold wrap_table_fragment, font_override_style, font_css.
  cbv zeta. rewrite Hfrag, Hf.
  repeat rewrite <- app_assoc. repeat rewrite lower_app.
  remember (lower f) as lf. remember (lower table_html) as lh.
  vm_compute. reflexivity.
Qed.

Lemma wrapped_fragment_without_family table_html font_family :
  looks_like_document table_html = false ->
  font_css font_family = font_css None ->
  lower (wrap_table_fragment table_html font_family)
  = (frame_open ++ frame_star ++ frame_body_rule ++ frame_table_rule)
    ++ 10%N :: lower table_html ++ 10%N :: frame_close.
Proof.
  intros Hfrag Hcss. unfold wrap_table_fragment, font_override_style.
  cbv zeta. rewrite Hfrag, Hcss. unfold font_css.
  repeat rewrite <- app_assoc. repeat rewrite lower_app.
  remember (lower table_html) as lh.
  vm_compute. reflexivity.
Qed.

(** A fragment without a body tag, wrapped with a family without one, has
    exactly one body tag, whatever the case of the letters. *)
Lemma wrap_fragment_one_body table_html font_family :
  looks_like_document table_html = false ->
  occurrences (lower table_html) (lit "<body") = 0%nat ->
  (forall f, font_family = Some f -> occurrences (lower f) (lit "<body") = 0%nat) ->
  occurrences (lower (wrap_table_fragment table_html font_family)) (lit "<body")
  = 1%nat.
Proof.
  intros Hfrag Hhtml Hfont.
  assert (Hsp : ~ In 32%N (lit "<body")) by (vm_compute; intuition discriminate).
  assert (Hco : ~ In 44%N (lit "<body")) by (vm_compute; intuition discriminate).
  assert (Hnl : ~ In 10%N (lit "<body")) by (vm_compute; intuition discriminate).
  assert (Hne : lit "<body" <> []) by (vm_compute; discriminate).
  assert (Hplain : forall ff, font_css ff = font_css None ->
            occurrences (lower (wrap_table_fragment table_html ff)) (lit "<body")
            = 1%nat).
  { intros ff Hcss. rewrite wrapped_fragment_without_family by assumption.
    rewrite !occurrences_sep by assumption. rewrite Hhtml.
    vm_compute. reflexivity. }
  destruct font_family as [f|]; [|now apply Hplain].
  destruct (nonempty f) eqn:Hf.
  - rewrite wrapped_fragment_with_family by assumption.
    rewrite !occurrences_sep by assumption.
    rewrite Hhtml, (Hfont f eq_refl). vm_compute. reflexivity.
  - apply Hplain. unfold font_css. now rewrite Hf.
Qed.

(** ** 4.8 The claims on the extractor and the wrappers *)

(** C7, as the specification states it, fails: on the sample style block
    the extractor does not return the bare family name. *)
Lemma extract_font_family_keeps_quotes :
  extract_font_family_from_html noto_style <> Some (lit "Noto Sans KR").
Proof. vm_compute. discriminate. Qed.

(** C7, amended.  On the sample style block the extractor returns the
    family with its single quotes, ['Noto Sans KR'] (double quotes would be
    turned into single ones, none is removed).  On content without a
    declaration, that is where no [font-family], in any letter case, is
    followed after white space, if any, by a colon or an equals sign, it
    returns [None].  [wrap_table_fragment] then builds its style block from
    the one rule [font-family:] the default Korean stack, which ends in
    [sans-serif]: content that is not a document is put into the template
    with that block in the head; a document gets the block in front of its
    first closing head tag, or as a new head in front of its first body tag;
    a document with neither tag is returned as it is, with no font rule. *)
Theorem extract_font_family_sample_and_fallback :
  extract_font_family_from_html noto_style = Some (lit "'Noto Sans KR'") /\
  (forall html, ~ has_declaration html ->
     extract_font_family_from_html html = None /\
     (looks_like_document html = false ->
      wrap_table_fragment html (extract_font_family_from_html html)
      = lit "<!doctype html>" ++ nl
        ++ lit "<html lang=" ++ dq ++ lit "ko" ++ dq ++ lit ">" ++ nl
        ++ lit "<head>" ++ nl
        ++ lit "  <meta charset=" ++ dq ++ lit "utf-8" ++ dq ++ lit " />" ++ nl
        ++ lit "  <meta name=" ++ dq ++ lit "viewport" ++ dq
        ++ lit " content=" ++ dq ++ lit "width=device-width, initial-scale=1" ++ dq
        ++ lit " />" ++ nl
        ++ lit "  <title>table</title>" ++ nl
        ++ lit "  " ++ default_font_style ++ nl
        ++ lit "</head>" ++ nl
        ++ lit "<body>" ++ nl
        ++ html ++ nl
        ++ lit "</body>" ++ nl
        ++ lit "</html>") /\
     (looks_like_document html = true ->
      contains (lower html) (lit "</head>") = true ->
      exists n, find (lower html) (lit "</head>") = Some n /\
        wrap_table_fragment html (extract_font_family_from_html html)
        = firstn n html ++ default_font_style ++ skipn n html) /\
     (looks_like_document html = true ->
      contains (lower html) (lit "</head>") = false ->
      contains (lower html) (lit "<body") = true ->
      exists n, find (lower html) (lit "<body") = Some n /\
        wrap_table_fragment html (extract_font_family_from_html html)
        = firstn n html
          ++ (lit "<head>" ++ default_font_style ++ lit "</head>")
          ++ skipn n html) /\
     (looks_like_document html = true ->
      contains (lower html) (lit "</head>") = false ->
      contains (lower html) (lit "<body") = false ->
      wrap_table_fragment html (extract_font_family_from_html html) = html)) /\
  default_font_rule = lit "font-family: " ++ DEFAULT_KOREAN_FONTS ++ lit ";" /\
  endswith DEFAULT_KOREAN_FONTS (lit "sans-serif") = true.
Proof.
  split; [vm_compute; reflexivity|]. split; [|split].
  - intros html Hdecl. rewrite (extract_without_declaration Hdecl).
    split; [reflexivity|].
    unfold wrap_table_fragment. cbv zeta. rewrite font_override_style_default.
    split; [|split; [|split]].
    + intros Hfrag. rewrite Hfrag. reflexivity.
    + intros Hdoc Hhead. rewrite Hdoc. unfold insert_font_style. rewrite Hhead.
      destruct (contains_find _ _ Hhead) as [n Hn]. exists n. rewrite Hn. auto.
    + intros Hdoc Hhead Hbody. rewrite Hdoc. unfold insert_font_style.
      rewrite Hhead, Hbody.
      destruct (contains_find _ _ Hbody) as [n Hn]. exists n. rewrite Hn. auto.
    + intros Hdoc Hhead Hbody. rewrite Hdoc. unfold insert_font_style.
      now rewrite Hhead, Hbody.
  - vm_compute. reflexivity.
  - vm_compute. reflexivity.
Qed.

(** C10. An input that looks like a document (after [strip] and [lower] it
    starts with [<!doctype] or [<html]) but whose lowered text contains
    neither [</head>] nor [<body] is returned unchanged by both wrappers,
    whatever the font family: no style is injected. *)
Theorem wrap_document_without_head_or_body (html : str) (font_family : option str) :
  looks_like_document html = true ->
  contains (lower html) (lit "</head>") = false ->
  contains (lower html) (lit "<body") = false ->
  wrap_table_fragment html font_family = html /\
  wrap_html_document html font_family = html.
Proof.
  intros Hdoc Hhead Hbody.
  unfold wrap_table_fragment, wrap_html_document, insert_font_style.
  cbv zeta. rewrite Hdoc, Hhead, Hbody. split; reflexivity.
Qed.

Lemma wrap_document_without_head_or_body_witness :
  looks_like_document headless_document = true /\
  contains (lower headless_document) (lit "</head>") = false /\
  contains (lower headless_document) (lit "<body") = false /\
  wrap_table_fragment headless_document (Some (lit "Arial")) = headless_document /\
  wrap_html_document headless_document (Some (lit "Arial")) = headless_document.
Proof.
  assert (H1 : looks_like_document headless_document = true)
    by (vm_compute; reflexivity).
  assert (H2 : contains (lower headless_document) (lit "</head>") = false)
    by (vm_compute; reflexivity).
  assert (H3 : contains (lower headless_document) (lit "<body") = false)
    by (vm_compute; reflexivity).
  split; [exact H1|]. split; [exact H2|]. split; [exact H3|].
  exact (@wrap_document_without_head_or_body headless_document
           (Some (lit "Arial")) H1 H2 H3).
Defined.

(** C8 at a failing input.  In [dotted_document] the closing head tag
    starts at position 28, but [lower] turns U+0130 into two code points, so
    the position found in the lowered text is 29: the style is inserted one
    character late, inside the tag, after its [<]. *)
Theorem wrap_table_fragment_dotted_document :
  find dotted_document (lit "</head>") = Some 28%nat /\
  find (lower dotted_document) (lit "</head>") = Some 29%nat /\
  wrap_table_fragment dotted_document None
  = lit "<html><head><title>İ</title><"
    ++ font_override_style (font_css None)
    ++ lit "/head><body><table></table></body></html>".
Proof. vm_compute. repeat split; reflexivity. Qed.

(** ** 4.9 Facts on [strip], [split] and [join] *)

Lemma lstrip_idem s : lstrip (lstrip s) = lstrip s.
Proof.
  induction s as [|c s IH]; simpl; [reflexivity|].
  destruct (is_space c) eqn:E; [exact IH|]. simpl. now rewrite E.
Qed.

Lemma lstrip_head s c t : lstrip s = c :: t -> is_space c = false.
Proof.
  induction s as [|a s IH]; simpl; [discriminate|].
  destruct (is_space a) eqn:E; [exact IH|].
  intros H. inversion H; subst. exact E.
Qed.

Lemma lstrip_snoc l c : is_space c = false -> exists u, lstrip (l ++ [c]) = u ++ [c].
Proof.
  intros Hc. induction l as [|a l IH]; simpl.
  - rewrite Hc. now exists [].
  - destruct (is_space a); [exact IH|]. now exists (a :: l).
Qed.

Lemma rstrip_idem s : rstrip (rstrip s) = rstrip s.
Proof. unfold rstrip. now rewrite rev_involutive, lstrip_idem. Qed.

Lemma lstrip_rstrip s : lstrip s = s -> lstrip (rstrip s) = rstrip s.
Proof.
  destruct s as [|c t]; [reflexivity|]. intros H.
  pose proof (@lstrip_head _ _ _ H) as Hc.
  unfold rstrip. change (rev (c :: t)) with (rev t ++ [c]).
  destruct (@lstrip_snoc (rev t) c Hc) as [u Hu]. rewrite Hu.
  rewrite rev_app_distr. simpl. now rewrite Hc.
Qed.

Lemma strip_idem s : strip (strip s) = strip s.
Proof.
  unfold strip. rewrite (@lstrip_rstrip (lstrip s)) by apply lstrip_idem.
  apply rstrip_idem.
Qed.

Lemma lstrip_In x s : In x (lstrip s) -> In x s.
Proof.
  induction s as [|c s IH]; simpl; [tauto|].
  destruct (is_space c); [intros H; right; auto | simpl; tauto].
Qed.

Lemma strip_In x s : In x (strip s) -> In x s.
Proof.
  unfold strip, rstrip. intros H. apply lstrip_In.
  apply in_rev in H. apply lstrip_In in H. now apply in_rev.
Qed.

Lemma replace_char_gone a b s : a <> b -> ~ In a (replace_char a b s).
Proof.
  intros Hab Hin. unfold replace_char in Hin. apply in_map_iff in Hin.
  destruct Hin as (c & Hc & _).
  destruct (N.eqb_spec c a); congruence.
Qed.

Lemma startswith_app p r : startswith (p ++ r) p = true.
Proof.
  induction p as [|c p IH]; [destruct r; reflexivity|].
  simpl. now rewrite N.eqb_refl, IH.
Qed.

Lemma split_on_nonempty sep s : split_on sep s <> [].
Proof.
  destruct s as [|c s]; simpl; [discriminate|].
  destruct (N.eqb c sep); [discriminate|].
  destruct (split_on sep s); discriminate.
Qed.

Lemma split_on_app_sep sep a b :
  split_on sep (a ++ sep :: b) = split_on sep a ++ split_on sep b.
Proof.
  induction a as [|c a IH]; simpl.
  - now rewrite N.eqb_refl.
  - rewrite IH. destruct (N.eqb c sep); [reflexivity|].
    pose proof (@split_on_nonempty sep a) as Hne.
    destruct (split_on sep a) as [|first others]; [congruence | reflexivity].
Qed.

Lemma split_on_no_sep sep a : ~ In sep a -> split_on sep a = [a].
Proof.
  induction a as [|c a IH]; intros Hno; [reflexivity|]. simpl.
  destruct (N.eqb_spec c sep) as [-> | _]; [exfalso; apply Hno; now left|].
  rewrite IH; [reflexivity|]. intros Hin. apply Hno. now right.
Qed.

(** [sep.join(s.split(sep)) == s] *)
Lemma join_split sep s : join_with sep (split_on sep s) = s.
Proof.
  induction s as [|c s IH]; [reflexivity|]. simpl.
  pose proof (@split_on_nonempty sep s) as Hne.
  destruct (N.eqb_spec c sep) as [-> | _].
  - destruct (split_on sep s) as [|first others]; [congruence|].
    change (join_with sep ([] :: first :: others))
      with (sep :: join_with sep (first :: others)).
    now rewrite IH.
  - destruct (split_on sep s) as [|first others]; [congruence|].
    destruct others as [|second others].
    + simpl in IH |- *. now rewrite IH.
    + change (join_with sep ((c :: first) :: second :: others))
        with (c :: join_with sep (first :: second :: others)).
      now rewrite IH.
Qed.

(** ** 4.10 Facts on the deleting substitution *)

(** A continuation that only consumes input. *)
Definition consumes (k : str -> option matched) : Prop :=
  forall s r, k s = Some r -> (length (snd r) <= length s)%nat.

Lemma match_star_consumes cl g k : consumes k -> consumes (match_star cl g k).
Proof.
  intros Hk s. induction s as [|c s IH]; intros r; simpl.
  - apply Hk.
  - destruct (cl c); [|apply Hk].
    destruct (match_star cl g k s) as [r0|] eqn:E; [|apply Hk].
    intros Hr. inversion Hr; subst. specialize (IH _ eq_refl).
    unfold keep. destruct g; simpl; lia.
Qed.

Lemma match_lazy_consumes cl g k : consumes k -> consumes (match_lazy cl g k).
Proof.
  intros Hk s. induction s as [|c s IH]; intros r; simpl.
  - destruct (k []) eqn:E; [|discriminate]. intros Hr. inversion Hr; subst.
    exact (Hk _ _ E).
  - destruct (k (c :: s)) eqn:E.
    + intros Hr. inversion Hr; subst. exact (Hk _ _ E).
    + destruct (cl c); [|discriminate].
      destruct (match_lazy cl g k s) as [r0|]; [|discriminate].
      intros Hr. inversion Hr; subst. specialize (IH _ eq_refl).
      unfold keep. destruct g; simpl; lia.
Qed.

Lemma match_items_consumes items : consumes (match_items items).
Proof.
  induction items as [|it rest IH]; intros s r; simpl.
  - intros Hr. inversion Hr. simpl. lia.
  - destruct (rep it).
    + destruct s as [|c s]; [discriminate|]. destruct (cls it c); [|discriminate].
      destruct (match_items rest s) as [r0|] eqn:E; [|discriminate].
      intros Hr. inversion Hr; subst. apply IH in E.
      unfold keep. destruct (grp it); simpl; lia.
    + now apply match_star_consumes.
    + destruct s as [|c s]; [discriminate|]. destruct (cls it c); [|discriminate].
      destruct (match_star (cls it) (grp it) (match_items rest) s) as [r0|] eqn:E;
        [|discriminate].
      intros Hr. inversion Hr; subst.
      apply (match_star_consumes _ _ IH) in E.
      unfold keep. destruct (grp it); simpl; lia.
    + now apply match_lazy_consumes.
Qed.

Lemma re_delete_length fuel items s :
  (length (re_delete fuel items s) <= length s)%nat.
Proof.
  revert s. induction fuel as [|fuel IH]; intros s; simpl; [lia|].
  destruct (match_items items s) as [r|] eqn:E.
  - apply match_items_consumes in E. specialize (IH (snd r)). lia.
  - destruct s as [|c s]; simpl; [lia|]. specialize (IH s). lia.
Qed.

Lemma re_delete_no_match fuel items s :
  re_first items s = None -> re_delete fuel items s = s.
Proof.
  revert s. induction fuel as [|fuel IH]; intros s; [reflexivity|].
  destruct s as [|c s]; simpl.
  - destruct (match_items items []); [discriminate | reflexivity].
  - destruct (match_items items (c :: s)); [discriminate|].
    intros Hs. now rewrite IH.
Qed.

Lemma dotless_spec s : existsb (N.eqb 304) s = false -> ~ In 304%N s.
Proof.
  intros He Hin. assert (Ht : existsb (N.eqb 304) s = true).
  { apply existsb_exists. exists 304%N. split; [exact Hin | apply N.eqb_refl]. }
  congruence.
Qed.

(** The document case on a text without U+0130 that has no closing head
    tag but a body tag: a head element with the style goes in front of the
    first body tag. *)
Lemma insert_font_style_before_body html style :
  ~ In 304%N html ->
  contains (lower html) (lit "</head>") = false ->
  contains (lower html) (lit "<body") = true ->
  exists pre post,
    html = pre ++ post /\
    insert_font_style html style
    = pre ++ (lit "<head>" ++ style ++ lit "</head>") ++ post /\
    startswith (lower post) (lit "<body") = true /\
    find (lower html) (lit "<body") = Some (length pre).
Proof.
  intros Hno Hhead Hbody. unfold insert_font_style. rewrite Hhead, Hbody.
  unfold contains in Hbody.
  destruct (find (lower html) (lit "<body")) as [n|] eqn:En; [|discriminate].
  exists (firstn n html), (skipn n html).
  assert (Hn : (n <= length html)%nat).
  { apply find_bound in En. now rewrite lower_length in En. }
  split; [now rewrite firstn_skipn|]. split; [reflexivity|]. split.
  - rewrite lower_skipn by exact Hno. now apply find_startswith.
  - rewrite length_firstn. f_equal. lia.
Qed.

(** ** 4.11 Further properties of the extractor, the wrappers and the
    cleaning helpers *)

Definition plain_document : str :=
  lit "<html><head><title>t</title></head><body><table></table></body></html>".

Definition bodied_document : str :=
  lit "<HTML><BODY><table></table></BODY></HTML>".

(** X7. A family returned by the extractor is not empty, has no white space
    at either end and no double quote, and the text it was read from
    mentions [font-family] in some case of the letters. *)
Theorem extract_font_family_result (html f : str) :
  extract_font_family_from_html html = Some f ->
  f <> [] /\ strip f = f /\ ~ In 34%N f /\
  occurs_ignorecase (lit "font-family") html = true.
Proof.
  intros He.
  assert (Hloop : forall pats, extract_loop pats html = Some f ->
            f <> [] /\ strip f = f /\ ~ In 34%N f).
  { induction pats as [|pat pats IH]; simpl; [discriminate|].
    destruct (re_first pat html) as [m0|]; [|exact IH].
    destruct (nonempty (strip (replace_char 34 39 (strip m0)))) eqn:Hne; [|exact IH].
    intros Hf. inversion Hf; subst. split; [|split].
    - intros Hnil. rewrite Hnil in Hne. discriminate.
    - apply strip_idem.
    - intros Hin. apply strip_In in Hin. revert Hin.
      apply replace_char_gone. discriminate. }
  destruct (Hloop _ He) as (H1 & H2 & H3). repeat split; auto.
  destruct (occurs_ignorecase (lit "font-family") html) eqn:Hocc; [reflexivity|].
  rewrite (extract_without_mention _ Hocc) in He. discriminate.
Qed.

Lemma extract_font_family_result_witness :
  lit "'Noto Sans KR'" <> [] /\ strip (lit "'Noto Sans KR'") = lit "'Noto Sans KR'" /\
  ~ In 34%N (lit "'Noto Sans KR'") /\
  occurs_ignorecase (lit "font-family") noto_style = true.
Proof.
  apply (@extract_font_family_result noto_style (lit "'Noto Sans KR'")).
  vm_compute. reflexivity.
Defined.

(** X8. A document without U+0130 that has a closing head tag: both wrappers
    put the font style in front of the first closing head tag, found without
    regard to case, and keep the text before and after it as it is. *)
Theorem wrap_document_style_before_head (html : str) (font_family : option str) :
  looks_like_document html = true ->
  ~ In 304%N html ->
  contains (lower html) (lit "</head>") = true ->
  exists pre post,
    html = pre ++ post /\
    startswith (lower post) (lit "</head>") = true /\
    find (lower html) (lit "</head>") = Some (length pre) /\
    wrap_table_fragment html font_family
    = pre ++ font_override_style (font_css font_family) ++ post /\
    wrap_html_document html font_family
    = pre ++ font_override_style (font_css font_family) ++ post.
Proof.
  intros Hdoc Hno Hhead.
  destruct (@insert_font_style_before_head html
              (font_override_style (font_css font_family)) Hno Hhead)
    as (pre & post & Hsplit & Hins & Hpost & Hfind).
  exists pre, post. unfold wrap_table_fragment, wrap_html_document. cbv zeta.
  rewrite Hdoc. auto.
Qed.

Lemma wrap_document_style_before_head_witness :
  exists pre post,
    plain_document = pre ++ post /\
    startswith (lower post) (lit "</head>") = true /\
    find (lower plain_document) (lit "</head>") = Some (length pre) /\
    wrap_table_fragment plain_document None
    = pre ++ font_override_style (font_css None) ++ post /\
    wrap_html_document plain_document None
    = pre ++ font_override_style (font_css None) ++ post.
Proof.
  apply (@wrap_document_style_before_head plain_document None).
  - vm_compute. reflexivity.
  - apply dotless_spec. vm_compute. reflexivity.
  - vm_compute. reflexivity.
Defined.

(** X9. A document without U+0130 that has no closing head tag but a body
    tag: both wrappers put a head element holding the font style in front
    of the first body tag and keep the text before and after it. *)
Theorem wrap_document_head_before_body (html : str) (font_family : option str) :
  looks_like_document html = true ->
  ~ In 304%N html ->
  contains (lower html) (lit "</head>") = false ->
  contains (lower html) (lit "<body") = true ->
  exists pre post,
    html = pre ++ post /\
    startswith (lower post) (lit "<body") = true /\
    find (lower html) (lit "<body") = Some (length pre) /\
    wrap_table_fragment html font_family
    = pre ++ (lit "<head>" ++ font_override_style (font_css font_family)
              ++ lit "</head>") ++ post /\
    wrap_html_document html font_family
    = pre ++ (lit "<head>" ++ font_override_style (font_css font_family)
              ++ lit "</head>") ++ post.
Proof.
  intros Hdoc Hno Hhead Hbody.
  destruct (@insert_font_style_before_body html
              (font_override_style (font_css font_family)) Hno Hhead Hbody)
    as (pre & post & Hsplit & Hins & Hpost & Hfind).
  exists pre, post. unfold wrap_table_fragment, wrap_html_document. cbv zeta.
  rewrite Hdoc. auto.
Qed.

Lemma wrap_document_head_before_body_witness :
  exists pre post,
    bodied_document = pre ++ post /\
    startswith (lower post) (lit "<body") = true /\
    find (lower bodied_document) (lit "<body") = Some (length pre) /\
    wrap_table_fragment bodied_document None
    = pre ++ (lit "<head>" ++ font_override_style (font_css None)
              ++ lit "</head>") ++ post /\
    wrap_html_document bodied_document None
    = pre ++ (lit "<head>" ++ font_override_style (font_css None)
              ++ lit "</head>") ++ post.
Proof.
  apply (@wrap_document_head_before_body bodied_document None).
  - vm_compute. reflexivity.
  - apply dotless_spec. vm_compute. reflexivity.
  - vm_compute. reflexivity.
  - vm_compute. reflexivity.
Defined.

(** X10. Unfencing: when the trimmed content is a fenced block, that is an
    opening fence line, a body and a closing fence on a line of its own,
    [clean_markdown_codeblocks] returns the trimmed body. *)
Theorem clean_markdown_codeblocks_unfences (content lang body : str) :
  ~ In 10%N lang ->
  strip content = fence ++ lang ++ nl ++ body ++ nl ++ fence ->
  clean_markdown_codeblocks content = strip body.
Proof.
  intros Hlang Hc. unfold clean_markdown_codeblocks. cbv zeta. rewrite Hc.
  rewrite startswith_app.
  assert (Hlines : split_on 10 (fence ++ lang ++ nl ++ body ++ nl ++ fence)
                   = (fence ++ lang) :: split_on 10 body ++ [fence]).
  { change (fence ++ lang ++ nl ++ body ++ nl ++ fence)
      with (fence ++ lang ++ 10%N :: body ++ 10%N :: fence).
    rewrite app_assoc, split_on_app_sep, split_on_app_sep.
    rewrite (@split_on_no_sep 10%N (fence ++ lang)).
    - reflexivity.
    - intros Hin. apply in_app_or in Hin. destruct Hin as [Hin | Hin]; [|auto].
      revert Hin. vm_compute. intuition discriminate. }
  rewrite Hlines. cbn [tl].
  assert (Hlast : last_is_fence (split_on 10 body ++ [fence]) = true).
  { unfold last_is_fence. rewrite rev_app_distr. reflexivity. }
  rewrite Hlast, removelast_last, join_split. reflexivity.
Qed.

Lemma clean_markdown_codeblocks_unfences_witness :
  clean_markdown_codeblocks
    (nl ++ lit "```html" ++ nl ++ lit " <table></table> " ++ nl ++ lit "```" ++ nl)
  = strip (lit " <table></table> ").
Proof.
  apply (@clean_markdown_codeblocks_unfences _ (lit "html")).
  - vm_compute. intuition discriminate.
  - vm_compute. reflexivity.
Defined.

(** X11. The result of [clean_markdown_codeblocks] has no white space at
    either end, and content that does not open with a fence is only
    trimmed. *)
Theorem clean_markdown_codeblocks_trimmed (content : str) :
  strip (clean_markdown_codeblocks content) = clean_markdown_codeblocks content /\
  (startswith (strip content) fence = false ->
   clean_markdown_codeblocks content = strip content).
Proof.
  unfold clean_markdown_codeblocks. cbv zeta. split.
  - apply strip_idem.
  - intros ->. apply strip_idem.
Qed.

(** X12. [remove_caption_tags] never makes the content longer, and content
    in which [<caption] does not occur, in any case of the letters, is
    returned as it is. *)
Theorem remove_caption_tags_only_deletes (content : str) :
  (length (remove_caption_tags content) <= length content)%nat /\
  (occurs_ignorecase (lit "<caption") content = false ->
   remove_caption_tags content = content).
Proof.
  unfold remove_caption_tags, re_sub_delete. split.
  - apply re_delete_length.
  - unfold occurs_ignorecase. intros Hocc.
    destruct (re_first (literal_ignorecase (lit "<caption")) content) eqn:E;
      [discriminate|].
    apply re_delete_no_match. unfold caption_pattern.
    now apply re_first_literal_none.
Qed.

Lemma lstrip_app_fixed a b : lstrip a = a -> a <> [] -> lstrip (a ++ b) = a ++ b.
Proof.
  destruct a as [|c a]; [congruence|]. intros H _.
  pose proof (@lstrip_head _ _ _ H) as Hc. simpl. now rewrite Hc.
Qed.

Lemma rstrip_app_fixed a b : rstrip b = b -> b <> [] -> rstrip (a ++ b) = a ++ b.
Proof.
  unfold rstrip. intros H Hne.
  assert (Hrev : lstrip (rev b) = rev b).
  { rewrite <- (rev_involutive (lstrip (rev b))), H. reflexivity. }
  rewrite rev_app_distr, lstrip_app_fixed; [now rewrite <- rev_app_distr, rev_involutive | exact Hrev |].
  intros Hnil. apply Hne. rewrite <- (rev_involutive b), Hnil. reflexivity.
Qed.

(** X13. A fragment is wrapped into a document: the result starts with the
    doctype, both wrappers' test for a document accepts it, and when neither
    the fragment nor the family holds a body tag it has exactly one body
    tag, whatever the case of the letters. *)
Theorem wrap_table_fragment_is_document (table_html : str) (font_family : option str) :
  looks_like_document table_html = false ->
  startswith (wrap_table_fragment table_html font_family) (lit "<!doctype html>")
  = true /\
  looks_like_document (wrap_table_fragment table_html font_family) = true /\
  (occurrences (lower table_html) (lit "<body") = 0%nat ->
   (forall f, font_family = Some f -> occurrences (lower f) (lit "<body") = 0%nat) ->
   occurrences (lower (wrap_table_fragment table_html font_family)) (lit "<body")
   = 1%nat).
Proof.
  intros Hfrag. split; [|split].
  - now apply wrap_fragment_starts_with_doctype.
  - unfold looks_like_document, wrap_table_fragment. cbv zeta.
    fold (looks_like_document table_html). rewrite Hfrag.
    unfold strip. rewrite lstrip_app_fixed; [|reflexivity|discriminate].
    repeat rewrite app_assoc.
    rewrite rstrip_app_fixed; [|reflexivity|discriminate].
    repeat rewrite <- app_assoc. rewrite lower_app. reflexivity.
  - now apply wrap_fragment_one_body.
Qed.

Lemma wrap_table_fragment_is_document_witness :
  startswith (wrap_table_fragment bare_table None) (lit "<!doctype html>") = true /\
  looks_like_document (wrap_table_fragment bare_table None) = true /\
  (occurrences (lower bare_table) (lit "<body") = 0%nat ->
   (forall f, @None str = Some f -> occurrences (lower f) (lit "<body") = 0%nat) ->
   occurrences (lower (wrap_table_fragment bare_table None)) (lit "<body") = 1%nat).
Proof.
  apply (@wrap_table_fragment_is_document bare_table None).
  vm_compute. reflexivity.
Defined.

End Wrapper.

(* ===================================================================== *)
(** * 5. The renderers ([html2img.py], [html2img_split.py]) *)
(* ===================================================================== *)

Module Render.

Import PyStr Wrapper.
Export Stability.

(** ** 5.1 Themes *)

(** [@dataclass(frozen=True) class Theme] *)
Record Theme : Type := mkTheme {
  name : str;
  border_color : str;
  header_bg : str;
  header_text : str;
  stripe_bg : str;
  body_bg : str;
  shadow : str;
  zebra : bool;
  weight : Q
}.

Definition THEMES : list Theme :=
  [ mkTheme (lit "gray_clean") (lit "#222222") (lit "#f1f1f1") (lit "#111111")
      (lit "#fafafa") (lit "#ffffff") (lit "none") true (35 # 10);
    mkTheme (lit "soft_card") (lit "#d7dbe7") (lit "#eef1f8") (lit "#1f2430")
      (lit "#f8f9fd") (lit "#ffffff") (lit "0 6px 18px rgba(0,0,0,0.08)") true 1;
    mkTheme (lit "blue_header") (lit "#c8d3ea") (lit "#2f5aa6") (lit "#ffffff")
      (lit "#f3f6ff") (lit "#ffffff") (lit "0 4px 14px rgba(47,90,166,0.12)")
      true (2 # 10);
    mkTheme (lit "mono") (lit "#333333") (lit "#ffffff") (lit "#111111")
      (lit "#ffffff") (lit "#ffffff") (lit "none") false (35 # 10) ].

(** The theme of the branch that does not colour. *)
Definition plain_theme : Theme :=
  mkTheme (lit "plain") (lit "#222222") (lit "#ffffff") (lit "#111111")
    (lit "#ffffff") (lit "#ffffff") (lit "none") false 1.

(** ** 5.2 The page, the layout engine and the random source *)

(** A style sheet handed to [page.add_style_tag]: the text is a function of
    the values named here ([font_face_base64], [build_size_fixed_base_css]
    with the constants of its call sites, [build_theme_css]). *)
Inductive StyleTag : Type :=
| FontFaceCss (font_path family : str)
| BaseCss (font_family : option str)
| ThemeCss (theme : Theme).

Record Margins : Type := mkMargins { mt : Z; mr : Z; mb : Z; ml : Z }.

(** What the program has done to the page it opened. *)
Record Page : Type := mkPage {
  doc : str;                       (* [page.set_content] *)
  scale : Q;                       (* [device_scale_factor] *)
  styles : list StyleTag;          (* [page.add_style_tag], in order *)
  shot_padding : option Margins;   (* the [#shot] wrapper, once created *)
  shot_background : option (Z * Z * Z)
                                   (* [shot.style.backgroundColor], by its
                                      red, green and blue components *)
}.

(** The region a screenshot captures. *)
Inductive Target : Type :=
| ShotElement
| TableElement
| BodyElement
| ClipRegion (x y width height : Q).

Record Shot : Type := mkShot {
  shot_path : str;
  shot_target : Target;
  shot_page : Page
}.

(** The browser: what its queries answer on a page. *)
Record Engine : Type := mkEngine {
  has_table : str -> bool;                 (* [document.querySelector('table')] *)
  measure : Page -> list CellMetric;       (* [MEASURE_JS] *)
  computed_font : Page -> str;             (* [getComputedStyle(...).fontFamily] *)
  row_positions : Page -> list (Split.RowInfo Q) * Q * Q;
                                           (* rows, [tableHeight], [tableWidth] *)
  table_rect : Page -> Q * Q * Q;          (* [top], [left], [width] *)
  error_text : str                         (* message of the error a throwing
                                              script surfaces as *)
}.

(** Python's [random] module, read at a cursor that every call advances. *)
Record Rng : Type := mkRng {
  rand_float : nat -> Q;                        (* [random.random()] *)
  rand_choice : nat -> list Q -> option nat;    (* [random.choices]: an index,
                                                   or [None] for [ValueError] *)
  rand_int : nat -> Z -> Z -> Z;                (* [random.randint(a, b)] *)
  seed_cursor : Z -> nat                        (* [random.seed(seed)] *)
}.

(** ** 5.3 Exceptions, the world and the monad *)

Inductive exn : Type :=
| FileNotFoundError (msg : str)
| PlaywrightError (msg : str)
| RuntimeError (msg : str)
| ValueError (msg : str)
| IndexError (msg : str)
| OSError (msg : str).

(** A line printed by [print]: the values its f-string interpolates. *)
Inductive LogLine : Type :=
| LogFound (n : nat) (dir : str)
| LogNoFiles (dir : str)
| LogStarting (n : nat)
| LogProcessing (i n : nat) (file : str)
| LogRawDone (v : nat) (saved : str)
| LogFailed (v : nat) (e : exn)
| LogDualDone (v : nat) (theme : str) (margins new_margins : list Z)
| LogSingleDone (v : nat) (theme : str) (margins : list Z)
| LogSaved (files : list str)
| LogSplitFound (n : nat) (max_height : Z)
| LogRule
| LogPart (part start_row end_row : nat) (height : Q)
| LogSplitSaved (file : str)
| LogSplitInto (n : nat)
| LogSplitFailed (e : exn)
| LogSplitDone (images files : nat)
| LogMissingFolder (dir : str)
| LogNoHtmlIn (dir : str)
| LogFoundIn (n : nat) (dir : str)
| LogCleaned (file out_file : str)
| LogNoValidTable (file : str)
| LogErrorProcessing (file : str) (e : exn)
| LogCompleted (successful failed : nat)
| LogFailedFiles (files : list str) (more : bool).

Record World : Type := mkWorld {
  fs : list str;         (* the paths that exist *)
  shots : list Shot;     (* the images written, oldest first *)
  texts : list (str * str);
                         (* the text files written, path and content *)
  cursor : nat;          (* position in the random source *)
  log : list LogLine     (* standard output, oldest first *)
}.

Definition M (A : Type) : Type := World -> (exn + A) * World.

Definition ret {A : Type} (a : A) : M A := fun w => (inr a, w).

Definition raise {A : Type} (e : exn) : M A := fun w => (inl e, w).

Definition bind {A B : Type} (m : M A) (k : A -> M B) : M B :=
  fun w =>
    match m w with
    | (inr a, w') => k a w'
    | (inl e, w') => (inl e, w')
    end.

(** [try: m except Exception as e: handler(e)] *)
Definition try_except {A : Type} (m : M A) (handler : exn -> M A) : M A :=
  fun w =>
    match m w with
    | (inr a, w') => (inr a, w')
    | (inl e, w') => handler e w'
    end.

Declare Scope py_scope.
Delimit Scope py_scope with py.
Notation "x <- m ;; k" := (bind m (fun x => k))
  (at level 61, m at next level, right associativity) : py_scope.
Notation "' pat <- m ;; k" := (bind m (fun x => match x with pat => k end))
  (at level 61, pat pattern, m at next level, right associativity) : py_scope.
Notation "m ;;; k" := (bind m (fun _ => k))
  (at level 61, right associativity) : py_scope.
Open Scope py_scope.

Definition print (l : LogLine) : M unit :=
  fun w => (inr tt, mkWorld (fs w) (shots w) (texts w) (cursor w) (log w ++ [l])).

(** [Path(p).exists()] *)
Definition path_exists (p : str) : M bool :=
  fun w => (inr (existsb (str_eqb p) (fs w)), w).

(** [element.screenshot(path=p)] and [page.screenshot(path=p, clip=...)] *)
Definition screenshot (p : str) (t : Target) (pg : Page) : M unit :=
  fun w => (inr tt, mkWorld (fs w ++ [p]) (shots w ++ [mkShot p t pg])
                      (texts w) (cursor w) (log w)).

(** [Path(p).write_text(content)] *)
Definition write_text (p content : str) : M unit :=
  fun w => (inr tt, mkWorld (fs w ++ [p]) (shots w) (texts w ++ [(p, content)])
                      (cursor w) (log w)).

Definition add_style_tag (pg : Page) (css : StyleTag) : Page :=
  mkPage (doc pg) (scale pg) (styles pg ++ [css]) (shot_padding pg)
    (shot_background pg).

(** ** 5.4 An engine and a random source to run the renderers on *)

(** A table is found when the text of the document has a table tag. *)
Definition tag_engine (cells : Page -> list CellMetric) : Engine :=
  mkEngine (fun d => contains (lower d) (lit "<table"))
           cells
           (fun _ => lit "sans-serif")
           (fun _ => ([], 0%Q, 0%Q))
           (fun _ => (0%Q, 0%Q, 0%Q))
           (lit "Page.evaluate: Error: No <table> found").

(** Every theme widens the single cell to twice its baseline width. *)
Definition reflowing_cells (pg : Page) : list CellMetric :=
  if existsb (fun css => match css with ThemeCss _ => true | _ => false end)
       (styles pg)
  then [mkCell 200 20]
  else [mkCell 100 20].

(** The random source that always answers its lowest value. *)
Definition lowest_rng : Rng :=
  mkRng (fun _ => 0%Q) (fun _ _ => Some 0%nat) (fun _ a _ => a) (fun _ => 0%nat).

Definition empty_world : World := mkWorld [] [] [] 0 [].

Definition no_margins : Margins := mkMargins 0 0 0 0.

(** Cells that no style sheet moves. *)
Definition steady_cells (pg : Page) : list CellMetric := [mkCell 100 20].

(** A table of four rows, 220 pixels high. *)
Definition four_row_engine : Engine :=
  mkEngine (fun d => contains (lower d) (lit "<table"))
           steady_cells
           (fun _ => lit "sans-serif")
           (fun _ => (Split.four_rows, 220%Q, 300%Q))
           (fun _ => (10%Q, 10%Q, 300%Q))
           (lit "Page.evaluate: Error: No <table> found").

(** ** 5.5 The renderers of [html2img.py]

    The renderers run against one page of one browser, which lives from
    [set_content] to the end of the call.  Paths are taken as already
    resolved; the viewport, the fixed waits after a change of content or
    style and the launch and close of the browser have no effect on what is
    stated here and are left out. *)

Section Renderers.

Variable E : Engine.
Variable R : Rng.

Definition advance (w : World) : World :=
  mkWorld (fs w) (shots w) (texts w) (S (cursor w)) (log w).

(** [random.random()] *)
Definition random_random : M Q :=
  fun w => (inr (rand_float R (cursor w)), advance w).

(** [random.randint(a, b)] *)
Definition randint (a b : Z) : M Z :=
  fun w => (inr (rand_int R (cursor w) a b), advance w).

(** [random.seed(seed)] *)
Definition random_seed (seed : Z) : M unit :=
  fun w => (inr tt, mkWorld (fs w) (shots w) (texts w) (seed_cursor R seed) (log w)).

(** [random.choices(themes, weights=weights, k=1)[0]] *)
Definition choose_weighted_theme (themes : list Theme) : M Theme :=
  fun w =>
    let weights := map weight themes in
    match rand_choice R (cursor w) weights with
    | None => (inl (ValueError (lit "Total of weights must be greater than zero")), w)
    | Some i =>
        match nth_error themes i with
        | Some theme => (inr theme, advance w)
        | None => (inl (IndexError (lit "list index out of range")), advance w)
        end
    end.

(** [r, g, b = randint(240, 255)] three times *)
Definition get_random_pastel_color : M (Z * Z * Z) :=
  r <- randint 240 255 ;;
  g <- randint 240 255 ;;
  b <- randint 240 255 ;;
  ret (r, g, b).

(** [font_face_base64]: the file has to exist; the [@font-face] rule built
    from its bytes and its extension is the style sheet [FontFaceCss]. *)
Definition font_face_base64 (font_path family : str) : M StyleTag :=
  found <- path_exists font_path ;;
  if negb found
  then raise (FileNotFoundError (lit "Font file not found: " ++ font_path))
  else ret (FontFaceCss font_path family).

(** The font part of both renderers: an external font file, when one is
    given, replaces the family extracted from the HTML. *)
Definition font_setup (font_path : option str) (extracted_font : option str)
  : M (option StyleTag * option str) :=
  match font_path with
  | Some fp =>
      if nonempty fp
      then css <- font_face_base64 fp (lit "MyKR") ;;
           ret (Some css, Some (lit "MyKR"))
      else ret (None, extracted_font)
  | None => ret (None, extracted_font)
  end.

(** The script that moves the table into the [#shot] wrapper; it throws
    when the document has no table. *)
Definition make_shot_wrapper (pg : Page) (m : Margins) : M Page :=
  if has_table E (doc pg)
  then ret (mkPage (doc pg) (scale pg) (styles pg) (Some m) (shot_background pg))
  else raise (PlaywrightError (error_text E)).

(** Content, fonts, base CSS and wrapper: the page on which the baseline
    is measured. *)
Definition open_page (table_html : str) (font_path : option str) (sc : Q)
  (m : Margins) : M Page :=
  let extracted_font := extract_font_family_from_html table_html in
  let html_doc := wrap_table_fragment table_html extracted_font in
  '(font_face, target_font_family) <- font_setup font_path extracted_font ;;
  let base_css := BaseCss target_font_family in
  let page0 := mkPage html_doc sc [] None None in
  let page1 := match font_face with
               | Some css => add_style_tag page0 css
               | None => page0
               end in
  make_shot_wrapper (add_style_tag page1 base_css) m.

(** [for _ in range(max_tries)]: draw, apply, measure, stop at the first
    theme within tolerance. *)
Fixpoint theme_search (themes : list Theme) (base_metrics : list CellMetric)
  (tol : Q) (tries : nat) (pg : Page) : M (option Theme * Page) :=
  match tries with
  | O => ret (None, pg)
  | S tries' =>
      theme <- choose_weighted_theme themes ;;
      let pg' := add_style_tag pg (ThemeCss theme) in
      let cur_metrics := measure E pg' in
      if within_5pct base_metrics cur_metrics tol
      then ret (Some theme, pg')
      else theme_search themes base_metrics tol tries' pg'
  end.

Definition Qlt_bool (a b : Q) : bool := negb (Qle_bool b a).

(** The choice of the theme, common to both renderers. *)
Definition choose_theme (themes : list Theme) (base_metrics : list CellMetric)
  (tol : Q) (max_tries : Z) (color_probability : Q) (pg : Page)
  : M (option Theme * Page) :=
  r <- random_random ;;
  let should_apply_color := Qlt_bool r color_probability in
  if should_apply_color
  then theme_search themes base_metrics tol (Z.to_nat max_tries) pg
  else ret (Some plain_theme, add_style_tag pg (ThemeCss plain_theme)).

Definition seed_if_given (seed : option Z) : M unit :=
  match seed with
  | Some s => random_seed s
  | None => ret tt
  end.

Definition render_table_dual_images (themes : list Theme)
  (table_html out_path_std out_path_colored : str)
  (font_path : option str) (seed : option Z) (sc : Q) (m : Margins)
  (tol : Q) (max_tries : Z) (color_probability : Q)
  : M (str * str * list Z) :=
  seed_if_given seed ;;;
  pg <- open_page table_html font_path sc m ;;
  let base_metrics := measure E pg in
  '(chosen, pg1) <- choose_theme themes base_metrics tol max_tries
                      color_probability pg ;;
  match chosen with
  | None => raise (RuntimeError (lit "Could not find a theme within tolerance."))
  | Some theme =>
      let applied_font := computed_font E pg1 in
      screenshot out_path_std ShotElement pg1 ;;;
      bg_color <- get_random_pastel_color ;;
      new_mt <- randint 0 5 ;;
      new_mr <- randint 0 5 ;;
      new_mb <- randint 0 5 ;;
      new_ml <- randint 0 5 ;;
      let pg2 := mkPage (doc pg1) (scale pg1) (styles pg1)
                   (Some (mkMargins new_mt new_mr new_mb new_ml))
                   (Some bg_color) in
      screenshot out_path_colored ShotElement pg2 ;;;
      ret (name theme, applied_font, [new_mt; new_mr; new_mb; new_ml])
  end.

Definition render_table_single_image (themes : list Theme)
  (table_html out_path : str)
  (font_path : option str) (seed : option Z) (sc : Q) (m : Margins)
  (tol : Q) (max_tries : Z) (color_probability : Q)
  : M (str * str) :=
  seed_if_given seed ;;;
  pg <- open_page table_html font_path sc m ;;
  let base_metrics := measure E pg in
  '(chosen, pg1) <- choose_theme themes base_metrics tol max_tries
                      color_probability pg ;;
  match chosen with
  | None => raise (RuntimeError (lit "Could not find a theme within tolerance."))
  | Some theme =>
      let applied_font := computed_font E pg1 in
      screenshot out_path ShotElement pg1 ;;;
      ret (name theme, applied_font)
  end.

(** [render_raw_html_image]: the document it loads. *)
Definition raw_document (html_content : str) : str :=
  let extracted_font := extract_font_family_from_html html_content in
  let style := font_override_style (font_css extracted_font) in
  if negb (startswith (lower (strip html_content)) (lit "<!doctype"))
     && negb (startswith (lower (strip html_content)) (lit "<html"))
  then
    lit "<!doctype html>" ++ nl
    ++ lit "<html lang=" ++ dq ++ lit "ko" ++ dq ++ lit ">" ++ nl
    ++ lit "<head>" ++ nl
    ++ lit "  <meta charset=" ++ dq ++ lit "utf-8" ++ dq ++ lit " />" ++ nl
    ++ lit "  " ++ style ++ nl
    ++ lit "</head>" ++ nl
    ++ lit "<body>" ++ nl
    ++ html_content ++ nl
    ++ lit "</body>" ++ nl
    ++ lit "</html>"
  else insert_font_style html_content style.

Definition render_raw_html_image (html_content out_path : str) (sc : Q) : M unit :=
  let pg := mkPage (raw_document html_content) sc [] None None in
  if has_table E (doc pg)
  then screenshot out_path TableElement pg
  else screenshot out_path BodyElement pg.

(** ** 5.6 The splitting renderer of [html2img_split.py] *)

(** An output path, by the parts [Path] takes it into. *)
Record OutPath : Type := mkOutPath {
  out_dir : str;
  out_stem : str;
  out_suffix : str
}.

Definition path_join (dir file : str) : str := dir ++ lit "/" ++ file.

Definition path_str (p : OutPath) : str :=
  path_join (out_dir p) (out_stem p ++ out_suffix p).

(** An [int] in an f-string. *)
Definition str_of_nat (n : nat) : str :=
  lit (DecimalString.NilEmpty.string_of_uint (Nat.to_uint n)).

(** [get_table_row_positions]: no rows, and zero sizes, without a table. *)
Definition get_table_row_positions (pg : Page) : list (Split.RowInfo Q) * Q * Q :=
  if has_table E (doc pg) then row_positions E pg else ([], 0%Q, 0%Q).

(** [for part_idx, (start_row, end_row) in enumerate(splits, 1)] *)
Fixpoint capture_parts (pg : Page) (rows : list (Split.RowInfo Q))
  (dir stem ext : str) (padding : Z) (part_idx : nat)
  (splits : list (nat * nat)) : M (list str) :=
  match splits with
  | [] => ret []
  | (start_row, end_row) :: rest =>
      let part_path := path_join dir (stem ++ lit "_" ++ str_of_nat part_idx ++ ext) in
      match nth_error rows start_row, nth_error rows end_row with
      | Some first_row, Some last_row =>
          let start_top := Split.top first_row in
          let end_bottom := Split.bottom last_row in
          let '(rect_top, rect_left, rect_width) := table_rect E pg in
          let pad := inject_Z padding in
          let clip := ClipRegion (rect_left - pad)%Q
                        (rect_top + start_top - pad)%Q
                        (rect_width + pad * 2)%Q
                        ((end_bottom - start_top) + pad * 2)%Q in
          screenshot part_path clip pg ;;;
          print (LogPart part_idx (start_row + 1) (end_row + 1)
                   (end_bottom - start_top)%Q) ;;;
          others <- capture_parts pg rows dir stem ext padding (S part_idx) rest ;;
          ret (part_path :: others)
      | _, _ => raise (IndexError (lit "list index out of range"))
      end
  end.

Definition render_html_with_split (html_content : str) (output_path : OutPath)
  (max_height : Z) (sc : Q) (padding : Z) : M (list str) :=
  let output_ext := if nonempty (out_suffix output_path)
                    then out_suffix output_path else lit ".png" in
  let extracted_font := extract_font_family_from_html html_content in
  let html_doc := wrap_html_document html_content extracted_font in
  let pg := mkPage html_doc sc [] None None in
  let '(rows, table_height, _) := get_table_row_positions pg in
  match rows with
  | [] =>
      screenshot (path_str output_path) BodyElement pg ;;;
      ret [path_str output_path]
  | _ :: _ =>
      if Qle_bool table_height (inject_Z max_height)
      then screenshot (path_str output_path) TableElement pg ;;;
           ret [path_str output_path]
      else
        let splits := Split.calculate_split_points_Q rows (inject_Z max_height) in
        if (length splits =? 1)%nat
        then screenshot (path_str output_path) TableElement pg ;;;
             ret [path_str output_path]
        else capture_parts pg rows (out_dir output_path) (out_stem output_path)
               output_ext padding 1 splits
  end.

(** ** 5.7 The batch drivers *)

(** A file of the input directory, as [glob] lists it: [read_text] gives
    its text or raises. *)
Record HtmlFile : Type := mkHtmlFile {
  file_name : str;
  file_stem : str;
  read_text : exn + str
}.

(** A call that returns a value or raises, and touches nothing. *)
Definition lift {A : Type} (r : exn + A) : M A :=
  match r with
  | inl e => raise e
  | inr a => ret a
  end.

Definition read (f : HtmlFile) : M str := lift (read_text f).

Fixpoint for_each {A : Type} (xs : list A) (body : A -> M unit) : M unit :=
  match xs with
  | [] => ret tt
  | x :: rest => body x ;;; for_each rest body
  end.

(** [counter = 1; while blocked(current): current = candidate(counter);
    counter += 1].  The candidates differ from one another, so one of the
    first [length fs + 1] is free; the fuel is that bound. *)
Fixpoint free_name {A : Type} (fuel : nat) (blocked : A -> bool)
  (candidate : nat -> A) (current : A) (counter : nat) : A :=
  match fuel with
  | O => current
  | S fuel' =>
      if blocked current
      then free_name fuel' blocked candidate (candidate counter) (S counter)
      else current
  end.

Definition pick_free {A : Type} (blocked : list str -> A -> bool)
  (candidate : nat -> A) (current : A) : M A :=
  fun w => (inr (free_name (S (length (fs w))) (blocked (fs w)) candidate current 1), w).

Definition in_fs (names : list str) (p : str) : bool := existsb (str_eqb p) names.

Definition png : str := lit ".png".

(** The [try] statement of a variant in raw mode. *)
Definition raw_attempt (out table_html : str) (sc : Q) (img_idx : nat)
  (raw_name : str) : M unit :=
  try_except
    (render_raw_html_image table_html (path_join out raw_name) sc ;;;
     print (LogRawDone (img_idx + 1) raw_name))
    (fun e => print (LogFailed (img_idx + 1) e)).

(** The body of [for img_idx in range(images_per_file)] in raw mode. *)
Definition raw_variant (out : str) (f : HtmlFile) (table_html : str)
  (sc : Q) (overwrite : bool) (images_per_file img_idx : nat) : M unit :=
  let stem := file_stem f in
  let v := lit "_v" ++ str_of_nat (img_idx + 1) in
  let raw_name := if (1 <? images_per_file)%nat
                  then stem ++ v ++ png else stem ++ png in
  raw_name <-
    (if negb overwrite
     then pick_free (fun names n => in_fs names (path_join out n))
            (fun counter =>
               if (1 <? images_per_file)%nat
               then stem ++ v ++ lit "_" ++ str_of_nat counter ++ png
               else stem ++ lit "_" ++ str_of_nat counter ++ png)
            raw_name
     else ret raw_name) ;;
  raw_attempt out table_html sc img_idx raw_name.

(** The [try] statement of a variant otherwise. *)
Definition styled_attempt (themes : list Theme) (out table_html : str)
  (font_path : option str) (sc : Q) (generate_colored : bool)
  (color_probability : Q) (img_idx : nat) (m_t m_r m_b m_l : Z)
  (std_name clr_name : str) : M unit :=
  let margins := [m_t; m_r; m_b; m_l] in
  try_except
    (if generate_colored
     then
       '(theme_name, _, new_margins) <-
         render_table_dual_images themes table_html (path_join out std_name)
           (path_join out clr_name) font_path None sc
           (mkMargins m_t m_r m_b m_l) (5 # 100) 30 color_probability ;;
       print (LogDualDone (img_idx + 1) theme_name margins new_margins) ;;;
       print (LogSaved [std_name; clr_name])
     else
       '(theme_name, _) <-
         render_table_single_image themes table_html (path_join out std_name)
           font_path None sc (mkMargins m_t m_r m_b m_l) (5 # 100) 30
           color_probability ;;
       print (LogSingleDone (img_idx + 1) theme_name margins) ;;;
       print (LogSaved [std_name]))
    (fun e => print (LogFailed (img_idx + 1) e)).

(** The body of [for img_idx in range(images_per_file)] otherwise. *)
Definition styled_variant (themes : list Theme) (out : str) (f : HtmlFile)
  (table_html : str) (font_path : option str) (sc : Q)
  (overwrite generate_colored : bool) (images_per_file : nat)
  (color_probability : Q) (img_idx : nat) : M unit :=
  m_t <- randint 1 5 ;;
  m_r <- randint 1 5 ;;
  m_b <- randint 1 5 ;;
  m_l <- randint 1 5 ;;
  let stem := file_stem f in
  let v := lit "_v" ++ str_of_nat (img_idx + 1) in
  let names :=
    if (1 <? images_per_file)%nat
    then (stem ++ v ++ png, stem ++ v ++ lit "_colored" ++ png)
    else (stem ++ png, stem ++ lit "_colored" ++ png) in
  '(std_name, clr_name) <-
    (if negb overwrite
     then pick_free
            (fun existing ns =>
               in_fs existing (path_join out (fst ns))
               || (generate_colored && in_fs existing (path_join out (snd ns))))
            (fun counter =>
               let c := lit "_" ++ str_of_nat counter in
               if (1 <? images_per_file)%nat
               then (stem ++ v ++ c ++ png, stem ++ v ++ c ++ lit "_colored" ++ png)
               else (stem ++ c ++ png, stem ++ c ++ lit "_colored" ++ png))
            names
     else ret names) ;;
  styled_attempt themes out table_html font_path sc generate_colored
    color_probability img_idx m_t m_r m_b m_l std_name clr_name.

(** The body of [for i, html_file in enumerate(html_files)]. *)
Definition process_one_file (themes : list Theme) (out : str)
  (font_path : option str) (sc : Q) (overwrite generate_colored : bool)
  (images_per_file : nat) (color_probability : Q) (raw_mode : bool)
  (n : nat) (entry : nat * HtmlFile) : M unit :=
  let '(i, html_file) := entry in
  table_html <- read html_file ;;
  let table_html := clean_markdown_codeblocks table_html in
  let table_html := remove_caption_tags table_html in
  print (LogProcessing (i + 1) n (file_name html_file)) ;;;
  for_each (seq 0 images_per_file)
    (fun img_idx =>
       if raw_mode
       then raw_variant out html_file table_html sc overwrite images_per_file img_idx
       else styled_variant themes out html_file table_html font_path sc overwrite
              generate_colored images_per_file color_probability img_idx).

(** [process_all_html_files], on the listing [html_files] of [input_dir]. *)
Definition process_all_html_files (themes : list Theme) (html_files : list HtmlFile)
  (input_dir output_dir : str) (font_path : option str) (sc : Q)
  (overwrite generate_colored : bool) (images_per_file : Z)
  (color_probability : Q) (raw_mode : bool) : M unit :=
  print (LogFound (length html_files) input_dir) ;;;
  match html_files with
  | [] => print (LogNoFiles input_dir)
  | _ :: _ =>
      print (LogStarting (length html_files)) ;;;
      for_each (combine (seq 0 (length html_files)) html_files)
        (process_one_file themes output_dir font_path sc overwrite generate_colored
           (Z.to_nat images_per_file) color_probability raw_mode
           (length html_files))
  end.

(** The body of the loop of [process_html_files]. *)
Definition split_one_file (out : str) (max_height : Z) (sc : Q) (overwrite : bool)
  (n : nat) (total_images : nat) (entry : nat * HtmlFile) : M nat :=
  let '(i, html_file) := entry in
  print (LogProcessing (i + 1) n (file_name html_file)) ;;;
  try_except
    (html_content <- read html_file ;;
     let html_content := clean_markdown_codeblocks html_content in
     let html_content := remove_caption_tags html_content in
     let stem := file_stem html_file in
     out_stem <-
       (if negb overwrite
        then pick_free (fun names st => in_fs names (path_join out (st ++ png)))
               (fun counter => stem ++ lit "_" ++ str_of_nat counter) stem
        else ret stem) ;;
     output_files <- render_html_with_split html_content
                       (mkOutPath out out_stem png) max_height sc 10 ;;
     (if (length output_files =? 1)%nat
      then print (LogSplitSaved (out_stem ++ png))
      else print (LogSplitInto (length output_files))) ;;;
     ret (total_images + length output_files)%nat)
    (fun e => print (LogSplitFailed e) ;;; ret total_images).

Fixpoint fold_files {A S : Type} (xs : list A) (acc : S) (body : S -> A -> M S) : M S :=
  match xs with
  | [] => ret acc
  | x :: rest => acc' <- body acc x ;; fold_files rest acc' body
  end.

(** [process_html_files], on the listing [html_files] of [input_dir]. *)
Definition process_html_files (html_files : list HtmlFile)
  (input_dir output_dir : str) (max_height : Z) (sc : Q) (overwrite : bool)
  : M unit :=
  match html_files with
  | [] => print (LogNoFiles input_dir)
  | _ :: _ =>
      print (LogSplitFound (length html_files) max_height) ;;;
      print LogRule ;;;
      total_images <-
        fold_files (combine (seq 0 (length html_files)) html_files) 0%nat
          (split_one_file output_dir max_height sc overwrite (length html_files)) ;;
      print LogRule ;;;
      print (LogSplitDone total_images (length html_files))
  end.

(** ** 5.8 The vocabulary of the statements *)

(** [post m Q]: from any world, [m] ends with a result [r], having appended
    to the log some lines [ls] with [Q r ls]. *)
Definition post {A : Type} (m : M A) (Q : exn + A -> list LogLine -> Prop) : Prop :=
  forall w, exists r w' ls, m w = (r, w') /\ log w' = log w ++ ls /\ Q r ls.

(** [m] prints nothing. *)
Definition silent {A : Type} (m : M A) : Prop := post m (fun _ ls => ls = []).

(** The theme drawn at cursor [c]. *)
Definition draw (themes : list Theme) (c : nat) : option Theme :=
  match rand_choice R c (map weight themes) with
  | Some i => nth_error themes i
  | None => None
  end.

(** The page after the first [k] draws made from cursor [c]: each draw
    adds its style sheet on top of the earlier ones. *)
Fixpoint page_after (themes : list Theme) (c : nat) (pg : Page) (k : nat) : Page :=
  match k with
  | O => pg
  | S k' =>
      match draw themes c with
      | Some theme => page_after themes (S c) (add_style_tag pg (ThemeCss theme)) k'
      | None => pg
      end
  end.

(** Attempt number [j] (from 0) draws a theme and its measurement is out of
    tolerance against the baseline. *)
Definition attempt_fails (themes : list Theme) (base_metrics : list CellMetric)
  (tol : Q) (pg : Page) (c j : nat) : Prop :=
  (exists theme, draw themes (c + j) = Some theme) /\
  within_5pct base_metrics (measure E (page_after themes c pg (S j))) tol = false.

(** The font file, when one is named, exists. *)
Definition font_ok (font_path : option str) (w : World) : bool :=
  match font_path with
  | Some fp => if nonempty fp then existsb (str_eqb fp) (fs w) else true
  | None => true
  end.

(** The page [open_page] returns when it succeeds. *)
Definition base_page (table_html : str) (font_path : option str) (sc : Q)
  (m : Margins) : Page :=
  let extracted_font := extract_font_family_from_html table_html in
  let html_doc := wrap_table_fragment table_html extracted_font in
  let css := match font_path with
             | Some fp =>
                 if nonempty fp
                 then [FontFaceCss fp (lit "MyKR"); BaseCss (Some (lit "MyKR"))]
                 else [BaseCss extracted_font]
             | None => [BaseCss extracted_font]
             end in
  mkPage html_doc sc css (Some m) None.

(** The cursor after [seed_if_given]. *)
Definition start_cursor (seed : option Z) (w : World) : nat :=
  match seed with
  | Some s => seed_cursor R s
  | None => cursor w
  end.

Definition with_cursor (w : World) (c : nat) : World :=
  mkWorld (fs w) (shots w) (texts w) c (log w).

(** The lines a batch may print for a file after the line that names it. *)
Definition variant_line (l : LogLine) : Prop :=
  match l with
  | LogRawDone _ _ | LogFailed _ _ | LogDualDone _ _ _ _
  | LogSingleDone _ _ _ | LogSaved _
  | LogPart _ _ _ _ | LogSplitSaved _ | LogSplitInto _ | LogSplitFailed _ => True
  | _ => False
  end.

(** What one variant prints: its failure with the exception caught, or
    its success lines. *)
Definition variant_outcome (v : nat) (ls : list LogLine) : Prop :=
  (exists e, ls = [LogFailed v e]) \/
  (exists saved, ls = [LogRawDone v saved]) \/
  (exists theme margins new_margins files,
     ls = [LogDualDone v theme margins new_margins; LogSaved files]) \/
  (exists theme margins files,
     ls = [LogSingleDone v theme margins; LogSaved files]).

(** [m] prints nothing and does not raise. *)
Definition plain {A : Type} (m : M A) : Prop :=
  post m (fun r ls => ls = [] /\ exists a, r = inr a).

(** A file whose text can be read. *)
Definition readable (f : HtmlFile) : Prop := exists text, read_text f = inr text.

(** What the batch prints for one file: the line that names it, then the
    lines of its variants. *)
Definition file_lines (n : nat) (entry : nat * HtmlFile) (ls : list LogLine) : Prop :=
  exists vs, ls = LogProcessing (fst entry + 1) n (file_name (snd entry)) :: vs
             /\ Forall variant_line vs.

(** The lines that name the files, one per file, in the order of the
    listing. *)
Definition processing_lines (html_files : list HtmlFile) : list LogLine :=
  map (fun entry => LogProcessing (fst entry + 1) (length html_files)
                      (file_name (snd entry)))
      (combine (seq 0 (length html_files)) html_files).

Definition is_processing (l : LogLine) : bool :=
  match l with LogProcessing _ _ _ => true | _ => false end.

(** A line that lists failed files, or counts them. *)
Definition is_summary (l : LogLine) : bool :=
  match l with LogFailedFiles _ _ | LogCompleted _ _ => true | _ => false end.

(** The page [render_html_with_split] loads. *)
Definition split_page (html_content : str) (sc : Q) : Page :=
  mkPage (wrap_html_document html_content
            (extract_font_family_from_html html_content)) sc [] None None.

(** The page [render_raw_html_image] loads. *)
Definition raw_page (html_content : str) (sc : Q) : Page :=
  mkPage (raw_document html_content) sc [] None None.

(** The world after one more printed line. *)
Definition logged (w : World) (l : LogLine) : World :=
  mkWorld (fs w) (shots w) (texts w) (cursor w) (log w ++ [l]).

(** The world after one screenshot. *)
Definition after_shot (w : World) (p : str) (t : Target) (pg : Page) : World :=
  mkWorld (fs w ++ [p]) (shots w ++ [mkShot p t pg]) (texts w) (cursor w) (log w).

(** ** 5.9 Facts on the renderers and the batch drivers *)

(** *** What a computation prints *)

Lemma post_weaken (A : Type) (m : M A) (Q Q' : exn + A -> list LogLine -> Prop) :
  post m Q -> (forall r ls, Q r ls -> Q' r ls) -> post m Q'.
Proof.
  intros Hm Himp w. destruct (Hm w) as (r & w' & ls & Hrun & Hlog & HQ).
  exists r, w', ls. auto.
Qed.

Lemma post_ret (A : Type) (a : A) (Q : exn + A -> list LogLine -> Prop) :
  Q (inr a) [] -> post (ret a) Q.
Proof.
  intros HQ w. exists (inr a), w, []. rewrite app_nil_r. auto.
Qed.

Lemma post_raise (A : Type) (e : exn) (Q : exn + A -> list LogLine -> Prop) :
  Q (inl e) [] -> post (raise e) Q.
Proof.
  intros HQ w. exists (inl e), w, []. rewrite app_nil_r. auto.
Qed.

Lemma post_print (l : LogLine) (Q : exn + unit -> list LogLine -> Prop) :
  Q (inr tt) [l] -> post (print l) Q.
Proof.
  intros HQ w. exists (inr tt), (mkWorld (fs w) (shots w) (texts w) (cursor w)
                                  (log w ++ [l])), [l].
  auto.
Qed.

Lemma post_bind (A B : Type) (m : M A) (k : A -> M B)
  (Q1 : exn + A -> list LogLine -> Prop)
  (Q2 : A -> exn + B -> list LogLine -> Prop)
  (Q : exn + B -> list LogLine -> Prop) :
  post m Q1 ->
  (forall a, post (k a) (Q2 a)) ->
  (forall e l1, Q1 (inl e) l1 -> Q (inl e) l1) ->
  (forall a l1 r l2, Q1 (inr a) l1 -> Q2 a r l2 -> Q r (l1 ++ l2)) ->
  post (bind m k) Q.
Proof.
  intros Hm Hk Herr Hok w. unfold bind.
  destruct (Hm w) as (r1 & w1 & l1 & Hrun1 & Hlog1 & HQ1). rewrite Hrun1.
  destruct r1 as [e|a].
  - exists (inl e), w1, l1. auto.
  - destruct (Hk a w1) as (r2 & w2 & l2 & Hrun2 & Hlog2 & HQ2).
    exists r2, w2, (l1 ++ l2). rewrite Hrun2, Hlog2, Hlog1, app_assoc. eauto.
Qed.

Lemma post_try (A : Type) (m : M A) (handler : exn -> M A)
  (Q1 : exn + A -> list LogLine -> Prop)
  (Q2 : exn -> exn + A -> list LogLine -> Prop)
  (Q : exn + A -> list LogLine -> Prop) :
  post m Q1 ->
  (forall e, post (handler e) (Q2 e)) ->
  (forall a l1, Q1 (inr a) l1 -> Q (inr a) l1) ->
  (forall e l1 r l2, Q1 (inl e) l1 -> Q2 e r l2 -> Q r (l1 ++ l2)) ->
  post (try_except m handler) Q.
Proof.
  intros Hm Hh Hok Herr w. unfold try_except.
  destruct (Hm w) as (r1 & w1 & l1 & Hrun1 & Hlog1 & HQ1). rewrite Hrun1.
  destruct r1 as [e|a].
  - destruct (Hh e w1) as (r2 & w2 & l2 & Hrun2 & Hlog2 & HQ2).
    exists r2, w2, (l1 ++ l2). rewrite Hrun2, Hlog2, Hlog1, app_assoc. eauto.
  - exists (inr a), w1, l1. auto.
Qed.

Lemma silent_bind (A B : Type) (m : M A) (k : A -> M B) :
  silent m -> (forall a, silent (k a)) -> silent (bind m k).
Proof.
  intros Hm Hk. unfold silent.
  eapply post_bind with (Q2 := fun _ _ ls => ls = []); eauto.
  intros a l1 r l2 -> ->. reflexivity.
Qed.

(** A computation that leaves the log as it found it is silent. *)
Lemma silent_same_log (A : Type) (m : M A) :
  (forall w, log (snd (m w)) = log w) -> silent m.
Proof.
  intros Hlog w. destruct (m w) as [r w'] eqn:Erun.
  exists r, w', []. rewrite app_nil_r. specialize (Hlog w).
  rewrite Erun in Hlog. auto.
Qed.

Lemma silent_ret (A : Type) (a : A) : silent (ret a).
Proof. now apply silent_same_log. Qed.

Lemma silent_raise (A : Type) (e : exn) : silent (@raise A e).
Proof. now apply silent_same_log. Qed.

Lemma silent_path_exists p : silent (path_exists p).
Proof. now apply silent_same_log. Qed.

Lemma silent_screenshot p t pg : silent (screenshot p t pg).
Proof. now apply silent_same_log. Qed.

Lemma silent_write_text p c : silent (write_text p c).
Proof. now apply silent_same_log. Qed.

(** *** The theme search, attempt by attempt *)

#[local] Arguments wrap_table_fragment : simpl never.
#[local] Arguments extract_font_family_from_html : simpl never.

Lemma bind_inr (A B : Type) (m : M A) (k : A -> M B) w a w' :
  m w = (inr a, w') -> bind m k w = k a w'.
Proof. unfold bind. intros ->. reflexivity. Qed.

Lemma bind_inl (A B : Type) (m : M A) (k : A -> M B) w e w' :
  m w = (inl e, w') -> bind m k w = (inl e, w').
Proof. unfold bind. intros ->. reflexivity. Qed.

Lemma seed_if_given_run seed w :
  seed_if_given seed w = (inr tt, with_cursor w (start_cursor seed w)).
Proof. destruct seed; destruct w; reflexivity. Qed.

Lemma open_page_ok table_html font_path sc m w :
  has_table E (wrap_table_fragment table_html
                 (extract_font_family_from_html table_html)) = true ->
  font_ok font_path w = true ->
  open_page table_html font_path sc m w
  = (inr (base_page table_html font_path sc m), w).
Proof.
  intros Htable Hfont. unfold open_page, base_page, font_setup, font_ok in *.
  cbv zeta.
  destruct font_path as [fp|]; [destruct (nonempty fp)|].
  - unfold font_face_base64, path_exists, make_shot_wrapper, bind, ret, raise.
    rewrite Hfont. cbn. rewrite Htable. reflexivity.
  - unfold make_shot_wrapper, bind, ret. cbn. rewrite Htable. reflexivity.
  - unfold make_shot_wrapper, bind, ret. cbn. rewrite Htable. reflexivity.
Qed.

Lemma open_page_without_table table_html font_path sc m w :
  has_table E (wrap_table_fragment table_html
                 (extract_font_family_from_html table_html)) = false ->
  font_ok font_path w = true ->
  open_page table_html font_path sc m w = (inl (PlaywrightError (error_text E)), w).
Proof.
  intros Htable Hfont. unfold open_page, font_setup, font_ok in *.
  cbv zeta.
  destruct font_path as [fp|]; [destruct (nonempty fp)|].
  - unfold font_face_base64, path_exists, make_shot_wrapper, bind, ret, raise.
    rewrite Hfont. cbn. rewrite Htable. reflexivity.
  - unfold make_shot_wrapper, bind, ret. cbn. rewrite Htable. reflexivity.
  - unfold make_shot_wrapper, bind, ret. cbn. rewrite Htable. reflexivity.
Qed.

Lemma choose_weighted_theme_draw themes w theme :
  draw themes (cursor w) = Some theme ->
  choose_weighted_theme themes w = (inr theme, advance w).
Proof.
  unfold draw, choose_weighted_theme. cbv zeta.
  destruct (rand_choice R (cursor w) (map weight themes)) as [i|]; [|discriminate].
  intros ->. reflexivity.
Qed.

(** When every attempt fails, the search ends with no theme, after
    [tries] draws. *)
Lemma theme_search_exhausted themes base_metrics tol tries pg w :
  (forall j, (j < tries)%nat ->
     attempt_fails themes base_metrics tol pg (cursor w) j) ->
  theme_search themes base_metrics tol tries pg w
  = (inr (None, page_after themes (cursor w) pg tries),
     with_cursor w (cursor w + tries)).
Proof.
  revert pg w. induction tries as [|n IH]; intros pg w Hall.
  - simpl. unfold ret, with_cursor. rewrite Nat.add_0_r. destruct w; reflexivity.
  - destruct (Hall 0%nat) as [[theme Hdraw] Hout]; [lia|].
    rewrite Nat.add_0_r in Hdraw. simpl in Hout. rewrite Hdraw in Hout.
    pose proof (choose_weighted_theme_draw themes w Hdraw) as Hchoose.
    simpl theme_search. unfold bind at 1. rewrite Hchoose, Hout. simpl page_after. rewrite Hdraw.
    rewrite IH.
    + unfold with_cursor, advance. simpl. repeat f_equal. lia.
    + intros j Hj. destruct (Hall (S j)) as [[t Ht] Hw]; [lia|].
      unfold attempt_fails. simpl cursor. split.
      * exists t. rewrite <- Ht. f_equal. lia.
      * simpl in Hw. rewrite Hdraw in Hw. exact Hw.
Qed.

(** A theme the search returns was measured within tolerance. *)
Lemma theme_search_sound themes base_metrics tol tries pg w theme pg' w' :
  theme_search themes base_metrics tol tries pg w = (inr (Some theme, pg'), w') ->
  within_5pct base_metrics (measure E pg') tol = true /\
  In (ThemeCss theme) (styles pg').
Proof.
  revert pg w. induction tries as [|n IH]; intros pg w Hrun; simpl in Hrun.
  - discriminate.
  - unfold bind in Hrun.
    destruct (choose_weighted_theme themes w) as [[e|t] w1]; [discriminate|].
    destruct (within_5pct base_metrics
                (measure E (add_style_tag pg (ThemeCss t))) tol) eqn:Hin.
    + unfold ret in Hrun. inversion Hrun; subst. split; [exact Hin|].
      simpl. apply in_or_app. right. now left.
    + eapply IH; eauto.
Qed.

Lemma choose_theme_exhausted themes base_metrics tol max_tries color_probability pg w :
  Qlt_bool (rand_float R (cursor w)) color_probability = true ->
  (forall j, (j < Z.to_nat max_tries)%nat ->
     attempt_fails themes base_metrics tol pg (S (cursor w)) j) ->
  exists pg' c',
    choose_theme themes base_metrics tol max_tries color_probability pg w
    = (inr (None, pg'), with_cursor w c').
Proof.
  intros Hcolor Hall. unfold choose_theme, random_random, bind.
  rewrite Hcolor.
  rewrite theme_search_exhausted by exact Hall.
  eexists. eexists. unfold with_cursor, advance. simpl. reflexivity.
Qed.

(** The search writes no image. *)
Lemma theme_search_writes_nothing themes base_metrics tol tries pg w r w' :
  theme_search themes base_metrics tol tries pg w = (r, w') ->
  shots w' = shots w /\ fs w' = fs w.
Proof.
  revert pg w. induction tries as [|n IH]; intros pg w Hrun; simpl in Hrun.
  - inversion Hrun; subst. auto.
  - unfold bind, choose_weighted_theme in Hrun. cbv zeta in Hrun.
    destruct (rand_choice R (cursor w) (map weight themes)) as [i|].
    + destruct (nth_error themes i) as [t|].
      * destruct (within_5pct _ _ _).
        -- inversion Hrun; subst. auto.
        -- apply IH in Hrun. exact Hrun.
      * inversion Hrun; subst. auto.
    + inversion Hrun; subst. auto.
Qed.

(** In the colour branch, an image is written only of a page whose theme
    was measured within tolerance of the baseline. *)
Lemma coloured_single_image_is_verified themes table_html out_path font_path seed sc
  m tol max_tries color_probability w theme_name applied_font w' :
  has_table E (wrap_table_fragment table_html
                 (extract_font_family_from_html table_html)) = true ->
  font_ok font_path w = true ->
  Qlt_bool (rand_float R (start_cursor seed w)) color_probability = true ->
  render_table_single_image themes table_html out_path font_path seed sc m tol
    max_tries color_probability w = (inr (theme_name, applied_font), w') ->
  exists theme pg,
    theme_name = name theme /\
    In (ThemeCss theme) (styles pg) /\
    within_5pct (measure E (base_page table_html font_path sc m)) (measure E pg) tol
    = true /\
    shots w' = shots w ++ [mkShot out_path ShotElement pg].
Proof.
  intros Htable Hfont Hcolor Hrun.
  unfold render_table_single_image in Hrun.
  erewrite bind_inr in Hrun by apply seed_if_given_run.
  erewrite bind_inr in Hrun.
  2:{ apply open_page_ok; [exact Htable|].
      destruct font_path; [exact Hfont | reflexivity]. }
  unfold bind at 1, choose_theme, bind at 1, random_random in Hrun.
  cbn [cursor with_cursor] in Hrun. rewrite Hcolor in Hrun.
  destruct (theme_search themes (measure E (base_page table_html font_path sc m))
              tol (Z.to_nat max_tries) (base_page table_html font_path sc m)
              (advance (with_cursor w (start_cursor seed w))))
    as [[e | [[theme|] pg]] w1] eqn:Hsearch; try discriminate.
  destruct (theme_search_sound _ _ _ _ _ _ Hsearch) as [Hin Hstyle].
  destruct (theme_search_writes_nothing _ _ _ _ _ _ Hsearch) as [Hshots _].
  unfold bind, screenshot, ret in Hrun. inversion Hrun; subst.
  exists theme, pg. repeat split; try assumption.
  simpl. rewrite Hshots. reflexivity.
Qed.

(** *** What the renderers and the batch print *)

Ltac silence :=
  repeat first
    [ apply silent_ret | apply silent_raise | apply silent_path_exists
    | apply silent_screenshot | apply silent_write_text
    | apply silent_same_log; intros; reflexivity
    | apply silent_bind; [|intros]
    | match goal with
      | |- silent (match ?x with _ => _ end) => destruct x
      | |- silent (if ?b then _ else _) => destruct b
      | |- silent (let '(_, _) := ?x in _) => destruct x
      end ].

Lemma silent_randint a b : silent (randint a b).
Proof. silence. Qed.

Lemma silent_choose_weighted_theme themes : silent (choose_weighted_theme themes).
Proof.
  apply silent_same_log. intros w. unfold choose_weighted_theme. cbv zeta.
  destruct (rand_choice R (cursor w) (map weight themes)) as [i|]; [|reflexivity].
  destruct (nth_error themes i); reflexivity.
Qed.

Lemma silent_open_page table_html font_path sc m :
  silent (open_page table_html font_path sc m).
Proof.
  unfold open_page, font_setup, font_face_base64, make_shot_wrapper.
  cbv zeta. silence.
Qed.

Lemma silent_theme_search themes base_metrics tol tries pg :
  silent (theme_search themes base_metrics tol tries pg).
Proof.
  revert pg. induction tries as [|n IH]; intros pg; simpl.
  - silence.
  - apply silent_bind; [apply silent_choose_weighted_theme|]. intros theme.
    destruct (within_5pct _ _ _); [silence | apply IH].
Qed.

Lemma silent_choose_theme themes base_metrics tol max_tries color_probability pg :
  silent (choose_theme themes base_metrics tol max_tries color_probability pg).
Proof.
  unfold choose_theme. apply silent_bind; [silence|]. intros r.
  destruct (Qlt_bool r color_probability); [apply silent_theme_search | silence].
Qed.

Lemma silent_seed_if_given seed : silent (seed_if_given seed).
Proof. unfold seed_if_given. silence. Qed.

Lemma silent_render_table_dual_images themes table_html out_std out_clr font_path
  seed sc m tol max_tries color_probability :
  silent (render_table_dual_images themes table_html out_std out_clr font_path
            seed sc m tol max_tries color_probability).
Proof.
  unfold render_table_dual_images.
  apply silent_bind; [apply silent_seed_if_given | intros _].
  apply silent_bind; [apply silent_open_page | intros pg].
  apply silent_bind; [apply silent_choose_theme | intros [[theme|] pg1]].
  - unfold get_random_pastel_color.
    repeat (apply silent_bind; [first [apply silent_randint | silence]|intros]).
    silence.
  - silence.
Qed.

Lemma silent_render_table_single_image themes table_html out_path font_path
  seed sc m tol max_tries color_probability :
  silent (render_table_single_image themes table_html out_path font_path
            seed sc m tol max_tries color_probability).
Proof.
  unfold render_table_single_image.
  apply silent_bind; [apply silent_seed_if_given | intros _].
  apply silent_bind; [apply silent_open_page | intros pg].
  apply silent_bind; [apply silent_choose_theme | intros [[theme|] pg1]];
    silence.
Qed.

Lemma silent_render_raw_html_image html_content out_path sc :
  silent (render_raw_html_image html_content out_path sc).
Proof. unfold render_raw_html_image. cbv zeta. silence. Qed.

Lemma silent_pick_free (A : Type) (blocked : list str -> A -> bool)
  (candidate : nat -> A) (current : A) :
  silent (pick_free blocked candidate current).
Proof. silence. Qed.

Lemma variant_outcome_lines v ls : variant_outcome v ls -> Forall variant_line ls.
Proof.
  intros [[e ->] | [[saved ->] | [(t & m & m' & fl & ->) | (t & m & fl & ->)]]];
    repeat constructor.
Qed.

Lemma plain_ret (A : Type) (a : A) : plain (ret a).
Proof. apply post_ret. eauto. Qed.

Lemma plain_randint a b : plain (randint a b).
Proof.
  intros w. eexists. eexists. exists []. rewrite app_nil_r.
  split; [reflexivity|]. split; [reflexivity|]. eauto.
Qed.

Lemma plain_pick_free (A : Type) (blocked : list str -> A -> bool)
  (candidate : nat -> A) (current : A) :
  plain (pick_free blocked candidate current).
Proof.
  intros w. eexists. eexists. exists []. rewrite app_nil_r.
  split; [reflexivity|]. split; [reflexivity|]. eauto.
Qed.

(** After a step that neither prints nor raises, the rest decides. *)
Lemma post_after_plain (A B : Type) (m : M A) (k : A -> M B)
  (Q : exn + B -> list LogLine -> Prop) :
  plain m -> (forall a, post (k a) Q) -> post (bind m k) Q.
Proof.
  intros Hm Hk.
  eapply post_bind with (Q2 := fun _ => Q); [exact Hm | exact Hk | |].
  - intros e l1 [_ [a Ha]]. discriminate.
  - intros a l1 r l2 [-> _] HQ. exact HQ.
Qed.

(** A silent computation inside [try], with a line printed on success and
    a line printed by the handler. *)
Lemma post_try_print (A : Type) (m : M A) (done : A -> M unit) (failed : exn -> LogLine)
  (Qdone : list LogLine -> Prop) :
  silent m ->
  (forall a, post (done a) (fun r ls => r = inr tt /\ Qdone ls)) ->
  post (try_except (bind m done) (fun e => print (failed e)))
       (fun r ls => r = inr tt /\ ((exists e, ls = [failed e]) \/ Qdone ls)).
Proof.
  intros Hm Hdone.
  eapply post_try with
    (Q1 := fun r ls => match r with
                       | inl _ => ls = []
                       | inr _ => r = inr tt /\ Qdone ls
                       end)
    (Q2 := fun e r ls => r = inr tt /\ ls = [failed e]).
  - eapply post_bind with (Q1 := fun _ ls => ls = [])
      (Q2 := fun _ r ls => r = inr tt /\ Qdone ls).
    + exact Hm.
    + exact Hdone.
    + intros e l1 ->. reflexivity.
    + intros a l1 r l2 -> [-> HQ]. auto.
  - intros e. apply post_print. auto.
  - intros a l1 [Ha HQ]. auto.
  - intros e l1 r l2 -> [-> ->]. split; [reflexivity|]. left. simpl. eauto.
Qed.

Lemma raw_variant_caught out f table_html sc overwrite images_per_file img_idx :
  post (raw_variant out f table_html sc overwrite images_per_file img_idx)
       (fun r ls => r = inr tt /\ variant_outcome (img_idx + 1) ls).
Proof.
  unfold raw_variant. cbv zeta.
  apply post_after_plain.
  { destruct (negb overwrite); [apply plain_pick_free | apply plain_ret]. }
  intros raw_name. unfold raw_attempt.
  eapply post_weaken.
  - apply post_try_print with
      (done := fun _ => print (LogRawDone (img_idx + 1) raw_name))
      (Qdone := fun ls => ls = [LogRawDone (img_idx + 1) raw_name]).
    + apply silent_render_raw_html_image.
    + intros _. apply post_print. auto.
  - intros r ls [-> [[e ->] | ->]]; (split; [reflexivity|]).
    + left. eauto.
    + right. left. eauto.
Qed.

Lemma styled_variant_caught themes out f table_html font_path sc overwrite
  generate_colored images_per_file color_probability img_idx :
  post (styled_variant themes out f table_html font_path sc overwrite
          generate_colored images_per_file color_probability img_idx)
       (fun r ls => r = inr tt /\ variant_outcome (img_idx + 1) ls).
Proof.
  unfold styled_variant.
  apply post_after_plain; [apply plain_randint | intros m_t].
  apply post_after_plain; [apply plain_randint | intros m_r].
  apply post_after_plain; [apply plain_randint | intros m_b].
  apply post_after_plain; [apply plain_randint | intros m_l].
  cbv zeta.
  apply post_after_plain.
  { destruct (negb overwrite); [apply plain_pick_free | apply plain_ret]. }
  intros [std_name clr_name]. unfold styled_attempt. cbv zeta.
  destruct generate_colored.
  - eapply post_weaken.
    + apply post_try_print with
        (Qdone := fun ls => exists theme margins new_margins files,
                    ls = [LogDualDone (img_idx + 1) theme margins new_margins;
                          LogSaved files]).
      * apply silent_render_table_dual_images.
      * intros [[theme_name applied] new_margins].
        eapply post_bind with
          (Q1 := fun r ls => r = inr tt /\ ls = [LogDualDone (img_idx + 1) theme_name
                                                 [m_t; m_r; m_b; m_l] new_margins])
          (Q2 := fun _ r ls => r = inr tt /\ ls = [LogSaved [std_name; clr_name]]).
        -- apply post_print. auto.
        -- intros _. apply post_print. auto.
        -- intros e l1 [He _]. discriminate.
        -- intros u l1 r l2 [_ ->] [-> ->]. split; [reflexivity|].
           simpl. eauto 6.
    + intros r ls [-> [[e ->] | Hdone]]; (split; [reflexivity|]).
      * left. eauto.
      * right. right. left. exact Hdone.
  - eapply post_weaken.
    + apply post_try_print with
        (Qdone := fun ls => exists theme margins files,
                    ls = [LogSingleDone (img_idx + 1) theme margins; LogSaved files]).
      * apply silent_render_table_single_image.
      * intros [theme_name applied].
        eapply post_bind with
          (Q1 := fun r ls => r = inr tt /\ ls = [LogSingleDone (img_idx + 1) theme_name
                                                 [m_t; m_r; m_b; m_l]])
          (Q2 := fun _ r ls => r = inr tt /\ ls = [LogSaved [std_name]]).
        -- apply post_print. auto.
        -- intros _. apply post_print. auto.
        -- intros e l1 [He _]. discriminate.
        -- intros u l1 r l2 [_ ->] [-> ->]. split; [reflexivity|].
           simpl. eauto 6.
    + intros r ls [-> [[e ->] | Hdone]]; (split; [reflexivity|]).
      * left. eauto.
      * right. right. right. exact Hdone.
Qed.

Lemma post_for_each (A : Type) (xs : list A) (body : A -> M unit)
  (P : A -> list LogLine -> Prop) :
  (forall x, In x xs -> post (body x) (fun r ls => r = inr tt /\ P x ls)) ->
  post (for_each xs body)
       (fun r ls => r = inr tt /\
                    exists lss, Forall2 P xs lss /\ ls = concat lss).
Proof.
  induction xs as [|x xs IH]; intros Hbody; simpl.
  - apply post_ret. split; [reflexivity|]. exists []. split; [constructor | reflexivity].
  - eapply post_bind with
      (Q1 := fun r ls => r = inr tt /\ P x ls)
      (Q2 := fun _ r ls => r = inr tt /\
                           exists lss, Forall2 P xs lss /\ ls = concat lss).
    + apply Hbody. now left.
    + intros _. apply IH. intros y Hy. apply Hbody. now right.
    + intros e l1 [He _]. discriminate.
    + intros u l1 r l2 [_ HP] [-> (lss & Hall & ->)]. split; [reflexivity|].
      exists (l1 :: lss). split; [constructor; assumption | reflexivity].
Qed.

Lemma process_one_file_lines themes out font_path sc overwrite generate_colored
  images_per_file color_probability raw_mode n entry :
  readable (snd entry) ->
  post (process_one_file themes out font_path sc overwrite generate_colored
          images_per_file color_probability raw_mode n entry)
       (fun r ls => r = inr tt /\ file_lines n entry ls).
Proof.
  destruct entry as [i f]. simpl. intros [text Htext].
  unfold process_one_file, read, lift. rewrite Htext.
  apply post_after_plain; [apply plain_ret | intros table_html].
  cbv zeta.
  eapply post_bind with
    (Q1 := fun r ls => r = inr tt /\ ls = [LogProcessing (i + 1) n (file_name f)])
    (Q2 := fun _ r ls => r = inr tt /\ Forall variant_line ls).
  - apply post_print. auto.
  - intros _. eapply post_weaken.
    + apply post_for_each with (P := fun img_idx ls => variant_outcome (img_idx + 1) ls).
      intros img_idx _. destruct raw_mode.
      * apply raw_variant_caught.
      * apply styled_variant_caught.
    + intros r ls [-> (lss & Hall & ->)]. split; [reflexivity|].
      apply Forall_concat. clear - Hall.
      induction Hall as [|x l xs lss Hx _ IH]; constructor; auto.
      now apply variant_outcome_lines in Hx.
  - intros e l1 [He _]. discriminate.
  - intros u l1 r l2 [_ ->] [-> Hvs]. split; [reflexivity|].
    exists l2. auto.
Qed.

Lemma variant_lines_filter vs :
  Forall variant_line vs ->
  filter is_processing vs = [] /\ filter is_summary vs = [].
Proof.
  induction 1 as [|l vs Hl _ [IH1 IH2]]; [auto|].
  destruct l; simpl in *; try contradiction; auto.
Qed.

Lemma file_lines_filter n entries lss :
  Forall2 (file_lines n) entries lss ->
  filter is_processing (concat lss)
  = map (fun entry => LogProcessing (fst entry + 1) n (file_name (snd entry))) entries
  /\ filter is_summary (concat lss) = [].
Proof.
  induction 1 as [|entry ls entries lss (vs & -> & Hvs) _ [IH1 IH2]]; [auto|].
  simpl. rewrite !filter_app, IH1, IH2.
  destruct (variant_lines_filter Hvs) as [-> ->]. auto.
Qed.

(** The batch of [html2img.py] goes through every file: it ends normally,
    prints the line naming each file, in order, and no summary line. *)
Lemma process_all_html_files_continues themes html_files input_dir output_dir
  font_path sc overwrite generate_colored images_per_file color_probability raw_mode :
  Forall readable html_files ->
  post (process_all_html_files themes html_files input_dir output_dir font_path sc
          overwrite generate_colored images_per_file color_probability raw_mode)
       (fun r ls => r = inr tt /\
                    filter is_processing ls = processing_lines html_files /\
                    filter is_summary ls = []).
Proof.
  intros Hread. unfold process_all_html_files.
  eapply post_bind with
    (Q1 := fun r ls => r = inr tt /\ ls = [LogFound (length html_files) input_dir])
    (Q2 := fun _ r ls => r = inr tt /\
                         filter is_processing ls = processing_lines html_files /\
                         filter is_summary ls = []).
  - apply post_print. auto.
  - intros _. destruct html_files as [|f0 rest] eqn:Efiles.
    + apply post_print. auto.
    + rewrite <- Efiles in *.
      eapply post_bind with
        (Q1 := fun r ls => r = inr tt /\ ls = [LogStarting (length html_files)])
        (Q2 := fun _ r ls => r = inr tt /\
                             filter is_processing ls = processing_lines html_files /\
                             filter is_summary ls = []).
      * apply post_print. auto.
      * intros _. eapply post_weaken.
        -- apply post_for_each with (P := file_lines (length html_files)).
           intros entry Hin. apply process_one_file_lines.
           destruct entry as [i f]. apply in_combine_r in Hin.
           rewrite Forall_forall in Hread. now apply Hread.
        -- intros r ls [-> (lss & Hall & ->)]. split; [reflexivity|].
           now apply file_lines_filter.
      * intros e l1 [He _]. discriminate.
      * intros u l1 r l2 [_ ->] [-> [H1 H2]]. simpl. auto.
  - intros e l1 [He _]. discriminate.
  - intros u l1 r l2 [_ ->] [-> [H1 H2]]. simpl. auto.
Qed.

(** A render that raises inside a variant is caught there: the variant
    ends normally, and the line it prints carries the exception. *)
Lemma styled_attempt_catches_dual themes out table_html font_path sc
  color_probability img_idx m_t m_r m_b m_l std_name clr_name w e w1 :
  render_table_dual_images themes table_html (path_join out std_name)
    (path_join out clr_name) font_path None sc (mkMargins m_t m_r m_b m_l)
    (5 # 100) 30 color_probability w = (inl e, w1) ->
  styled_attempt themes out table_html font_path sc true color_probability img_idx
    m_t m_r m_b m_l std_name clr_name w
  = (inr tt, logged w1 (LogFailed (img_idx + 1) e)).
Proof.
  intros Hrun. unfold styled_attempt, try_except. cbv zeta.
  erewrite bind_inl by exact Hrun. reflexivity.
Qed.

Lemma styled_attempt_catches_single themes out table_html font_path sc
  color_probability img_idx m_t m_r m_b m_l std_name clr_name w e w1 :
  render_table_single_image themes table_html (path_join out std_name)
    font_path None sc (mkMargins m_t m_r m_b m_l) (5 # 100) 30
    color_probability w = (inl e, w1) ->
  styled_attempt themes out table_html font_path sc false color_probability img_idx
    m_t m_r m_b m_l std_name clr_name w
  = (inr tt, logged w1 (LogFailed (img_idx + 1) e)).
Proof.
  intros Hrun. unfold styled_attempt, try_except. cbv zeta.
  erewrite bind_inl by exact Hrun. reflexivity.
Qed.

Lemma raw_attempt_catches out table_html sc img_idx raw_name w e w1 :
  render_raw_html_image table_html (path_join out raw_name) sc w = (inl e, w1) ->
  raw_attempt out table_html sc img_idx raw_name w
  = (inr tt, logged w1 (LogFailed (img_idx + 1) e)).
Proof.
  intros Hrun. unfold raw_attempt, try_except.
  erewrite bind_inl by exact Hrun. reflexivity.
Qed.

(** *** The batch of [html2img_split.py] *)

Lemma capture_parts_lines pg rows dir stem ext padding part_idx splits :
  post (capture_parts pg rows dir stem ext padding part_idx splits)
       (fun _ ls => Forall variant_line ls).
Proof.
  revert part_idx. induction splits as [|[start_row end_row] rest IH];
    intros part_idx; simpl.
  - apply post_ret. constructor.
  - destruct (nth_error rows start_row) as [first_row|];
      [destruct (nth_error rows end_row) as [last_row|]|];
      try (apply post_raise; constructor).
    destruct (table_rect E pg) as [[rect_top rect_left] rect_width]. cbv zeta.
    eapply post_bind with (Q1 := fun _ ls => ls = [])
      (Q2 := fun _ _ ls => Forall variant_line ls).
    + apply silent_screenshot.
    + intros _.
      eapply post_bind with
        (Q1 := fun _ ls => Forall variant_line ls)
        (Q2 := fun _ _ ls => Forall variant_line ls).
      * apply post_print. repeat constructor.
      * intros _.
        eapply post_bind with
          (Q1 := fun _ ls => Forall variant_line ls)
          (Q2 := fun _ _ ls => ls = []).
        -- apply IH.
        -- intros others. apply silent_ret.
        -- auto.
        -- intros a l1 r l2 Hl1 ->. now rewrite app_nil_r.
      * auto.
      * intros a l1 r l2 Hl1 Hl2. apply Forall_app. auto.
    + intros e l1 ->. constructor.
    + intros a l1 r l2 -> Hl2. exact Hl2.
Qed.

Lemma render_html_with_split_lines html_content output_path max_height sc padding :
  post (render_html_with_split html_content output_path max_height sc padding)
       (fun _ ls => Forall variant_line ls).
Proof.
  unfold render_html_with_split. cbv zeta.
  destruct (get_table_row_positions _) as [[rows table_height] table_width].
  assert (Hshot : forall t pg,
             post (screenshot (path_str output_path) t pg ;;;
                   ret [path_str output_path])
                  (fun _ ls => Forall variant_line ls)).
  { intros t pg. eapply post_weaken with (Q := fun _ ls => ls = []).
    - apply silent_bind; [apply silent_screenshot | intros; apply silent_ret].
    - intros r ls ->. constructor. }
  destruct rows as [|r0 rows]; [apply Hshot|].
  destruct (Qle_bool table_height (inject_Z max_height)); [apply Hshot|].
  destruct (length _ =? 1)%nat; [apply Hshot | apply capture_parts_lines].
Qed.

Lemma split_one_file_lines out max_height sc overwrite n total_images entry :
  post (split_one_file out max_height sc overwrite n total_images entry)
       (fun r ls => (exists total, r = inr total) /\ file_lines n entry ls).
Proof.
  destruct entry as [i f]. unfold split_one_file, file_lines. simpl fst. simpl snd.
  eapply post_bind with
    (Q1 := fun r ls => r = inr tt /\ ls = [LogProcessing (i + 1) n (file_name f)])
    (Q2 := fun _ r ls => (exists total, r = inr total) /\ Forall variant_line ls).
  - apply post_print. auto.
  - intros _.
    eapply post_try with
      (Q1 := fun _ ls => Forall variant_line ls)
      (Q2 := fun _ r ls => (exists total, r = inr total) /\ Forall variant_line ls).
    + eapply post_bind with (Q1 := fun _ ls => ls = [])
        (Q2 := fun _ _ ls => Forall variant_line ls).
      * unfold read, lift. destruct (read_text f); silence.
      * intros html_content. cbv zeta.
        eapply post_bind with (Q1 := fun _ ls => ls = [])
          (Q2 := fun _ _ ls => Forall variant_line ls).
        -- destruct (negb overwrite); [apply silent_pick_free | apply silent_ret].
        -- intros out_stem.
           eapply post_bind with (Q1 := fun _ ls => Forall variant_line ls)
             (Q2 := fun _ _ ls => Forall variant_line ls).
           ++ apply render_html_with_split_lines.
           ++ intros output_files.
              eapply post_bind with (Q1 := fun _ ls => Forall variant_line ls)
                (Q2 := fun _ _ ls => ls = []).
              ** destruct (length output_files =? 1)%nat;
                   apply post_print; repeat constructor.
              ** intros _. apply silent_ret.
              ** auto.
              ** intros a l1 r l2 Hl1 ->. now rewrite app_nil_r.
           ++ auto.
           ++ intros a l1 r l2 Hl1 Hl2. apply Forall_app. auto.
        -- intros e l1 ->. constructor.
        -- intros a l1 r l2 -> Hl2. exact Hl2.
      * intros e l1 ->. constructor.
      * intros a l1 r l2 -> Hl2. exact Hl2.
    + intros e.
      eapply post_bind with
        (Q1 := fun r ls => r = inr tt /\ ls = [LogSplitFailed e])
        (Q2 := fun _ r ls => (exists total, r = inr total) /\ ls = []).
      * apply post_print. auto.
      * intros _. apply post_ret. eauto.
      * intros e' l1 [He _]. discriminate.
      * intros a l1 r l2 [_ ->] [Hr ->]. split; [exact Hr|]. repeat constructor.
    + intros a l1 Hl1. eauto.
    + intros e l1 r l2 Hl1 [Hr Hl2]. split; [exact Hr|]. apply Forall_app. auto.
  - intros e l1 [He _]. discriminate.
  - intros a l1 r l2 [_ ->] [Hr Hl2]. split; [exact Hr|].
    exists l2. split; [reflexivity | exact Hl2].
Qed.

Lemma post_fold_files (A S : Type) (xs : list A) (acc : S) (body : S -> A -> M S)
  (P : A -> list LogLine -> Prop) :
  (forall acc' x, post (body acc' x)
                    (fun r ls => (exists a, r = inr a) /\ P x ls)) ->
  post (fold_files xs acc body)
       (fun r ls => (exists a, r = inr a) /\
                    exists lss, Forall2 P xs lss /\ ls = concat lss).
Proof.
  intros Hbody. revert acc. induction xs as [|x xs IH]; intros acc; simpl.
  - apply post_ret. split; [eauto|]. exists []. split; [constructor | reflexivity].
  - eapply post_bind with
      (Q1 := fun r ls => (exists a, r = inr a) /\ P x ls)
      (Q2 := fun _ r ls => (exists a, r = inr a) /\
                           exists lss, Forall2 P xs lss /\ ls = concat lss).
    + apply Hbody.
    + intros acc'. apply IH.
    + intros e l1 [[a Ha] _]. discriminate.
    + intros a l1 r l2 [_ HP] [Hr (lss & Hall & ->)]. split; [exact Hr|].
      exists (l1 :: lss). split; [constructor; assumption | reflexivity].
Qed.

(** The splitting batch goes through every file, readable or not: it
    ends normally, prints the line naming each file, in order, and no line
    that lists or counts failed files. *)
Lemma process_html_files_continues html_files input_dir output_dir max_height sc
  overwrite :
  post (process_html_files html_files input_dir output_dir max_height sc overwrite)
       (fun r ls => r = inr tt /\
                    filter is_processing ls = processing_lines html_files /\
                    filter is_summary ls = []).
Proof.
  unfold process_html_files.
  destruct html_files as [|f0 rest] eqn:Efiles.
  { apply post_print. auto. }
  rewrite <- Efiles in *. clear Efiles.
  set (Q := fun (r : exn + unit) ls =>
              r = inr tt /\
              filter is_processing ls = processing_lines html_files /\
              filter is_summary ls = []).
  eapply post_bind with
    (Q1 := fun r ls => r = inr tt /\ ls = [LogSplitFound (length html_files) max_height])
    (Q2 := fun _ => Q).
  - apply post_print. auto.
  - intros _.
    eapply post_bind with (Q1 := fun r ls => r = inr tt /\ ls = [LogRule])
      (Q2 := fun _ => Q).
    + apply post_print. auto.
    + intros _.
      eapply post_bind with
        (Q1 := fun r ls => (exists a, r = inr a) /\
                 exists lss, Forall2 (file_lines (length html_files))
                               (combine (seq 0 (length html_files)) html_files) lss
                             /\ ls = concat lss)
        (Q2 := fun _ r ls => r = inr tt /\
                 exists images files, ls = [LogRule; LogSplitDone images files]).
      * apply post_fold_files. intros acc entry. apply split_one_file_lines.
      * intros total_images.
        eapply post_bind with (Q1 := fun r ls => r = inr tt /\ ls = [LogRule])
          (Q2 := fun _ r ls => r = inr tt /\
                   exists images files, ls = [LogSplitDone images files]).
        -- apply post_print. auto.
        -- intros _. apply post_print. eauto.
        -- intros e l1 [He _]. discriminate.
        -- intros a l1 r l2 [_ ->] [-> (im & fl & ->)]. simpl. eauto.
      * intros e l1 [[a Ha] _]. discriminate.
      * intros a l1 r l2 [_ (lss & Hall & ->)] [-> (im & fl & ->)].
        destruct (file_lines_filter Hall) as [Hp Hs].
        unfold Q. rewrite !filter_app, Hp, Hs. simpl.
        rewrite app_nil_r. auto.
    + intros e l1 [He _]. discriminate.
    + intros a l1 r l2 [_ ->] [-> [H1 H2]]. unfold Q. simpl. auto.
  - intros e l1 [He _]. discriminate.
  - intros a l1 r l2 [_ ->] [-> [H1 H2]]. unfold Q. simpl. auto.
Qed.

(** *** Documents without a table *)

Lemma open_page_needs_table table_html font_path sc m w :
  has_table E (wrap_table_fragment table_html
                 (extract_font_family_from_html table_html)) = false ->
  exists e, open_page table_html font_path sc m w = (inl e, w).
Proof.
  intros Htable.
  destruct (font_ok font_path w) eqn:Hfont.
  - eexists. now apply open_page_without_table.
  - unfold font_ok in Hfont. destruct font_path as [fp|]; [|discriminate].
    destruct (nonempty fp) eqn:Hfp; [|discriminate].
    unfold open_page, font_setup, font_face_base64, path_exists, bind, raise.
    cbv zeta. rewrite Hfp, Hfont. simpl. eauto.
Qed.

Lemma render_table_dual_images_needs_table themes table_html out_std out_clr
  font_path seed sc m tol max_tries color_probability w :
  has_table E (wrap_table_fragment table_html
                 (extract_font_family_from_html table_html)) = false ->
  exists e w',
    render_table_dual_images themes table_html out_std out_clr font_path seed sc m
      tol max_tries color_probability w = (inl e, w')
    /\ shots w' = shots w /\ fs w' = fs w /\ log w' = log w.
Proof.
  intros Htable. unfold render_table_dual_images.
  erewrite bind_inr by apply seed_if_given_run.
  destruct (open_page_needs_table table_html font_path sc m
              (with_cursor w (start_cursor seed w)) Htable) as [e He].
  erewrite bind_inl by exact He. eauto 6.
Qed.

Lemma render_table_single_image_needs_table themes table_html out_path
  font_path seed sc m tol max_tries color_probability w :
  has_table E (wrap_table_fragment table_html
                 (extract_font_family_from_html table_html)) = false ->
  exists e w',
    render_table_single_image themes table_html out_path font_path seed sc m
      tol max_tries color_probability w = (inl e, w')
    /\ shots w' = shots w /\ fs w' = fs w /\ log w' = log w.
Proof.
  intros Htable. unfold render_table_single_image.
  erewrite bind_inr by apply seed_if_given_run.
  destruct (open_page_needs_table table_html font_path sc m
              (with_cursor w (start_cursor seed w)) Htable) as [e He].
  erewrite bind_inl by exact He. eauto 6.
Qed.

#[local] Arguments wrap_html_document : simpl never.
#[local] Arguments raw_document : simpl never.

Lemma render_html_with_split_without_table html_content output_path max_height
  sc padding w :
  has_table E (doc (split_page html_content sc)) = false ->
  render_html_with_split html_content output_path max_height sc padding w
  = (inr [path_str output_path],
     after_shot w (path_str output_path) BodyElement (split_page html_content sc)).
Proof.
  intros Htable. unfold render_html_with_split, get_table_row_positions.
  cbv zeta. fold (split_page html_content sc). rewrite Htable. reflexivity.
Qed.

Lemma render_raw_html_image_without_table html_content out_path sc w :
  has_table E (doc (raw_page html_content sc)) = false ->
  render_raw_html_image html_content out_path sc w
  = (inr tt, after_shot w out_path BodyElement (raw_page html_content sc)).
Proof.
  intros Htable. unfold render_raw_html_image. cbv zeta.
  fold (raw_page html_content sc). rewrite Htable. reflexivity.
Qed.

(** In the batch, the variant of a file without a table ends normally with
    its failure line. *)
Lemma styled_variant_without_table themes out f table_html font_path sc overwrite
  generate_colored images_per_file color_probability img_idx :
  has_table E (wrap_table_fragment table_html
                 (extract_font_family_from_html table_html)) = false ->
  post (styled_variant themes out f table_html font_path sc overwrite
          generate_colored images_per_file color_probability img_idx)
       (fun r ls => r = inr tt /\ exists e, ls = [LogFailed (img_idx + 1) e]).
Proof.
  intros Htable. unfold styled_variant.
  apply post_after_plain; [apply plain_randint | intros m_t].
  apply post_after_plain; [apply plain_randint | intros m_r].
  apply post_after_plain; [apply plain_randint | intros m_b].
  apply post_after_plain; [apply plain_randint | intros m_l].
  cbv zeta.
  apply post_after_plain.
  { destruct (negb overwrite); [apply plain_pick_free | apply plain_ret]. }
  intros [std_name clr_name] w. unfold styled_attempt, try_except.
  destruct generate_colored.
  - destruct (render_table_dual_images_needs_table themes table_html
                (path_join out std_name) (path_join out clr_name) font_path None sc
                (mkMargins m_t m_r m_b m_l) (5 # 100) 30 color_probability w Htable)
      as (e & w' & Hrun & _ & _ & Hlog).
    erewrite bind_inl by exact Hrun.
    eexists. eexists. exists [LogFailed (img_idx + 1) e].
    split; [reflexivity|]. simpl. rewrite Hlog. eauto.
  - destruct (render_table_single_image_needs_table themes table_html
                (path_join out std_name) font_path None sc
                (mkMargins m_t m_r m_b m_l) (5 # 100) 30 color_probability w Htable)
      as (e & w' & Hrun & _ & _ & Hlog).
    erewrite bind_inl by exact Hrun.
    eexists. eexists. exists [LogFailed (img_idx + 1) e].
    split; [reflexivity|]. simpl. rewrite Hlog. eauto.
Qed.

(** *** What the splitting renderer writes *)

(** The path of part [k] of a split table. *)
Definition part_path (dir stem ext : str) (k : nat) : str :=
  path_join dir (stem ++ lit "_" ++ str_of_nat k ++ ext).

(** From [w] to [w'] the images at [paths] were written, in that order,
    all of the page [pg], and nothing else changed but the log. *)
Definition wrote (w w' : World) (paths : list str) (pg : Page) : Prop :=
  exists new,
    shots w' = shots w ++ new /\ map shot_path new = paths /\
    Forall (fun s => shot_page s = pg) new /\
    fs w' = fs w ++ paths /\ texts w' = texts w /\ cursor w' = cursor w.

Lemma wrote_one w p t pg : wrote w (after_shot w p t pg) [p] pg.
Proof.
  exists [mkShot p t pg]. simpl. repeat split; auto.
Qed.

Lemma capture_parts_run pg rows dir stem ext padding splits :
  forall part_idx w,
    (forall iv, In iv splits -> fst iv <= snd iv /\ snd iv < length rows) ->
    exists w',
      capture_parts pg rows dir stem ext padding part_idx splits w
      = (inr (map (part_path dir stem ext) (seq part_idx (length splits))), w')
      /\ wrote w w' (map (part_path dir stem ext) (seq part_idx (length splits))) pg.
Proof.
  induction splits as [|[start_row end_row] rest IH]; intros part_idx w Hin.
  - exists w. split; [reflexivity|]. exists []. simpl.
    rewrite !app_nil_r. repeat split; auto.
  - destruct (Hin (start_row, end_row) (or_introl eq_refl)) as [Hle Hlt].
    cbn [fst snd] in Hle, Hlt.
    destruct (nth_error rows start_row) as [first_row|] eqn:Hfirst;
      [|apply nth_error_None in Hfirst; lia].
    destruct (nth_error rows end_row) as [last_row|] eqn:Hlast;
      [|apply nth_error_None in Hlast; lia].
    cbn [capture_parts]. rewrite Hfirst, Hlast.
    destruct (table_rect E pg) as [[rect_top rect_left] rect_width]. cbv zeta.
    match goal with
    | |- context [screenshot ?p ?t pg] =>
        set (part := p); set (clip := t)
    end.
    match goal with
    | |- context [print ?l] => set (line := l)
    end.
    destruct (IH (S part_idx) (logged (after_shot w part clip pg) line))
      as (w' & Hrun & new & Hshots & Hpaths & Hpages & Hfs & Htexts & Hcursor).
    { intros iv Hiv. apply Hin. now right. }
    exists w'. split.
    + unfold bind at 1. unfold screenshot at 1.
      unfold bind at 1. unfold print at 1.
      unfold bind at 1. fold (after_shot w part clip pg).
      fold (logged (after_shot w part clip pg) line).
      rewrite Hrun. reflexivity.
    + exists (mkShot part clip pg :: new). cbn [length seq map].
      simpl in Hshots, Hfs, Htexts, Hcursor.
      rewrite Hshots, Hfs, Hpaths, <- !app_assoc. repeat split; auto.
Qed.

(** The plan of a table with rows has an interval. *)
Lemma plan_of_rows_nonempty (rows : list (Split.RowInfo Q)) max_height :
  rows <> [] -> Split.calculate_split_points_Q rows max_height <> [].
Proof.
  intros Hrows Hplan.
  pose proof (Split.calculate_split_points_tiles 0%Q Qplus Split.Qgtb rows max_height)
    as Htiles.
  fold (Split.calculate_split_points_Q rows max_height) in Htiles.
  rewrite Hplan in Htiles. simpl in Htiles.
  destruct rows; [congruence | discriminate].
Qed.

Lemma render_html_with_split_run html_content output_path max_height sc padding w :
  exists files w',
    render_html_with_split html_content output_path max_height sc padding w
    = (inr files, w') /\
    wrote w w' files (split_page html_content sc) /\
    (files = [path_str output_path] \/
     exists k, 2 <= k /\
       files = map (part_path (out_dir output_path) (out_stem output_path)
                      (if nonempty (out_suffix output_path)
                       then out_suffix output_path else lit ".png"))
                   (seq 1 k)).
Proof.
  unfold render_html_with_split. cbv zeta. fold (split_page html_content sc).
  destruct (get_table_row_positions (split_page html_content sc))
    as [[rows table_height] table_width].
  assert (Hone : forall t,
            exists files w',
              (screenshot (path_str output_path) t (split_page html_content sc) ;;;
               ret [path_str output_path]) w = (inr files, w') /\
              wrote w w' files (split_page html_content sc) /\
              (files = [path_str output_path] \/
               exists k, 2 <= k /\
                 files = map (part_path (out_dir output_path) (out_stem output_path)
                                (if nonempty (out_suffix output_path)
                                 then out_suffix output_path else lit ".png"))
                             (seq 1 k))).
  { intros t. eexists. eexists. split; [reflexivity|]. split; [|now left].
    apply wrote_one. }
  destruct rows as [|r0 rows]; [apply Hone|].
  destruct (Qle_bool table_height (inject_Z max_height)); [apply Hone|].
  destruct (Nat.eqb_spec
              (length (Split.calculate_split_points_Q (r0 :: rows) (inject_Z max_height)))
              1) as [Hlen | Hlen]; [apply Hone|].
  pose proof (Split.calculate_split_points_tiles 0%Q Qplus Split.Qgtb (r0 :: rows)
                (inject_Z max_height)) as Htiles.
  fold (Split.calculate_split_points_Q (r0 :: rows) (inject_Z max_height)) in Htiles.
  pose proof (@plan_of_rows_nonempty (r0 :: rows) (inject_Z max_height)) as Hne.
  destruct (@capture_parts_run (split_page html_content sc) (r0 :: rows)
              (out_dir output_path) (out_stem output_path)
              (if nonempty (out_suffix output_path)
               then out_suffix output_path else lit ".png")
              padding
              (Split.calculate_split_points_Q (r0 :: rows) (inject_Z max_height))
              1 w) as (w' & Hrun & Hwrote).
  { intros iv Hiv.
    destruct (@Split.tiles_bounds _ _ _ _ Htiles Hiv) as (_ & H1 & H2). auto. }
  eexists. exists w'. split; [exact Hrun|]. split; [exact Hwrote|]. right.
  eexists. split; [|reflexivity].
  destruct (Split.calculate_split_points_Q (r0 :: rows) (inject_Z max_height))
    as [|iv [|iv' plan]]; simpl in *; [|lia|lia].
  exfalso. apply Hne; [discriminate | reflexivity].
Qed.

(** *** A font file that is missing *)

Lemma open_page_missing_font table_html fp sc m w :
  nonempty fp = true -> in_fs (fs w) fp = false ->
  open_page table_html (Some fp) sc m w
  = (inl (FileNotFoundError (lit "Font file not found: " ++ fp)), w).
Proof.
  intros Hfp Hmissing. unfold open_page, font_setup, font_face_base64, path_exists.
  cbv zeta. rewrite Hfp. unfold in_fs in Hmissing.
  unfold bind. rewrite Hmissing. reflexivity.
Qed.

(** *** What a successful render leaves *)

(** The page differs from [pg] in its style sheets at most. *)
Definition restyled (pg pg' : Page) : Prop :=
  doc pg' = doc pg /\ scale pg' = scale pg /\
  shot_padding pg' = shot_padding pg /\ shot_background pg' = shot_background pg.

(** Nothing was written or printed from [w] to [w']. *)
Definition quiet (w w' : World) : Prop :=
  fs w' = fs w /\ shots w' = shots w /\ texts w' = texts w /\ log w' = log w.

Lemma open_page_inv table_html font_path sc m w pg w' :
  open_page table_html font_path sc m w = (inr pg, w') ->
  pg = base_page table_html font_path sc m /\ w' = w.
Proof.
  unfold open_page, base_page, font_setup, font_face_base64, path_exists,
    make_shot_wrapper, bind, ret, raise. cbv zeta.
  destruct font_path as [fp|]; [destruct (nonempty fp)|].
  - destruct (existsb (str_eqb fp) (fs w)); cbn; [|discriminate].
    destruct (has_table E _); [|discriminate].
    intros H. inversion H. auto.
  - cbn. destruct (has_table E _); [|discriminate].
    intros H. inversion H. auto.
  - cbn. destruct (has_table E _); [|discriminate].
    intros H. inversion H. auto.
Qed.

Lemma theme_search_restyles themes base_metrics tol tries pg w o pg' w' :
  theme_search themes base_metrics tol tries pg w = (inr (o, pg'), w') ->
  restyled pg pg' /\ quiet w w'.
Proof.
  revert pg w. induction tries as [|n IH]; intros pg w Hrun; simpl in Hrun.
  - inversion Hrun; subst. unfold restyled, quiet. auto 10.
  - unfold bind, choose_weighted_theme in Hrun. cbv zeta in Hrun.
    destruct (rand_choice R (cursor w) (map weight themes)) as [i|]; [|discriminate].
    destruct (nth_error themes i) as [t|]; [|discriminate].
    destruct (within_5pct _ _ _).
    + inversion Hrun; subst. unfold restyled, quiet. simpl. auto 10.
    + apply IH in Hrun. destruct Hrun as [(H1 & H2 & H3 & H4) (H5 & H6 & H7 & H8)].
      unfold restyled, quiet. simpl in *. auto 10.
Qed.

(** The theme the renderers go on with: in the colour branch one that was
    measured within tolerance, otherwise the plain theme. *)
Lemma choose_theme_inv themes base_metrics tol max_tries color_probability pg w
  theme pg1 w1 :
  choose_theme themes base_metrics tol max_tries color_probability pg w
  = (inr (Some theme, pg1), w1) ->
  restyled pg pg1 /\ quiet w w1 /\ In (ThemeCss theme) (styles pg1) /\
  (Qlt_bool (rand_float R (cursor w)) color_probability = true ->
   within_5pct base_metrics (measure E pg1) tol = true) /\
  (Qlt_bool (rand_float R (cursor w)) color_probability = false ->
   theme = plain_theme /\ styles pg1 = styles pg ++ [ThemeCss plain_theme]).
Proof.
  unfold choose_theme, random_random. unfold bind at 1.
  destruct (Qlt_bool (rand_float R (cursor w)) color_probability) eqn:Hcolor.
  - intros Hrun. pose proof (theme_search_restyles _ _ _ _ _ _ Hrun) as [Hpg Hw].
    pose proof (theme_search_sound _ _ _ _ _ _ Hrun) as [Hin Hstyle].
    split; [exact Hpg|]. split; [exact Hw|]. split; [exact Hstyle|].
    split; [auto | discriminate].
  - intros Hrun. inversion Hrun; subst.
    unfold restyled, quiet. simpl. repeat split; auto.
    + apply in_or_app. right. now left.
    + discriminate.
Qed.

(** *** A file of the listing that cannot be read *)

Lemma for_each_app (A : Type) (xs ys : list A) (body : A -> M unit) w :
  for_each (xs ++ ys) body w
  = match for_each xs body w with
    | (inr _, w1) => for_each ys body w1
    | (inl e, w1) => (inl e, w1)
    end.
Proof.
  revert w. induction xs as [|x xs IH]; intros w; [reflexivity|].
  change (for_each ((x :: xs) ++ ys) body w)
    with (bind (body x) (fun _ => for_each (xs ++ ys) body) w).
  change (for_each (x :: xs) body w)
    with (bind (body x) (fun _ => for_each xs body) w).
  unfold bind. destruct (body x w) as [[e|u] w1]; [reflexivity|].
  apply IH.
Qed.

Lemma combine_seq_app (A : Type) (xs ys : list A) s :
  combine (seq s (length (xs ++ ys))) (xs ++ ys)
  = combine (seq s (length xs)) xs ++ combine (seq (s + length xs) (length ys)) ys.
Proof.
  revert s. induction xs as [|x xs IH]; intros s; simpl.
  - now rewrite Nat.add_0_r.
  - rewrite IH, Nat.add_succ_r. reflexivity.
Qed.

(** The batch of [html2img.py] reads each file outside any [try]: at the
    first file that cannot be read it ends with the error of the read. *)
Lemma process_all_html_files_stops themes before f after e input_dir output_dir
  font_path sc overwrite generate_colored images_per_file color_probability raw_mode :
  Forall readable before -> read_text f = inl e ->
  post (process_all_html_files themes (before ++ f :: after) input_dir output_dir
          font_path sc overwrite generate_colored images_per_file color_probability
          raw_mode)
       (fun r ls =>
          r = inl e /\
          filter is_processing ls
          = map (fun entry => LogProcessing (fst entry + 1)
                                (length (before ++ f :: after))
                                (file_name (snd entry)))
                (combine (seq 0 (length before)) before)).
Proof.
  intros Hbefore Hf w.
  set (n := length (before ++ f :: after)).
  set (body := process_one_file themes output_dir font_path sc overwrite
                 generate_colored (Z.to_nat images_per_file) color_probability
                 raw_mode n).
  set (w2 := logged (logged w (LogFound n input_dir)) (LogStarting n)).
  assert (Hrun : process_all_html_files themes (before ++ f :: after) input_dir
                   output_dir font_path sc overwrite generate_colored
                   images_per_file color_probability raw_mode w
                 = for_each (combine (seq 0 n) (before ++ f :: after)) body w2).
  { unfold process_all_html_files. fold n. fold body.
    destruct (before ++ f :: after) as [|f0 rest] eqn:Efiles.
    - destruct before; discriminate.
    - reflexivity. }
  rewrite Hrun. unfold n at 1. rewrite combine_seq_app, for_each_app.
  destruct (@post_for_each _ (combine (seq 0 (length before)) before) body
              (file_lines n)) with (w := w2)
    as (r1 & w3 & ls & Hrun1 & Hlog1 & Hr1 & lss & Hall & Hls).
  { intros entry Hin. apply process_one_file_lines.
    destruct entry as [i g]. apply in_combine_r in Hin.
    rewrite Forall_forall in Hbefore. now apply Hbefore. }
  rewrite Hrun1, Hr1. cbn [length seq combine for_each].
  assert (Hbody : body ((0 + length before)%nat, f) w3 = (inl e, w3)).
  { unfold body, process_one_file, read, lift. rewrite Hf. reflexivity. }
  unfold bind at 1. rewrite Hbody.
  exists (inl e), w3, (LogFound n input_dir :: LogStarting n :: ls).
  split; [reflexivity|]. split.
  - rewrite Hlog1. unfold w2, logged. simpl. now rewrite <- !app_assoc.
  - split; [reflexivity|]. simpl. rewrite Hls.
    now destruct (file_lines_filter Hall) as [-> _].
Qed.

(** *** Numbered names *)

(** The decimal digits of a number, as code points. *)
Fixpoint uint_codes (d : Decimal.uint) : str :=
  match d with
  | Decimal.Nil => []
  | Decimal.D0 d => 48%N :: uint_codes d
  | Decimal.D1 d => 49%N :: uint_codes d
  | Decimal.D2 d => 50%N :: uint_codes d
  | Decimal.D3 d => 51%N :: uint_codes d
  | Decimal.D4 d => 52%N :: uint_codes d
  | Decimal.D5 d => 53%N :: uint_codes d
  | Decimal.D6 d => 54%N :: uint_codes d
  | Decimal.D7 d => 55%N :: uint_codes d
  | Decimal.D8 d => 56%N :: uint_codes d
  | Decimal.D9 d => 57%N :: uint_codes d
  end.

Definition is_digit (c : N) : bool := ((48 <=? c) && (c <=? 57))%N.

(** The text starts with no digit. *)
Definition no_digit_first (s : str) : Prop :=
  match s with
  | c :: _ => is_digit c = false
  | [] => True
  end.

Lemma lit_string_of_uint d :
  lit (DecimalString.NilEmpty.string_of_uint d) = uint_codes d.
Proof.
  unfold lit. induction d; simpl; try rewrite IHd; reflexivity.
Qed.

Lemma str_of_nat_codes n : str_of_nat n = uint_codes (Nat.to_uint n).
Proof. unfold str_of_nat. apply lit_string_of_uint. Qed.

Lemma uint_codes_inj d d' : uint_codes d = uint_codes d' -> d = d'.
Proof.
  revert d'. induction d; intros [] H; simpl in H; try discriminate;
    try reflexivity; inversion H; f_equal; auto.
Qed.

Lemma uint_codes_digits d : Forall (fun c => is_digit c = true) (uint_codes d).
Proof. induction d; simpl; constructor; auto. Qed.

Lemma str_of_nat_inj i j : str_of_nat i = str_of_nat j -> i = j.
Proof.
  rewrite !str_of_nat_codes. intros H.
  apply DecimalNat.Unsigned.to_uint_inj. now apply uint_codes_inj.
Qed.

Lemma str_of_nat_digits n : Forall (fun c => is_digit c = true) (str_of_nat n).
Proof. rewrite str_of_nat_codes. apply uint_codes_digits. Qed.

(** Digits followed by something else can be read back. *)
Lemma digits_then_other d1 d2 s1 s2 :
  Forall (fun c => is_digit c = true) d1 ->
  Forall (fun c => is_digit c = true) d2 ->
  no_digit_first s1 -> no_digit_first s2 ->
  d1 ++ s1 = d2 ++ s2 -> d1 = d2.
Proof.
  intros H1. revert d2. induction H1 as [|a d1 Ha _ IH]; intros d2 H2 Hs1 Hs2 Heq.
  - destruct H2 as [|c d2 Hc _]; [reflexivity|].
    simpl in Heq. subst s1. simpl in Hs1. congruence.
  - destruct H2 as [|c d2 Hc H2].
    + simpl in Heq. subst s2. simpl in Hs2. congruence.
    + simpl in Heq. inversion Heq; subst. f_equal. now apply IH.
Qed.

Lemma numbered_inj i j s1 s2 :
  no_digit_first s1 -> no_digit_first s2 ->
  str_of_nat i ++ s1 = str_of_nat j ++ s2 -> i = j.
Proof.
  intros Hs1 Hs2 Heq. apply str_of_nat_inj.
  exact (@digits_then_other _ _ s1 s2 (str_of_nat_digits i) (str_of_nat_digits j)
           Hs1 Hs2 Heq).
Qed.

Lemma str_eqb_eq a b : str_eqb a b = true <-> a = b.
Proof.
  revert b. induction a as [|x a IH]; intros [|y b]; simpl;
    try (split; [discriminate | discriminate]); [tauto|].
  rewrite andb_true_iff, N.eqb_eq, IH. split.
  - intros [-> ->]. reflexivity.
  - intros H. inversion H. auto.
Qed.

Lemma in_fs_In names p : in_fs names p = true <-> In p names.
Proof.
  unfold in_fs. rewrite existsb_exists. split.
  - intros (x & Hx & Heq). apply str_eqb_eq in Heq. now subst.
  - intros Hin. exists p. split; [exact Hin | now apply str_eqb_eq].
Qed.

Lemma in_fs_not_In names p : in_fs names p = false <-> ~ In p names.
Proof.
  rewrite <- in_fs_In. destruct (in_fs names p); split; congruence.
Qed.

(** *** The search for a name that is free *)

Lemma free_name_blocked (A : Type) fuel (blocked : A -> bool) candidate current counter :
  blocked (free_name fuel blocked candidate current counter) = true ->
  blocked current = true /\
  forall k, k < fuel -> blocked (candidate (counter + k)) = true.
Proof.
  revert current counter. induction fuel as [|fuel IH]; intros current counter; simpl.
  - intros H. split; [exact H | intros k Hk; lia].
  - destruct (blocked current) eqn:Hcur.
    + intros H. apply IH in H. destruct H as [H0 Hk]. split; [reflexivity|].
      intros [|k] Hlt.
      * now rewrite Nat.add_0_r.
      * replace (counter + S k) with (S counter + k) by lia. apply Hk. lia.
    + congruence.
Qed.

Lemma free_name_ind (A : Type) (P : A -> Prop) fuel (blocked : A -> bool) candidate
  current counter :
  P current -> (forall k, P (candidate k)) ->
  P (free_name fuel blocked candidate current counter).
Proof.
  intros Hcur Hcand. revert current counter Hcur.
  induction fuel as [|fuel IH]; intros current counter Hcur; simpl; [exact Hcur|].
  destruct (blocked current); [apply IH, Hcand | exact Hcur].
Qed.

(** As many different paths among [names] as there are numbers below [m],
    when each number has one of its paths there and no two numbers share a
    path. *)
Lemma pigeons (names : list str) (paths : nat -> list str) m :
  (forall i j p, In p (paths i) -> In p (paths j) -> i = j) ->
  (forall k, k < m -> exists p, In p (paths k) /\ In p names) ->
  m <= length names.
Proof.
  intros Hdisj Hall.
  assert (Hl : exists l, length l = m /\ NoDup l /\ incl l names /\
                         forall p, In p l -> exists k, k < m /\ In p (paths k)).
  { induction m as [|m IH].
    - exists []. repeat split; [constructor | intros p [] | intros p []].
    - destruct IH as (l & Hlen & Hnd & Hincl & Hfrom).
      { intros k Hk. apply Hall. lia. }
      destruct (Hall m) as (p & Hp & Hnames); [lia|].
      exists (p :: l). split; [simpl; now rewrite Hlen|]. split; [|split].
      + constructor; [|exact Hnd]. intros Hin.
        destruct (Hfrom p Hin) as (k & Hk & Hpk).
        pose proof (Hdisj _ _ _ Hpk Hp). lia.
      + intros q [<- | Hq]; auto.
      + intros q [<- | Hq].
        * exists m. split; [lia | exact Hp].
        * destruct (Hfrom q Hq) as (k & Hk & Hqk). exists k. split; [lia | exact Hqk]. }
  destruct Hl as (l & Hlen & Hnd & Hincl & _).
  rewrite <- Hlen. now apply NoDup_incl_length.
Qed.

(** The loop ends on a name that is not blocked, when a blocked name has
    one of its paths among the existing ones and the numbered candidates
    share no path. *)
Lemma free_name_free (A : Type) (names : list str) (keys : A -> list str)
  (blocked : A -> bool) candidate current :
  (forall a, blocked a = true -> exists p, In p (keys a) /\ In p names) ->
  (forall i j p, In p (keys (candidate i)) -> In p (keys (candidate j)) -> i = j) ->
  blocked (free_name (S (length names)) blocked candidate current 1) = false.
Proof.
  intros Hblocked Hdisj.
  destruct (blocked (free_name (S (length names)) blocked candidate current 1))
    eqn:Hres; [exfalso | reflexivity].
  apply free_name_blocked in Hres. destruct Hres as [_ Hall].
  assert (Hle : S (length names) <= length names).
  { apply pigeons with (paths := fun k => keys (candidate (1 + k))).
    - intros i j p Hi Hj. pose proof (Hdisj _ _ _ Hi Hj). lia.
    - intros k Hk. apply Hblocked. now apply Hall. }
  lia.
Qed.

(** *** Images at paths that are new *)

(** From [w] to [w'] images were written at paths that did not exist in
    [w], each path once. *)
Definition adds_new (w w' : World) : Prop :=
  exists new,
    fs w' = fs w ++ new /\
    map shot_path (shots w') = map shot_path (shots w) ++ new /\
    NoDup new /\ forall p, In p new -> ~ In p (fs w).

(** Every run of [m] relates the world it starts in to the one it ends
    in. *)
Definition steps (Rel : World -> World -> Prop) (A : Type) (m : M A) : Prop :=
  forall w r w', m w = (r, w') -> Rel w w'.

Section Steps.

Variable Rel : World -> World -> Prop.
Hypothesis Rel_refl : forall w, Rel w w.
Hypothesis Rel_trans : forall a b c, Rel a b -> Rel b c -> Rel a c.

Lemma steps_ret (A : Type) (a : A) : steps Rel (ret a).
Proof. intros w r w' H. inversion H; subst. apply Rel_refl. Qed.

Lemma steps_raise (A : Type) (e : exn) : steps Rel (@raise A e).
Proof. intros w r w' H. inversion H; subst. apply Rel_refl. Qed.

Lemma steps_lift (A : Type) (x : exn + A) : steps Rel (lift x).
Proof. destruct x; [apply steps_raise | apply steps_ret]. Qed.

Lemma steps_bind (A B : Type) (m : M A) (k : A -> M B) :
  steps Rel m -> (forall a, steps Rel (k a)) -> steps Rel (bind m k).
Proof.
  intros Hm Hk w r w' Hrun. unfold bind in Hrun.
  destruct (m w) as [[e|a] w1] eqn:Hm1.
  - inversion Hrun; subst. eapply Hm; eauto.
  - eapply Rel_trans; [eapply Hm; eauto | eapply Hk; eauto].
Qed.

Lemma steps_try (A : Type) (m : M A) (handler : exn -> M A) :
  steps Rel m -> (forall e, steps Rel (handler e)) -> steps Rel (try_except m handler).
Proof.
  intros Hm Hh w r w' Hrun. unfold try_except in Hrun.
  destruct (m w) as [[e|a] w1] eqn:Hm1.
  - eapply Rel_trans; [eapply Hm; eauto | eapply Hh; eauto].
  - inversion Hrun; subst. eapply Hm; eauto.
Qed.

Lemma steps_for_each (A : Type) (xs : list A) (body : A -> M unit) :
  (forall x, steps Rel (body x)) -> steps Rel (for_each xs body).
Proof.
  intros Hbody. induction xs as [|x xs IH]; simpl.
  - apply steps_ret.
  - apply steps_bind; [apply Hbody | intros _; exact IH].
Qed.

End Steps.

Lemma adds_new_same w w' : fs w' = fs w -> shots w' = shots w -> adds_new w w'.
Proof.
  intros Hfs Hshots. exists []. rewrite Hfs, Hshots, !app_nil_r.
  repeat split; [constructor | intros p []].
Qed.

Lemma adds_new_refl w : adds_new w w.
Proof. now apply adds_new_same. Qed.

Lemma NoDup_app_new (A : Type) (l1 l2 : list A) :
  NoDup l1 -> NoDup l2 -> (forall p, In p l2 -> ~ In p l1) -> NoDup (l1 ++ l2).
Proof.
  intros H1 H2 Hnew. induction H1 as [|p l1 Hp _ IH]; [exact H2|]. simpl.
  constructor.
  - intros Hin. apply in_app_or in Hin. destruct Hin as [Hin | Hin]; [auto|].
    apply (Hnew p Hin). now left.
  - apply IH. intros q Hq Hin. apply (Hnew q Hq). now right.
Qed.

Lemma adds_new_trans a b c : adds_new a b -> adds_new b c -> adds_new a c.
Proof.
  intros (n1 & Hfs1 & Hs1 & Hnd1 & Hnew1) (n2 & Hfs2 & Hs2 & Hnd2 & Hnew2).
  exists (n1 ++ n2). rewrite Hfs2, Hs2, Hfs1, Hs1, <- !app_assoc.
  split; [reflexivity|]. split; [reflexivity|]. split.
  - apply NoDup_app_new; auto.
    intros p Hp Hin. apply (Hnew2 p Hp). rewrite Hfs1. apply in_or_app. now right.
  - intros p Hin. apply in_app_or in Hin. destruct Hin as [Hin | Hin]; [auto|].
    intros Hp. apply (Hnew2 p Hin). rewrite Hfs1. apply in_or_app. now left.
Qed.

(** A computation that writes no image. *)
Lemma steps_no_image (A : Type) (m : M A) :
  (forall w, fs (snd (m w)) = fs w /\ shots (snd (m w)) = shots w) ->
  steps adds_new m.
Proof.
  intros Hm w r w' Hrun. destruct (Hm w) as [Hfs Hshots]. rewrite Hrun in *.
  now apply adds_new_same.
Qed.

Lemma steps_print l : steps adds_new (print l).
Proof. apply steps_no_image. intros w. split; reflexivity. Qed.

Lemma steps_randint a b : steps adds_new (randint a b).
Proof. apply steps_no_image. intros w. split; reflexivity. Qed.

(** *** The table renderers write all their images or none *)

Lemma open_page_same_world table_html font_path sc m w r w' :
  open_page table_html font_path sc m w = (r, w') -> w' = w.
Proof.
  unfold open_page, font_setup, font_face_base64, path_exists,
    make_shot_wrapper, bind, ret, raise. cbv zeta.
  destruct font_path as [fp|]; [destruct (nonempty fp)|].
  - destruct (existsb (str_eqb fp) (fs w)); cbn.
    + destruct (has_table E _); intros H; now inversion H.
    + intros H; now inversion H.
  - cbn. destruct (has_table E _); intros H; now inversion H.
  - cbn. destruct (has_table E _); intros H; now inversion H.
Qed.

Lemma choose_theme_writes_nothing themes base_metrics tol max_tries
  color_probability pg w r w1 :
  choose_theme themes base_metrics tol max_tries color_probability pg w = (r, w1) ->
  shots w1 = shots w /\ fs w1 = fs w.
Proof.
  unfold choose_theme, random_random. unfold bind at 1.
  destruct (Qlt_bool (rand_float R (cursor w)) color_probability).
  - intros Hrun. apply theme_search_writes_nothing in Hrun. exact Hrun.
  - intros Hrun. inversion Hrun; subst. auto.
Qed.

Lemma render_table_dual_images_all_or_nothing themes table_html out_std out_clr
  font_path seed sc m tol max_tries color_probability w r w' :
  render_table_dual_images themes table_html out_std out_clr font_path seed sc m
    tol max_tries color_probability w = (r, w') ->
  ((exists e, r = inl e) /\ fs w' = fs w /\ shots w' = shots w) \/
  ((exists a, r = inr a) /\ fs w' = fs w ++ [out_std; out_clr] /\
   map shot_path (shots w') = map shot_path (shots w) ++ [out_std; out_clr]).
Proof.
  unfold render_table_dual_images.
  erewrite bind_inr by apply seed_if_given_run.
  unfold bind at 1.
  destruct (open_page table_html font_path sc m (with_cursor w (start_cursor seed w)))
    as [[e|pg] w0] eqn:Hopen.
  { apply open_page_same_world in Hopen. subst w0.
    intros H. inversion H; subst. left. simpl. eauto. }
  apply open_page_same_world in Hopen. subst w0.
  unfold bind at 1.
  destruct (choose_theme themes (measure E pg) tol max_tries color_probability pg
              (with_cursor w (start_cursor seed w)))
    as [[e|[[theme|] pg1]] w1] eqn:Hchoose;
    apply choose_theme_writes_nothing in Hchoose; destruct Hchoose as [Hshots Hfs];
    simpl in Hshots, Hfs.
  - intros H. inversion H; subst. left. eauto.
  - unfold bind, screenshot, get_random_pastel_color, bind, randint, ret.
    intros H. inversion H; subst. right. cbn [fs shots advance].
    rewrite Hfs, Hshots, !map_app, <- !app_assoc. simpl. eauto.
  - intros H. inversion H; subst. left. eauto.
Qed.

Lemma render_table_single_image_all_or_nothing themes table_html out_path
  font_path seed sc m tol max_tries color_probability w r w' :
  render_table_single_image themes table_html out_path font_path seed sc m
    tol max_tries color_probability w = (r, w') ->
  ((exists e, r = inl e) /\ fs w' = fs w /\ shots w' = shots w) \/
  ((exists a, r = inr a) /\ fs w' = fs w ++ [out_path] /\
   map shot_path (shots w') = map shot_path (shots w) ++ [out_path]).
Proof.
  unfold render_table_single_image.
  erewrite bind_inr by apply seed_if_given_run.
  unfold bind at 1.
  destruct (open_page table_html font_path sc m (with_cursor w (start_cursor seed w)))
    as [[e|pg] w0] eqn:Hopen.
  { apply open_page_same_world in Hopen. subst w0.
    intros H. inversion H; subst. left. simpl. eauto. }
  apply open_page_same_world in Hopen. subst w0.
  unfold bind at 1.
  destruct (choose_theme themes (measure E pg) tol max_tries color_probability pg
              (with_cursor w (start_cursor seed w)))
    as [[e|[[theme|] pg1]] w1] eqn:Hchoose;
    apply choose_theme_writes_nothing in Hchoose; destruct Hchoose as [Hshots Hfs];
    simpl in Hshots, Hfs.
  - intros H. inversion H; subst. left. eauto.
  - unfold bind, screenshot, ret.
    intros H. inversion H; subst. right. cbn [fs shots].
    rewrite Hfs, Hshots, !map_app. simpl. eauto.
  - intros H. inversion H; subst. left. eauto.
Qed.

(** *** Without [overwrite], the batch of [html2img.py] writes new paths *)

Lemma no_digit_first_png : no_digit_first png.
Proof. reflexivity. Qed.

Lemma no_digit_first_colored : no_digit_first (lit "_colored" ++ png).
Proof. reflexivity. Qed.

Lemma wrote_adds_one w p t pg :
  ~ In p (fs w) -> adds_new w (after_shot w p t pg).
Proof.
  intros Hp. exists [p]. simpl. rewrite map_app. simpl.
  repeat split; auto.
  - constructor; [intros [] | constructor].
  - intros q [<- | []]. exact Hp.
Qed.

Lemma adds_new_logged w w' l : adds_new w w' -> adds_new w (logged w' l).
Proof.
  intros H. eapply adds_new_trans; [exact H|]. now apply adds_new_same.
Qed.

Lemma raw_variant_adds_new out f table_html sc images_per_file img_idx :
  steps adds_new (raw_variant out f table_html sc false images_per_file img_idx).
Proof.
  intros w r w' Hrun. unfold raw_variant in Hrun. cbv zeta in Hrun.
  cbn [negb] in Hrun. unfold bind at 1 in Hrun. unfold pick_free in Hrun.
  match type of Hrun with
  | raw_attempt _ _ _ _ ?n _ = _ => set (raw_name := n) in *
  end.
  assert (Hfree : in_fs (fs w) (path_join out raw_name) = false).
  { apply (@free_name_free str (fs w) (fun n => [path_join out n])
             (fun n => in_fs (fs w) (path_join out n))).
    - intros a Ha. exists (path_join out a). split; [now left | now apply in_fs_In].
    - intros i j p [<- | []] [Heq | []]. unfold path_join in Heq.
      destruct (1 <? images_per_file); repeat apply app_inv_head in Heq;
        symmetry; eapply numbered_inj; eauto using no_digit_first_png. }
  apply in_fs_not_In in Hfree.
  unfold raw_attempt, try_except, bind, render_raw_html_image, print in Hrun.
  cbv zeta in Hrun.
  destruct (has_table E _); unfold screenshot in Hrun; inversion Hrun; subst;
    apply (@adds_new_logged w (after_shot w _ _ _)); now apply wrote_adds_one.
Qed.

(** The names of a variant: the standard image and the coloured one. *)
Definition paired (ns : str * str) : Prop :=
  exists base, fst ns = base ++ png /\ snd ns = base ++ lit "_colored" ++ png.

Lemma paired_distinct out ns : paired ns -> path_join out (fst ns) <> path_join out (snd ns).
Proof.
  intros (base & -> & ->) Heq. unfold path_join in Heq.
  repeat apply app_inv_head in Heq. discriminate.
Qed.

Lemma styled_attempt_adds_new themes out table_html font_path sc generate_colored
  color_probability img_idx m_t m_r m_b m_l std_name clr_name w r w' :
  ~ In (path_join out std_name) (fs w) ->
  (generate_colored = true -> ~ In (path_join out clr_name) (fs w)) ->
  path_join out std_name <> path_join out clr_name ->
  styled_attempt themes out table_html font_path sc generate_colored
    color_probability img_idx m_t m_r m_b m_l std_name clr_name w = (r, w') ->
  adds_new w w'.
Proof.
  intros Hstd Hclr Hne. unfold styled_attempt, try_except. cbv zeta.
  destruct generate_colored.
  - unfold bind at 1.
    destruct (render_table_dual_images themes table_html (path_join out std_name)
                (path_join out clr_name) font_path None sc
                (mkMargins m_t m_r m_b m_l) (5 # 100) 30 color_probability w)
      as [[e|[[theme_name font] new_margins]] w1] eqn:Hdual;
      apply render_table_dual_images_all_or_nothing in Hdual;
      destruct Hdual as [([x Hx] & Hfs & Hshots) | ([x Hx] & Hfs & Hshots)];
      try discriminate; unfold bind, print; intros H; inversion H; subst.
    + apply adds_new_same; simpl; assumption.
    + exists [path_join out std_name; path_join out clr_name]. simpl.
      repeat split; auto.
      * constructor; [intros [Heq | []]; congruence|].
        constructor; [intros [] | constructor].
      * intros p [<- | [<- | []]]; auto.
  - unfold bind at 1.
    destruct (render_table_single_image themes table_html (path_join out std_name)
                font_path None sc (mkMargins m_t m_r m_b m_l) (5 # 100) 30
                color_probability w)
      as [[e|[theme_name font]] w1] eqn:Hsingle;
      apply render_table_single_image_all_or_nothing in Hsingle;
      destruct Hsingle as [([x Hx] & Hfs & Hshots) | ([x Hx] & Hfs & Hshots)];
      try discriminate; unfold bind, print; intros H; inversion H; subst.
    + apply adds_new_same; simpl; assumption.
    + exists [path_join out std_name]. simpl.
      repeat split; auto.
      * constructor; [intros [] | constructor].
      * intros p [<- | []]; auto.
Qed.

Lemma numbered_path_inj out pre i j s1 s2 :
  no_digit_first s1 -> no_digit_first s2 ->
  path_join out (pre ++ lit "_" ++ str_of_nat i ++ s1)
  = path_join out (pre ++ lit "_" ++ str_of_nat j ++ s2) ->
  i = j.
Proof.
  intros Hs1 Hs2 Heq. unfold path_join in Heq.
  apply (@app_inv_head _ out) in Heq.
  apply (@app_inv_head _ (lit "/")) in Heq.
  apply (@app_inv_head _ pre) in Heq.
  apply (@app_inv_head _ (lit "_")) in Heq.
  exact (@numbered_inj i j s1 s2 Hs1 Hs2 Heq).
Qed.

(** The numbered names of a variant. *)
Definition numbered_pair (pre : str) (counter : nat) : str * str :=
  (pre ++ lit "_" ++ str_of_nat counter ++ png,
   pre ++ lit "_" ++ str_of_nat counter ++ lit "_colored" ++ png).

Lemma numbered_pair_disjoint out pre i j p :
  In p [path_join out (fst (numbered_pair pre i));
        path_join out (snd (numbered_pair pre i))] ->
  In p [path_join out (fst (numbered_pair pre j));
        path_join out (snd (numbered_pair pre j))] ->
  i = j.
Proof.
  unfold numbered_pair. cbn [fst snd].
  intros [<- | [<- | []]] [Heq | [Heq | []]]; symmetry;
    eapply numbered_path_inj; try exact Heq;
    first [exact no_digit_first_png | exact no_digit_first_colored].
Qed.

Lemma styled_variant_adds_new themes out f table_html font_path sc generate_colored
  images_per_file color_probability img_idx :
  steps adds_new
    (styled_variant themes out f table_html font_path sc false generate_colored
       images_per_file color_probability img_idx).
Proof.
  unfold styled_variant.
  apply (steps_bind adds_new_trans); [apply steps_randint | intros m_t].
  apply (steps_bind adds_new_trans); [apply steps_randint | intros m_r].
  apply (steps_bind adds_new_trans); [apply steps_randint | intros m_b].
  apply (steps_bind adds_new_trans); [apply steps_randint | intros m_l].
  cbv zeta. cbn [negb].
  set (stem := file_stem f).
  set (v := lit "_v" ++ str_of_nat (img_idx + 1)).
  set (pre := if 1 <? images_per_file then stem ++ v else stem).
  intros w r w' Hrun. unfold bind at 1 in Hrun. unfold pick_free in Hrun.
  match type of Hrun with
  | (let (_, _) := free_name _ ?b ?c ?n _ in _) _ = _ =>
      set (blocked := b) in *; set (candidate := c) in *;
      set (first_names := n) in *
  end.
  assert (Hcand : forall k, candidate k = numbered_pair pre k).
  { intros k. unfold candidate, numbered_pair, pre.
    destruct (1 <? images_per_file); rewrite <- !app_assoc; reflexivity. }
  set (names := free_name (S (length (fs w))) blocked candidate first_names 1) in *.
  assert (Hfree : blocked names = false).
  { apply (@free_name_free (str * str) (fs w)
             (fun ns => [path_join out (fst ns); path_join out (snd ns)])).
    - intros a Ha. unfold blocked in Ha.
      apply orb_true_iff in Ha. destruct Ha as [Ha | Ha].
      + exists (path_join out (fst a)). split; [now left | now apply in_fs_In].
      + apply andb_true_iff in Ha. destruct Ha as [_ Ha].
        exists (path_join out (snd a)).
        split; [right; now left | now apply in_fs_In].
    - intros i j p. rewrite !Hcand. apply numbered_pair_disjoint. }
  assert (Hpaired : paired names).
  { apply free_name_ind.
    - unfold first_names. destruct (1 <? images_per_file).
      + exists (stem ++ v). cbn [fst snd]. now rewrite <- !app_assoc.
      + exists stem. auto.
    - intros k. rewrite Hcand. unfold numbered_pair.
      exists (pre ++ lit "_" ++ str_of_nat k). cbn [fst snd].
      now rewrite <- !app_assoc. }
  unfold blocked in Hfree.
  apply orb_false_iff in Hfree. destruct Hfree as [Hstd Hclr].
  apply in_fs_not_In in Hstd.
  pose proof (paired_distinct out Hpaired) as Hne.
  destruct names as [std_name clr_name]. cbn [fst snd] in *.
  eapply styled_attempt_adds_new; [exact Hstd | | exact Hne | exact Hrun].
  intros ->. simpl in Hclr. now apply in_fs_not_In.
Qed.

Lemma process_one_file_adds_new themes out font_path sc generate_colored
  images_per_file color_probability raw_mode n entry :
  steps adds_new
    (process_one_file themes out font_path sc false generate_colored images_per_file
       color_probability raw_mode n entry).
Proof.
  destruct entry as [i html_file]. unfold process_one_file, read.
  apply (steps_bind adds_new_trans);
    [apply (@steps_lift adds_new adds_new_refl) | intros table_html].
  cbv zeta.
  apply (steps_bind adds_new_trans); [apply steps_print | intros _].
  apply (@steps_for_each adds_new adds_new_refl adds_new_trans). intros img_idx.
  destruct raw_mode; [apply raw_variant_adds_new | apply styled_variant_adds_new].
Qed.

Lemma process_all_html_files_adds_new themes html_files input_dir output_dir
  font_path sc generate_colored images_per_file color_probability raw_mode :
  steps adds_new
    (process_all_html_files themes html_files input_dir output_dir font_path sc
       false generate_colored images_per_file color_probability raw_mode).
Proof.
  unfold process_all_html_files.
  apply (steps_bind adds_new_trans); [apply steps_print | intros _].
  destruct html_files as [|f0 rest]; [apply steps_print|].
  apply (steps_bind adds_new_trans); [apply steps_print | intros _].
  apply (@steps_for_each adds_new adds_new_refl adds_new_trans). intros entry.
  apply process_one_file_adds_new.
Qed.

(** *** What the batch of [html2img_split.py] writes for a file *)

Lemma print_run l w : print l w = (inr tt, logged w l).
Proof. reflexivity. Qed.

Lemma wrote_logged w w' files pg l1 l2 :
  wrote (logged w l1) w' files pg -> wrote w (logged w' l2) files pg.
Proof.
  intros (new & Hshots & Hpaths & Hpages & Hfs & Htexts & Hcursor).
  exists new. simpl in *. auto 10.
Qed.

(** A file that can be read: the name tried first is the stem of the file;
    without [overwrite] the name that is used is one whose unsplit image
    does not exist yet. *)
Lemma split_one_file_readable out max_height sc overwrite n total i f text w :
  read_text f = inr text ->
  exists st files w',
    split_one_file out max_height sc overwrite n total (i, f) w
    = (inr (total + length files), w') /\
    (overwrite = false -> ~ In (path_join out (st ++ png)) (fs w)) /\
    (overwrite = true -> st = file_stem f) /\
    (files = [path_join out (st ++ png)] \/
     exists k, 2 <= k /\ files = map (part_path out st png) (seq 1 k)) /\
    wrote w w' files
      (split_page (remove_caption_tags (clean_markdown_codeblocks text)) sc).
Proof.
  intros Htext. unfold split_one_file, read, lift. rewrite Htext. cbv zeta.
  set (html_content := remove_caption_tags (clean_markdown_codeblocks text)).
  unfold bind at 1. unfold print at 1.
  fold (logged w (LogProcessing (i + 1) n (file_name f))).
  set (w1 := logged w (LogProcessing (i + 1) n (file_name f))).
  unfold try_except. unfold bind at 1. unfold ret at 1.
  assert (Hrest : forall st,
            exists files w',
              (output_files <- render_html_with_split html_content
                                 (mkOutPath out st png) max_height sc 10 ;;
               (if length output_files =? 1
                then print (LogSplitSaved (st ++ png))
                else print (LogSplitInto (length output_files))) ;;;
               ret (total + length output_files)) w1
              = (inr (total + length files), w') /\
              (files = [path_join out (st ++ png)] \/
               exists k, 2 <= k /\ files = map (part_path out st png) (seq 1 k)) /\
              wrote w w' files (split_page html_content sc)).
  { intros st.
    destruct (render_html_with_split_run html_content (mkOutPath out st png)
                max_height sc 10 w1) as (files & w2 & Hrun & Hwrote & Hfiles).
    unfold path_str in Hfiles. cbn [out_dir out_stem out_suffix] in Hfiles.
    change (nonempty png) with true in Hfiles. cbv iota in Hfiles.
    exists files. unfold bind at 1. rewrite Hrun. unfold bind at 1.
    destruct (length files =? 1); (eexists; split; [reflexivity|]);
      (split; [exact Hfiles|]); eapply wrote_logged; exact Hwrote. }
  subst html_content.
  destruct overwrite; cbn [negb].
  - destruct (Hrest (file_stem f)) as (files & w' & Hrun & Hfiles & Hwrote).
    exists (file_stem f), files, w'. unfold bind at 1. unfold ret at 1.
    rewrite Hrun. repeat split; auto. discriminate.
  - unfold bind at 1. unfold pick_free.
    match goal with
    | |- context [free_name ?a ?b ?c ?d ?e] => set (st := free_name a b c d e)
    end.
    destruct (Hrest st) as (files & w' & Hrun & Hfiles & Hwrote).
    exists st, files, w'. rewrite Hrun.
    split; [reflexivity|]. split; [|split; [discriminate|auto]]. intros _.
    apply in_fs_not_In.
    apply (@free_name_free str (fs w) (fun st => [path_join out (st ++ png)])
             (fun st => in_fs (fs w) (path_join out (st ++ png)))).
    + intros a Ha. eexists. split; [now left | now apply in_fs_In].
    + intros j k p [<- | []] [Heq | []]. rewrite <- !app_assoc in Heq.
      symmetry. eapply numbered_path_inj; try exact Heq; exact no_digit_first_png.
Qed.

(** *** The count of the batch of [html2img_split.py] *)

(** The images a line of the batch reports: one for a line that names the
    saved image, the number it gives for a line that tells of a split. *)
Definition line_images (l : LogLine) : nat :=
  match l with
  | LogSplitSaved _ => 1
  | LogSplitInto k => k
  | _ => 0
  end.

Definition reported (ls : list LogLine) : nat := list_sum (map line_images ls).

Definition part_line (l : LogLine) : Prop :=
  match l with LogPart _ _ _ _ => True | _ => False end.

Lemma reported_app l1 l2 : reported (l1 ++ l2) = reported l1 + reported l2.
Proof. unfold reported. now rewrite map_app, list_sum_app. Qed.

Lemma reported_part_lines ls : Forall part_line ls -> reported ls = 0.
Proof.
  induction 1 as [|l ls Hl _ IH]; [reflexivity|].
  unfold reported in *. simpl. rewrite IH. destruct l; simpl in Hl; tauto.
Qed.

Lemma capture_parts_part_lines pg rows dir stem ext padding part_idx splits :
  post (capture_parts pg rows dir stem ext padding part_idx splits)
       (fun _ ls => Forall part_line ls).
Proof.
  revert part_idx. induction splits as [|[start_row end_row] rest IH];
    intros part_idx; simpl.
  - apply post_ret. constructor.
  - destruct (nth_error rows start_row) as [first_row|];
      [destruct (nth_error rows end_row) as [last_row|]|];
      try (apply post_raise; constructor).
    destruct (table_rect E pg) as [[rect_top rect_left] rect_width]. cbv zeta.
    eapply post_bind with (Q1 := fun _ ls => ls = [])
      (Q2 := fun _ _ ls => Forall part_line ls).
    + apply silent_screenshot.
    + intros _.
      eapply post_bind with
        (Q1 := fun _ ls => Forall part_line ls)
        (Q2 := fun _ _ ls => Forall part_line ls).
      * apply post_print. repeat constructor.
      * intros _.
        eapply post_bind with
          (Q1 := fun _ ls => Forall part_line ls)
          (Q2 := fun _ _ ls => ls = []).
        -- apply IH.
        -- intros others. apply silent_ret.
        -- auto.
        -- intros a l1 r l2 Hl1 ->. now rewrite app_nil_r.
      * auto.
      * intros a l1 r l2 Hl1 Hl2. apply Forall_app. auto.
    + intros e l1 ->. constructor.
    + intros a l1 r l2 -> Hl2. exact Hl2.
Qed.

Lemma render_html_with_split_part_lines html_content output_path max_height sc
  padding :
  post (render_html_with_split html_content output_path max_height sc padding)
       (fun _ ls => Forall part_line ls).
Proof.
  unfold render_html_with_split. cbv zeta.
  destruct (get_table_row_positions _) as [[rows table_height] table_width].
  assert (Hshot : forall t pg,
             post (screenshot (path_str output_path) t pg ;;;
                   ret [path_str output_path])
                  (fun _ ls => Forall part_line ls)).
  { intros t pg. eapply post_weaken with (Q := fun _ ls => ls = []).
    - apply silent_bind; [apply silent_screenshot | intros; apply silent_ret].
    - intros r ls ->. constructor. }
  destruct rows as [|r0 rows]; [apply Hshot|].
  destruct (Qle_bool table_height (inject_Z max_height)); [apply Hshot|].
  destruct (length _ =? 1)%nat; [apply Hshot | apply capture_parts_part_lines].
Qed.

(** A file adds to the count what its lines report: the number of paths
    returned for it when it was rendered, nothing when it failed. *)
Lemma split_one_file_reports out max_height sc overwrite n total entry :
  post (split_one_file out max_height sc overwrite n total entry)
       (fun r ls => exists k, r = inr (total + k) /\ reported ls = k).
Proof.
  destruct entry as [i f]. unfold split_one_file.
  eapply post_bind with
    (Q1 := fun r ls => r = inr tt /\ ls = [LogProcessing (i + 1) n (file_name f)])
    (Q2 := fun _ r ls => exists k, r = inr (total + k) /\ reported ls = k).
  - apply post_print. auto.
  - intros _.
    set (Qbody := fun (r : exn + nat) ls =>
                    match r with
                    | inl _ => reported ls = 0
                    | inr t => exists k, t = total + k /\ reported ls = k
                    end).
    eapply post_try with (Q1 := Qbody)
      (Q2 := fun _ r ls => r = inr total /\ reported ls = 0).
    + eapply post_bind with (Q1 := fun _ ls => ls = []) (Q2 := fun _ => Qbody).
      * unfold read, lift. destruct (read_text f); silence.
      * intros html_content. cbv zeta.
        eapply post_bind with (Q1 := fun _ ls => ls = []) (Q2 := fun _ => Qbody).
        -- destruct (negb overwrite); [apply silent_pick_free | apply silent_ret].
        -- intros out_stem.
           eapply post_bind with (Q1 := fun _ ls => Forall part_line ls)
             (Q2 := fun files r ls =>
                      r = inr (total + length files) /\ reported ls = length files).
           ++ apply render_html_with_split_part_lines.
           ++ intros output_files.
              eapply post_bind with
                (Q1 := fun r ls => r = inr tt /\ reported ls = length output_files)
                (Q2 := fun _ r ls =>
                         r = inr (total + length output_files) /\ ls = []).
              ** destruct (Nat.eqb_spec (length output_files) 1) as [Hone | Hone];
                   apply post_print; (split; [reflexivity|]).
                 --- now rewrite Hone.
                 --- unfold reported. simpl. lia.
              ** intros _. apply post_ret. auto.
              ** intros e l1 [He _]. discriminate.
              ** intros a l1 r l2 [_ H1] [-> ->]. rewrite app_nil_r. auto.
           ++ intros e l1 Hparts. now apply reported_part_lines.
           ++ intros files l1 r l2 Hparts [-> Hrep]. exists (length files).
              split; [reflexivity|].
              now rewrite reported_app, (reported_part_lines Hparts), Hrep.
        -- intros e l1 ->. reflexivity.
        -- intros a l1 r l2 -> HQ. exact HQ.
      * intros e l1 ->. reflexivity.
      * intros a l1 r l2 -> HQ. exact HQ.
    + intros e.
      eapply post_bind with
        (Q1 := fun r ls => r = inr tt /\ ls = [LogSplitFailed e])
        (Q2 := fun _ r ls => r = inr total /\ ls = []).
      * apply post_print. auto.
      * intros _. apply post_ret. auto.
      * intros e' l1 [He _]. discriminate.
      * intros a l1 r l2 [_ ->] [-> ->]. auto.
    + intros a l1 (k & -> & Hk). exists k. auto.
    + intros e l1 r l2 H1 [-> H2]. exists 0. rewrite Nat.add_0_r.
      split; [reflexivity|]. simpl in H1. rewrite reported_app, H1, H2. reflexivity.
  - intros e l1 [He _]. discriminate.
  - intros a l1 r l2 [_ ->] (k & -> & Hk). exists k. auto.
Qed.

Lemma fold_split_files_reports out max_height sc overwrite n entries total :
  post (fold_files entries total (split_one_file out max_height sc overwrite n))
       (fun r ls => exists k, r = inr (total + k) /\ reported ls = k).
Proof.
  revert total. induction entries as [|entry entries IH]; intros total; simpl.
  - apply post_ret. exists 0. now rewrite Nat.add_0_r.
  - eapply post_bind with
      (Q1 := fun r ls => exists k, r = inr (total + k) /\ reported ls = k)
      (Q2 := fun acc r ls => exists k, r = inr (acc + k) /\ reported ls = k).
    + apply split_one_file_reports.
    + intros acc. apply IH.
    + intros e l1 (k & He & _). discriminate.
    + intros a l1 r l2 (k1 & Ha & H1) (k2 & -> & H2).
      inversion Ha; subst a. exists (k1 + k2).
      rewrite reported_app, H1, H2, Nat.add_assoc. auto.
Qed.

Lemma process_html_files_reports html_files input_dir output_dir max_height sc
  overwrite :
  html_files <> [] ->
  post (process_html_files html_files input_dir output_dir max_height sc overwrite)
       (fun r ls => r = inr tt /\
          exists total ls',
            ls = ls' ++ [LogSplitDone total (length html_files)] /\
            reported ls' = total).
Proof.
  intros Hfiles. unfold process_html_files.
  destruct html_files as [|f0 rest] eqn:Efiles; [congruence|].
  rewrite <- Efiles in *. clear Efiles Hfiles.
  set (Q := fun (r : exn + unit) ls =>
              r = inr tt /\
              exists total ls',
                ls = ls' ++ [LogSplitDone total (length html_files)] /\
                reported ls' = total).
  eapply post_bind with
    (Q1 := fun r ls => r = inr tt /\ reported ls = 0)
    (Q2 := fun _ => Q).
  - apply post_print. auto.
  - intros _.
    eapply post_bind with (Q1 := fun r ls => r = inr tt /\ reported ls = 0)
      (Q2 := fun _ => Q).
    + apply post_print. auto.
    + intros _.
      eapply post_bind with
        (Q1 := fun r ls => exists k, r = inr (0 + k) /\ reported ls = k)
        (Q2 := fun total r ls => r = inr tt /\
                 ls = [LogRule; LogSplitDone total (length html_files)]).
      * apply fold_split_files_reports.
      * intros total.
        eapply post_bind with (Q1 := fun r ls => r = inr tt /\ ls = [LogRule])
          (Q2 := fun _ r ls => r = inr tt /\
                   ls = [LogSplitDone total (length html_files)]).
        -- apply post_print. auto.
        -- intros _. apply post_print. auto.
        -- intros e l1 [He _]. discriminate.
        -- intros a l1 r l2 [_ ->] [-> ->]. auto.
      * intros e l1 (k & He & _). discriminate.
      * intros total l1 r l2 (k & Ha & Hk) [-> ->]. inversion Ha; subst total.
        split; [reflexivity|]. exists k, (l1 ++ [LogRule]).
        split; [now rewrite <- app_assoc|].
        rewrite reported_app, Hk. unfold reported. simpl. lia.
    + intros e l1 [He _]. discriminate.
    + intros a l1 r l2 [_ H1] [-> (total & ls' & -> & Hrep)].
      split; [reflexivity|]. exists total, (l1 ++ ls').
      split; [now rewrite app_assoc|]. now rewrite reported_app, H1, Hrep.
  - intros e l1 [He _]. discriminate.
  - intros a l1 r l2 [_ H1] [-> (total & ls' & -> & Hrep)].
    split; [reflexivity|]. exists total, (l1 ++ ls').
    split; [now rewrite app_assoc|]. now rewrite reported_app, H1, Hrep.
Qed.

(** *** The style sheets of the themes that were tried *)

(** The search adds the style sheet of every theme it draws and takes none
    away: the page of the theme it returns carries the sheets of the themes
    tried before it as well. *)
Lemma theme_search_stacks themes base_metrics tol tries pg w theme pg' w' :
  theme_search themes base_metrics tol tries pg w = (inr (Some theme, pg'), w') ->
  exists earlier,
    styles pg' = styles pg ++ map ThemeCss (earlier ++ [theme]) /\
    length earlier < tries /\
    cursor w' = cursor w + S (length earlier) /\
    forall t, In t (earlier ++ [theme]) -> In t themes.
Proof.
  revert pg w. induction tries as [|n IH]; intros pg w Hrun; simpl in Hrun.
  - discriminate.
  - unfold bind, choose_weighted_theme in Hrun. cbv zeta in Hrun.
    destruct (rand_choice R (cursor w) (map weight themes)) as [i|]; [|discriminate].
    destruct (nth_error themes i) as [t0|] eqn:Hnth; [|discriminate].
    destruct (within_5pct base_metrics
                (measure E (add_style_tag pg (ThemeCss t0))) tol).
    + inversion Hrun; subst. exists []. simpl. repeat split; try lia.
      intros t [<- | []]. eapply nth_error_In; eauto.
    + apply IH in Hrun. destruct Hrun as (earlier & Hstyles & Hlen & Hcursor & Hin).
      exists (t0 :: earlier). simpl in *. rewrite Hstyles, <- app_assoc.
      repeat split; try lia.
      intros t [<- | Ht]; [eapply nth_error_In; eauto | auto].
Qed.

End Renderers.

(** ** 5.10 Runs of the renderers *)

Example dual_render_of_a_steady_table :
  let '(result, w) :=
    render_table_dual_images (tag_engine steady_cells) lowest_rng THEMES bare_table
      (lit "out/t.png") (lit "out/t_colored.png") None None 2 no_margins
      (5 # 100) 30 1 empty_world in
  result = inr (lit "gray_clean", lit "sans-serif", [0; 0; 0; 0]%Z)
  /\ fs w = [lit "out/t.png"; lit "out/t_colored.png"]
  /\ cursor w = 9%nat.
Proof. vm_compute. repeat split; reflexivity. Qed.

Example plain_render_when_not_coloured :
  let '(result, w) :=
    render_table_single_image (tag_engine reflowing_cells) lowest_rng THEMES
      bare_table (lit "out/t.png") None None 2 no_margins (5 # 100) 30 0
      empty_world in
  result = inr (lit "plain", lit "sans-serif") /\ fs w = [lit "out/t.png"].
Proof. vm_compute. repeat split; reflexivity. Qed.

Example missing_font_file :
  fst (render_table_single_image (tag_engine steady_cells) lowest_rng THEMES
         bare_table (lit "out/t.png") (Some (lit "kr.ttf")) None 2 no_margins
         (5 # 100) 30 1 empty_world)
  = inl (FileNotFoundError (lit "Font file not found: kr.ttf")).
Proof. vm_compute. reflexivity. Qed.

Example split_render_in_three_parts :
  let '(result, w) :=
    render_html_with_split four_row_engine bare_table
      (mkOutPath (lit "out") (lit "t") (lit ".png")) 100 2 10 empty_world in
  result = inr [lit "out/t_1.png"; lit "out/t_2.png"; lit "out/t_3.png"]
  /\ map shot_target (shots w)
     = [ClipRegion 0 0 320 100; ClipRegion 0 80 320 140; ClipRegion 0 200 320 40]
  /\ log w = [LogPart 1 1 2 80; LogPart 2 3 3 120; LogPart 3 4 4 20].
Proof. vm_compute. repeat split; reflexivity. Qed.

Example split_render_of_a_short_table :
  let '(result, w) :=
    render_html_with_split four_row_engine bare_table
      (mkOutPath (lit "out") (lit "t") (lit "")) 2000 2 10 empty_world in
  result = inr [lit "out/t"] /\ map shot_target (shots w) = [TableElement].
Proof. vm_compute. repeat split; reflexivity. Qed.

(** ** 5.11 The claim on an exhausted theme search *)

(** C4. In [render_table_dual_images] and [render_table_single_image],
    when the page was set up (the wrapped document has a table, the font
    file if any exists), the colour branch is taken and each of the
    [max_tries] weighted draws yields a measurement out of tolerance, the
    call raises [RuntimeError] and writes no screenshot: the images written
    and the existing paths are those from before the call. *)
Theorem exhausted_theme_search_raises (E : Engine) (R : Rng)
  (themes : list Theme) (table_html : str) (font_path : option str)
  (seed : option Z) (sc : Q) (m : Margins) (tol : Q) (max_tries : Z)
  (color_probability : Q) (w : World) :
  has_table E (wrap_table_fragment table_html
                 (extract_font_family_from_html table_html)) = true ->
  font_ok font_path w = true ->
  Qlt_bool (rand_float R (start_cursor R seed w)) color_probability = true ->
  (forall j, (j < Z.to_nat max_tries)%nat ->
     attempt_fails E R themes
       (measure E (base_page table_html font_path sc m)) tol
       (base_page table_html font_path sc m) (S (start_cursor R seed w)) j) ->
  (forall out_path_std out_path_colored, exists w',
     render_table_dual_images E R themes table_html out_path_std out_path_colored
       font_path seed sc m tol max_tries color_probability w
     = (inl (RuntimeError (lit "Could not find a theme within tolerance.")), w')
     /\ shots w' = shots w /\ fs w' = fs w) /\
  (forall out_path, exists w',
     render_table_single_image E R themes table_html out_path
       font_path seed sc m tol max_tries color_probability w
     = (inl (RuntimeError (lit "Could not find a theme within tolerance.")), w')
     /\ shots w' = shots w /\ fs w' = fs w).
Proof.
  intros Htable Hfont Hcolor Hall.
  set (w0 := with_cursor w (start_cursor R seed w)).
  assert (Hopen : open_page E table_html font_path sc m w0
                  = (inr (base_page table_html font_path sc m), w0)).
  { apply open_page_ok; [exact Htable|].
    destruct font_path as [fp|]; [|reflexivity]. exact Hfont. }
  destruct (@choose_theme_exhausted E R themes
              (measure E (base_page table_html font_path sc m)) tol max_tries
              color_probability (base_page table_html font_path sc m) w0
              Hcolor Hall) as (pg' & c' & Hchoose).
  split; [intros out_path_std out_path_colored | intros out_path];
    exists (with_cursor w0 c');
    (split; [|split; reflexivity]).
  - unfold render_table_dual_images.
    unfold bind at 1. rewrite seed_if_given_run. fold w0.
    unfold bind at 1. rewrite Hopen.
    unfold bind at 1. rewrite Hchoose. reflexivity.
  - unfold render_table_single_image.
    unfold bind at 1. rewrite seed_if_given_run. fold w0.
    unfold bind at 1. rewrite Hopen.
    unfold bind at 1. rewrite Hchoose. reflexivity.
Qed.

Lemma exhausted_theme_search_raises_witness :
  (forall out_path_std out_path_colored, exists w',
     render_table_dual_images (tag_engine reflowing_cells) lowest_rng THEMES
       bare_table out_path_std out_path_colored None None 2 no_margins
       (5 # 100) 3 1 empty_world
     = (inl (RuntimeError (lit "Could not find a theme within tolerance.")), w')
     /\ shots w' = shots empty_world /\ fs w' = fs empty_world) /\
  (forall out_path, exists w',
     render_table_single_image (tag_engine reflowing_cells) lowest_rng THEMES
       bare_table out_path None None 2 no_margins (5 # 100) 3 1 empty_world
     = (inl (RuntimeError (lit "Could not find a theme within tolerance.")), w')
     /\ shots w' = shots empty_world /\ fs w' = fs empty_world).
Proof.
  apply (@exhausted_theme_search_raises (tag_engine reflowing_cells) lowest_rng
           THEMES bare_table None None 2 no_margins (5 # 100) 3 1 empty_world).
  - vm_compute. reflexivity.
  - reflexivity.
  - reflexivity.
  - intros j Hj.
    assert (Hcases : j = 0 \/ j = 1 \/ j = 2) by (simpl in Hj; lia).
    destruct Hcases as [-> | [-> | ->]];
      (split; [eexists; vm_compute; reflexivity | vm_compute; reflexivity]).
Defined.

(** ** 5.12 The claim on input without a table *)

Definition note_html : str := lit "<p>no table here</p>".

Definition note_out : OutPath := mkOutPath (lit "out") (lit "note") (lit ".png").

Definition note_file : HtmlFile :=
  mkHtmlFile (lit "note.html") (lit "note") (inr note_html).

(** C5, as the specification states it, fails: on a document without a
    table the splitting renderer raises nothing; it captures the body and
    returns the path of the image. *)
Lemma split_renderer_captures_page_without_table :
  has_table (tag_engine reflowing_cells) (doc (split_page note_html 2)) = false /\
  render_html_with_split (tag_engine reflowing_cells) note_html note_out 2000 2 10
    empty_world
  = (inr [lit "out/note.png"],
     after_shot empty_world (lit "out/note.png") BodyElement (split_page note_html 2)).
Proof. vm_compute. split; reflexivity. Qed.

(** C5, amended.  When the wrapped input has no table:
    - [render_table_dual_images] and [render_table_single_image] fail with
      an error returned to the caller and write no image;
    - in [process_all_html_files] that failure is caught in the variant,
      which ends normally with its failure line, and the batch goes on: it
      ends normally with the line naming every file, in order;
    - [render_html_with_split] and [render_raw_html_image] do not fail:
      they capture the body of the page and return. *)
Theorem missing_table_by_entry_point (E : Engine) (R : Rng) :
  (forall themes table_html font_path seed sc m tol max_tries color_probability w,
     has_table E (wrap_table_fragment table_html
                    (extract_font_family_from_html table_html)) = false ->
     (forall out_path_std out_path_colored, exists e w',
        render_table_dual_images E R themes table_html out_path_std out_path_colored
          font_path seed sc m tol max_tries color_probability w = (inl e, w')
        /\ shots w' = shots w /\ fs w' = fs w) /\
     (forall out_path, exists e w',
        render_table_single_image E R themes table_html out_path
          font_path seed sc m tol max_tries color_probability w = (inl e, w')
        /\ shots w' = shots w /\ fs w' = fs w)) /\
  (forall themes out f table_html font_path sc overwrite generate_colored
          images_per_file color_probability img_idx,
     has_table E (wrap_table_fragment table_html
                    (extract_font_family_from_html table_html)) = false ->
     post (styled_variant E R themes out f table_html font_path sc overwrite
             generate_colored images_per_file color_probability img_idx)
          (fun r ls => r = inr tt /\ exists e, ls = [LogFailed (img_idx + 1) e])) /\
  (forall themes html_files input_dir output_dir font_path sc overwrite
          generate_colored images_per_file color_probability raw_mode,
     Forall readable html_files ->
     post (process_all_html_files E R themes html_files input_dir output_dir
             font_path sc overwrite generate_colored images_per_file
             color_probability raw_mode)
          (fun r ls => r = inr tt /\
                       filter is_processing ls = processing_lines html_files)) /\
  (forall html_content output_path max_height sc padding w,
     has_table E (doc (split_page html_content sc)) = false ->
     render_html_with_split E html_content output_path max_height sc padding w
     = (inr [path_str output_path],
        after_shot w (path_str output_path) BodyElement
          (split_page html_content sc))) /\
  (forall html_content out_path sc w,
     has_table E (doc (raw_page html_content sc)) = false ->
     render_raw_html_image E html_content out_path sc w
     = (inr tt, after_shot w out_path BodyElement (raw_page html_content sc))).
Proof.
  split; [|split; [|split; [|split]]].
  - intros themes table_html font_path seed sc m tol max_tries color_probability w
      Htable.
    split.
    + intros out_path_std out_path_colored.
      destruct (render_table_dual_images_needs_table E R themes table_html
                  out_path_std out_path_colored font_path seed sc m tol max_tries
                  color_probability w Htable) as (e & w' & Hrun & Hs & Hf & _).
      eauto.
    + intros out_path.
      destruct (render_table_single_image_needs_table E R themes table_html
                  out_path font_path seed sc m tol max_tries
                  color_probability w Htable) as (e & w' & Hrun & Hs & Hf & _).
      eauto.
  - intros. now apply styled_variant_without_table.
  - intros themes html_files input_dir output_dir font_path sc overwrite
      generate_colored images_per_file color_probability raw_mode Hread.
    eapply post_weaken.
    + apply process_all_html_files_continues. exact Hread.
    + intros r ls (Hr & Hp & _). auto.
  - intros. now apply render_html_with_split_without_table.
  - intros. now apply render_raw_html_image_without_table.
Qed.

(** ** 5.13 Further properties of the renderers *)

(** X16. [render_html_with_split] does not fail on a row lookup: the
    intervals of the plan are within the rows, so no [IndexError] is raised.
    A call that returns has written the images whose paths it returns, in
    that order, at least one, all taken of the one page it loaded: either the
    output path alone, or two or more parts named by the stem of the output
    path, an underscore and the number of the part from 1, whatever paths
    exist already. *)
Theorem render_html_with_split_returns_written_paths (E : Engine)
  (html_content : str) (output_path : OutPath) (max_height : Z) (sc : Q)
  (padding : Z) (w : World) :
  let run := render_html_with_split E html_content output_path max_height sc
               padding w in
  (forall msg, fst run <> inl (IndexError msg)) /\
  (forall files, fst run = inr files ->
     files <> [] /\
     wrote w (snd run) files (split_page html_content sc) /\
     (files = [path_str output_path] \/
      exists k, 2 <= k /\
        files = map (part_path (out_dir output_path) (out_stem output_path)
                       (if nonempty (out_suffix output_path)
                        then out_suffix output_path else lit ".png"))
                    (seq 1 k))).
Proof.
  intros run.
  destruct (render_html_with_split_run E html_content output_path max_height sc
              padding w) as (files & w' & Hrun & Hwrote & Hfiles).
  subst run. rewrite Hrun. cbn [fst snd]. split; [discriminate|].
  intros files' Heq. inversion Heq; subst files'.
  repeat split; auto.
  destruct Hfiles as [-> | (k & Hk & ->)]; [discriminate|].
  destruct k as [|k]; [lia | discriminate].
Qed.

(** X17. A font file that is named but does not exist: both table renderers
    raise [FileNotFoundError], with a message that starts with
    [Font file not found: ], before the page is set up, and write and print
    nothing. *)
Theorem missing_font_file_raises (E : Engine) (R : Rng)
  (themes : list Theme) (table_html fp : str) (seed : option Z) (sc : Q)
  (m : Margins) (tol : Q) (max_tries : Z) (color_probability : Q) (w : World) :
  nonempty fp = true ->
  in_fs (fs w) fp = false ->
  (forall out_path_std out_path_colored, exists msg w',
     render_table_dual_images E R themes table_html out_path_std out_path_colored
       (Some fp) seed sc m tol max_tries color_probability w
     = (inl (FileNotFoundError msg), w')
     /\ startswith msg (lit "Font file not found: ") = true
     /\ quiet w w') /\
  (forall out_path, exists msg w',
     render_table_single_image E R themes table_html out_path
       (Some fp) seed sc m tol max_tries color_probability w
     = (inl (FileNotFoundError msg), w')
     /\ startswith msg (lit "Font file not found: ") = true
     /\ quiet w w').
Proof.
  intros Hfp Hmissing.
  assert (Hopen : open_page E table_html (Some fp) sc m
                    (with_cursor w (start_cursor R seed w))
                  = (inl (FileNotFoundError (lit "Font file not found: " ++ fp)),
                     with_cursor w (start_cursor R seed w))).
  { now apply open_page_missing_font. }
  assert (Hmsg : startswith (lit "Font file not found: " ++ fp)
                   (lit "Font file not found: ") = true).
  { apply startswith_app. }
  split; [intros out_path_std out_path_colored | intros out_path];
    exists (lit "Font file not found: " ++ fp),
           (with_cursor w (start_cursor R seed w));
    (split; [|split; [exact Hmsg | unfold quiet; simpl; auto]]).
  - unfold render_table_dual_images.
    erewrite bind_inr by apply seed_if_given_run.
    erewrite bind_inl by exact Hopen. reflexivity.
  - unfold render_table_single_image.
    erewrite bind_inr by apply seed_if_given_run.
    erewrite bind_inl by exact Hopen. reflexivity.
Qed.

Lemma missing_font_file_raises_witness :
  (forall out_path_std out_path_colored, exists msg w',
     render_table_dual_images (tag_engine steady_cells) lowest_rng THEMES bare_table
       out_path_std out_path_colored (Some (lit "/fonts/kr.ttf")) None 2 no_margins
       (5 # 100) 30 1 empty_world
     = (inl (FileNotFoundError msg), w')
     /\ startswith msg (lit "Font file not found: ") = true
     /\ quiet empty_world w') /\
  (forall out_path, exists msg w',
     render_table_single_image (tag_engine steady_cells) lowest_rng THEMES bare_table
       out_path (Some (lit "/fonts/kr.ttf")) None 2 no_margins (5 # 100) 30 1
       empty_world
     = (inl (FileNotFoundError msg), w')
     /\ startswith msg (lit "Font file not found: ") = true
     /\ quiet empty_world w').
Proof.
  apply (@missing_font_file_raises (tag_engine steady_cells) lowest_rng THEMES
           bare_table (lit "/fonts/kr.ttf") None 2 no_margins (5 # 100) 30 1
           empty_world).
  - reflexivity.
  - reflexivity.
Defined.

(** X18. A call of [render_table_dual_images] that returns has written
    exactly two images, the standard one and then the coloured one, of the
    same document with the same style sheets; the coloured one differs in the
    padding, which is the list of margins returned, and in its background.
    The theme returned is among the style sheets; in the colour branch its
    page was measured within tolerance of the baseline, otherwise it is the
    plain theme.  Nothing is printed. *)
Theorem render_table_dual_images_writes_pair (E : Engine) (R : Rng)
  (themes : list Theme) (table_html out_path_std out_path_colored : str)
  (font_path : option str) (seed : option Z) (sc : Q) (m : Margins) (tol : Q)
  (max_tries : Z) (color_probability : Q) (w w' : World)
  (theme_name applied_font : str) (new_margins : list Z) :
  render_table_dual_images E R themes table_html out_path_std out_path_colored
    font_path seed sc m tol max_tries color_probability w
  = (inr (theme_name, applied_font, new_margins), w') ->
  exists theme pg1 bg new_mt new_mr new_mb new_ml,
    theme_name = name theme /\
    In (ThemeCss theme) (styles pg1) /\
    applied_font = computed_font E pg1 /\
    restyled (base_page table_html font_path sc m) pg1 /\
    new_margins = [new_mt; new_mr; new_mb; new_ml] /\
    shots w' = shots w
               ++ [mkShot out_path_std ShotElement pg1;
                   mkShot out_path_colored ShotElement
                     (mkPage (doc pg1) (scale pg1) (styles pg1)
                        (Some (mkMargins new_mt new_mr new_mb new_ml)) (Some bg))] /\
    fs w' = fs w ++ [out_path_std; out_path_colored] /\
    log w' = log w /\
    (Qlt_bool (rand_float R (start_cursor R seed w)) color_probability = true ->
     within_5pct (measure E (base_page table_html font_path sc m))
       (measure E pg1) tol = true) /\
    (Qlt_bool (rand_float R (start_cursor R seed w)) color_probability = false ->
     theme = plain_theme).
Proof.
  intros Hrun. unfold render_table_dual_images in Hrun.
  erewrite bind_inr in Hrun by apply seed_if_given_run.
  unfold bind at 1 in Hrun.
  destruct (open_page E table_html font_path sc m
              (with_cursor w (start_cursor R seed w)))
    as [[e|pg] w0] eqn:Hopen; [discriminate|].
  apply open_page_inv in Hopen. destruct Hopen as [-> ->].
  unfold bind at 1 in Hrun.
  destruct (choose_theme E R themes (measure E (base_page table_html font_path sc m))
              tol max_tries color_probability (base_page table_html font_path sc m)
              (with_cursor w (start_cursor R seed w)))
    as [[e|[[theme|] pg1]] w1] eqn:Hchoose; try discriminate.
  apply choose_theme_inv in Hchoose.
  destruct Hchoose as (Hpg & (Hfs & Hshots & Htexts & Hlog) & Hstyle & Hin & Hplain).
  unfold bind, screenshot, get_random_pastel_color, bind, randint, ret in Hrun.
  inversion Hrun; subst. clear Hrun.
  eexists theme, pg1, _, _, _, _, _.
  split; [reflexivity|]. split; [exact Hstyle|]. split; [reflexivity|].
  split; [exact Hpg|]. split; [reflexivity|].
  cbn [shots fs log advance cursor]. simpl in Hfs, Hshots, Hlog.
  rewrite Hshots, Hfs, Hlog, <- !app_assoc.
  split; [reflexivity|]. split; [reflexivity|]. split; [reflexivity|].
  split; [exact Hin|]. intros Hc. now apply Hplain.
Qed.

Lemma render_table_dual_images_writes_pair_witness :
  exists theme pg1 bg new_mt new_mr new_mb new_ml,
    lit "gray_clean" = name theme /\
    In (ThemeCss theme) (styles pg1) /\
    lit "sans-serif" = computed_font (tag_engine steady_cells) pg1 /\
    restyled (base_page bare_table None 2 no_margins) pg1 /\
    [0; 0; 0; 0]%Z = [new_mt; new_mr; new_mb; new_ml] /\
    shots (snd (render_table_dual_images (tag_engine steady_cells) lowest_rng THEMES
                  bare_table (lit "out/t.png") (lit "out/t_colored.png") None None
                  2 no_margins (5 # 100) 30 1 empty_world))
    = shots empty_world
      ++ [mkShot (lit "out/t.png") ShotElement pg1;
          mkShot (lit "out/t_colored.png") ShotElement
            (mkPage (doc pg1) (scale pg1) (styles pg1)
               (Some (mkMargins new_mt new_mr new_mb new_ml)) (Some bg))] /\
    fs (snd (render_table_dual_images (tag_engine steady_cells) lowest_rng THEMES
               bare_table (lit "out/t.png") (lit "out/t_colored.png") None None
               2 no_margins (5 # 100) 30 1 empty_world))
    = fs empty_world ++ [lit "out/t.png"; lit "out/t_colored.png"] /\
    log (snd (render_table_dual_images (tag_engine steady_cells) lowest_rng THEMES
                bare_table (lit "out/t.png") (lit "out/t_colored.png") None None
                2 no_margins (5 # 100) 30 1 empty_world))
    = log empty_world /\
    (Qlt_bool (rand_float lowest_rng (start_cursor lowest_rng None empty_world)) 1
     = true ->
     within_5pct
       (measure (tag_engine steady_cells) (base_page bare_table None 2 no_margins))
       (measure (tag_engine steady_cells) pg1) (5 # 100) = true) /\
    (Qlt_bool (rand_float lowest_rng (start_cursor lowest_rng None empty_world)) 1
     = false ->
     theme = plain_theme).
Proof.
  apply (@render_table_dual_images_writes_pair (tag_engine steady_cells) lowest_rng
           THEMES bare_table (lit "out/t.png") (lit "out/t_colored.png") None None
           2 no_margins (5 # 100) 30 1 empty_world
           (snd (render_table_dual_images (tag_engine steady_cells) lowest_rng THEMES
                   bare_table (lit "out/t.png") (lit "out/t_colored.png") None None
                   2 no_margins (5 # 100) 30 1 empty_world))
           (lit "gray_clean") (lit "sans-serif") [0; 0; 0; 0]%Z).
  vm_compute. reflexivity.
Defined.

(** X19. In the colour branch, the image [render_table_single_image] writes
    is of a page whose theme, the one it returns, was measured within
    tolerance of the baseline; it is the only image written. *)
Theorem render_table_single_image_verified (E : Engine) (R : Rng)
  (themes : list Theme) (table_html out_path : str) (font_path : option str)
  (seed : option Z) (sc : Q) (m : Margins) (tol : Q) (max_tries : Z)
  (color_probability : Q) (w w' : World) (theme_name applied_font : str) :
  has_table E (wrap_table_fragment table_html
                 (extract_font_family_from_html table_html)) = true ->
  font_ok font_path w = true ->
  Qlt_bool (rand_float R (start_cursor R seed w)) color_probability = true ->
  render_table_single_image E R themes table_html out_path font_path seed sc m tol
    max_tries color_probability w = (inr (theme_name, applied_font), w') ->
  exists theme pg,
    theme_name = name theme /\
    In (ThemeCss theme) (styles pg) /\
    within_5pct (measure E (base_page table_html font_path sc m)) (measure E pg) tol
    = true /\
    shots w' = shots w ++ [mkShot out_path ShotElement pg].
Proof.
  intros Htable Hfont Hcolor Hrun.
  exact (@coloured_single_image_is_verified E R themes table_html out_path font_path
           seed sc m tol max_tries color_probability w theme_name applied_font w'
           Htable Hfont Hcolor Hrun).
Qed.

Lemma render_table_single_image_verified_witness :
  exists theme pg,
    lit "gray_clean" = name theme /\
    In (ThemeCss theme) (styles pg) /\
    within_5pct
      (measure (tag_engine steady_cells) (base_page bare_table None 2 no_margins))
      (measure (tag_engine steady_cells) pg) (5 # 100) = true /\
    shots (snd (render_table_single_image (tag_engine steady_cells) lowest_rng THEMES
                  bare_table (lit "out/t.png") None None 2 no_margins (5 # 100) 30 1
                  empty_world))
    = shots empty_world ++ [mkShot (lit "out/t.png") ShotElement pg].
Proof.
  apply (@render_table_single_image_verified (tag_engine steady_cells) lowest_rng
           THEMES bare_table (lit "out/t.png") None None 2 no_margins (5 # 100) 30 1
           empty_world
           (snd (render_table_single_image (tag_engine steady_cells) lowest_rng THEMES
                   bare_table (lit "out/t.png") None None 2 no_margins (5 # 100) 30 1
                   empty_world))
           (lit "gray_clean") (lit "sans-serif")).
  - vm_compute. reflexivity.
  - reflexivity.
  - reflexivity.
  - vm_compute. reflexivity.
Defined.

(** A file whose read fails. *)
Definition locked_file : HtmlFile :=
  mkHtmlFile (lit "locked.html") (lit "locked")
    (inl (OSError (lit "[Errno 13] Permission denied: 'in/locked.html'"))).

(** X20. [process_all_html_files] reads each file outside any [try]: at the
    first file of the listing that cannot be read the batch ends with the
    error of the read.  The log names the files before it, in order, and
    neither that file nor any file after it. *)
Theorem process_all_html_files_stops_at_unreadable_file (E : Engine) (R : Rng)
  (themes : list Theme) (before after : list HtmlFile) (f : HtmlFile) (e : exn)
  (input_dir output_dir : str) (font_path : option str) (sc : Q)
  (overwrite generate_colored : bool) (images_per_file : Z)
  (color_probability : Q) (raw_mode : bool) :
  Forall readable before ->
  read_text f = inl e ->
  post (process_all_html_files E R themes (before ++ f :: after) input_dir output_dir
          font_path sc overwrite generate_colored images_per_file color_probability
          raw_mode)
       (fun r ls =>
          r = inl e /\
          filter is_processing ls
          = map (fun entry => LogProcessing (fst entry + 1)
                                (length (before ++ f :: after))
                                (file_name (snd entry)))
                (combine (seq 0 (length before)) before)).
Proof.
  intros Hbefore Hf. now apply process_all_html_files_stops.
Qed.

Lemma process_all_html_files_stops_at_unreadable_file_witness :
  post (process_all_html_files (tag_engine steady_cells) lowest_rng THEMES
          ([note_file] ++ locked_file :: [note_file]) (lit "in") (lit "out")
          None 2 false true 1 1 false)
       (fun r ls =>
          r = inl (OSError (lit "[Errno 13] Permission denied: 'in/locked.html'")) /\
          filter is_processing ls
          = map (fun entry => LogProcessing (fst entry + 1)
                                (length ([note_file] ++ locked_file :: [note_file]))
                                (file_name (snd entry)))
                (combine (seq 0 (length [note_file])) [note_file])).
Proof.
  apply (@process_all_html_files_stops_at_unreadable_file (tag_engine steady_cells)
           lowest_rng THEMES [note_file] [note_file] locked_file).
  - constructor; [|constructor]. exists note_html. reflexivity.
  - reflexivity.
Defined.

(** X21. Without [overwrite], [process_all_html_files] never writes an
    image over an existing file: whatever the listing, the options and the
    outcome of the renders, every image of the run is written at a path
    that did not exist when the batch started, and no two images of the run
    share a path. *)
Theorem process_all_html_files_never_overwrites (E : Engine) (R : Rng)
  (themes : list Theme) (html_files : list HtmlFile) (input_dir output_dir : str)
  (font_path : option str) (sc : Q) (generate_colored : bool)
  (images_per_file : Z) (color_probability : Q) (raw_mode : bool) (w : World) :
  exists new,
    let w' := snd (process_all_html_files E R themes html_files input_dir output_dir
                     font_path sc false generate_colored images_per_file
                     color_probability raw_mode w) in
    fs w' = fs w ++ new /\
    map shot_path (shots w') = map shot_path (shots w) ++ new /\
    NoDup new /\
    forall p, In p new -> ~ In p (fs w).
Proof.
  destruct (process_all_html_files E R themes html_files input_dir output_dir
              font_path sc false generate_colored images_per_file color_probability
              raw_mode w) as [r w'] eqn:Hrun.
  apply process_all_html_files_adds_new in Hrun. exact Hrun.
Qed.

(** X22. When [process_html_files] returns on a listing that is not empty,
    its last line gives the number of files of the listing and a number of
    images that is the sum of what the lines before it report: one image for
    every line that names a saved image, [k] images for every line that
    tells of a split into [k] images, and nothing for a file that failed. *)
Theorem process_html_files_counts_images (E : Engine) (html_files : list HtmlFile)
  (input_dir output_dir : str) (max_height : Z) (sc : Q) (overwrite : bool)
  (w : World) :
  html_files <> [] ->
  let run := process_html_files E html_files input_dir output_dir max_height sc
               overwrite w in
  fst run = inr tt ->
  exists total ls,
    log (snd run) = log w ++ ls ++ [LogSplitDone total (length html_files)] /\
    total = reported ls.
Proof.
  intros Hfiles run _.
  destruct (@process_html_files_reports E html_files input_dir output_dir max_height
              sc overwrite Hfiles w)
    as (r & w' & ls & Hrun & Hlog & _ & total & ls' & -> & Hrep).
  subst run. rewrite Hrun. cbn [snd]. exists total, ls'. auto.
Qed.

Lemma process_html_files_counts_images_witness :
  exists total ls,
    log (snd (process_html_files four_row_engine [note_file; locked_file]
                (lit "in") (lit "out") 100 2 false empty_world))
    = log empty_world ++ ls ++ [LogSplitDone total (length [note_file; locked_file])] /\
    total = reported ls.
Proof.
  apply (@process_html_files_counts_images four_row_engine [note_file; locked_file]
           (lit "in") (lit "out") 100 2 false empty_world).
  - discriminate.
  - vm_compute. reflexivity.
Defined.

(** X23. In the batch of [html2img_split.py] without [overwrite], a file
    that can be read is rendered under a stem whose unsplit image did not
    exist; the images written are that one image or, when the table is
    split, two or more parts named by the stem, an underscore and the number
    of the part, and the count grows by their number. *)
Theorem split_one_file_uses_free_stem (E : Engine) (out : str) (max_height : Z)
  (sc : Q) (n total i : nat) (f : HtmlFile) (text : str) (w : World) :
  read_text f = inr text ->
  exists st files w',
    split_one_file E out max_height sc false n total (i, f) w
    = (inr (total + length files), w') /\
    ~ In (path_join out (st ++ png)) (fs w) /\
    (files = [path_join out (st ++ png)] \/
     exists k, 2 <= k /\ files = map (part_path out st png) (seq 1 k)) /\
    wrote w w' files
      (split_page (remove_caption_tags (clean_markdown_codeblocks text)) sc).
Proof.
  intros Htext.
  destruct (@split_one_file_readable E out max_height sc false n total i f text w
              Htext) as (st & files & w' & Hrun & Hfree & _ & Hfiles & Hwrote).
  exists st, files, w'. auto.
Qed.

Lemma split_one_file_uses_free_stem_witness :
  exists st files w',
    split_one_file four_row_engine (lit "out") 100 2 false 1 0 (0, note_file)
      (mkWorld [lit "out/note.png"] [] [] 0 [])
    = (inr (0 + length files), w') /\
    ~ In (path_join (lit "out") (st ++ png)) [lit "out/note.png"] /\
    (files = [path_join (lit "out") (st ++ png)] \/
     exists k, 2 <= k /\ files = map (part_path (lit "out") st png) (seq 1 k)) /\
    wrote (mkWorld [lit "out/note.png"] [] [] 0 []) w' files
      (split_page (remove_caption_tags (clean_markdown_codeblocks note_html)) 2).
Proof.
  apply (@split_one_file_uses_free_stem four_row_engine (lit "out") 100 2 1 0 0
           note_file note_html (mkWorld [lit "out/note.png"] [] [] 0 [])).
  reflexivity.
Defined.

(** X29. The theme sheets stack.  In the colour branch, the page of the image
    that [render_table_single_image] writes carries, after the style sheets
    of the baseline, the sheet of every theme drawn before the one returned,
    fewer than [max_tries] of them and all from the list of themes, and last
    the sheet of the theme returned: the sheets of the themes that failed
    the check are still in force in the image. *)
Theorem render_table_single_image_stacks_themes (E : Engine) (R : Rng)
  (themes : list Theme) (table_html out_path : str) (font_path : option str)
  (seed : option Z) (sc : Q) (m : Margins) (tol : Q) (max_tries : Z)
  (color_probability : Q) (w w' : World) (theme_name applied_font : str) :
  Qlt_bool (rand_float R (start_cursor R seed w)) color_probability = true ->
  render_table_single_image E R themes table_html out_path font_path seed sc m tol
    max_tries color_probability w = (inr (theme_name, applied_font), w') ->
  exists earlier theme pg,
    theme_name = name theme /\
    (length earlier < Z.to_nat max_tries)%nat /\
    (forall t, In t (earlier ++ [theme]) -> In t themes) /\
    styles pg = styles (base_page table_html font_path sc m)
                ++ map ThemeCss (earlier ++ [theme]) /\
    shots w' = shots w ++ [mkShot out_path ShotElement pg].
Proof.
  intros Hcolor Hrun. unfold render_table_single_image in Hrun.
  erewrite bind_inr in Hrun by apply seed_if_given_run.
  unfold bind at 1 in Hrun.
  destruct (open_page E table_html font_path sc m
              (with_cursor w (start_cursor R seed w)))
    as [[e|pg0] w0] eqn:Hopen; [discriminate|].
  apply open_page_inv in Hopen. destruct Hopen as [-> ->].
  unfold bind at 1, choose_theme, bind at 1, random_random in Hrun.
  cbn [cursor with_cursor] in Hrun. rewrite Hcolor in Hrun.
  destruct (theme_search E R themes (measure E (base_page table_html font_path sc m))
              tol (Z.to_nat max_tries) (base_page table_html font_path sc m)
              (advance (with_cursor w (start_cursor R seed w))))
    as [[e | [[theme|] pg]] w1] eqn:Hsearch; try discriminate.
  pose proof Hsearch as Hstack. apply theme_search_stacks in Hstack.
  destruct Hstack as (earlier & Hstyles & Hlen & _ & Hin).
  apply theme_search_writes_nothing in Hsearch. destruct Hsearch as [Hshots _].
  unfold bind, screenshot, ret in Hrun. inversion Hrun; subst.
  exists earlier, theme, pg. repeat split; try assumption.
  simpl. rewrite Hshots. reflexivity.
Qed.

Lemma render_table_single_image_stacks_themes_witness :
  exists earlier theme pg,
    lit "gray_clean" = name theme /\
    (length earlier < Z.to_nat 30)%nat /\
    (forall t, In t (earlier ++ [theme]) -> In t THEMES) /\
    styles pg = styles (base_page bare_table None 2 no_margins)
                ++ map ThemeCss (earlier ++ [theme]) /\
    shots (snd (render_table_single_image (tag_engine steady_cells) lowest_rng THEMES
                  bare_table (lit "out/t.png") None None 2 no_margins (5 # 100) 30 1
                  empty_world))
    = shots empty_world ++ [mkShot (lit "out/t.png") ShotElement pg].
Proof.
  apply (@render_table_single_image_stacks_themes (tag_engine steady_cells)
           lowest_rng THEMES bare_table (lit "out/t.png") None None 2 no_margins
           (5 # 100) 30 1 empty_world
           (snd (render_table_single_image (tag_engine steady_cells) lowest_rng THEMES
                   bare_table (lit "out/t.png") None None 2 no_margins (5 # 100) 30 1
                   empty_world))
           (lit "gray_clean") (lit "sans-serif")).
  - reflexivity.
  - vm_compute. reflexivity.
Defined.

(** X30. On input that already is a document, the three wrappers agree:
    [wrap_table_fragment] and [wrap_html_document] return the same text for
    the same family, and the document [render_raw_html_image] loads is the
    one [wrap_table_fragment] builds with the family extracted from the
    input. *)
Theorem wrappers_agree_on_documents (html : str) (font_family : option str) :
  looks_like_document html = true ->
  wrap_table_fragment html font_family = wrap_html_document html font_family /\
  raw_document html
  = wrap_table_fragment html (extract_font_family_from_html html) /\
  raw_document html
  = wrap_html_document html (extract_font_family_from_html html).
Proof.
  intros Hdoc.
  assert (Hraw : raw_document html
                 = insert_font_style html
                     (font_override_style
                        (font_css (extract_font_family_from_html html)))).
  { unfold raw_document. cbv zeta. unfold looks_like_document in Hdoc.
    cbv zeta in Hdoc. apply orb_true_iff in Hdoc.
    destruct Hdoc as [-> | ->]; [reflexivity|].
    now rewrite andb_false_r. }
  unfold wrap_table_fragment, wrap_html_document. cbv zeta.
  rewrite Hdoc, Hraw. auto.
Qed.

Lemma wrappers_agree_on_documents_witness :
  wrap_table_fragment plain_document (Some (lit "Batang"))
  = wrap_html_document plain_document (Some (lit "Batang")) /\
  raw_document plain_document
  = wrap_table_fragment plain_document (extract_font_family_from_html plain_document) /\
  raw_document plain_document
  = wrap_html_document plain_document (extract_font_family_from_html plain_document).
Proof.
  apply (@wrappers_agree_on_documents plain_document (Some (lit "Batang"))).
  vm_compute. reflexivity.
Defined.

End Render.

(* ===================================================================== *)
(** * 6. The label batch ([extract_table.py]) *)
(* ===================================================================== *)

Module Labels.

Import PyStr Wrapper Render.

Section CleanBatch.

(** [extract_clean_table] parses its argument with BeautifulSoup and
    rewrites the tree; the batch driver only sees what it returns: the
    cleaned table, [None] when there is no table, or an exception. *)
Variable extract_clean_table : str -> exn + option str.

Definition clean_html_response (html_content : str) : exn + str :=
  let content := strip html_content in
  let content :=
    if startswith content fence then
      let lines := tl (split_on 10 content) in
      let lines := if last_is_fence lines then removelast lines else lines in
      join_with 10 lines
    else content in
  match extract_clean_table content with
  | inl e => inl e
  | inr (Some clean_table) => inr (if nonempty clean_table then clean_table else content)
  | inr None => inr content
  end.

(** The body of the loop of [process_output_qa_folder]; the accumulator is
    [(success_count, failed_files)]. *)
Definition clean_one_file (output_folder : str) (acc : nat * list str)
  (html_file : HtmlFile) : M (nat * list str) :=
  let '(success_count, failed_files) := acc in
  try_except
    (html_content <- read html_file ;;
     clean_table <- lift (clean_html_response html_content) ;;
     if nonempty clean_table && nonempty (strip clean_table)
     then
       write_text (path_join output_folder (file_name html_file)) clean_table ;;;
       print (LogCleaned (file_name html_file) (file_name html_file)) ;;;
       ret (S success_count, failed_files)
     else
       print (LogNoValidTable (file_name html_file)) ;;;
       ret (success_count, failed_files ++ [file_name html_file]))
    (fun e =>
       print (LogErrorProcessing (file_name html_file) e) ;;;
       ret (success_count, failed_files ++ [file_name html_file])).

(** [process_output_qa_folder], on the listing [html_files] of
    [input_folder]. *)
Definition process_output_qa_folder (html_files : list HtmlFile)
  (input_folder output_folder : str) : M nat :=
  found <- path_exists input_folder ;;
  if negb found then print (LogMissingFolder input_folder) ;;; ret 0%nat
  else
    match html_files with
    | [] => print (LogNoHtmlIn input_folder) ;;; ret 0%nat
    | _ :: _ =>
        print (LogFoundIn (length html_files) input_folder) ;;;
        '(success_count, failed_files) <-
          fold_files html_files (0%nat, []) (clean_one_file output_folder) ;;
        print (LogCompleted success_count (length failed_files)) ;;;
        (match failed_files with
         | [] => ret tt
         | _ :: _ => print (LogFailedFiles (firstn 5 failed_files)
                              (5 <? length failed_files)%nat)
         end) ;;;
        ret success_count
    end.

(** *** The outcome per file *)

(** What the loop does with a file: the line it prints, and whether the
    file counts as failed. *)
Definition file_line (f : HtmlFile) : LogLine :=
  match read_text f with
  | inl e => LogErrorProcessing (file_name f) e
  | inr html_content =>
      match clean_html_response html_content with
      | inl e => LogErrorProcessing (file_name f) e
      | inr clean_table =>
          if nonempty clean_table && nonempty (strip clean_table)
          then LogCleaned (file_name f) (file_name f)
          else LogNoValidTable (file_name f)
      end
  end.

Definition file_fails (f : HtmlFile) : bool :=
  match file_line f with
  | LogCleaned _ _ => false
  | _ => true
  end.

Definition next_acc (acc : nat * list str) (f : HtmlFile) : nat * list str :=
  if file_fails f then (fst acc, snd acc ++ [file_name f])
  else (S (fst acc), snd acc).

Definition failed_names (html_files : list HtmlFile) : list str :=
  map file_name (filter file_fails html_files).

Definition success_total (html_files : list HtmlFile) : nat :=
  length (filter (fun f => negb (file_fails f)) html_files).

(** The last lines of the batch: the counts, then the names of the failed
    files, the first five of them at most. *)
Definition summary_lines (html_files : list HtmlFile) : list LogLine :=
  LogCompleted (success_total html_files) (length (failed_names html_files))
  :: match failed_names html_files with
     | [] => []
     | _ :: _ => [LogFailedFiles (firstn 5 (failed_names html_files))
                    (5 <? length (failed_names html_files))%nat]
     end.

Lemma clean_one_file_run output_folder acc f w :
  exists w', clean_one_file output_folder acc f w = (inr (next_acc acc f), w')
             /\ log w' = log w ++ [file_line f].
Proof.
  destruct acc as [success_count failed_files].
  unfold clean_one_file, next_acc, file_fails, file_line, read, lift,
    try_except, bind.
  destruct (read_text f) as [e|html_content]; simpl.
  - eexists. split; reflexivity.
  - destruct (clean_html_response html_content) as [e|clean_table]; simpl.
    + eexists. split; reflexivity.
    + destruct (nonempty clean_table && nonempty (strip clean_table)); simpl;
        eexists; split; reflexivity.
Qed.

Lemma fold_clean_files_run output_folder html_files acc w :
  exists w',
    fold_files html_files acc (clean_one_file output_folder) w
    = (inr (fold_left next_acc html_files acc), w')
    /\ log w' = log w ++ map file_line html_files.
Proof.
  revert acc w. induction html_files as [|f rest IH]; intros acc w; simpl.
  - exists w. rewrite app_nil_r. split; reflexivity.
  - destruct (clean_one_file_run output_folder acc f w) as (w1 & Hrun1 & Hlog1).
    destruct (IH (next_acc acc f) w1) as (w2 & Hrun2 & Hlog2).
    exists w2. unfold bind. rewrite Hrun1, Hrun2, Hlog2, Hlog1, <- app_assoc.
    split; reflexivity.
Qed.

Lemma fold_next_acc html_files acc :
  fold_left next_acc html_files acc
  = (fst acc + success_total html_files, snd acc ++ failed_names html_files)%nat.
Proof.
  revert acc. unfold success_total, failed_names.
  induction html_files as [|f rest IH]; intros [s fl]; simpl.
  - now rewrite Nat.add_0_r, app_nil_r.
  - rewrite IH. unfold next_acc. destruct (file_fails f); simpl.
    + now rewrite <- app_assoc.
    + f_equal. lia.
Qed.

(** The label batch ends with its summary. *)
Lemma process_output_qa_folder_summary html_files input_folder output_folder w :
  in_fs (fs w) input_folder = true -> html_files <> [] ->
  exists w',
    process_output_qa_folder html_files input_folder output_folder w
    = (inr (success_total html_files), w')
    /\ log w' = log w
                ++ LogFoundIn (length html_files) input_folder
                   :: map file_line html_files
                ++ summary_lines html_files.
Proof.
  intros Hfound Hfiles.
  assert (Hexists : path_exists input_folder w = (inr true, w)).
  { unfold path_exists. unfold in_fs in Hfound. now rewrite Hfound. }
  unfold process_output_qa_folder.
  erewrite bind_inr by exact Hexists. cbn [negb].
  destruct html_files as [|f0 rest] eqn:Efiles; [congruence|].
  rewrite <- Efiles in *. clear Efiles Hfiles.
  set (w1 := mkWorld (fs w) (shots w) (texts w) (cursor w)
               (log w ++ [LogFoundIn (length html_files) input_folder])).
  assert (Hprint : print (LogFoundIn (length html_files) input_folder) w
                   = (inr tt, w1)) by reflexivity.
  erewrite bind_inr by exact Hprint.
  destruct (fold_clean_files_run output_folder html_files (0%nat, []) w1)
    as (w2 & Hrun & Hlog).
  erewrite bind_inr by exact Hrun.
  rewrite fold_next_acc. simpl fst. simpl snd.
  rewrite Nat.add_0_l, app_nil_l.
  unfold summary_lines.
  destruct (failed_names html_files) as [|n0 names] eqn:Efailed.
  - eexists. unfold bind, print, ret. simpl. split; [reflexivity|].
    rewrite Hlog. unfold w1. simpl. rewrite <- !app_assoc. reflexivity.
  - eexists. unfold bind, print, ret. simpl. split; [reflexivity|].
    rewrite Hlog. unfold w1. simpl. rewrite <- !app_assoc. reflexivity.
Qed.

(** *** What the label batch writes *)

(** The content after the fence lines, if any, are taken off: the value
    [clean_html_response] hands to [extract_clean_table]. *)
Definition unfenced (html_content : str) : str :=
  let content := strip html_content in
  if startswith content fence then
    let lines := tl (split_on 10 content) in
    let lines := if last_is_fence lines then removelast lines else lines in
    join_with 10 lines
  else content.

(** The text file the loop writes for a file, if it writes one. *)
Definition file_texts (output_folder : str) (f : HtmlFile) : list (str * str) :=
  match read_text f with
  | inl _ => []
  | inr html_content =>
      match clean_html_response html_content with
      | inl _ => []
      | inr clean_table =>
          if nonempty clean_table && nonempty (strip clean_table)
          then [(path_join output_folder (file_name f), clean_table)]
          else []
      end
  end.

Definition batch_texts (output_folder : str) (html_files : list HtmlFile)
  : list (str * str) :=
  flat_map (file_texts output_folder) html_files.

Lemma clean_html_response_unfenced html_content :
  clean_html_response html_content
  = match extract_clean_table (unfenced html_content) with
    | inl e => inl e
    | inr (Some clean_table) =>
        inr (if nonempty clean_table then clean_table else unfenced html_content)
    | inr None => inr (unfenced html_content)
    end.
Proof. reflexivity. Qed.

Lemma clean_one_file_writes output_folder acc f w :
  exists w', clean_one_file output_folder acc f w = (inr (next_acc acc f), w')
             /\ texts w' = texts w ++ file_texts output_folder f
             /\ fs w' = fs w ++ map fst (file_texts output_folder f)
             /\ shots w' = shots w.
Proof.
  destruct acc as [success_count failed_files].
  unfold clean_one_file, next_acc, file_fails, file_line, file_texts, read, lift,
    try_except, bind.
  destruct (read_text f) as [e|html_content]; simpl.
  - eexists. rewrite !app_nil_r. repeat split; reflexivity.
  - destruct (clean_html_response html_content) as [e|clean_table]; simpl.
    + eexists. rewrite !app_nil_r. repeat split; reflexivity.
    + destruct (nonempty clean_table && nonempty (strip clean_table)); simpl;
        eexists; rewrite ?app_nil_r; repeat split; reflexivity.
Qed.

Lemma fold_clean_files_writes output_folder html_files acc w :
  exists w',
    fold_files html_files acc (clean_one_file output_folder) w
    = (inr (fold_left next_acc html_files acc), w')
    /\ texts w' = texts w ++ batch_texts output_folder html_files
    /\ fs w' = fs w ++ map fst (batch_texts output_folder html_files)
    /\ shots w' = shots w.
Proof.
  revert acc w. unfold batch_texts.
  induction html_files as [|f rest IH]; intros acc w; simpl.
  - exists w. rewrite !app_nil_r. repeat split; reflexivity.
  - destruct (clean_one_file_writes output_folder acc f w)
      as (w1 & Hrun1 & Htexts1 & Hfs1 & Hshots1).
    destruct (IH (next_acc acc f) w1) as (w2 & Hrun2 & Htexts2 & Hfs2 & Hshots2).
    exists w2. unfold bind. rewrite Hrun1, Hrun2, Htexts2, Htexts1, Hfs2, Hfs1,
      Hshots2, Hshots1, map_app, <- !app_assoc.
    repeat split; reflexivity.
Qed.

Lemma file_texts_length output_folder f :
  length (file_texts output_folder f) = if file_fails f then 0 else 1.
Proof.
  unfold file_texts, file_fails, file_line.
  destruct (read_text f) as [e|html_content]; [reflexivity|].
  destruct (clean_html_response html_content) as [e|clean_table]; [reflexivity|].
  destruct (nonempty clean_table && nonempty (strip clean_table)); reflexivity.
Qed.

Lemma batch_texts_length output_folder html_files :
  length (batch_texts output_folder html_files) = success_total html_files.
Proof.
  unfold batch_texts, success_total.
  induction html_files as [|f rest IH]; [reflexivity|]. simpl.
  rewrite length_app, file_texts_length, IH.
  destruct (file_fails f); reflexivity.
Qed.

Lemma every_file_counted html_files :
  success_total html_files + length (failed_names html_files) = length html_files.
Proof.
  unfold success_total, failed_names. rewrite length_map.
  induction html_files as [|f rest IH]; [reflexivity|]. simpl.
  destruct (file_fails f); simpl; lia.
Qed.

Lemma process_output_qa_folder_writes html_files input_folder output_folder w :
  in_fs (fs w) input_folder = true -> html_files <> [] ->
  exists w',
    process_output_qa_folder html_files input_folder output_folder w
    = (inr (success_total html_files), w')
    /\ texts w' = texts w ++ batch_texts output_folder html_files
    /\ fs w' = fs w ++ map fst (batch_texts output_folder html_files)
    /\ shots w' = shots w.
Proof.
  intros Hfound Hfiles.
  assert (Hexists : path_exists input_folder w = (inr true, w)).
  { unfold path_exists. unfold in_fs in Hfound. now rewrite Hfound. }
  unfold process_output_qa_folder.
  erewrite bind_inr by exact Hexists. cbn [negb].
  destruct html_files as [|f0 rest] eqn:Efiles; [congruence|].
  rewrite <- Efiles in *. clear Efiles Hfiles.
  set (w1 := mkWorld (fs w) (shots w) (texts w) (cursor w)
               (log w ++ [LogFoundIn (length html_files) input_folder])).
  assert (Hprint : print (LogFoundIn (length html_files) input_folder) w
                   = (inr tt, w1)) by reflexivity.
  erewrite bind_inr by exact Hprint.
  destruct (fold_clean_files_writes output_folder html_files (0%nat, []) w1)
    as (w2 & Hrun & Htexts & Hfs & Hshots).
  erewrite bind_inr by exact Hrun.
  rewrite fold_next_acc. simpl fst. simpl snd.
  rewrite Nat.add_0_l, app_nil_l.
  destruct (failed_names html_files) as [|n0 names];
    eexists; unfold bind, print, ret; simpl; (split; [reflexivity|]);
    rewrite Htexts, Hfs, Hshots; unfold w1; simpl; auto.
Qed.

(** *** Files without a table *)

Lemma file_without_table f html_content output_folder :
  read_text f = inr html_content ->
  extract_clean_table (unfenced html_content) = inr None ->
  strip (unfenced html_content) <> [] ->
  file_line f = LogCleaned (file_name f) (file_name f) /\
  file_texts output_folder f
  = [(path_join output_folder (file_name f), unfenced html_content)].
Proof.
  intros Hread Hnone Hblank.
  unfold file_line, file_texts. rewrite Hread, clean_html_response_unfenced, Hnone.
  assert (Hne : nonempty (unfenced html_content) && nonempty (strip (unfenced html_content))
                = true).
  { destruct (strip (unfenced html_content)) eqn:Es; [congruence|].
    destruct (unfenced html_content); [discriminate | reflexivity]. }
  rewrite Hne. auto.
Qed.

Lemma no_valid_table_means_blank f :
  (forall content clean_table,
     extract_clean_table content = inr (Some clean_table) ->
     strip clean_table = clean_table) ->
  file_line f = LogNoValidTable (file_name f) ->
  exists html_content,
    read_text f = inr html_content /\ strip (unfenced html_content) = [].
Proof.
  intros Htrim. unfold file_line.
  destruct (read_text f) as [e|html_content]; [discriminate|].
  rewrite clean_html_response_unfenced.
  destruct (extract_clean_table (unfenced html_content))
    as [e|[clean_table|]] eqn:Hex; [discriminate| |].
  - apply Htrim in Hex. destruct clean_table as [|c clean_table].
    + cbn [nonempty].
      destruct (nonempty (unfenced html_content)
                && nonempty (strip (unfenced html_content))) eqn:Hne;
        [discriminate|]. intros _. exists html_content. split; [reflexivity|].
      destruct (unfenced html_content) eqn:Eu; [reflexivity|].
      destruct (strip (n :: s)); [reflexivity | discriminate].
    + cbn [nonempty]. rewrite Hex. discriminate.
  - destruct (nonempty (unfenced html_content)
              && nonempty (strip (unfenced html_content))) eqn:Hne;
      [discriminate|]. intros _. exists html_content. split; [reflexivity|].
    destruct (unfenced html_content) eqn:Eu; [reflexivity|].
    destruct (strip (n :: s)); [reflexivity | discriminate].
Qed.

End CleanBatch.

(** ** 6.1 The claim on failures in batch mode *)

(** C9, as the specification states it, fails: the batch of [html2img.py]
    run on one file that has no table catches the failure and prints its
    failure line, which carries the variant and the error but not the file
    name, and then ends: nothing reports failed files. *)
Lemma render_batch_reports_no_failed_files :
  snd (process_all_html_files (tag_engine reflowing_cells) lowest_rng THEMES
         [note_file] (lit "in") (lit "out") None 2 false true 1 1 false empty_world)
  = mkWorld [] [] [] 4
      [LogFound 1 (lit "in"); LogStarting 1;
       LogProcessing 1 1 (lit "note.html");
       LogFailed 1 (PlaywrightError (lit "Page.evaluate: Error: No <table> found"))].
Proof. vm_compute. reflexivity. Qed.

(** C9, amended.  In batch mode a failure of a render is caught where it
    happens and logged, and processing goes on with the next file:
    - in [process_all_html_files] a render that raises is caught by the
      [try] of its variant, which ends normally having printed the failure
      line with the exception; every variant ends normally with that
      line or with its success lines; the batch ends normally with the line
      naming every file, in order (the name of the file is in that line, not
      in the failure line);
    - [process_html_files] does the same, whatever happens in a file.
    Neither prints a line that lists or counts the failed files.  Only the
    label batch [process_output_qa_folder] ends with a summary: the number
    of files cleaned and of files failed and, when some failed, the names of
    the first five of them at most. *)
Theorem batch_failures_caught_summary_only_for_labels
  (E : Engine) (R : Rng) (extract_clean_table : str -> exn + option str) :
  (forall themes out table_html font_path sc color_probability img_idx
          m_t m_r m_b m_l std_name clr_name w e w1,
     render_table_dual_images E R themes table_html (path_join out std_name)
       (path_join out clr_name) font_path None sc (mkMargins m_t m_r m_b m_l)
       (5 # 100) 30 color_probability w = (inl e, w1) ->
     styled_attempt E R themes out table_html font_path sc true color_probability
       img_idx m_t m_r m_b m_l std_name clr_name w
     = (inr tt, logged w1 (LogFailed (img_idx + 1) e))) /\
  (forall themes out table_html font_path sc color_probability img_idx
          m_t m_r m_b m_l std_name clr_name w e w1,
     render_table_single_image E R themes table_html (path_join out std_name)
       font_path None sc (mkMargins m_t m_r m_b m_l) (5 # 100) 30
       color_probability w = (inl e, w1) ->
     styled_attempt E R themes out table_html font_path sc false color_probability
       img_idx m_t m_r m_b m_l std_name clr_name w
     = (inr tt, logged w1 (LogFailed (img_idx + 1) e))) /\
  (forall out f table_html sc overwrite images_per_file img_idx,
     post (raw_variant E out f table_html sc overwrite images_per_file img_idx)
          (fun r ls => r = inr tt /\ variant_outcome (img_idx + 1) ls)) /\
  (forall themes out f table_html font_path sc overwrite generate_colored
          images_per_file color_probability img_idx,
     post (styled_variant E R themes out f table_html font_path sc overwrite
             generate_colored images_per_file color_probability img_idx)
          (fun r ls => r = inr tt /\ variant_outcome (img_idx + 1) ls)) /\
  (forall themes html_files input_dir output_dir font_path sc overwrite
          generate_colored images_per_file color_probability raw_mode,
     Forall readable html_files ->
     post (process_all_html_files E R themes html_files input_dir output_dir
             font_path sc overwrite generate_colored images_per_file
             color_probability raw_mode)
          (fun r ls => r = inr tt /\
                       filter is_processing ls = processing_lines html_files /\
                       filter is_summary ls = [])) /\
  (forall html_files input_dir output_dir max_height sc overwrite,
     post (process_html_files E html_files input_dir output_dir max_height sc
             overwrite)
          (fun r ls => r = inr tt /\
                       filter is_processing ls = processing_lines html_files /\
                       filter is_summary ls = [])) /\
  (forall html_files input_folder output_folder w,
     in_fs (fs w) input_folder = true -> html_files <> [] ->
     exists w',
       process_output_qa_folder extract_clean_table html_files input_folder
         output_folder w
       = (inr (success_total extract_clean_table html_files), w')
       /\ log w' = log w
                   ++ LogFoundIn (length html_files) input_folder
                      :: map (file_line extract_clean_table) html_files
                   ++ summary_lines extract_clean_table html_files).
Proof.
  split; [|split; [|split; [|split; [|split; [|split]]]]].
  - intros. now apply styled_attempt_catches_dual.
  - intros. now apply styled_attempt_catches_single.
  - intros. apply raw_variant_caught.
  - intros. apply styled_variant_caught.
  - intros. now apply process_all_html_files_continues.
  - intros. apply process_html_files_continues.
  - intros. now apply process_output_qa_folder_summary.
Qed.

(** ** 6.2 Further properties of the label batch *)

(** X25. [process_output_qa_folder] by cases.  Without the input folder, or
    with no file in it, it prints one line, writes nothing and returns 0.
    Otherwise it returns the number of files cleaned; every file is counted
    once, as cleaned or as failed; one text file is written per cleaned file,
    under the output folder with the name of the input file and in the order
    of the listing, and none for a failed file. *)
Theorem process_output_qa_folder_accounts
  (extract_clean_table : str -> exn + option str)
  (html_files : list HtmlFile) (input_folder output_folder : str) (w : World) :
  (in_fs (fs w) input_folder = false ->
   process_output_qa_folder extract_clean_table html_files input_folder
     output_folder w
   = (inr 0, logged w (LogMissingFolder input_folder))) /\
  (in_fs (fs w) input_folder = true -> html_files = [] ->
   process_output_qa_folder extract_clean_table html_files input_folder
     output_folder w
   = (inr 0, logged w (LogNoHtmlIn input_folder))) /\
  (in_fs (fs w) input_folder = true -> html_files <> [] ->
   exists w',
     process_output_qa_folder extract_clean_table html_files input_folder
       output_folder w
     = (inr (success_total extract_clean_table html_files), w') /\
     success_total extract_clean_table html_files
     + length (failed_names extract_clean_table html_files) = length html_files /\
     texts w' = texts w ++ batch_texts extract_clean_table output_folder html_files /\
     length (batch_texts extract_clean_table output_folder html_files)
     = success_total extract_clean_table html_files /\
     map fst (batch_texts extract_clean_table output_folder html_files)
     = map (fun f => path_join output_folder (file_name f))
         (filter (fun f => negb (file_fails extract_clean_table f)) html_files) /\
     shots w' = shots w).
Proof.
  split; [|split].
  - intros Hmissing. unfold process_output_qa_folder, path_exists, bind.
    unfold in_fs in Hmissing. rewrite Hmissing. reflexivity.
  - intros Hfound ->. unfold process_output_qa_folder, path_exists, bind.
    unfold in_fs in Hfound. rewrite Hfound. reflexivity.
  - intros Hfound Hfiles.
    destruct (@process_output_qa_folder_writes extract_clean_table html_files
                input_folder output_folder w Hfound Hfiles)
      as (w' & Hrun & Htexts & _ & Hshots).
    exists w'. split; [exact Hrun|]. split; [apply every_file_counted|].
    split; [exact Htexts|]. split; [apply batch_texts_length|].
    split; [|exact Hshots].
    clear. unfold batch_texts. induction html_files as [|f rest IH]; [reflexivity|].
    simpl. rewrite map_app, IH.
    pose proof (file_texts_length extract_clean_table output_folder f) as Hlen.
    unfold file_fails, file_line, file_texts in *.
    destruct (read_text f) as [e|html_content]; [reflexivity|].
    destruct (clean_html_response extract_clean_table html_content)
      as [e|clean_table]; [reflexivity|].
    destruct (nonempty clean_table && nonempty (strip clean_table)); reflexivity.
Qed.

End Labels.

(* ===================================================================== *)
(** * 7. The text normalizers of [extract_table.py] *)
(* ===================================================================== *)

Module ExtractTable.

Import PyStr Wrapper.

#[local] Arguments N.eqb : simpl never.

(** ** 7.1 Definitions *)

(** [re.sub(p, repl, s)] for a pattern that matches no empty text: every
    match, from the left, is replaced by [repl] and the scan goes on after
    it. *)
Fixpoint re_replace (fuel : nat) (items : list item) (repl s : str) : str :=
  match fuel with
  | O => s
  | S fuel' =>
      match match_items items s with
      | Some r => repl ++ re_replace fuel' items repl (snd r)
      | None =>
          match s with
          | [] => []
          | c :: s' => c :: re_replace fuel' items repl s'
          end
      end
  end.

Definition re_sub (items : list item) (repl s : str) : str :=
  re_replace (S (length s)) items repl s.

(** The pattern [\s+]. *)
Definition ws_plus : list item := [mkItem is_space Plus false].

(** The pattern [>\s+<]. *)
Definition tag_gap : list item :=
  [mkItem (N.eqb 62) One false; mkItem is_space Plus false;
   mkItem (N.eqb 60) One false].

Definition normalize_text (text : str) : str :=
  strip (re_sub ws_plus (lit " ") text).

Definition remove_whitespace (html : str) : str :=
  let html := re_sub tag_gap (lit "><") html in
  let html := strip html in
  html.

(** [re.search(r">\s+<", s) is not None] *)
Definition has_tag_gap (s : str) : bool :=
  match re_first tag_gap s with Some _ => true | None => false end.

(** Every white-space character of the text is the space character, and
    the character after it, if any, is not white space. *)
Fixpoint single_spaced (s : str) : bool :=
  match s with
  | [] => true
  | c :: s' =>
      if is_space c
      then (c =? 32)%N
           && match s' with d :: _ => negb (is_space d) | [] => true end
           && single_spaced s'
      else single_spaced s'
  end.

(** What [tag_gap] leaves of a text it matches at the start. *)
Definition gap_rest (s : str) : option str :=
  match s with
  | c :: d :: s2 =>
      if (62 =? c)%N && is_space d
      then match lstrip s2 with
           | e :: rest => if (60 =? e)%N then Some rest else None
           | [] => None
           end
      else None
  | _ => None
  end.

Example normalize_cell_text :
  normalize_text (nl ++ lit "  Total" ++ [9%N; 10%N] ++ lit "  sales " ++ nl)
  = lit "Total sales".
Proof. vm_compute. reflexivity. Qed.

Example remove_whitespace_between_tags :
  remove_whitespace
    (lit " <table>" ++ nl ++ lit "  <tr> <td>a b</td>" ++ nl ++ lit "</tr></table>" ++ nl)
  = lit "<table><tr><td>a b</td></tr></table>".
Proof. vm_compute. reflexivity. Qed.

(** ** 7.2 The matcher on the two patterns *)

Lemma keep_false c (r : option matched) : option_map (keep false c) r = r.
Proof. destruct r; reflexivity. Qed.

(** A greedy run of white space stops at the first other character when
    the rest of the pattern accepts there. *)
Lemma match_star_greedy k s r :
  k (lstrip s) = Some r -> match_star is_space false k s = Some r.
Proof.
  induction s as [|c s IH]; simpl; [auto|].
  destruct (is_space c) eqn:E; [|auto].
  intros H. now rewrite (IH H).
Qed.

(** When the rest of the pattern refuses white space, no shorter run is
    tried with success. *)
Lemma match_star_strict k s :
  (forall c t, is_space c = true -> k (c :: t) = None) ->
  match_star is_space false k s = k (lstrip s).
Proof.
  intros Hk. induction s as [|c s IH]; simpl; [reflexivity|].
  destruct (is_space c) eqn:E; [|reflexivity].
  rewrite IH. destruct (k (lstrip s)); [reflexivity|]. now apply Hk.
Qed.

Lemma match_items_ws_plus s :
  match_items ws_plus s
  = match s with
    | c :: s' => if is_space c then Some ([], lstrip s') else None
    | [] => None
    end.
Proof.
  destruct s as [|c s']; [reflexivity|]. simpl.
  destruct (is_space c); [|reflexivity].
  rewrite (@match_star_greedy (fun s : str => Some ([], s)) s' ([], lstrip s'))
    by reflexivity.
  reflexivity.
Qed.

Lemma space_is_not_lt c : is_space c = true -> (60 =? c)%N = false.
Proof.
  intros H. destruct (N.eqb_spec 60 c) as [<- | _]; [discriminate | reflexivity].
Qed.

Lemma match_items_tag_gap s :
  match_items tag_gap s = option_map (pair []) (gap_rest s).
Proof.
  destruct s as [|c [|d s2]]; simpl.
  - reflexivity.
  - destruct (62 =? c)%N; reflexivity.
  - destruct (62 =? c)%N; [|reflexivity]. simpl.
    destruct (is_space d); [|reflexivity].
    rewrite !keep_false, match_star_strict.
    + destruct (lstrip s2) as [|e rest]; [reflexivity|].
      destruct (60 =? e)%N; reflexivity.
    + intros x t Hx. now rewrite (space_is_not_lt _ Hx).
Qed.

Lemma lstrip_length s : length (lstrip s) <= length s.
Proof.
  induction s as [|c s IH]; simpl; [lia|].
  destruct (is_space c); simpl; lia.
Qed.

Lemma lstrip_suffix s : exists a, s = a ++ lstrip s.
Proof.
  induction s as [|c s [a Ha]]; simpl; [now exists []|].
  destruct (is_space c); [|now exists []].
  exists (c :: a). simpl. now rewrite <- Ha.
Qed.

Lemma rstrip_prefix s : exists b, s = rstrip s ++ b.
Proof.
  unfold rstrip. destruct (lstrip_suffix (rev s)) as [a Ha].
  exists (rev a). rewrite <- rev_app_distr, <- Ha. now rewrite rev_involutive.
Qed.

Lemma lstrip_fixed s :
  match s with d :: _ => negb (is_space d) | [] => true end = true ->
  lstrip s = s.
Proof.
  destruct s as [|d s]; simpl; [reflexivity|].
  destruct (is_space d); [discriminate | reflexivity].
Qed.

(** ** 7.3 Collapsing white space *)

Lemma re_replace_ws fuel repl s :
  re_replace (S fuel) ws_plus repl s
  = match s with
    | [] => []
    | c :: s' =>
        if is_space c then repl ++ re_replace fuel ws_plus repl (lstrip s')
        else c :: re_replace fuel ws_plus repl s'
    end.
Proof.
  cbn [re_replace]. rewrite match_items_ws_plus.
  destruct s as [|c s']; [reflexivity|]. destruct (is_space c); reflexivity.
Qed.

Lemma single_spaced_cons c s :
  single_spaced (c :: s)
  = if is_space c
    then (c =? 32)%N
         && match s with d :: _ => negb (is_space d) | [] => true end
         && single_spaced s
    else single_spaced s.
Proof. reflexivity. Qed.

Lemma single_spaced_tail c s : single_spaced (c :: s) = true -> single_spaced s = true.
Proof.
  rewrite single_spaced_cons. destruct (is_space c); [|auto].
  rewrite !andb_true_iff. tauto.
Qed.

Lemma single_spaced_lstrip s : single_spaced s = true -> single_spaced (lstrip s) = true.
Proof.
  induction s as [|c s IH]; [auto|]. intros H. simpl lstrip.
  destruct (is_space c) eqn:E; [|exact H].
  apply IH. eapply single_spaced_tail; eauto.
Qed.

Lemma single_spaced_prefix a b : single_spaced (a ++ b) = true -> single_spaced a = true.
Proof.
  induction a as [|c a IH]; [reflexivity|].
  change ((c :: a) ++ b) with (c :: (a ++ b)). rewrite !single_spaced_cons.
  destruct (is_space c); [|exact IH].
  rewrite !andb_true_iff. intros [[H1 H2] H3]. repeat split; auto.
  destruct a; [reflexivity | exact H2].
Qed.

Lemma single_spaced_strip s : single_spaced s = true -> single_spaced (strip s) = true.
Proof.
  intros H. unfold strip. apply single_spaced_lstrip in H.
  destruct (rstrip_prefix (lstrip s)) as [b Hb]. rewrite Hb in H.
  now apply single_spaced_prefix in H.
Qed.

Lemma collapse_single_spaced fuel s :
  length s < fuel -> single_spaced (re_replace fuel ws_plus (lit " ") s) = true.
Proof.
  revert s. induction fuel as [|fuel IH]; intros s Hlen; [lia|].
  rewrite re_replace_ws. destruct s as [|c s']; [reflexivity|].
  simpl in Hlen. destruct (is_space c) eqn:E.
  - change (lit " " ++ re_replace fuel ws_plus (lit " ") (lstrip s'))
      with (32%N :: re_replace fuel ws_plus (lit " ") (lstrip s')).
    rewrite single_spaced_cons. change (is_space 32) with true. cbv iota.
    pose proof (lstrip_length s') as Hl.
    rewrite IH by lia. rewrite andb_true_r, N.eqb_refl. cbn [andb].
    destruct fuel as [|fuel']; [lia|]. rewrite re_replace_ws.
    destruct (lstrip s') as [|d t] eqn:EL; [reflexivity|].
    rewrite (lstrip_head _ EL). now rewrite (lstrip_head _ EL).
  - rewrite single_spaced_cons, E. apply IH. lia.
Qed.

Lemma collapse_fixed fuel t :
  single_spaced t = true -> re_replace fuel ws_plus (lit " ") t = t.
Proof.
  revert t. induction fuel as [|fuel IH]; intros t Ht; [reflexivity|].
  rewrite re_replace_ws. destruct t as [|c t']; [reflexivity|].
  rewrite single_spaced_cons in Ht. destruct (is_space c) eqn:E.
  - rewrite !andb_true_iff in Ht. destruct Ht as [[Hc Hnext] Ht'].
    apply N.eqb_eq in Hc. subst c.
    rewrite (lstrip_fixed _ Hnext), IH by exact Ht'. reflexivity.
  - now rewrite IH.
Qed.

(** ** 7.4 Closing the gaps between tags *)

Lemma re_replace_gap fuel s :
  re_replace (S fuel) tag_gap (lit "><") s
  = match gap_rest s with
    | Some rest => 62%N :: 60%N :: re_replace fuel tag_gap (lit "><") rest
    | None =>
        match s with
        | [] => []
        | c :: s' => c :: re_replace fuel tag_gap (lit "><") s'
        end
    end.
Proof.
  cbn [re_replace]. rewrite match_items_tag_gap.
  destruct (gap_rest s); reflexivity.
Qed.

Lemma gap_rest_length s rest : gap_rest s = Some rest -> length rest + 3 <= length s.
Proof.
  destruct s as [|c [|d s2]]; simpl; try discriminate.
  destruct ((62 =? c)%N && is_space d); [|discriminate].
  pose proof (lstrip_length s2) as Hl.
  destruct (lstrip s2) as [|e r]; [discriminate|].
  destruct (60 =? e)%N; [|discriminate].
  intros H. inversion H; subst. simpl in Hl. lia.
Qed.

Lemma gap_rest_head s rest :
  gap_rest s = Some rest -> exists s', s = 62%N :: s'.
Proof.
  destruct s as [|c [|d s2]]; simpl; try discriminate.
  destruct (N.eqb_spec 62 c) as [<- | _]; [eauto | discriminate].
Qed.

(** The substitution keeps the first character that is not white space. *)
Lemma re_replace_gap_first fuel s :
  length s < fuel ->
  hd_error (lstrip (re_replace fuel tag_gap (lit "><") s)) = hd_error (lstrip s).
Proof.
  revert s. induction fuel as [|fuel IH]; intros s Hlen; [lia|].
  rewrite re_replace_gap. destruct (gap_rest s) as [rest|] eqn:Eg.
  - destruct (gap_rest_head _ Eg) as [s' ->]. reflexivity.
  - destruct s as [|c s']; [reflexivity|]. simpl in Hlen. simpl lstrip.
    destruct (is_space c); [apply IH; lia | reflexivity].
Qed.

Lemma re_first_cons items c s :
  re_first items (c :: s)
  = match match_items items (c :: s) with
    | Some r => Some (fst r)
    | None => re_first items s
    end.
Proof. reflexivity. Qed.

Lemma has_tag_gap_cons c s :
  has_tag_gap (c :: s)
  = match gap_rest (c :: s) with Some _ => true | None => has_tag_gap s end.
Proof.
  unfold has_tag_gap. rewrite re_first_cons, match_items_tag_gap.
  destruct (gap_rest (c :: s)); reflexivity.
Qed.

Lemma gap_rest_first c d s2 :
  gap_rest (c :: d :: s2)
  = if (62 =? c)%N && is_space d
    then match hd_error (lstrip s2) with
         | Some e => if (60 =? e)%N then Some (tl (lstrip s2)) else None
         | None => None
         end
    else None.
Proof.
  simpl. destruct ((62 =? c)%N && is_space d); [|reflexivity].
  destruct (lstrip s2); reflexivity.
Qed.

(** A character in front of the substituted text starts no gap that it did
    not start in front of the original text. *)
Lemma gap_rest_replaced fuel c s' :
  length s' < fuel ->
  gap_rest (c :: s') = None ->
  gap_rest (c :: re_replace fuel tag_gap (lit "><") s') = None.
Proof.
  intros Hlen Hnone. destruct fuel as [|fuel]; [lia|].
  rewrite re_replace_gap. destruct (gap_rest s') as [rest|] eqn:Eg.
  - destruct (gap_rest_head _ Eg) as [s2 ->].
    simpl. now rewrite andb_false_r.
  - destruct s' as [|d s2]; [destruct c; reflexivity|].
    simpl in Hlen. rewrite gap_rest_first in *.
    destruct ((62 =? c)%N && is_space d); [|reflexivity].
    rewrite re_replace_gap_first by lia.
    destruct (hd_error (lstrip s2)) as [e|]; [|reflexivity].
    destruct (60 =? e)%N; [discriminate | reflexivity].
Qed.

Lemma re_replace_gap_closed fuel s :
  length s < fuel -> has_tag_gap (re_replace fuel tag_gap (lit "><") s) = false.
Proof.
  revert s. induction fuel as [|fuel IH]; intros s Hlen; [lia|].
  rewrite re_replace_gap. destruct (gap_rest s) as [rest|] eqn:Eg.
  - pose proof (gap_rest_length _ Eg) as Hl.
    rewrite has_tag_gap_cons.
    assert (H1 : forall x, gap_rest (62%N :: 60%N :: x) = None) by reflexivity.
    rewrite H1, has_tag_gap_cons.
    assert (H2 : forall x, gap_rest (60%N :: x) = None).
    { intros [|d x]; reflexivity. }
    rewrite H2. apply IH. lia.
  - destruct s as [|c s']; [reflexivity|]. simpl in Hlen.
    rewrite has_tag_gap_cons, gap_rest_replaced; [apply IH; lia | lia | exact Eg].
Qed.

Lemma re_replace_no_match fuel items repl s :
  re_first items s = None -> re_replace fuel items repl s = s.
Proof.
  revert s. induction fuel as [|fuel IH]; intros s; [reflexivity|].
  destruct s as [|c s]; simpl.
  - destruct (match_items items []); [discriminate | reflexivity].
  - destruct (match_items items (c :: s)); [discriminate|].
    intros Hs. now rewrite IH.
Qed.

Lemma has_tag_gap_none s : has_tag_gap s = false -> re_first tag_gap s = None.
Proof.
  unfold has_tag_gap. destruct (re_first tag_gap s); [discriminate | reflexivity].
Qed.

Lemma has_tag_gap_lstrip s : has_tag_gap s = false -> has_tag_gap (lstrip s) = false.
Proof.
  induction s as [|c s IH]; [auto|]. simpl lstrip.
  destruct (is_space c); [|auto].
  rewrite has_tag_gap_cons. destruct (gap_rest (c :: s)); [discriminate | exact IH].
Qed.

Lemma lstrip_app_nonempty s b : lstrip s <> [] -> lstrip (s ++ b) = lstrip s ++ b.
Proof.
  induction s as [|c s IH]; simpl; [congruence|].
  destruct (is_space c); [exact IH | reflexivity].
Qed.

Lemma gap_rest_app a b rest :
  gap_rest a = Some rest -> gap_rest (a ++ b) = Some (rest ++ b).
Proof.
  destruct a as [|c [|d s2]]; simpl; try discriminate.
  destruct ((62 =? c)%N && is_space d); [|discriminate].
  destruct (lstrip s2) as [|e r] eqn:El; [discriminate|].
  rewrite lstrip_app_nonempty, El by (rewrite El; discriminate). simpl.
  destruct (60 =? e)%N; [|discriminate].
  intros H. inversion H. reflexivity.
Qed.

Lemma has_tag_gap_prefix a b : has_tag_gap (a ++ b) = false -> has_tag_gap a = false.
Proof.
  induction a as [|c a IH]; [reflexivity|].
  change ((c :: a) ++ b) with (c :: (a ++ b)). rewrite !has_tag_gap_cons.
  destruct (gap_rest (c :: a)) as [rest|] eqn:Eg.
  - change (c :: (a ++ b)) with ((c :: a) ++ b).
    now rewrite (gap_rest_app _ b Eg).
  - destruct (gap_rest (c :: (a ++ b))); [discriminate | exact IH].
Qed.

Lemma has_tag_gap_strip s : has_tag_gap s = false -> has_tag_gap (strip s) = false.
Proof.
  intros H. unfold strip. apply has_tag_gap_lstrip in H.
  destruct (rstrip_prefix (lstrip s)) as [b Hb]. rewrite Hb in H.
  now apply has_tag_gap_prefix in H.
Qed.

Lemma remove_whitespace_no_gap html : has_tag_gap (remove_whitespace html) = false.
Proof.
  unfold remove_whitespace, re_sub. cbv zeta.
  apply has_tag_gap_strip, re_replace_gap_closed. lia.
Qed.

Lemma remove_whitespace_trimmed html :
  strip (remove_whitespace html) = remove_whitespace html.
Proof. unfold remove_whitespace. cbv zeta. apply strip_idem. Qed.

(** ** 7.5 Properties of the normalizers *)

(** X14. [normalize_text] returns text in which every white-space character
    is a single space between two other characters; it leaves exactly such
    text unchanged, so applying it twice is the same as applying it once. *)
Theorem normalize_text_normal_form (text : str) :
  single_spaced (normalize_text text) = true /\
  strip (normalize_text text) = normalize_text text /\
  normalize_text (normalize_text text) = normalize_text text /\
  (normalize_text text = text <-> single_spaced text = true /\ strip text = text).
Proof.
  assert (Hss : forall s, single_spaced (normalize_text s) = true).
  { intros s. unfold normalize_text, re_sub.
    apply single_spaced_strip, collapse_single_spaced. lia. }
  assert (Hst : forall s, strip (normalize_text s) = normalize_text s).
  { intros s. unfold normalize_text. apply strip_idem. }
  assert (Hfix : forall s, single_spaced s = true -> strip s = s ->
                           normalize_text s = s).
  { intros s H1 H2. unfold normalize_text, re_sub.
    now rewrite collapse_fixed. }
  split; [apply Hss|]. split; [apply Hst|]. split; [|split].
  - apply Hfix; auto.
  - intros H. split.
    + rewrite <- H. apply Hss.
    + rewrite <- H. apply Hst.
  - intros [H1 H2]. now apply Hfix.
Qed.

(** X15. [remove_whitespace] leaves no white space between a [>] and the
    next [<] and none at either end; text without such a gap is only
    trimmed, so applying it twice is the same as applying it once. *)
Theorem remove_whitespace_closes_gaps (html : str) :
  has_tag_gap (remove_whitespace html) = false /\
  strip (remove_whitespace html) = remove_whitespace html /\
  remove_whitespace (remove_whitespace html) = remove_whitespace html /\
  (has_tag_gap html = false -> remove_whitespace html = strip html).
Proof.
  assert (Hgap : forall s, has_tag_gap (remove_whitespace s) = false).
  { intros s. unfold remove_whitespace, re_sub. cbv zeta.
    apply has_tag_gap_strip, re_replace_gap_closed. lia. }
  assert (Hfix : forall s, has_tag_gap s = false -> remove_whitespace s = strip s).
  { intros s H. unfold remove_whitespace, re_sub. cbv zeta.
    now rewrite re_replace_no_match by now apply has_tag_gap_none. }
  split; [apply Hgap|]. split; [|split].
  - unfold remove_whitespace. cbv zeta. apply strip_idem.
  - rewrite (Hfix _ (Hgap html)). unfold remove_whitespace. cbv zeta.
    apply strip_idem.
  - apply Hfix.
Qed.

End ExtractTable.

(* ===================================================================== *)
(** * 8. From a file to its label ([extract_table.py]) *)
(* ===================================================================== *)

Module LabelPipeline.

Import PyStr Wrapper Render Labels ExtractTable.

Section Pipeline.

(** [extract_clean_table] up to its last step: BeautifulSoup parses the
    content, the tree of the first table is rewritten and [str(table)]
    serialises it.  The outcome is that text, [None] when the content has no
    table, or an exception. *)
Variable table_markup : str -> exn + option str.

(** [pathlib], for the default output path of [process_html_file]: the
    sibling of the input path whose stem ends in [_clean]. *)
Variable clean_sibling : str -> str.

Definition extract_clean_table (html_content : str) : exn + option str :=
  match table_markup html_content with
  | inl e => inl e
  | inr None => inr None
  | inr (Some result) => inr (Some (remove_whitespace result))
  end.

Definition extract_clean_table_from_file (f : HtmlFile) : M (option str) :=
  html_content <- read f ;;
  lift (extract_clean_table html_content).

(** [process_html_file], on the file [f] at [input_path]. *)
Definition process_html_file (f : HtmlFile) (input_path : str)
  (output_path : option str) : M str :=
  clean_table <- extract_clean_table_from_file f ;;
  match clean_table with
  | None => raise (ValueError (lit "No table found in " ++ input_path))
  | Some clean_table =>
      let output_path := match output_path with
                         | None => clean_sibling input_path
                         | Some p => p
                         end in
      write_text output_path clean_table ;;;
      ret output_path
  end.

(** A label as the program means it: a text with no white space between a
    tag and the next and none at either end. *)
Definition tidy (t : str) : Prop := has_tag_gap t = false /\ strip t = t.

Lemma extract_clean_table_tidy content clean_table :
  extract_clean_table content = inr (Some clean_table) -> tidy clean_table.
Proof.
  unfold extract_clean_table.
  destruct (table_markup content) as [e|[result|]]; try discriminate.
  intros H. inversion H; subst. split.
  - apply remove_whitespace_no_gap.
  - apply remove_whitespace_trimmed.
Qed.

Lemma nonempty_strip (s : str) : nonempty s && nonempty (strip s) = nonempty (strip s).
Proof.
  destruct s as [|c s]; [reflexivity|]. reflexivity.
Qed.

Lemma nonempty_true (s : str) : nonempty s = true <-> s <> [].
Proof. destruct s; simpl; split; congruence. Qed.

(** What [clean_html_response] returns, by the outcome of the table
    search on the content without its fence lines. *)
Lemma clean_html_response_cases html_content :
  clean_html_response extract_clean_table html_content
  = match table_markup (unfenced html_content) with
    | inl e => inl e
    | inr None => inr (unfenced html_content)
    | inr (Some result) =>
        inr (if nonempty (remove_whitespace result)
             then remove_whitespace result else unfenced html_content)
    end.
Proof.
  rewrite clean_html_response_unfenced. unfold extract_clean_table.
  destruct (table_markup (unfenced html_content)) as [e|[result|]]; reflexivity.
Qed.

End Pipeline.

(** The table search that finds no table anywhere. *)
Definition no_markup (content : str) : exn + option str := inr None.

(** X26. A file without a table is not reported by the label batch.  When
    the search finds no table in a file whose content, without its fence
    lines, is not blank, the file is counted as cleaned and that content is
    written as its label, unchanged.  The line for no valid table is printed
    only for a file whose content without its fence lines is blank. *)
Theorem label_batch_passes_files_without_table
  (table_markup : str -> exn + option str) (output_folder : str) (f : HtmlFile) :
  (forall html_content,
     read_text f = inr html_content ->
     table_markup (unfenced html_content) = inr None ->
     strip (unfenced html_content) <> [] ->
     file_line (extract_clean_table table_markup) f
     = LogCleaned (file_name f) (file_name f) /\
     file_fails (extract_clean_table table_markup) f = false /\
     file_texts (extract_clean_table table_markup) output_folder f
     = [(path_join output_folder (file_name f), unfenced html_content)]) /\
  (file_line (extract_clean_table table_markup) f = LogNoValidTable (file_name f) ->
   exists html_content,
     read_text f = inr html_content /\ strip (unfenced html_content) = []).
Proof.
  split.
  - intros html_content Hread Hnone Hblank.
    destruct (@file_without_table (extract_clean_table table_markup) f html_content
                output_folder Hread) as [Hline Htexts]; auto.
    { unfold extract_clean_table. now rewrite Hnone. }
    split; [exact Hline|]. split; [|exact Htexts].
    unfold file_fails. now rewrite Hline.
  - apply no_valid_table_means_blank.
    intros content clean_table Hex.
    now destruct (extract_clean_table_tidy _ _ Hex).
Qed.

(** X27. [process_html_file]: for a file that can be read, when the content
    has no table it raises [ValueError] naming the input path and writes
    nothing; when it has one it writes one text file, at the output path
    given or else at the default one, returns that path, and the text
    written has no white space between a tag and the next and none at
    either end. *)
Theorem process_html_file_writes_tidy_label
  (table_markup : str -> exn + option str) (clean_sibling : str -> str)
  (f : HtmlFile) (html_content input_path : str) (output_path : option str)
  (w : World) :
  read_text f = inr html_content ->
  (table_markup html_content = inr None ->
   process_html_file table_markup clean_sibling f input_path output_path w
   = (inl (ValueError (lit "No table found in " ++ input_path)), w)) /\
  (forall result,
     table_markup html_content = inr (Some result) ->
     let out := match output_path with
                | None => clean_sibling input_path
                | Some p => p
                end in
     process_html_file table_markup clean_sibling f input_path output_path w
     = (inr out,
        mkWorld (fs w ++ [out]) (shots w)
          (texts w ++ [(out, remove_whitespace result)]) (cursor w) (log w)) /\
     tidy (remove_whitespace result)).
Proof.
  intros Hread. split.
  - intros Hnone.
    unfold process_html_file, extract_clean_table_from_file, read, lift,
      extract_clean_table, bind.
    rewrite Hread. simpl. rewrite Hnone. reflexivity.
  - intros result Hsome out. split.
    + unfold process_html_file, extract_clean_table_from_file, read, lift,
        extract_clean_table, bind.
      rewrite Hread. simpl. rewrite Hsome. reflexivity.
    + split; [apply remove_whitespace_no_gap | apply remove_whitespace_trimmed].
Qed.

Lemma process_html_file_writes_tidy_label_witness :
  (no_markup note_html = inr None ->
   process_html_file no_markup (fun p => p ++ lit "_clean") note_file
     (lit "in/note.html") None empty_world
   = (inl (ValueError (lit "No table found in " ++ lit "in/note.html")), empty_world)) /\
  (forall result,
     no_markup note_html = inr (Some result) ->
     let out := match @None str with
                | None => (fun p => p ++ lit "_clean") (lit "in/note.html")
                | Some p => p
                end in
     process_html_file no_markup (fun p => p ++ lit "_clean") note_file
       (lit "in/note.html") None empty_world
     = (inr out,
        mkWorld (fs empty_world ++ [out]) (shots empty_world)
          (texts empty_world ++ [(out, remove_whitespace result)])
          (cursor empty_world) (log empty_world)) /\
     tidy (remove_whitespace result)).
Proof.
  apply (@process_html_file_writes_tidy_label no_markup (fun p => p ++ lit "_clean")
           note_file note_html (lit "in/note.html") None empty_world).
  reflexivity.
Defined.

(** X28. Every label the batch writes is not blank, and it is either the
    table text, which has no white space between a tag and the next and none
    at either end, or, when no table text was produced, the content of the
    file without its fence lines. *)
Theorem label_batch_writes_tidy_table_or_content
  (table_markup : str -> exn + option str) (output_folder : str)
  (html_files : list HtmlFile) (p t : str) :
  In (p, t) (batch_texts (extract_clean_table table_markup) output_folder html_files) ->
  exists f html_content,
    In f html_files /\ read_text f = inr html_content /\
    p = path_join output_folder (file_name f) /\
    strip t <> [] /\
    ((exists result,
        table_markup (unfenced html_content) = inr (Some result) /\
        t = remove_whitespace result /\ tidy t) \/
     (t = unfenced html_content /\
      (table_markup (unfenced html_content) = inr None \/
       exists result,
         table_markup (unfenced html_content) = inr (Some result) /\
         remove_whitespace result = []))).
Proof.
  unfold batch_texts. intros Hin. apply in_flat_map in Hin.
  destruct Hin as (f & Hf & Hin). unfold file_texts in Hin.
  destruct (read_text f) as [e|html_content] eqn:Hread; [destruct Hin|].
  rewrite clean_html_response_cases in Hin.
  exists f, html_content. split; [exact Hf|]. split; [exact Hread|].
  destruct (table_markup (unfenced html_content)) as [e|[result|]] eqn:Hmarkup;
    [destruct Hin| |].
  - destruct (remove_whitespace result) as [|c rest] eqn:Hclean; cbn [nonempty] in Hin.
    + rewrite nonempty_strip in Hin.
      destruct (nonempty (strip (unfenced html_content))) eqn:Hne; [|destruct Hin].
      destruct Hin as [Heq | []]. inversion Heq; subst.
      split; [reflexivity|]. split; [now apply nonempty_true|].
      right. split; [reflexivity|]. right. eauto.
    + cbn [andb] in Hin.
      destruct (nonempty (strip (c :: rest))) eqn:Hne; [|destruct Hin].
      destruct Hin as [Heq | []]. inversion Heq; subst.
      split; [reflexivity|]. split; [now apply nonempty_true|].
      left. exists result. split; [reflexivity|]. split; [now rewrite Hclean|].
      rewrite <- Hclean.
      split; [apply remove_whitespace_no_gap | apply remove_whitespace_trimmed].
  - rewrite nonempty_strip in Hin.
    destruct (nonempty (strip (unfenced html_content))) eqn:Hne; [|destruct Hin].
    destruct Hin as [Heq | []]. inversion Heq; subst.
    split; [reflexivity|]. split; [now apply nonempty_true|].
    right. split; [reflexivity|]. now left.
Qed.

Lemma label_batch_writes_tidy_table_or_content_witness :
  exists f html_content,
    In f [note_file] /\ read_text f = inr html_content /\
    path_join (lit "out") (lit "note.html") = path_join (lit "out") (file_name f) /\
    strip note_html <> [] /\
    ((exists result,
        no_markup (unfenced html_content) = inr (Some result) /\
        note_html = remove_whitespace result /\ tidy note_html) \/
     (note_html = unfenced html_content /\
      (no_markup (unfenced html_content) = inr None \/
       exists result,
         no_markup (unfenced html_content) = inr (Some result) /\
         remove_whitespace result = []))).
Proof.
  apply (@label_batch_writes_tidy_table_or_content no_markup (lit "out") [note_file]
           (path_join (lit "out") (lit "note.html")) note_html).
  vm_compute. left. reflexivity.
Defined.

End LabelPipeline.
